(** * People-detection visitor counter: tracker and line counter

    A shallow embedding of [tracker.py], [counter.py] and the gallery protocol
    of [reid.py], of the frame loop of [main.py], the overlay of
    [visualizer.py], the size filter of [detector.py], the visitor table of
    [database.py] and its export in [exporter.py], followed by their
    properties.

    Conventions of the embedding.
    - A Python [dict] is an insertion-ordered association list ([Dict.t]);
      [d[k] = v] overwrites in place or appends, [del d[k]] fails on a missing
      key, iteration follows the list.
    - A Python [set] of integers is a [gset nat].
    - Operations that can raise ([KeyError], [IndexError], [ValueError])
      return [option]; an exception ends the run.
    - Pixel coordinates, similarity scores and thresholds are exact rationals
      ([Q]).  Euclidean distances are kept as their squares: every use in the
      source ([min], [argmin], [argsort], [> max_distance]) is a comparison,
      and the square root is monotone.
    - [datetime.now()] is the argument [now] of an operation (microseconds);
      [register], which reads the clock up to three times, takes the three
      readings.
    - Feature vectors are one-dimensional arrays of rationals.  The network,
      the colour histogram, numpy's [argsort] and the iteration order of a
      set are interfaces ([FeatureExtractor], [Orders]). *)

From Stdlib Require Import ssreflect QArith Lqa.
From stdpp Require Import gmap list strings sorting pretty.

Local Open Scope Z_scope.
Local Open Scope nat_scope.

(** ** Rational comparisons *)

Definition Qltb (a b : Q) : bool := negb (Qle_bool b a).

(** [int(x)] on a Python float: truncation toward zero. *)
Definition Qtrunc (q : Q) : Z := Z.quot (Qnum q) (Zpos (Qden q)).

(** ** Insertion-ordered dictionaries keyed by integer ids *)

Module Dict.

Definition t (V : Type) : Type := list (nat * V).

Section ops.
Context {V : Type}.

Fixpoint get (k : nat) (d : t V) : option V :=
  match d with
  | [] => None
  | (k', v) :: d' => if Nat.eqb k k' then Some v else get k d'
  end.

Definition mem (k : nat) (d : t V) : bool :=
  match get k d with Some _ => true | None => false end.

(** [d[k] = v] *)
Fixpoint put (k : nat) (v : V) (d : t V) : t V :=
  match d with
  | [] => [(k, v)]
  | (k', v') :: d' =>
      if Nat.eqb k k' then (k, v) :: d' else (k', v') :: put k v d'
  end.

Definition remove (k : nat) (d : t V) : t V :=
  List.filter (fun p => negb (Nat.eqb k (fst p))) d.

(** [del d[k]]: [KeyError] when [k] is missing. *)
Definition del (k : nat) (d : t V) : option (t V) :=
  if mem k d then Some (remove k d) else None.

(** In-place mutation of the value stored under [k] (a nested dict). *)
Fixpoint alter (f : V -> V) (k : nat) (d : t V) : t V :=
  match d with
  | [] => []
  | (k', v) :: d' =>
      if Nat.eqb k k' then (k', f v) :: d' else (k', v) :: alter f k d'
  end.

Definition keys (d : t V) : list nat := map fst d.
Definition values (d : t V) : list V := map snd d.
End ops.

End Dict.

(** ** Iteration with early failure *)

Fixpoint foldM {A S : Type} (f : S -> A -> option S) (l : list A) (s : S)
  : option S :=
  match l with
  | [] => Some s
  | x :: l' => match f s x with Some s' => foldM f l' s' | None => None end
  end.

Fixpoint traverse {A B : Type} (f : A -> option B) (l : list A)
  : option (list B) :=
  match l with
  | [] => Some []
  | x :: l' =>
      match f x with
      | Some y => match traverse f l' with
                  | Some ys => Some (y :: ys)
                  | None => None
                  end
      | None => None
      end
  end.

(** ** Data model *)

Inductive State := New | Scanned | Exited.

Definition State_eqb (a b : State) : bool :=
  match a, b with
  | New, New | Scanned, Scanned | Exited, Exited => true
  | _, _ => false
  end.

(** Position of a state along New -> Scanned -> Exited. *)
Definition State_rank (s : State) : nat :=
  match s with New => 0 | Scanned => 1 | Exited => 2 end.

Definition Centroid : Type := Q * Q.
Definition BBox : Type := Q * Q * Q * Q.
(** [x1, y1, x2, y2, confidence] *)
Definition Detection : Type := Q * Q * Q * Q * Q.

Record Stamps := { first_seen : Z; last_seen : Z }.

Definition touch (now : Z) (s : Stamps) : Stamps :=
  {| first_seen := first_seen s; last_seen := now |}.

(** The readings of [datetime.now()] in one call of [register]: for
    [first_seen], for [last_seen], and in [mark_as_counted]. *)
Record Readings := { first_seen_at : Z; last_seen_at : Z; counted_at : Z }.

(** A call in which the clock does not move. *)
Definition same_reading (now : Z) : Readings :=
  {| first_seen_at := now; last_seen_at := now; counted_at := now |}.

(** ** Feature vectors *)

(** A one-dimensional [numpy] array. *)
Definition Features : Type := list Q.

(** [np.zeros(n)] *)
Definition zeros (n : nat) : Features := repeat 0%Q n.

(** [np.dot] of two arrays of the same length. *)
Definition dot (a b : Features) : Q :=
  fold_left Qplus (zip_with Qmult a b) 0%Q.

(** [compare_features]: [np.dot] raises [ValueError] when the lengths
    differ. *)
Definition compare_features (features1 features2 : Features) : option Q :=
  if Nat.eqb (length features1) (length features2)
  then Some (dot features1 features2)
  else None.

(** ** External collaborators *)

(** What [reid.py] takes from outside.  [model] is [self.model] together
    with [self.feature_dim]: the network [PersonReID.__init__] managed to
    load, if any.  [frame_shape] is [frame.shape[:2]], height and width.
    [deep_features] is the network applied to the crop [x1, y1, x2, y2] of
    the frame, squeezed and normalised, [None] when that raises; it is taken
    to be one-dimensional, which is what the ResNet networks give (an output
    that keeps more than one axis is outside this model).
    [histogram_features] is [_extract_histogram_features] on the crop: three
    histograms of eight bins. *)
Class FeatureExtractor := {
  Frame : Type;
  frame_shape : Frame -> Z * Z;
  model : option nat;
  deep_features : Frame -> Z * Z * Z * Z -> option Features;
  histogram_features : Frame -> Z * Z * Z * Z -> Features;
  histogram_length :
    forall frame crop, length (histogram_features frame crop) = 24
}.

(** [extract_features]: the box is cut to integers and to the frame; a box
    that is empty after that gives a vector of zeros, of [feature_dim]
    entries with a network and of 64 without; any other box gives the
    features of the crop, from the network or, without one or when it
    raises, from the histogram. *)
Definition extract_features `{FeatureExtractor} (frame : Frame) (bbox : BBox)
  : Features :=
  let '(bx1, by1, bx2, by2) := bbox in
  let '(h, w) := frame_shape frame in
  let x1 := Z.max 0 (Qtrunc bx1) in
  let y1 := Z.max 0 (Qtrunc by1) in
  let x2 := Z.min (w - 1) (Qtrunc bx2) in
  let y2 := Z.min (h - 1) (Qtrunc by2) in
  if Z.leb x2 x1 || Z.leb y2 y1 then
    zeros (match model with Some feature_dim => feature_dim | None => 64 end)
  else
    match model with
    | Some _ =>
        match deep_features frame (x1, y1, x2, y2) with
        | Some features => features
        | None => histogram_features frame (x1, y1, x2, y2)
        end
    | None => histogram_features frame (x1, y1, x2, y2)
    end.


(** The two orders the run-time picks: [numpy.ndarray.argsort] with its
    default (unstable) kind, and the order in which CPython iterates a set of
    integers ([set_order] receives the members in ascending order and returns
    them as the loop meets them). *)
Class Orders := {
  argsort : list Q -> list nat;
  set_order : list nat -> list nat
}.

(** What numpy guarantees of [argsort]: a permutation of the indices along
    which the values are non-decreasing. *)
Fixpoint ascending_along (v : list Q) (idx : list nat) : bool :=
  match idx with
  | [] => true
  | i :: rest =>
      match rest with
      | [] => true
      | j :: _ =>
          match v !! i, v !! j with
          | Some a, Some b => Qle_bool a b && ascending_along v rest
          | _, _ => false
          end
      end
  end.

Definition is_argsort (v : list Q) (idx : list nat) : bool :=
  bool_decide (Permutation idx (seq 0 (length v))) && ascending_along v idx.

(** A stable instance, used to run the model on concrete frames. *)
Fixpoint insert_asc (v : list Q) (i : nat) (sorted : list nat) : list nat :=
  match sorted with
  | [] => [i]
  | j :: rest =>
      match v !! i, v !! j with
      | Some a, Some b =>
          if Qle_bool a b then i :: j :: rest else j :: insert_asc v i rest
      | _, _ => i :: j :: rest
      end
  end.

Definition stable_argsort (v : list Q) : list nat :=
  foldr (insert_asc v) [] (seq 0 (length v)).

(** One admissible choice: a stable sort, and sets walked in ascending
    order. *)
Definition stable_orders : Orders :=
  {| argsort := stable_argsort; set_order := fun l => l |}.

(** A histogram with all its weight in bin [label]. *)
Definition one_bin (label : nat) : Features :=
  map (fun i => if Nat.eqb i (label mod 24) then 1%Q else 0%Q) (seq 0 24).

(** A trivial appearance model: frames of 640 by 480 pixels that name the
    person they show, no network, and a histogram with one bin for each
    person. *)
Definition label_extractor : FeatureExtractor :=
  {| Frame := nat;
     frame_shape := fun _ => (480, 640)%Z;
     model := None;
     deep_features := fun _ _ => None;
     histogram_features := fun f _ => one_bin f;
     histogram_length := fun _ _ => eq_refl |}.

(** ** reid.py: the embedding gallery *)

Section Model.
Context `{FE : FeatureExtractor} `{SO : Orders}.

Record PersonReID := {
  similarity_threshold : Q;
  gallery : Dict.t Features;
  person_count : nat;
  person_id_mapping : Dict.t nat
}.

Definition PersonReID_new (similarity_threshold : Q) : PersonReID :=
  {| similarity_threshold := similarity_threshold;
     gallery := [];
     person_count := 0;
     person_id_mapping := [] |}.

(** The gallery scan of [identify_person]: the first entry with the strictly
    largest positive similarity; a comparison that raises ends the scan. *)
Definition best_match (features : Features) (g : Dict.t Features)
  : option (option nat * Q) :=
  foldM
    (fun (best : option nat * Q) (entry : nat * Features) =>
       similarity ← compare_features features (snd entry);
       Some (if Qltb (snd best) similarity then (Some (fst entry), similarity)
             else best))
    g (None, 0%Q).

(** [identify_person]: nothing is written before the scan is through, so a
    call that raises leaves the gallery as it was. *)
Definition identify_person (r : PersonReID) (frame : Frame) (bbox : BBox)
    (tracking_id : nat) : option (PersonReID * (nat * bool)) :=
  match Dict.get tracking_id (person_id_mapping r) with
  | Some person_id => Some (r, (person_id, false))
  | None =>
      let features := extract_features frame bbox in
      '(best_match_id, best_match_score) ← best_match features (gallery r);
      let fresh :=
        let new_person_id := S (person_count r) in
        ({| similarity_threshold := similarity_threshold r;
            gallery := Dict.put new_person_id features (gallery r);
            person_count := new_person_id;
            person_id_mapping :=
              Dict.put tracking_id new_person_id (person_id_mapping r) |},
         (new_person_id, true)) in
      Some
        match best_match_id with
        | Some best =>
            if Qltb (similarity_threshold r) best_match_score then
              ({| similarity_threshold := similarity_threshold r;
                  gallery := gallery r;
                  person_count := person_count r;
                  person_id_mapping :=
                    Dict.put tracking_id best (person_id_mapping r) |},
               (best, false))
            else fresh
        | None => fresh
        end
  end.

(** ** tracker.py *)

Record Tracker := {
  next_object_id : nat;
  objects : Dict.t Centroid;
  disappeared : Dict.t nat;
  positions : Dict.t BBox;
  timestamps : Dict.t Stamps;
  states : Dict.t State;
  entry_times : Dict.t Z;
  exit_times : Dict.t Z;
  max_disappeared : Z;
  max_distance : Q;
  exit_timeout : Q;
  reid_enabled : bool;
  person_ids : Dict.t nat;
  counted_people : gset nat;
  reid : PersonReID
}.

(** [Tracker.__init__].  [reid_loaded] tells whether constructing [PersonReID]
    succeeded; on failure the constructor switches re-identification off.
    With re-identification off the [reid] attribute is never read. *)
Definition Tracker_new (max_disappeared : Z) (max_distance exit_timeout : Q)
    (reid_enabled : bool) (reid_threshold : Q) (reid_loaded : bool) : Tracker :=
  {| next_object_id := 0;
     objects := []; disappeared := []; positions := []; timestamps := [];
     states := []; entry_times := []; exit_times := [];
     max_disappeared := max_disappeared;
     max_distance := max_distance;
     exit_timeout := exit_timeout;
     reid_enabled := reid_enabled && reid_loaded;
     person_ids := [];
     counted_people := ∅;
     reid := PersonReID_new reid_threshold |}.

(** Field updates. *)
Definition with_live (o : Dict.t Centroid) (d : Dict.t nat) (p : Dict.t BBox)
    (t : Tracker) : Tracker :=
  {| next_object_id := next_object_id t;
     objects := o; disappeared := d; positions := p;
     timestamps := timestamps t; states := states t;
     entry_times := entry_times t; exit_times := exit_times t;
     max_disappeared := max_disappeared t; max_distance := max_distance t;
     exit_timeout := exit_timeout t; reid_enabled := reid_enabled t;
     person_ids := person_ids t; counted_people := counted_people t;
     reid := reid t |}.

Definition with_disappeared (d : Dict.t nat) (t : Tracker) : Tracker :=
  with_live (objects t) d (positions t) t.

Definition with_timestamps (ts : Dict.t Stamps) (t : Tracker) : Tracker :=
  {| next_object_id := next_object_id t;
     objects := objects t; disappeared := disappeared t;
     positions := positions t;
     timestamps := ts; states := states t;
     entry_times := entry_times t; exit_times := exit_times t;
     max_disappeared := max_disappeared t; max_distance := max_distance t;
     exit_timeout := exit_timeout t; reid_enabled := reid_enabled t;
     person_ids := person_ids t; counted_people := counted_people t;
     reid := reid t |}.

Definition with_states (s : Dict.t State) (t : Tracker) : Tracker :=
  {| next_object_id := next_object_id t;
     objects := objects t; disappeared := disappeared t;
     positions := positions t;
     timestamps := timestamps t; states := s;
     entry_times := entry_times t; exit_times := exit_times t;
     max_disappeared := max_disappeared t; max_distance := max_distance t;
     exit_timeout := exit_timeout t; reid_enabled := reid_enabled t;
     person_ids := person_ids t; counted_people := counted_people t;
     reid := reid t |}.

Definition with_entry_times (e : Dict.t Z) (t : Tracker) : Tracker :=
  {| next_object_id := next_object_id t;
     objects := objects t; disappeared := disappeared t;
     positions := positions t;
     timestamps := timestamps t; states := states t;
     entry_times := e; exit_times := exit_times t;
     max_disappeared := max_disappeared t; max_distance := max_distance t;
     exit_timeout := exit_timeout t; reid_enabled := reid_enabled t;
     person_ids := person_ids t; counted_people := counted_people t;
     reid := reid t |}.

Definition with_exit_times (e : Dict.t Z) (t : Tracker) : Tracker :=
  {| next_object_id := next_object_id t;
     objects := objects t; disappeared := disappeared t;
     positions := positions t;
     timestamps := timestamps t; states := states t;
     entry_times := entry_times t; exit_times := e;
     max_disappeared := max_disappeared t; max_distance := max_distance t;
     exit_timeout := exit_timeout t; reid_enabled := reid_enabled t;
     person_ids := person_ids t; counted_people := counted_people t;
     reid := reid t |}.

Definition with_person (r : PersonReID) (p : Dict.t nat) (t : Tracker)
  : Tracker :=
  {| next_object_id := next_object_id t;
     objects := objects t; disappeared := disappeared t;
     positions := positions t;
     timestamps := timestamps t; states := states t;
     entry_times := entry_times t; exit_times := exit_times t;
     max_disappeared := max_disappeared t; max_distance := max_distance t;
     exit_timeout := exit_timeout t; reid_enabled := reid_enabled t;
     person_ids := p; counted_people := counted_people t;
     reid := r |}.

Definition with_counted_people (c : gset nat) (t : Tracker) : Tracker :=
  {| next_object_id := next_object_id t;
     objects := objects t; disappeared := disappeared t;
     positions := positions t;
     timestamps := timestamps t; states := states t;
     entry_times := entry_times t; exit_times := exit_times t;
     max_disappeared := max_disappeared t; max_distance := max_distance t;
     exit_timeout := exit_timeout t; reid_enabled := reid_enabled t;
     person_ids := person_ids t; counted_people := c;
     reid := reid t |}.

Definition with_next_object_id (n : nat) (t : Tracker) : Tracker :=
  {| next_object_id := n;
     objects := objects t; disappeared := disappeared t;
     positions := positions t;
     timestamps := timestamps t; states := states t;
     entry_times := entry_times t; exit_times := exit_times t;
     max_disappeared := max_disappeared t; max_distance := max_distance t;
     exit_timeout := exit_timeout t; reid_enabled := reid_enabled t;
     person_ids := person_ids t; counted_people := counted_people t;
     reid := reid t |}.

(** [mark_as_counted]: only a New object moves, to Scanned. *)
Definition mark_as_counted (t : Tracker) (object_id : nat) (now : Z) : Tracker :=
  match Dict.get object_id (states t) with
  | Some New =>
      with_entry_times (Dict.put object_id now (entry_times t))
        (with_states (Dict.put object_id Scanned (states t)) t)
  | _ => t
  end.

(** [mark_as_scanned]: any live object is set to Scanned. *)
Definition mark_as_scanned (t : Tracker) (object_id : nat) : Tracker * bool :=
  if Dict.mem object_id (objects t) then
    (with_states (Dict.put object_id Scanned (states t)) t, true)
  else (t, false).

Definition is_already_counted (t : Tracker) (object_id : nat) : bool :=
  if negb (reid_enabled t) then false
  else match Dict.get object_id (person_ids t) with
       | Some person_id => bool_decide (person_id ∈ counted_people t)
       | None => false
       end.

(** [register]: returns the tracker and the new track id.  An exception out
    of [identify_person] leaves the method after the five records are
    written and before [next_object_id] is raised. *)
Definition register (t : Tracker) (centroid : Centroid) (bbox : BBox)
    (frame : option Frame) (clock : Readings) : option (Tracker * nat) :=
  let track_id := next_object_id t in
  let t1 :=
    with_states (Dict.put track_id New (states t))
      (with_timestamps
         (Dict.put track_id
            {| first_seen := first_seen_at clock;
               last_seen := last_seen_at clock |}
            (timestamps t))
         (with_live (Dict.put track_id centroid (objects t))
            (Dict.put track_id 0 (disappeared t))
            (Dict.put track_id bbox (positions t)) t)) in
  t2 ←
    match reid_enabled t1, frame with
    | true, Some f =>
        '(r, (person_id, _)) ← identify_person (reid t1) f bbox track_id;
        let t' := with_person r (Dict.put track_id person_id (person_ids t1)) t1 in
        Some (if bool_decide (person_id ∈ counted_people t') then
                mark_as_counted t' track_id (counted_at clock)
              else t')
    | _, _ => Some t1
    end;
  Some (with_next_object_id (S (next_object_id t2)) t2, track_id).

(** [deregister]: [self.states[object_id]] and the three [del]s raise
    [KeyError] on a missing id. *)
Definition deregister (t : Tracker) (object_id : nat) (now : Z)
  : option Tracker :=
  st ← Dict.get object_id (states t);
  let t1 :=
    match st with
    | Scanned =>
        let t' :=
          with_exit_times (Dict.put object_id now (exit_times t))
            (with_states (Dict.put object_id Exited (states t)) t) in
        match reid_enabled t', Dict.get object_id (person_ids t') with
        | true, Some person_id =>
            with_counted_people ({[person_id]} ∪ counted_people t') t'
        | _, _ => t'
        end
    | _ => t
    end in
  o ← Dict.del object_id (objects t1);
  d ← Dict.del object_id (disappeared t1);
  p ← Dict.del object_id (positions t1);
  Some (with_live o d p t1).

(** One entry of the dictionary returned by [get_objects]. *)
Record ObjData := {
  centroid : Centroid;
  bbox : BBox;
  obj_timestamps : Stamps;
  state : State;
  entry_time : option Z;
  exit_time : option Z;
  person_id : option nat;
  already_counted : bool
}.

Definition get_objects (t : Tracker) : option (Dict.t ObjData) :=
  traverse
    (fun entry : nat * Centroid =>
       let object_id := fst entry in
       b ← Dict.get object_id (positions t);
       ts ← Dict.get object_id (timestamps t);
       st ← Dict.get object_id (states t);
       Some (object_id,
             {| centroid := snd entry;
                bbox := b;
                obj_timestamps := ts;
                state := st;
                entry_time := Dict.get object_id (entry_times t);
                exit_time := Dict.get object_id (exit_times t);
                person_id :=
                  if reid_enabled t then Dict.get object_id (person_ids t)
                  else None;
                already_counted := is_already_counted t object_id |}))
    (objects t).

(** [total_seconds()] of a difference of two clock readings. *)
Definition total_seconds (later earlier : Z) : Q :=
  Qmake (later - earlier) 1000000.

(** Body of the loop of [check_for_exits] for one entry of the snapshot
    [list(self.timestamps.items())]. *)
Definition check_exit (now : Z) (s : Tracker * list nat)
    (entry : nat * Stamps) : option (Tracker * list nat) :=
  let '(t, exited_ids) := s in
  let object_id := fst entry in
  match Dict.get object_id (states t) with
  | Some Scanned =>
      let time_diff := total_seconds now (last_seen (snd entry)) in
      if Qltb (exit_timeout t) time_diff && Dict.mem object_id (objects t) then
        let t1 :=
          with_exit_times (Dict.put object_id now (exit_times t))
            (with_states (Dict.put object_id Exited (states t)) t) in
        t2 ← deregister t1 object_id now;
        Some (t2, exited_ids ++ [object_id])
      else Some s
  | _ => Some s
  end.

Definition check_for_exits (t : Tracker) (now : Z)
  : option (Tracker * list nat) :=
  foldM (check_exit now) (timestamps t) (t, []).

(** *** update *)

Definition centroid_of (d : Detection) : Centroid :=
  let '(x1, y1, x2, y2, _) := d in
  (((x1 + x2) / 2)%Q, ((y1 + y2) / 2)%Q).

Definition bbox_of (d : Detection) : BBox :=
  let '(x1, y1, x2, y2, _) := d in (x1, y1, x2, y2).

(** Squared Euclidean distance, and [scipy]'s [cdist] over it. *)
Definition dist2 (a b : Centroid) : Q :=
  ((fst a - fst b) * (fst a - fst b) + (snd a - snd b) * (snd a - snd b))%Q.

Definition cdist (A B : list Centroid) : list (list Q) :=
  map (fun a => map (dist2 a) B) A.

(** [d > max_distance] for the distance whose square is [d2]. *)
Definition exceeds (d2 max_distance : Q) : bool :=
  Qltb max_distance 0 || Qltb (max_distance * max_distance) d2.

(** [min] of a row; numpy raises on an empty row. *)
Definition row_min (row : list Q) : option Q :=
  match row with
  | [] => None
  | x :: xs => Some (fold_left (fun m y => if Qltb y m then y else m) xs x)
  end.

(** [argmin] of a row: the first index holding the minimum. *)
Fixpoint argmin_from (i best_i : nat) (best : Q) (row : list Q) : nat :=
  match row with
  | [] => best_i
  | x :: xs =>
      if Qltb x best then argmin_from (S i) i x xs
      else argmin_from (S i) best_i best xs
  end.

Definition row_argmin (row : list Q) : option nat :=
  match row with
  | [] => None
  | x :: xs => Some (argmin_from 1 0 x xs)
  end.

(** [sorted(items, key=lambda x: x[1], reverse=True)]: a stable sort, equal
    keys keep their order. *)
Fixpoint insert_desc (x : nat * nat) (sorted : list (nat * nat))
  : list (nat * nat) :=
  match sorted with
  | [] => [x]
  | y :: rest =>
      if Nat.ltb (snd x) (snd y) then y :: insert_desc x rest
      else x :: y :: rest
  end.

Definition sorted_desc (items : list (nat * nat)) : list (nat * nat) :=
  foldr insert_desc [] items.

(** Step 1, the load shedding: with more than twice as many live objects as
    detections, the stalest half is deregistered. *)
Definition shed (t : Tracker) (detections : list Detection) (now : Z)
  : option Tracker :=
  if Nat.ltb (2 * length detections) (length (objects t))
     && Nat.ltb 0 (length detections) then
    let objects_to_remove := sorted_desc (disappeared t) in
    foldM (fun t' (e : nat * nat) => deregister t' (fst e) now)
      (take (length objects_to_remove / 2) objects_to_remove) t
  else Some t.

(** An object without a detection in this frame: one more disappeared frame,
    deregistration past [max_disappeared]. *)
Definition miss (now : Z) (t : Tracker) (object_id : nat) : option Tracker :=
  n ← Dict.get object_id (disappeared t);
  let t1 := with_disappeared (Dict.put object_id (S n) (disappeared t)) t in
  if Z.ltb (max_disappeared t1) (Z.of_nat (S n)) then deregister t1 object_id now
  else Some t1.

(** The matrix and the row-priority order the greedy loop walks. *)
Definition pairing_order (D : list (list Q)) : option (list (nat * nat)) :=
  mins ← traverse row_min D;
  argmins ← traverse row_argmin D;
  let rows := argsort mins in
  cols ← traverse (fun r => argmins !! r) rows;
  Some (zip rows cols).

(** The four assignments made for a matched object: new centroid and box,
    no disappeared frame, [last_seen] refreshed. *)
Definition rematch (t : Tracker) (object_id : nat) (c : Centroid) (b : BBox)
    (now : Z) : Tracker :=
  with_timestamps (Dict.alter (touch now) object_id (timestamps t))
    (with_live (Dict.put object_id c (objects t))
       (Dict.put object_id 0 (disappeared t))
       (Dict.put object_id b (positions t)) t).

(** Body of the greedy loop for one [(row, col)] pair. *)
Definition match_step (D : list (list Q)) (object_ids : list nat)
    (input_centroids : list Centroid) (input_bboxes : list BBox) (now : Z)
    (s : Tracker * gset nat * gset nat) (rc : nat * nat)
  : option (Tracker * gset nat * gset nat) :=
  let '(t, used_rows, used_cols) := s in
  let '(row, col) := rc in
  if bool_decide (row ∈ used_rows) || bool_decide (col ∈ used_cols) then Some s
  else
    d ← (D !! row) ≫= (fun r => r !! col);
    if exceeds d (max_distance t) then Some s
    else
      object_id ← object_ids !! row;
      c ← input_centroids !! col;
      b ← input_bboxes !! col;
      _ ← Dict.get object_id (timestamps t);
      Some (rematch t object_id c b now,
            {[row]} ∪ used_rows, {[col]} ∪ used_cols).

(** The greedy loop over the row-priority order: the tracker with the
    matched objects moved, and the consumed rows and columns. *)
Definition greedy_match (t : Tracker) (input_centroids : list Centroid)
    (input_bboxes : list BBox) (now : Z)
  : option (Tracker * gset nat * gset nat) :=
  let object_ids := Dict.keys (objects t) in
  let object_centroids := Dict.values (objects t) in
  let D := cdist object_centroids input_centroids in
  pairs ← pairing_order D;
  foldM (match_step D object_ids input_centroids input_bboxes now)
    pairs (t, ∅, ∅).

(** [set(range(0, n)).difference(used)], as the list a [for] loop walks. *)
Definition unused (n : nat) (used : gset nat) : list nat :=
  set_order (List.filter (fun i => negb (bool_decide (i ∈ used))) (seq 0 n)).

(** What a loop over a set relies on: every member comes up exactly once. *)
Definition visits_each_once : Prop := ∀ l : list nat, set_order l ≡ₚ l.

Definition register_all (frame : option Frame) (now : Z)
    (input_centroids : list Centroid) (input_bboxes : list BBox)
    (cols : list nat) (t : Tracker) : option Tracker :=
  foldM (fun t' col =>
           c ← input_centroids !! col;
           b ← input_bboxes !! col;
           r ← register t' c b frame (same_reading now);
           Some (fst r))
    cols t.

(** The state change of [update]. *)
Definition update_tracker (t : Tracker) (detections : list Detection)
    (frame : option Frame) (now : Z) : option Tracker :=
  t1 ← shed t detections now;
  if Nat.eqb (length detections) 0 then
    foldM (miss now) (Dict.keys (disappeared t1)) t1
  else
    let input_centroids := map centroid_of detections in
    let input_bboxes := map bbox_of detections in
    if Nat.eqb (length (objects t1)) 0 then
      register_all frame now input_centroids input_bboxes
        (seq 0 (length input_centroids)) t1
    else
      let object_ids := Dict.keys (objects t1) in
      '(t2, used_rows, used_cols) ←
        greedy_match t1 input_centroids input_bboxes now;
      t3 ← foldM (fun t' row => object_ids !! row ≫= miss now t')
             (unused (length object_ids) used_rows) t2;
      register_all frame now input_centroids input_bboxes
        (unused (length input_centroids) used_cols) t3.

(** [update]: the new tracker and the returned [get_objects()] view. *)
Definition update (t : Tracker) (detections : list Detection)
    (frame : option Frame) (now : Z) : option (Tracker * Dict.t ObjData) :=
  t' ← update_tracker t detections frame now;
  objs ← get_objects t';
  Some (t', objs).

(** ** counter.py *)

Inductive Side := Left | Right.

(** [{"position": ..., "counted": ...}] *)
Record LastData := { position : Side; counted : bool }.

(** A row handed to [db.add_visitor]: the time, the direction tag and the
    object id quoted in the note. *)
Record VisitorRow := {
  row_timestamp : Z;
  row_direction : Side;
  row_object_id : nat
}.

Record VisitorCounter := {
  line_position : Z;
  direction : Side;
  count : nat;
  total_left : nat;
  total_right : nat;
  last_positions : Dict.t LastData;
  counted_ids : gset nat;
  db : option (list VisitorRow);
  debug : bool
}.

(** [VisitorCounter.__init__]; the [direction] argument is not stored. *)
Definition VisitorCounter_new (line_position : Q) (direction : string)
    (frame_width : Q) (db : option (list VisitorRow)) : VisitorCounter :=
  {| line_position := Qtrunc (line_position * frame_width);
     direction := Left;
     count := 0;
     total_left := 0;
     total_right := 0;
     last_positions := [];
     counted_ids := ∅;
     db := db;
     debug := true |}.

Definition with_last_positions (l : Dict.t LastData) (c : VisitorCounter)
  : VisitorCounter :=
  {| line_position := line_position c; direction := direction c;
     count := count c; total_left := total_left c;
     total_right := total_right c;
     last_positions := l; counted_ids := counted_ids c;
     db := db c; debug := debug c |}.

(** The counting branch: both totals, the per-object flag, the counted-ids
    set and the event row. *)
Definition record_crossing (object_id : nat) (now : Z) (c : VisitorCounter)
  : VisitorCounter :=
  {| line_position := line_position c; direction := direction c;
     count := S (count c); total_left := S (total_left c);
     total_right := total_right c;
     last_positions :=
       Dict.alter (fun d => {| position := position d; counted := true |})
         object_id (last_positions c);
     counted_ids := {[object_id]} ∪ counted_ids c;
     db := match db c with
           | Some rows =>
               Some (rows ++ [{| row_timestamp := now;
                                 row_direction := Left;
                                 row_object_id := object_id |}])
           | None => None
           end;
     debug := debug c |}.

Definition side_of (c : VisitorCounter) (cx : Q) : Side :=
  if Qltb cx (inject_Z (line_position c)) then Left else Right.

(** Body of the loop of [count_visitors] for one object. *)
Definition count_object (now : Z) (s : VisitorCounter * Tracker)
    (item : nat * ObjData) : VisitorCounter * Tracker :=
  let '(c, tracker) := s in
  let object_id := fst item in
  if bool_decide (object_id ∈ counted_ids c) then s
  else
    let cx := fst (centroid (snd item)) in
    let current_position := side_of c cx in
    match Dict.get object_id (last_positions c) with
    | None =>
        (with_last_positions
           (Dict.put object_id
              {| position := current_position; counted := false |}
              (last_positions c)) c,
         tracker)
    | Some last_data =>
        let '(c1, tracker1) :=
          if negb (counted last_data)
             && negb (bool_decide (object_id ∈ counted_ids c)) then
            match position last_data, current_position with
            | Right, Left =>
                (record_crossing object_id now c,
                 fst (mark_as_scanned tracker object_id))
            | _, _ => s
            end
          else s in
        (with_last_positions
           (Dict.alter
              (fun d => {| position := current_position; counted := counted d |})
              object_id (last_positions c1)) c1,
         tracker1)
    end.

(** [count_visitors]: the new counter and tracker, and the returned count. *)
Definition count_visitors (c : VisitorCounter) (objects : Dict.t ObjData)
    (tracker : Tracker) (now : Z) : VisitorCounter * Tracker * nat :=
  let s := fold_left (count_object now) objects (c, tracker) in
  (s, count (fst s)).

Record Stats := {
  stat_total : nat;
  stat_total_left : nat;
  stat_total_right : nat
}.

Definition get_stats (c : VisitorCounter) : Stats :=
  {| stat_total := count c;
     stat_total_left := total_left c;
     stat_total_right := total_right c |}.

(** A run of the counter over successive frames, each with the object map,
    the tracker it is handed and the clock. *)
Definition count_frames (c : VisitorCounter)
    (frames : list (Dict.t ObjData * Tracker * Z)) : VisitorCounter :=
  fold_left
    (fun c' (f : Dict.t ObjData * Tracker * Z) =>
       let '(objs, tracker, now) := f in
       fst (fst (count_visitors c' objs tracker now)))
    frames c.

(** How often one invocation of [count_visitors] raises the aggregate counter
    while handling the entries of object [id]. *)
Fixpoint increments_for (id : nat) (now : Z) (objects : Dict.t ObjData)
    (s : VisitorCounter * Tracker) : nat :=
  match objects with
  | [] => 0
  | item :: rest =>
      let s' := count_object now s item in
      (if Nat.eqb (fst item) id then count (fst s') - count (fst s) else 0)
      + increments_for id now rest s'
  end.

(** The same over a run of frames. *)
Fixpoint increments_over (id : nat) (c : VisitorCounter)
    (frames : list (Dict.t ObjData * Tracker * Z)) : nat :=
  match frames with
  | [] => 0
  | (objs, tracker, now) :: rest =>
      increments_for id now objs (c, tracker)
      + increments_over id (fst (fst (count_visitors c objs tracker now))) rest
  end.

Definition Side_eqb (a b : Side) : bool :=
  match a, b with Left, Left | Right, Right => true | _, _ => false end.

(** Every entry of object [id] in a run of frames lies on [side] of the line of
    counter [c]. *)
Definition stays_on (c : VisitorCounter) (id : nat) (side : Side)
    (frames : list (Dict.t ObjData * Tracker * Z)) : bool :=
  forallb
    (fun f : Dict.t ObjData * Tracker * Z =>
       forallb
         (fun item : nat * ObjData =>
            if Nat.eqb (fst item) id then
              Side_eqb (side_of c (fst (centroid (snd item)))) side
            else true)
         (fst (fst f)))
    frames.

(** How many more times object [id] may still be counted. *)
Definition budget (id : nat) (c : VisitorCounter) : nat :=
  if bool_decide (id ∈ counted_ids c) then 0 else 1.

(** The record of an object that has only been seen on [side]. *)
Definition seen_only_on (c0 : VisitorCounter) (id : nat) (side : Side)
    (c : VisitorCounter) : Prop :=
  line_position c = line_position c0 ∧
  (Dict.get id (last_positions c) = None ∨
   ∃ d, Dict.get id (last_positions c) = Some d ∧ position d = side).

(** A box of zero or negative area. *)
Definition degenerate (b : BBox) : bool :=
  let '(x1, y1, x2, y2) := b in Qle_bool x2 x1 || Qle_bool y2 y1.

(** The marking half of [deregister]: a Scanned object exits. *)
Definition exit_mark (t : Tracker) (id : nat) (now : Z) (st : State)
  : Tracker :=
  match st with
  | Scanned =>
      let t' :=
        with_exit_times (Dict.put id now (exit_times t))
          (with_states (Dict.put id Exited (states t)) t) in
      match reid_enabled t', Dict.get id (person_ids t') with
      | true, Some person_id =>
          with_counted_people ({[person_id]} ∪ counted_people t') t'
      | _, _ => t'
      end
  | _ => t
  end.


(** ** The operations of the core as one state machine *)

Record System := { sys_tracker : Tracker; sys_counter : VisitorCounter }.

Inductive Op :=
| OpRegister (c : Centroid) (b : BBox) (frame : option Frame)
    (clock : Readings)
| OpDeregister (object_id : nat) (now : Z)
| OpMarkScanned (object_id : nat)
| OpMarkCounted (object_id : nat) (now : Z)
| OpUpdate (detections : list Detection) (frame : option Frame) (now : Z)
| OpCheckExits (now : Z)
| OpCount (objs : Dict.t ObjData) (now : Z)
| OpFrame (detections : list Detection) (frame : option Frame) (now : Z).

(** [OpFrame] is the per-frame pipeline: [update], then [count_visitors] on
    the object map it returned. *)
Definition step (s : System) (o : Op) : option System :=
  let t := sys_tracker s in
  let c := sys_counter s in
  match o with
  | OpRegister ctr b frame clock =>
      r ← register t ctr b frame clock;
      Some {| sys_tracker := fst r; sys_counter := c |}
  | OpDeregister object_id now =>
      t' ← deregister t object_id now;
      Some {| sys_tracker := t'; sys_counter := c |}
  | OpMarkScanned object_id =>
      Some {| sys_tracker := fst (mark_as_scanned t object_id);
              sys_counter := c |}
  | OpMarkCounted object_id now =>
      Some {| sys_tracker := mark_as_counted t object_id now;
              sys_counter := c |}
  | OpUpdate detections frame now =>
      r ← update t detections frame now;
      Some {| sys_tracker := fst r; sys_counter := c |}
  | OpCheckExits now =>
      r ← check_for_exits t now;
      Some {| sys_tracker := fst r; sys_counter := c |}
  | OpCount objs now =>
      let r := fst (count_visitors c objs t now) in
      Some {| sys_tracker := snd r; sys_counter := fst r |}
  | OpFrame detections frame now =>
      u ← update t detections frame now;
      let r := fst (count_visitors c (snd u) (fst u) now) in
      Some {| sys_tracker := snd r; sys_counter := fst r |}
  end.

Definition run (s : System) (ops : list Op) : option System :=
  foldM step ops s.

(** ** Consistency of a tracker

    What every tracker built by the constructor and changed only through its
    methods satisfies: the three live maps list the same ids in the same
    order, each id once; every id with a state was allocated earlier; a live
    object has timestamps and a state other than Exited; person ids exist only
    with re-identification on. *)
Definition wf (t : Tracker) : Prop :=
  Dict.keys (disappeared t) = Dict.keys (objects t) ∧
  Dict.keys (positions t) = Dict.keys (objects t) ∧
  NoDup (Dict.keys (objects t)) ∧
  (∀ k, is_Some (Dict.get k (states t)) → k < next_object_id t) ∧
  (∀ k, k ∈ Dict.keys (objects t) →
        (∃ st, Dict.get k (states t) = Some st ∧ st ≠ Exited) ∧
        is_Some (Dict.get k (timestamps t))) ∧
  (reid_enabled t = false → person_ids t = []).

(** The same as a check that can be run. *)
Definition wfb (t : Tracker) : bool :=
  bool_decide (Dict.keys (disappeared t) = Dict.keys (objects t))
  && bool_decide (Dict.keys (positions t) = Dict.keys (objects t))
  && bool_decide (NoDup (Dict.keys (objects t)))
  && forallb (fun k => Nat.ltb k (next_object_id t)) (Dict.keys (states t))
  && forallb
       (fun k =>
          match Dict.get k (states t) with
          | Some New | Some Scanned => Dict.mem k (timestamps t)
          | _ => false
          end)
       (Dict.keys (objects t))
  && (reid_enabled t || match person_ids t with [] => true | _ => false end).

(** States only move forward along New, Scanned, Exited. *)
Definition state_mono (t t' : Tracker) : Prop :=
  ∀ id st, Dict.get id (states t) = Some st →
           ∃ st', Dict.get id (states t') = Some st'
                  ∧ State_rank st ≤ State_rank st'.

(** An operation left the records of object [k] alone. *)
Definition untouched (k : nat) (t t' : Tracker) : Prop :=
  Dict.get k (objects t') = Dict.get k (objects t) ∧
  Dict.get k (disappeared t') = Dict.get k (disappeared t) ∧
  Dict.get k (positions t') = Dict.get k (positions t) ∧
  Dict.get k (timestamps t') = Dict.get k (timestamps t) ∧
  Dict.get k (states t') = Dict.get k (states t) ∧
  Dict.get k (exit_times t') = Dict.get k (exit_times t).

(** The configuration of a tracker never changes. *)
Definition same_config (t t' : Tracker) : Prop :=
  max_disappeared t' = max_disappeared t ∧
  max_distance t' = max_distance t ∧
  exit_timeout t' = exit_timeout t ∧
  reid_enabled t' = reid_enabled t.

(** What every method guarantees of the tracker it leaves behind. *)
Definition sound_step (t t' : Tracker) : Prop :=
  wf t' ∧ state_mono t t' ∧ same_config t t' ∧
  next_object_id t ≤ next_object_id t'.

(** What [miss] leaves of the object it handles, which had [n] disappeared
    frames: gone past [max_disappeared] (Exited if it was Scanned), otherwise
    still live with one frame more. *)
Definition missed (id n : nat) (now : Z) (t t' : Tracker) : Prop :=
  if Z.ltb (max_disappeared t) (Z.of_nat (S n)) then
    Dict.mem id (objects t') = false ∧
    (Dict.get id (states t) = Some Scanned →
     Dict.get id (states t') = Some Exited ∧
     Dict.get id (exit_times t') = Some now)
  else
    Dict.mem id (objects t') = true ∧
    Dict.get id (disappeared t') = Some (S n).

(** ** The assignment in the words of the specification *)

(** The detection closest to live object [r], and the distance between live
    object [r] and detection [c], read off the distance matrix. *)
Definition arg_min_detection (D : list (list Q)) (r : nat) : option nat :=
  D !! r ≫= row_argmin.

Definition distance_of (D : list (list Q)) (r c : nat) : option Q :=
  D !! r ≫= (fun row => row !! c).

(** The live objects are walked in the given order, here listed latest first.
    An object is paired with its arg-min detection exactly when neither the
    object nor that detection was consumed by an earlier pairing and the
    distance does not exceed [max_distance].  The result maps objects (rows)
    to detections (columns). *)
Fixpoint spec_pairs_rev (D : list (list Q)) (max_distance : Q)
    (order_rev : list nat) : Dict.t nat :=
  match order_rev with
  | [] => []
  | r :: earlier =>
      let A := spec_pairs_rev D max_distance earlier in
      match arg_min_detection D r with
      | Some c =>
          match distance_of D r c with
          | Some d =>
              if negb (bool_decide (r ∈ Dict.keys A))
                 && negb (bool_decide (c ∈ Dict.values A))
                 && negb (exceeds d max_distance)
              then (r, c) :: A
              else A
          | None => A
          end
      | None => A
      end
  end.

Definition spec_assignment (D : list (list Q)) (max_distance : Q)
    (order : list nat) : Dict.t nat :=
  spec_pairs_rev D max_distance (rev order).

(** Tracker [t'] is tracker [t0] with the pairs of [A] applied: a paired object
    carries the centroid and box of its detection, no disappeared frame and a
    fresh [last_seen]; an unpaired object is as it was. *)
Definition assigned (t0 t' : Tracker) (oids : list nat) (cs : list Centroid)
    (bs : list BBox) (now : Z) (A : Dict.t nat) : Prop :=
  ∀ r id, oids !! r = Some id →
    match Dict.get r A with
    | Some c =>
        Dict.get id (objects t') = cs !! c ∧
        Dict.get id (positions t') = bs !! c ∧
        Dict.get id (disappeared t') = Some 0 ∧
        Dict.get id (timestamps t') = touch now <$> Dict.get id (timestamps t0)
    | None => untouched id t0 t'
    end.

(** Object [id], live in the tracker [t1] that enters the matching step, gets
    no detection: there is none, or the greedy loop does not consume its
    row. *)
Definition unmatched (t1 : Tracker) (detections : list Detection) (now : Z)
    (id : nat) : Prop :=
  detections = [] ∨
  ∃ t2 used_rows used_cols r,
    greedy_match t1 (map centroid_of detections) (map bbox_of detections) now
    = Some (t2, used_rows, used_cols) ∧
    Dict.keys (objects t1) !! r = Some id ∧ r ∉ used_rows.

(** What a counter built by the constructor keeps true of its books, given
    the event rows [rows0] the store held at the start: the count is the
    number of counted ids; an object carries the counted flag exactly when
    its id is counted, and it was then last seen on the left; the store has
    gained one Left row per counted id. *)
Definition balanced (rows0 : option (list VisitorRow)) (c : VisitorCounter)
  : Prop :=
  count c = size (counted_ids c) ∧
  count c = total_left c ∧
  (∀ id d, Dict.get id (last_positions c) = Some d →
           (counted d = true ↔ id ∈ counted_ids c)) ∧
  (∀ id, id ∈ counted_ids c →
         Dict.get id (last_positions c)
         = Some {| position := Left; counted := true |}) ∧
  ∃ new, db c = (fun rows => rows ++ new) <$> rows0 ∧
         length new = count c ∧
         ∀ row, row ∈ new →
                row_direction row = Left ∧ row_object_id row ∈ counted_ids c.

(** A run of [identify_person] calls, each with its frame, box and track
    id; a call that raises has written nothing. *)
Definition identify_all (r : PersonReID) (calls : list (Frame * BBox * nat))
  : PersonReID :=
  fold_left (fun r' (call : Frame * BBox * nat) =>
               match identify_person r' (fst (fst call)) (snd (fst call))
                       (snd call) with
               | Some answer => fst answer
               | None => r'
               end)
    calls r.

(** ** main.py: the frame loop *)

(** The entries of the configuration the loop reads. *)
Record Config := {
  cfg_fps : Q;
  cfg_reid_enabled : bool;
  cfg_counting_enabled : bool
}.

(** The variables the loop carries from one pass to the next. *)
Record Loop := {
  loop_tracker : Tracker;
  loop_counter : VisitorCounter;
  loop_objects : Dict.t ObjData;
  last_check_exit_time : Q;
  prev_time : Q
}.

(** What one pass reads from outside: the frame, what the detector returns
    for it, the reading of [time.time()] and the readings of
    [datetime.now()] inside the two [update] calls, the exit sweep and the
    counter. *)
Record Pass := {
  pass_frame : Frame;
  pass_detections : list Detection;
  current_time : Q;
  at_first_update : Z;
  at_second_update : Z;
  at_sweep : Z;
  at_count : Z
}.

(** One pass of the [while] loop.  A frame is processed when more than
    [1.0 / fps] seconds went by since the last processed one ([fps = 0]
    raises): [update] is called twice with the same detections, the exit
    sweep runs when a second or more has passed since the last one, and the
    counter is handed the object map of the second [update]. *)
Definition loop_pass (cfg : Config) (l : Loop) (p : Pass) : option Loop :=
  if Qeq_bool (cfg_fps cfg) 0 then None
  else if Qltb (1 / cfg_fps cfg) (current_time p - prev_time l) then
    let frame := if cfg_reid_enabled cfg then Some (pass_frame p) else None in
    u1 ← update (loop_tracker l) (pass_detections p) frame (at_first_update p);
    u2 ← update (fst u1) (pass_detections p) frame (at_second_update p);
    swept ←
      (if Qle_bool 1 (current_time p - last_check_exit_time l) then
         r ← check_for_exits (fst u2) (at_sweep p);
         Some (fst r, current_time p)
       else Some (fst u2, last_check_exit_time l));
    let counted :=
      if cfg_counting_enabled cfg then
        fst (count_visitors (loop_counter l) (snd u2) (fst swept) (at_count p))
      else (loop_counter l, fst swept) in
    Some {| loop_tracker := snd counted;
            loop_counter := fst counted;
            loop_objects := snd u2;
            last_check_exit_time := snd swept;
            prev_time := current_time p |}
  else Some l.

Definition loop_run (cfg : Config) (l : Loop) (passes : list Pass)
  : option Loop :=
  foldM (loop_pass cfg) passes l.

(** The loop variables when the loop is entered, with the two readings of
    [time.time()] taken there. *)
Definition loop_start (t : Tracker) (c : VisitorCounter)
    (check_started frame_started : Q) : Loop :=
  {| loop_tracker := t;
     loop_counter := c;
     loop_objects := [];
     last_check_exit_time := check_started;
     prev_time := frame_started |}.

(** ** visualizer.py *)

(** A colour as OpenCV takes it: blue, green, red. *)
Definition Colour : Type := Z * Z * Z.

(** [Visualizer.colors] *)
Record Visualizer := {
  color_new : Colour;
  color_scanned : Colour;
  color_exited : Colour;
  color_line : Colour;
  color_text : Colour;
  color_id : Colour
}.

Definition Visualizer_new : Visualizer :=
  {| color_new := (0, 255, 0)%Z;
     color_scanned := (0, 165, 255)%Z;
     color_exited := (0, 0, 255)%Z;
     color_line := (255, 0, 0)%Z;
     color_text := (255, 255, 255)%Z;
     color_id := (255, 255, 0)%Z |}.

(** The string a state is in the tracker's dictionaries. *)
Definition state_name (st : State) : string :=
  match st with New => "new" | Scanned => "scanned" | Exited => "exited" end.

(** [self.colors.get(state, self.colors['new'])] *)
Definition box_color (v : Visualizer) (st : State) : Colour :=
  match st with
  | New => color_new v
  | Scanned => color_scanned v
  | Exited => color_exited v
  end.

(** The calls of OpenCV that draw on the copy of the frame, with their
    arguments but the image and the font, which is the same in every call. *)
Inductive Draw :=
| cv2_line (pt1 pt2 : Z * Z) (color : Colour) (thickness : Z)
| cv2_putText (text : string) (org : Z * Z) (fontScale : Q) (color : Colour)
    (thickness : Z)
| cv2_rectangle (pt1 pt2 : Z * Z) (color : Colour) (thickness : Z)
| cv2_circle (center : Z * Z) (radius : Z) (color : Colour) (thickness : Z).

(** [counts = {'new': 0, 'scanned': 0, 'exited': 0}] *)
Record Counts := { n_new : nat; n_scanned : nat; n_exited : nat }.

(** [counts[state] = counts.get(state, 0) + 1] *)
Definition tally (st : State) (c : Counts) : Counts :=
  match st with
  | New =>
      {| n_new := n_new c + 1; n_scanned := n_scanned c;
         n_exited := n_exited c |}
  | Scanned =>
      {| n_new := n_new c; n_scanned := n_scanned c + 1;
         n_exited := n_exited c |}
  | Exited =>
      {| n_new := n_new c; n_scanned := n_scanned c;
         n_exited := n_exited c + 1 |}
  end.

(** The body of the loop over [objects.items()]. *)
Definition draw_object (v : Visualizer) (s : Counts * list Draw)
    (item : nat * ObjData) : Counts * list Draw :=
  let '(counts, output) := s in
  let object_id := fst item in
  let '(x1, y1, x2, y2) := bbox (snd item) in
  let '(cx, cy) := centroid (snd item) in
  let st := state (snd item) in
  (tally st counts,
   output
   ++ [cv2_rectangle (Qtrunc x1, Qtrunc y1) (Qtrunc x2, Qtrunc y2)
         (box_color v st) 2;
       cv2_putText ("ID: " +:+ pretty object_id +:+ " [" +:+ state_name st
                    +:+ "]")
         (Qtrunc x1, Qtrunc (y1 - 10)) (5 # 10) (color_id v) 2;
       cv2_circle (Qtrunc cx, Qtrunc cy) 4 (color_id v) (-1)]).

(** [draw_results]: the calls made on the copy of a frame [height] pixels
    high, in their order. *)
Definition draw_results (v : Visualizer) (height : Z)
    (objects : Dict.t ObjData) (count : nat) (line_position : option Z)
  : list Draw :=
  let output0 :=
    match line_position with
    | Some x =>
        [cv2_line (x, 0%Z) (x, height) (color_line v) 2;
         cv2_putText "Garis Penghitungan" ((x + 10)%Z, 30%Z) (6 # 10)
           (color_text v) 2]
    | None => []
    end in
  let output1 :=
    if Nat.eqb (length objects) 0 then
      output0
      ++ [cv2_putText "TIDAK ADA OBJEK TERLACAK" (10%Z, (height - 10)%Z)
            (7 # 10) (0, 0, 255)%Z 2]
    else output0 in
  let '(counts, output2) :=
    fold_left (draw_object v)
      objects ({| n_new := 0; n_scanned := 0; n_exited := 0 |}, output1) in
  output2
  ++ [cv2_rectangle (10, 10)%Z (280, 130)%Z (0, 0, 0)%Z (-1);
      cv2_putText ("Total Pengunjung: " +:+ pretty count) (15, 35)%Z (7 # 10)
        (color_text v) 2;
      cv2_putText ("Objek Terlacak: " +:+ pretty (length objects)) (15, 70)%Z
        (7 # 10) (color_text v) 2;
      cv2_putText ("Baru: " +:+ pretty (n_new counts) +:+ " | Scanned: "
                   +:+ pretty (n_scanned counts)) (15, 105)%Z (7 # 10)
        (color_text v) 2;
      cv2_putText "HANYA HITUNG: KANAN KE KIRI" (15, 140)%Z (6 # 10)
        (0, 0, 255)%Z 2].

(** The pass of the loop with what [draw_results] is called with at its
    end: the objects of the last processed frame, the count, and the line
    when counting is enabled. *)
Definition loop_draws (cfg : Config) (v : Visualizer) (height : Z) (l : Loop)
  : list Draw :=
  draw_results v height (loop_objects l) (count (loop_counter l))
    (if cfg_counting_enabled cfg then Some (line_position (loop_counter l))
     else None).

End Model.

(** ** Concrete runs

    The appearance model is [label_extractor] and the sort is stable; the
    counting line of a 300 pixel wide frame sits at x = 150. *)

Module Scenario.

Definition tracker_new := Tracker_new.
Definition run := @run label_extractor stable_orders.
Definition step := @step label_extractor stable_orders.

Definition det (x1 y1 x2 y2 : Z) : Detection :=
  (inject_Z x1, inject_Z y1, inject_Z x2, inject_Z y2, 0.9%Q).

Definition second : Z := 1000000.

(** The same person, labelled 7, right and left of the line. *)
Definition at_right : Detection := det 160 100 200 220.
Definition at_left : Detection := det 90 100 130 220.

Definition seen (d : list Detection) (now : Z) : @Op label_extractor :=
  OpFrame d (Some 7 : option (@Frame label_extractor)) now.

Definition line_counter : VisitorCounter :=
  VisitorCounter_new 0.5 "left" 300 None.

(** One Right-to-Left crossing. *)
Definition crossing : list (@Op label_extractor) :=
  [seen [at_right] (1 * second)%Z; seen [at_left] (2 * second)%Z].

(** A tracker that drops an object after one missed frame. *)
Definition impatient : System :=
  {| sys_tracker := tracker_new 0 100 10 true 0.6 true;
     sys_counter := line_counter |}.

(** A tracker with the default retention of 40 frames and a 10 second exit
    timeout. *)
Definition patient : System :=
  {| sys_tracker := tracker_new 40 100 10 true 0.6 true;
     sys_counter := line_counter |}.

(** The person crosses, is lost for a frame, and comes back on the right. *)
Definition reentry : list (@Op label_extractor) :=
  crossing ++ [seen [] (3 * second)%Z; seen [at_right] (4 * second)%Z].

(** What a run shows of object [id]: the aggregate count, the object's state
    and person id, and the counted persons. *)
Definition observe (id : nat) (s : System)
  : nat * option State * option nat * list nat :=
  (count (sys_counter s),
   Dict.get id (states (sys_tracker s)),
   Dict.get id (person_ids (sys_tracker s)),
   elements (counted_people (sys_tracker s))).

(** What an exit sweep or a deregistration leaves of object [id]. *)
Definition exit_view (id : nat) (t : Tracker)
  : option State * option Z * bool * option nat * list nat :=
  (Dict.get id (states t), Dict.get id (exit_times t),
   Dict.mem id (objects t), Dict.get id (person_ids t),
   elements (counted_people t)).

(** A zero-area box. *)
Definition empty_box : Detection := det 10 10 10 10.

(** The system after a run (the start if the run fails). *)
Definition after (s : System)
    (ops : list (@Op label_extractor)) : System :=
  default s (run s ops).

(** The person has been seen once, right of the line, and is then
    deregistered while still New. *)
Definition seen_once : System :=
  after impatient [seen [at_right] (1 * second)%Z].

Definition dropped_new : Tracker :=
  default (sys_tracker seen_once)
    (deregister (sys_tracker seen_once) 0 (9 * second)%Z).

(** An entry of the object map with its centroid at [(x, 160)]. *)
Definition obj_at (x : Z) : ObjData :=
  {| centroid := (inject_Z x, 160%Q);
     bbox := (inject_Z (x - 20), 100%Q, inject_Z (x + 20), 220%Q);
     obj_timestamps := {| first_seen := 0; last_seen := 0 |};
     state := New;
     entry_time := None;
     exit_time := None;
     person_id := None;
     already_counted := false |}.

(** Object 0 wanders on the right of the line for three frames. *)
Definition right_only
  : list (Dict.t ObjData * Tracker * Z) :=
  [([(0, obj_at 180)], sys_tracker impatient, 1%Z);
   ([(0, obj_at 200)], sys_tracker impatient, 2%Z);
   ([(0, obj_at 151)], sys_tracker impatient, 3%Z)].

(** The tracker right after the crossing: object 0 is live and Scanned. *)
Definition crossed : Tracker :=
  sys_tracker (after impatient crossing).

(** A 20 by 20 box centred at [(x, y)]. *)
Definition box_around (x y : Z) : Detection :=
  det (x - 10) (y - 10) (x + 10) (y + 10).

(** A tracker without re-identification, a 50 pixel matching radius and the
    default retention of 40 frames, tracking three objects at (0,0), (10,10)
    and (20,20). *)
Definition plain : System :=
  {| sys_tracker := tracker_new 40 50 10 false 0.6 true;
     sys_counter := line_counter |}.

Definition crowd : Tracker :=
  sys_tracker
    (after plain
       [OpUpdate [box_around 0 0; box_around 10 10; box_around 20 20]
          None (1 * second)%Z]).

(** Detections at (1,1), (11,11) and (50,50). *)
Definition next_frame : list Detection :=
  [box_around 1 1; box_around 11 11; box_around 50 50].

Definition crowd_mins : list Q :=
  default []
    (traverse row_min
       (cdist (Dict.values (objects crowd)) (map centroid_of next_frame))).

(** A single detection at (21,21): three live objects outnumber twice one
    detection, so [update] sheds load. *)
Definition lone : list Detection := [box_around 21 21].

Definition thinned : Tracker :=
  default crowd
    (@update_tracker label_extractor stable_orders crowd lone None
       (2 * second)%Z).

(** A single detection at (1,1), next to object 0. *)
Definition near_first : list Detection := [box_around 1 1].

Definition crowd_mins_near : list Q :=
  default []
    (traverse row_min
       (cdist (Dict.values (objects crowd)) (map centroid_of near_first))).

Definition thinned_first : Tracker :=
  default crowd
    (@update_tracker label_extractor stable_orders crowd near_first None
       (2 * second)%Z).

(** A loop at five frames a second, with re-identification and counting
    on. *)
Definition camera : Config :=
  {| cfg_fps := 5; cfg_reid_enabled := true; cfg_counting_enabled := true |}.

(** A pass at [seconds] past the start, showing person 7. *)
Definition pass_at (seconds : Q) (micro : Z) (d : list Detection)
  : @Pass label_extractor :=
  {| pass_frame := 7 : @Frame label_extractor;
     pass_detections := d;
     current_time := seconds;
     at_first_update := micro;
     at_second_update := micro;
     at_sweep := micro;
     at_count := micro |}.

(** The person walks from the right of the line to the left. *)
Definition walk : list (@Pass label_extractor) :=
  [pass_at 1 (1 * second) [at_right]; pass_at 2 (2 * second) [at_left]].

Definition loop_entered : Loop :=
  loop_start (sys_tracker patient) line_counter 0 0.

(** The loop after the first pass of the walk. *)
Definition loop_after_one : Loop :=
  default loop_entered
    (@loop_run label_extractor stable_orders camera loop_entered
       [pass_at 1 (1 * second) [at_right]]).

(** Half a second later the detector finds nobody. *)
Definition nobody : @Pass label_extractor :=
  pass_at 1.5 (1500000)%Z [].

End Scenario.

(** ** detector.py *)

Inductive ModelType := Yolov5 | FasterRCNN.

(** The attributes of [PersonDetector] that [detect] reads; [model_type]
    records which of the two models the constructor managed to load. *)
Record PersonDetector := {
  det_conf_threshold : Q;
  det_iou_threshold : Q;
  det_classes : list nat;
  model_type : ModelType
}.

(** A row of [results[0].boxes.data]: [x1, y1, x2, y2, conf, cls]. *)
Definition RawBox : Type := Q * Q * Q * Q * Q * Q.

(** What the model call gave: [None] when reading the frame or predicting
    raised, else the list of results, each with the rows of its [boxes] or
    without the attribute. *)
Definition Prediction : Type := option (list (option (list RawBox))).

(** The size filter and the conversion of one row. *)
Definition keep_box (r : RawBox) : option Detection :=
  let '(x1, y1, x2, y2, conf, _) := r in
  let width := (x2 - x1)%Q in
  let height := (y2 - y1)%Q in
  if Qltb 30 width && Qltb 60 height then
    Some (inject_Z (Qtrunc x1), inject_Z (Qtrunc y1),
          inject_Z (Qtrunc x2), inject_Z (Qtrunc y2), conf)
  else None.

(** [detect]: any exception gives the empty list, and so does every model
    but YOLOv5. *)
Definition detect (d : PersonDetector) (prediction : Prediction)
  : list Detection :=
  match prediction with
  | None => []
  | Some results =>
      match model_type d with
      | Yolov5 =>
          match results with
          | Some boxes :: _ =>
              if Nat.ltb 0 (length boxes) then omap keep_box boxes else []
          | _ => []
          end
      | FasterRCNN => []
      end
  end.

(** ** database.py *)

(** A row of the table [visitors]: [(id, timestamp, direction, notes)]. *)
Record VisitorRecord := {
  rec_id : nat;
  rec_timestamp : Q;
  rec_direction : option string;
  rec_notes : option string
}.

(** The table, and the largest row id AUTOINCREMENT has handed out. *)
Record Database := {
  db_rows : list VisitorRecord;
  db_sequence : nat
}.

(** [init_db] on a file that does not exist yet. *)
Definition Database_new : Database := {| db_rows := []; db_sequence := 0 |}.

Definition max_id (rows : list VisitorRecord) : nat :=
  foldr Nat.max 0 (map rec_id rows).

(** [add_visitor].  [ok] tells whether SQLite went through; on an error the
    method logs it and returns [None], and nothing is committed.  [clock] is
    the reading of [time.time()] used when no timestamp is given. *)
Definition add_visitor (d : Database) (ok : bool) (clock : Q)
    (timestamp : option Q) (direction notes : option string)
  : Database * option nat :=
  if ok then
    let visitor_id := S (Nat.max (db_sequence d) (max_id (db_rows d))) in
    ({| db_rows :=
          db_rows d ++ [{| rec_id := visitor_id;
                           rec_timestamp := default clock timestamp;
                           rec_direction := direction;
                           rec_notes := notes |}];
        db_sequence := visitor_id |},
     Some visitor_id)
  else (d, None).

(** [ORDER BY id ASC] *)
Fixpoint insert_row (r : VisitorRecord) (sorted : list VisitorRecord)
  : list VisitorRecord :=
  match sorted with
  | [] => [r]
  | r' :: rest =>
      if Nat.leb (rec_id r) (rec_id r') then r :: sorted
      else r' :: insert_row r rest
  end.

Definition order_by_id (rows : list VisitorRecord) : list VisitorRecord :=
  foldr insert_row [] rows.

(** [get_visitors].  A [limit] of [None] or [0] is falsy and selects the
    query without [LIMIT]; a negative [LIMIT] puts no bound on the rows. *)
Definition get_visitors (d : Database) (ok : bool) (after_id : Z)
    (limit : option Z) : list VisitorRecord :=
  if ok then
    let selected :=
      order_by_id
        (List.filter (fun r => Z.ltb after_id (Z.of_nat (rec_id r)))
           (db_rows d)) in
    match limit with
    | Some n =>
        if Z.eqb n 0 then selected
        else if Z.ltb n 0 then selected
        else take (Z.to_nat n) selected
    | None => selected
    end
  else [].

Definition get_all_visitors (d : Database) (ok : bool) : list VisitorRecord :=
  get_visitors d ok 0 None.

Definition get_visitor_count (d : Database) (ok : bool) : nat :=
  if ok then length (db_rows d) else 0.

(** ** exporter.py *)

(** What happens to one attempt to write the sheet: it is written, the file
    is in use ([PermissionError]), or something else is raised. *)
Inductive WriteOutcome := Written | Busy | Failed.

(** An attempt as the surroundings decide it, with the reading of
    [datetime.now()] a retry builds its file name from. *)
Record Attempt := { outcome : WriteOutcome; stamp : Z }.

(** The configured path, or that path with a time stamp before the
    extension. *)
Inductive ExcelPath :=
| Named (base : string)
| Stamped (base : string) (stamp : Z).

Record DataExporter := {
  base_excel_path : string;
  excel_path : ExcelPath;
  auto_save_interval : Q;
  last_export_id : nat
}.

Definition DataExporter_new (excel_path : string) (auto_save_interval : Q)
  : DataExporter :=
  {| base_excel_path := excel_path;
     excel_path := Named excel_path;
     auto_save_interval := auto_save_interval;
     last_export_id := 0 |}.

Definition with_excel_path (p : ExcelPath) (e : DataExporter) : DataExporter :=
  {| base_excel_path := base_excel_path e;
     excel_path := p;
     auto_save_interval := auto_save_interval e;
     last_export_id := last_export_id e |}.

Definition with_last_export_id (n : nat) (e : DataExporter) : DataExporter :=
  {| base_excel_path := base_excel_path e;
     excel_path := excel_path e;
     auto_save_interval := auto_save_interval e;
     last_export_id := n |}.

(** The retry loop, entered with [attempt] failures behind it: from the
    second attempt on the sheet goes to a freshly stamped file; the third
    [PermissionError] is raised to the caller, like any other exception.
    The result is the path written to, if any.  [fuel] bounds the passes of
    the [while]. *)
Fixpoint try_write (fuel attempt : nat) (env : nat -> Attempt)
    (e : DataExporter) : DataExporter * option ExcelPath :=
  match fuel with
  | 0 => (e, None)
  | S fuel' =>
      let e1 :=
        if Nat.ltb 0 attempt then
          with_excel_path (Stamped (base_excel_path e) (stamp (env attempt))) e
        else e in
      match outcome (env attempt) with
      | Written => (e1, Some (excel_path e1))
      | Failed => (e1, None)
      | Busy =>
          if Nat.leb 3 (S attempt) then (e1, None)
          else try_write fuel' (S attempt) env e1
      end
  end.

(** [export_to_excel]: the exporter left behind, the number returned, and
    the sheet written with its path.  [ok_new] and [ok_all] tell whether the
    two database reads went through; [fromtimestamp] tells for which time
    stamps [datetime.datetime.fromtimestamp] returns instead of raising,
    which the outer [except] turns into the result [0]. *)
Definition export_to_excel (e : DataExporter) (d : Database)
    (ok_new ok_all : bool) (fromtimestamp : Q -> bool) (env : nat -> Attempt)
  : DataExporter * nat * option (ExcelPath * list VisitorRecord) :=
  let visitors :=
    match get_visitors d ok_new (Z.of_nat (last_export_id e)) None with
    | [] => get_all_visitors d ok_all
    | new => new
    end in
  match visitors with
  | [] => (e, 0, None)
  | _ =>
      if forallb fromtimestamp (map rec_timestamp visitors) then
        match try_write 3 0 env e with
        | (e1, Some path) =>
            (with_last_export_id (max_id visitors) e1, length visitors,
             Some (path, visitors))
        | (e1, None) => (e1, 0, None)
        end
      else (e, 0, None)
  end.

(** A store two visitors were added to, at 10 and 20 seconds, and an
    environment in which every write goes through. *)
Module StoreScenario.

Definition two_visitors : Database :=
  fst (add_visitor
         (fst (add_visitor Database_new true 10 None (Some "left") None))
         true 20 None (Some "left") None).

Definition always_written : nat -> Attempt :=
  fun _ => {| outcome := Written; stamp := 0 |}.

Definition exporter : DataExporter := DataExporter_new "visitors.xlsx" 300.

End StoreScenario.

(** A call of [add_visitor]: whether SQLite goes through, the reading of the
    clock, and the three arguments. *)
Record AddCall := {
  call_ok : bool;
  call_clock : Q;
  call_timestamp : option Q;
  call_direction : option string;
  call_notes : option string
}.

(** A run of [add_visitor] calls on one database file. *)
Definition add_visitors (d : Database) (calls : list AddCall) : Database :=
  fold_left
    (fun d' c =>
       fst (add_visitor d' (call_ok c) (call_clock c) (call_timestamp c)
              (call_direction c) (call_notes c)))
    calls d.

(** The row a call that goes through stores under the id it is given. *)
Definition stored_row (id : nat) (c : AddCall) : VisitorRecord :=
  {| rec_id := id;
     rec_timestamp := default (call_clock c) (call_timestamp c);
     rec_direction := call_direction c;
     rec_notes := call_notes c |}.

(** * Properties *)

(** ** Dictionary facts *)

Module DictFacts.
Section facts.
Context {V : Type}.
Implicit Types (d : Dict.t V) (k : nat) (v : V).

Lemma get_put_eq k v d : Dict.get k (Dict.put k v d) = Some v.
Proof.
  induction d as [|[k' v'] d IH]; simpl.
  - by rw Nat.eqb_refl.
  - destruct (Nat.eqb k k') eqn:E; simpl; rw ?Nat.eqb_refl ?E //.
Qed.

Lemma get_put_ne k k' v d :
  k ≠ k' → Dict.get k' (Dict.put k v d) = Dict.get k' d.
Proof.
  intros Hne. induction d as [|[k0 v0] d IH]; simpl.
  - destruct (Nat.eqb k' k) eqn:E; [|done].
    apply Nat.eqb_eq in E. congruence.
  - destruct (Nat.eqb k k0) eqn:E; simpl.
    + apply Nat.eqb_eq in E. subst k0.
      destruct (Nat.eqb k' k) eqn:E'; [|done].
      apply Nat.eqb_eq in E'. congruence.
    + by rw IH.
Qed.

Lemma get_alter_eq f k d : Dict.get k (Dict.alter f k d) = f <$> Dict.get k d.
Proof.
  induction d as [|[k' v'] d IH]; simpl; [done|].
  destruct (Nat.eqb k k') eqn:E; simpl; rw E //.
Qed.

Lemma get_alter_ne f k k' d :
  k ≠ k' → Dict.get k' (Dict.alter f k d) = Dict.get k' d.
Proof.
  intros Hne. induction d as [|[k0 v0] d IH]; simpl; [done|].
  destruct (Nat.eqb k k0) eqn:E; simpl.
  - apply Nat.eqb_eq in E. subst k0.
    destruct (Nat.eqb k' k) eqn:E'; [|done].
    apply Nat.eqb_eq in E'. congruence.
  - by rw IH.
Qed.

Lemma get_remove_eq k d : Dict.get k (Dict.remove k d) = None.
Proof.
  induction d as [|[k' v'] d IH]; simpl; [done|].
  destruct (Nat.eqb k k') eqn:E; simpl; rw ?E //.
Qed.

Lemma get_remove_ne k k' d :
  k ≠ k' → Dict.get k' (Dict.remove k d) = Dict.get k' d.
Proof.
  intros Hne. induction d as [|[k0 v0] d IH]; simpl; [done|].
  destruct (Nat.eqb k k0) eqn:E; simpl.
  - apply Nat.eqb_eq in E. subst k0.
    destruct (Nat.eqb k' k) eqn:E'; [|done].
    apply Nat.eqb_eq in E'. congruence.
  - by rw IH.
Qed.

Lemma mem_true k d : Dict.mem k d = true ↔ is_Some (Dict.get k d).
Proof.
  unfold Dict.mem. destruct (Dict.get k d); split; intros H; try done.
Qed.

Lemma mem_false k d : Dict.mem k d = false ↔ Dict.get k d = None.
Proof. unfold Dict.mem. destruct (Dict.get k d); split; done. Qed.

Lemma get_keys k d : is_Some (Dict.get k d) ↔ k ∈ Dict.keys d.
Proof.
  induction d as [|[k' v'] d IH]; simpl.
  - split; [intros [? ?]; done | intros H; inversion H].
  - destruct (Nat.eqb k k') eqn:E.
    + apply Nat.eqb_eq in E. subst. split; [intros _; left | by eexists].
    + apply Nat.eqb_neq in E. rw IH. split.
      * by right.
      * intros H. inversion H; subst; [done | assumption].
Qed.

Lemma mem_keys k d : Dict.mem k d = true ↔ k ∈ Dict.keys d.
Proof. by rw mem_true get_keys. Qed.

Lemma keys_put_mem k v d :
  Dict.mem k d = true → Dict.keys (Dict.put k v d) = Dict.keys d.
Proof.
  unfold Dict.mem. induction d as [|[k' v'] d IH]; simpl; [done|].
  destruct (Nat.eqb k k') eqn:E; simpl.
  - apply Nat.eqb_eq in E. by subst.
  - intros H. by rw IH.
Qed.

Lemma keys_put_fresh k v d :
  Dict.mem k d = false → Dict.keys (Dict.put k v d) = Dict.keys d ++ [k].
Proof.
  unfold Dict.mem. induction d as [|[k' v'] d IH]; simpl; [done|].
  destruct (Nat.eqb k k') eqn:E; simpl; [done|].
  intros H. by rw IH.
Qed.

Lemma keys_alter f k d : Dict.keys (Dict.alter f k d) = Dict.keys d.
Proof.
  induction d as [|[k' v'] d IH]; simpl; [done|].
  destruct (Nat.eqb k k'); simpl; by rw ?IH.
Qed.

Lemma keys_remove k d :
  Dict.keys (Dict.remove k d)
  = List.filter (fun k' => negb (Nat.eqb k k')) (Dict.keys d).
Proof.
  induction d as [|[k' v'] d IH]; simpl; [done|].
  destruct (Nat.eqb k k'); simpl; by rw IH.
Qed.

Lemma mem_put k k' v d :
  Dict.mem k' (Dict.put k v d) = Nat.eqb k k' || Dict.mem k' d.
Proof.
  unfold Dict.mem. destruct (Nat.eqb k k') eqn:E.
  - apply Nat.eqb_eq in E. subst. by rw get_put_eq.
  - apply Nat.eqb_neq in E. by rw get_put_ne.
Qed.

Lemma mem_remove k k' d :
  Dict.mem k' (Dict.remove k d) = negb (Nat.eqb k k') && Dict.mem k' d.
Proof.
  unfold Dict.mem. destruct (Nat.eqb k k') eqn:E.
  - apply Nat.eqb_eq in E. subst. by rw get_remove_eq.
  - apply Nat.eqb_neq in E. by rw get_remove_ne.
Qed.

Lemma mem_alter f k k' d : Dict.mem k' (Dict.alter f k d) = Dict.mem k' d.
Proof.
  unfold Dict.mem. destruct (decide (k = k')) as [->|Hne].
  - rw get_alter_eq. by destruct (Dict.get k' d).
  - by rw get_alter_ne.
Qed.
End facts.
End DictFacts.
Import DictFacts.

(** ** The line counter *)

Section CounterFacts.
Context `{FE : FeatureExtractor} `{SO : Orders}.
Implicit Types (c : VisitorCounter) (tr : Tracker) (item : nat * ObjData).

Ltac count_object_cases :=
  unfold count_object; simpl;
  repeat match goal with
         | |- context [bool_decide ?P] => destruct (bool_decide_reflect P)
         | |- context [Dict.get ?k (last_positions ?c)] =>
             let E := fresh "Hget" in
             destruct (Dict.get k (last_positions c)) as [[[] []]|] eqn:E
         | |- context [side_of ?c ?x] =>
             let E := fresh "Hside" in destruct (side_of c x) eqn:E
         end; simpl.

(** What one loop iteration does to the aggregate counter: nothing, or one
    increment on a Right-to-Left change of an object not counted before. *)
Lemma count_object_step now c tr item :
  let s' := count_object now (c, tr) item in
  line_position (fst s') = line_position c ∧
  total_right (fst s') = total_right c ∧
  count (fst s') - total_left (fst s') = count c - total_left c ∧
  total_left (fst s') - count (fst s') = total_left c - count c ∧
  ((count (fst s') = count c ∧ counted_ids (fst s') = counted_ids c) ∨
   (count (fst s') = S (count c) ∧
    counted_ids (fst s') = {[fst item]} ∪ counted_ids c ∧
    (fst item ∉ counted_ids c) ∧
    (∃ d, Dict.get (fst item) (last_positions c) = Some d
          ∧ position d = Right ∧ counted d = false) ∧
    side_of c (fst (centroid (snd item))) = Left)).
Proof.
  count_object_cases; repeat split; try lia; eauto 10.
Qed.


Lemma count_object_budget id now c tr item :
  (if Nat.eqb (fst item) id
   then count (fst (count_object now (c, tr) item)) - count c else 0)
  + budget id (fst (count_object now (c, tr) item)) ≤ budget id c.
Proof.
  destruct (count_object_step now c tr item)
    as (_ & _ & _ & _ & [[Hc Hids] | (Hc & Hids & Hnew & _)]);
    unfold budget; rw Hc Hids.
  - destruct (Nat.eqb (fst item) id); lia.
  - destruct (Nat.eqb (fst item) id) eqn:E.
    + apply Nat.eqb_eq in E. subst id. clear Hc Hids.
      repeat case_bool_decide; try lia; set_solver.
    + clear Hc Hids. repeat case_bool_decide; try lia; set_solver.
Qed.

Lemma increments_for_budget id now objs s :
  increments_for id now objs s
  + budget id (fst (fold_left (count_object now) objs s)) ≤ budget id (fst s).
Proof.
  revert s. induction objs as [|item objs IH]; intros [c tr];
    cbn [increments_for fold_left fst]; [lia|].
  pose proof (count_object_budget id now c tr item) as Hstep.
  specialize (IH (count_object now (c, tr) item)).
  cbv zeta. generalize dependent (count_object now (c, tr) item).
  intros s1 IH Hstep. destruct (Nat.eqb (fst item) id); lia.
Qed.

Lemma increments_over_budget id c frames :
  increments_over id c frames + budget id (count_frames c frames) ≤ budget id c.
Proof.
  revert c. induction frames as [|[[objs tr] now] frames IH]; intros c; simpl;
    [lia|].
  pose proof (increments_for_budget id now objs (c, tr)) as H1.
  specialize (IH (fst (fold_left (count_object now) objs (c, tr)))).
  unfold count_frames in *. cbn [fold_left count_visitors fst] in *.
  generalize dependent (fold_left (count_object now) objs (c, tr)).
  intros s1 H1 IH. lia.
Qed.

(** C3. Over any run of [count_visitors] invocations, the increments of the
    aggregate counter made for one object id are none once the id is in the
    counted-ids set, and at most one otherwise. *)
Theorem counted_id_never_counted_again (id : nat) (c : VisitorCounter)
    (frames : list (Dict.t ObjData * Tracker * Z)) :
  increments_over id c frames
  ≤ (if bool_decide (id ∈ counted_ids c) then 0 else 1).
Proof.
  pose proof (increments_over_budget id c frames) as H.
  unfold budget in H at 2. lia.
Qed.

(** The counter never decreases, so the differences above lose nothing. *)
Lemma count_object_mono now c tr item :
  count c ≤ count (fst (count_object now (c, tr) item)).
Proof.
  destruct (count_object_step now c tr item)
    as (_ & _ & _ & _ & [[Hc _] | (Hc & _)]); lia.
Qed.


Lemma side_of_line c c' cx :
  line_position c' = line_position c → side_of c' cx = side_of c cx.
Proof. unfold side_of. by intros ->. Qed.

(** The loop body as a decision list. *)
Lemma count_object_eq now c tr item :
  count_object now (c, tr) item =
  if bool_decide (fst item ∈ counted_ids c) then (c, tr)
  else
    let current := side_of c (fst (centroid (snd item))) in
    match Dict.get (fst item) (last_positions c) with
    | None =>
        (with_last_positions
           (Dict.put (fst item) {| position := current; counted := false |}
              (last_positions c)) c, tr)
    | Some d =>
        let moved (c1 : VisitorCounter) :=
          with_last_positions
            (Dict.alter
               (fun d => {| position := current; counted := counted d |})
               (fst item) (last_positions c1)) c1 in
        if negb (counted d) && Side_eqb (position d) Right
           && Side_eqb current Left
        then (moved (record_crossing (fst item) now c),
              fst (mark_as_scanned tr (fst item)))
        else (moved c, tr)
    end.
Proof.
  unfold count_object. cbv zeta.
  destruct (bool_decide (fst item ∈ counted_ids c)); [done|].
  destruct (Dict.get (fst item) (last_positions c)) as [[[] []]|]; simpl;
    try done; by destruct (side_of c (fst (centroid (snd item)))).
Qed.

(** The side recorded for the handled object afterwards is its current side;
    the records of the other objects are untouched. *)
Lemma count_object_last now c tr item :
  (∀ k, k ≠ fst item →
        Dict.get k (last_positions (fst (count_object now (c, tr) item)))
        = Dict.get k (last_positions c)) ∧
  (count_object now (c, tr) item = (c, tr) ∨
   ∃ d', Dict.get (fst item)
           (last_positions (fst (count_object now (c, tr) item))) = Some d'
         ∧ position d' = side_of c (fst (centroid (snd item)))).
Proof.
  rw count_object_eq. cbv zeta.
  destruct (bool_decide (fst item ∈ counted_ids c)); [by split; [|left]|].
  destruct (Dict.get (fst item) (last_positions c)) as [d|] eqn:Hget.
  - destruct (negb (counted d) && Side_eqb (position d) Right
              && Side_eqb (side_of c (fst (centroid (snd item)))) Left);
      simpl; (split; [intros k Hk; rw !get_alter_ne // | right]);
      rw !get_alter_eq Hget /=; eauto.
  - simpl. split; [intros k Hk; rw get_put_ne // | right].
    rw get_put_eq. eauto.
Qed.

Lemma Side_eqb_eq a b : Side_eqb a b = true ↔ a = b.
Proof. destruct a, b; simpl; split; congruence. Qed.

Lemma count_object_one_side c0 id side now c tr item :
  seen_only_on c0 id side c →
  (fst item = id → side_of c0 (fst (centroid (snd item))) = side) →
  seen_only_on c0 id side (fst (count_object now (c, tr) item)) ∧
  (fst item = id → count (fst (count_object now (c, tr) item)) = count c).
Proof.
  intros [Hline Hrec] Hside.
  destruct (count_object_step now c tr item) as (Hl & _ & _ & _ & Hcnt).
  destruct (count_object_last now c tr item) as [Hother Hself].
  cbv zeta in *. split; [split|].
  - congruence.
  - destruct (decide (fst item = id)) as [Heq|Hne].
    + destruct Hself as [-> | (d' & Hd' & Hp)]; [done|].
      right. exists d'. subst id. split; [done|].
      rw Hp (side_of_line c0 c) //. by apply Hside.
    + rw Hother //; by intros ->.
  - intros Heq. destruct Hcnt as [[Hc _] | (_ & _ & _ & (d & Hd & Hp & _) & Hcur)];
      [done|].
    exfalso. subst id.
    rw (side_of_line c0 c) // in Hcur. rw (Hside eq_refl) in Hcur.
    destruct Hrec as [Hn | (d0 & Hd0 & Hp0)]; congruence.
Qed.


Lemma increments_for_one_side c0 id side now objs s :
  seen_only_on c0 id side (fst s) →
  forallb (fun item : nat * ObjData =>
             if Nat.eqb (fst item) id then
               Side_eqb (side_of c0 (fst (centroid (snd item)))) side
             else true) objs = true →
  increments_for id now objs s = 0 ∧
  seen_only_on c0 id side (fst (fold_left (count_object now) objs s)).
Proof.
  revert s. induction objs as [|item objs IH]; intros [c tr] Hseen Hall;
    cbn [increments_for fold_left fst] in *; [done|].
  apply andb_prop in Hall as [Hitem Hall].
  destruct (count_object_one_side c0 id side now c tr item Hseen)
    as [Hseen' Hcount].
  { intros Heq. apply Nat.eqb_eq in Heq. rw Heq in Hitem.
    by apply Side_eqb_eq. }
  destruct (IH _ Hseen' Hall) as [-> Hfinal]. split; [|done].
  cbv zeta. destruct (Nat.eqb (fst item) id) eqn:E; [|done].
  apply Nat.eqb_eq in E. rw (Hcount E). lia.
Qed.

Lemma increments_over_one_side c0 id side c frames :
  seen_only_on c0 id side c →
  stays_on c0 id side frames = true →
  increments_over id c frames = 0.
Proof.
  revert c. induction frames as [|[[objs tr] now] frames IH]; intros c Hseen Hall;
    cbn [increments_over] in *; [done|].
  apply andb_prop in Hall as [Hframe Hall].
  destruct (increments_for_one_side c0 id side now objs (c, tr) Hseen Hframe)
    as [-> Hseen'].
  by rw IH.
Qed.

(** C4. A loop iteration that finds the object on the Right never changes the
    aggregate counter; whenever the counter changes it grows by one, the
    recorded side was Right and the current side is Left; and an object first
    observed in this run that stays on one side is never counted, whatever the
    line position, database or tracker. *)
Theorem only_right_to_left_counts (c : VisitorCounter) (id : nat)
    (side : Side) (frames : list (Dict.t ObjData * Tracker * Z))
    (Hfresh : Dict.get id (last_positions c) = None)
    (Hstay : stays_on c id side frames = true) :
  (∀ (c' : VisitorCounter) (tr : Tracker) (now : Z) (item : nat * ObjData),
     let c'' := fst (count_object now (c', tr) item) in
     (side_of c' (fst (centroid (snd item))) = Right → count c'' = count c') ∧
     (count c'' ≠ count c' →
      count c'' = S (count c') ∧
      (∃ d, Dict.get (fst item) (last_positions c') = Some d
            ∧ position d = Right) ∧
      side_of c' (fst (centroid (snd item))) = Left)) ∧
  increments_over id c frames = 0.
Proof.
  split.
  - intros c' tr now item c''. subst c''.
    destruct (count_object_step now c' tr item)
      as (_ & _ & _ & _ & [[Hc _] | (Hc & _ & _ & (d & Hd & Hp & _) & Hcur)]).
    + split; [done|]. intros Hne. by destruct Hne.
    + split; [intros Hr; congruence|]. intros _. eauto.
  - apply (increments_over_one_side c id side); [|done].
    split; [done | by left].
Qed.

(** The two totals move together and the right total never moves. *)
Lemma count_frames_totals c frames :
  count c = total_left c → total_right c = 0 →
  count (count_frames c frames) = total_left (count_frames c frames) ∧
  total_right (count_frames c frames) = 0.
Proof.
  revert c. induction frames as [|[[objs tr] now] frames IH]; intros c Hc Hr;
    [done|].
  unfold count_frames in *. cbn [fold_left count_visitors fst].
  apply IH.
  - clear IH Hr. revert c tr Hc.
    induction objs as [|item objs IHo]; intros c tr Hc; [done|].
    cbn [fold_left].
    destruct (count_object_step now c tr item) as (_ & _ & H1 & H2 & _).
    destruct (count_object now (c, tr) item) as [c1 tr1]. apply IHo.
    simpl in *. lia.
  - clear IH Hc. revert c tr Hr.
    induction objs as [|item objs IHo]; intros c tr Hr; [done|].
    cbn [fold_left].
    destruct (count_object_step now c tr item) as (_ & H1 & _).
    destruct (count_object now (c, tr) item) as [c1 tr1]. apply IHo.
    simpl in *. lia.
Qed.

(** C10. After any run of [count_visitors] from a freshly built counter the
    statistics report [total = total_left] and [total_right = 0], and they do
    not depend on the [direction] argument of the constructor. *)
Theorem stats_count_left_only (line : Q) (direction direction' : string)
    (frame_width : Q) (db : option (list VisitorRow))
    (frames : list (Dict.t ObjData * Tracker * Z)) :
  let stats :=
    get_stats (count_frames (VisitorCounter_new line direction frame_width db)
                 frames) in
  stat_total stats = stat_total_left stats ∧
  stat_total_right stats = 0 ∧
  get_stats (count_frames (VisitorCounter_new line direction' frame_width db)
               frames) = stats.
Proof.
  intros stats. subst stats. simpl.
  destruct (count_frames_totals
              (VisitorCounter_new line direction frame_width db) frames)
    as [H1 H2]; done.
Qed.

End CounterFacts.

(** ** Tracker operations *)

Section TrackerFacts.
Context `{FE : FeatureExtractor} `{SO : Orders}.
Implicit Types (t : Tracker) (id k : nat).

(** *** register *)

Ltac register_cases Hreg t frame :=
  unfold register in Hreg; simpl in Hreg;
  destruct (reid_enabled t) eqn:Hreid; [destruct frame|]; simpl in Hreg;
  try (match type of Hreg with
       | context [identify_person ?r ?f ?b ?k] =>
           destruct (identify_person r f b k) as [[? [? ?]]|];
           simpl in Hreg; [|done]
       end;
       case_bool_decide; simpl in Hreg);
  injection Hreg as <- <-; simpl;
  unfold mark_as_counted; simpl; rw ?get_put_eq; simpl; try done.

Lemma register_id t c b frame clock t' id :
  register t c b frame clock = Some (t', id) → id = next_object_id t.
Proof. intros Hreg. register_cases Hreg t frame. Qed.

Lemma register_next t c b frame clock t' id :
  register t c b frame clock = Some (t', id) →
  next_object_id t' = S (next_object_id t).
Proof. intros Hreg. register_cases Hreg t frame. Qed.

Lemma register_objects t c b frame clock t' id :
  register t c b frame clock = Some (t', id) →
  objects t' = Dict.put (next_object_id t) c (objects t).
Proof. intros Hreg. register_cases Hreg t frame. Qed.

Lemma register_disappeared t c b frame clock t' id :
  register t c b frame clock = Some (t', id) →
  disappeared t' = Dict.put (next_object_id t) 0 (disappeared t).
Proof. intros Hreg. register_cases Hreg t frame. Qed.

Lemma register_positions t c b frame clock t' id :
  register t c b frame clock = Some (t', id) →
  positions t' = Dict.put (next_object_id t) b (positions t).
Proof. intros Hreg. register_cases Hreg t frame. Qed.

Lemma register_timestamps t c b frame clock t' id :
  register t c b frame clock = Some (t', id) →
  timestamps t'
  = Dict.put (next_object_id t)
      {| first_seen := first_seen_at clock; last_seen := last_seen_at clock |}
      (timestamps t).
Proof. intros Hreg. register_cases Hreg t frame. Qed.

Lemma register_exit_times t c b frame clock t' id :
  register t c b frame clock = Some (t', id) → exit_times t' = exit_times t.
Proof. intros Hreg. register_cases Hreg t frame. Qed.

Lemma register_counted_people t c b frame clock t' id :
  register t c b frame clock = Some (t', id) →
  counted_people t' = counted_people t.
Proof. intros Hreg. register_cases Hreg t frame. Qed.

Lemma register_config t c b frame clock t' id :
  register t c b frame clock = Some (t', id) →
  max_disappeared t' = max_disappeared t ∧
  max_distance t' = max_distance t ∧
  exit_timeout t' = exit_timeout t ∧
  reid_enabled t' = reid_enabled t.
Proof. intros Hreg. register_cases Hreg t frame. Qed.

(** The new object starts New, or Scanned through the re-entry shortcut; no
    other state is touched. *)
Lemma register_states t c b frame clock t' id :
  register t c b frame clock = Some (t', id) →
  states t' = Dict.put (next_object_id t) New (states t) ∨
  states t'
  = Dict.put (next_object_id t) Scanned
      (Dict.put (next_object_id t) New (states t)).
Proof. intros Hreg. register_cases Hreg t frame; auto. Qed.

Lemma register_person_ids t c b frame clock t' id :
  register t c b frame clock = Some (t', id) →
  person_ids t' = person_ids t ∨
  (reid_enabled t = true ∧
   ∃ p, person_ids t' = Dict.put (next_object_id t) p (person_ids t)).
Proof. intros Hreg. register_cases Hreg t frame; eauto. Qed.

(** The re-entry shortcut: a registration resolved to a counted person starts
    in Scanned state. *)
Lemma register_reentry_scanned t c b f clock r p is_new t' id :
  reid_enabled t = true →
  identify_person (reid t) f b (next_object_id t) = Some (r, (p, is_new)) →
  p ∈ counted_people t →
  register t c b (Some f) clock = Some (t', id) →
  Dict.get (next_object_id t) (states t') = Some Scanned.
Proof.
  intros Hen Hident Hin Hreg. unfold register in Hreg. simpl in Hreg.
  rw Hen Hident in Hreg. simpl in Hreg.
  rw bool_decide_eq_true_2 // in Hreg. injection Hreg as <- <-.
  unfold mark_as_counted. simpl. rw get_put_eq. simpl. by rw get_put_eq.
Qed.

(** [register] returns unless [identify_person] raises: without
    re-identification or without a frame it always does. *)
Lemma register_returns t c b frame clock :
  is_Some (register t c b frame clock) ↔
  match reid_enabled t, frame with
  | true, Some f => is_Some (identify_person (reid t) f b (next_object_id t))
  | _, _ => True
  end.
Proof.
  unfold register. simpl.
  destruct (reid_enabled t); [destruct frame as [f|]|]; simpl;
    try (split; [done | by eauto]).
  destruct (identify_person _ f _ _) as [[r [p is_new]]|]; simpl.
  - split; [by eauto | by eauto].
  - split; intros [x Hx]; done.
Qed.

Lemma register_total t c b frame clock :
  reid_enabled t = false ∨ frame = None →
  is_Some (register t c b frame clock).
Proof.
  intros Hoff. apply register_returns.
  destruct (reid_enabled t); [destruct frame|]; try done.
  by destruct Hoff.
Qed.


(** *** deregister *)

Lemma deregister_eq t id now :
  deregister t id now =
  match Dict.get id (states t) with
  | None => None
  | Some st =>
      if Dict.mem id (objects t) && Dict.mem id (disappeared t)
         && Dict.mem id (positions t)
      then Some (with_live (Dict.remove id (objects t))
                   (Dict.remove id (disappeared t))
                   (Dict.remove id (positions t)) (exit_mark t id now st))
      else None
  end.
Proof.
  unfold deregister. destruct (Dict.get id (states t)) as [st|]; simpl; [|done].
  assert (objects (exit_mark t id now st) = objects t ∧
          disappeared (exit_mark t id now st) = disappeared t ∧
          positions (exit_mark t id now st) = positions t) as (Ho & Hd & Hp).
  { destruct st; simpl; try done.
    destruct (reid_enabled t); try done.
    destruct (Dict.get id (person_ids t)); done. }
  fold (exit_mark t id now st). rw Ho Hd Hp. unfold Dict.del.
  destruct (Dict.mem id (objects t)); simpl; [|done].
  destruct (Dict.mem id (disappeared t)); simpl; [|done].
  destruct (Dict.mem id (positions t)); reflexivity.
Qed.

Lemma exit_mark_fields t id now st :
  let t1 := exit_mark t id now st in
  next_object_id t1 = next_object_id t ∧ objects t1 = objects t ∧
  disappeared t1 = disappeared t ∧ positions t1 = positions t ∧
  timestamps t1 = timestamps t ∧ entry_times t1 = entry_times t ∧
  max_disappeared t1 = max_disappeared t ∧ max_distance t1 = max_distance t ∧
  exit_timeout t1 = exit_timeout t ∧ reid_enabled t1 = reid_enabled t ∧
  person_ids t1 = person_ids t ∧ reid t1 = reid t.
Proof.
  destruct st; simpl; try (by repeat split).
  destruct (reid_enabled t) eqn:E; [destruct (Dict.get id (person_ids t))|];
    simpl; rw ?E; by repeat split.
Qed.

Lemma exit_mark_scanned t id now :
  let t1 := exit_mark t id now Scanned in
  states t1 = Dict.put id Exited (states t) ∧
  exit_times t1 = Dict.put id now (exit_times t) ∧
  counted_people t1 =
    match reid_enabled t, Dict.get id (person_ids t) with
    | true, Some p => {[p]} ∪ counted_people t
    | _, _ => counted_people t
    end.
Proof.
  simpl. destruct (reid_enabled t); try done.
  destruct (Dict.get id (person_ids t)); done.
Qed.

Lemma exit_mark_other t id now st :
  st ≠ Scanned → exit_mark t id now st = t.
Proof. by destruct st. Qed.

(** C9. For a live object, [deregister] succeeds and removes it from the three
    live maps, leaving the other objects in place; exactly when its state is
    Scanned the state becomes Exited, the exit time is stamped and its person
    id, if one is mapped, joins the counted-persons set; in any other state
    neither the states, the exit times nor the counted set change. *)
Theorem deregister_removes_and_exits (t : Tracker) (id : nat) (now : Z)
    (st : State)
    (Hlive : Dict.mem id (objects t) = true)
    (Hsync : Dict.keys (disappeared t) = Dict.keys (objects t)
             ∧ Dict.keys (positions t) = Dict.keys (objects t))
    (Hstate : Dict.get id (states t) = Some st)
    (Hreid : reid_enabled t = false → person_ids t = []) :
  ∃ t', deregister t id now = Some t' ∧
    Dict.mem id (objects t') = false ∧
    Dict.mem id (disappeared t') = false ∧
    Dict.mem id (positions t') = false ∧
    (∀ k, k ≠ id →
       Dict.get k (objects t') = Dict.get k (objects t) ∧
       Dict.get k (disappeared t') = Dict.get k (disappeared t) ∧
       Dict.get k (positions t') = Dict.get k (positions t) ∧
       Dict.get k (states t') = Dict.get k (states t) ∧
       Dict.get k (exit_times t') = Dict.get k (exit_times t)) ∧
    match st with
    | Scanned =>
        Dict.get id (states t') = Some Exited ∧
        Dict.get id (exit_times t') = Some now ∧
        counted_people t' =
          match Dict.get id (person_ids t) with
          | Some p => {[p]} ∪ counted_people t
          | None => counted_people t
          end
    | _ =>
        states t' = states t ∧ exit_times t' = exit_times t ∧
        counted_people t' = counted_people t
    end.
Proof.
  destruct Hsync as [Hd Hp].
  assert (Dict.mem id (disappeared t) = true) as Hmd
    by (apply mem_keys; rw Hd; by apply mem_keys).
  assert (Dict.mem id (positions t) = true) as Hmp
    by (apply mem_keys; rw Hp; by apply mem_keys).
  rw deregister_eq Hstate Hlive Hmd Hmp /=. eexists. split; [done|].
  simpl. rw !mem_remove !Nat.eqb_refl /=. repeat split; try done.
  - by rw get_remove_ne.
  - by rw get_remove_ne.
  - by rw get_remove_ne.
  - destruct st; try done. destruct (exit_mark_scanned t id now) as (-> & _).
    by rw get_put_ne.
  - destruct st; try done. destruct (exit_mark_scanned t id now) as (_ & -> & _).
    by rw get_put_ne.
  - destruct st; try done.
    destruct (exit_mark_scanned t id now) as (Hs & He & Hc).
    rw Hs He Hc !get_put_eq. repeat split; try done.
    destruct (reid_enabled t); [done|].
    by rw Hreid.
Qed.


(** *** check_for_exits *)

Lemma foldM_invariant {A S : Type} (P : S → Prop) (f : S → A → option S)
    (l : list A) (s s' : S) :
  (∀ s x s', P s → f s x = Some s' → P s') →
  P s → foldM f l s = Some s' → P s'.
Proof.
  intros Hstep. revert s. induction l as [|x l IH]; intros s Hs Hrun; simpl in *.
  - by inversion Hrun; subst.
  - destruct (f s x) as [s1|] eqn:E; [|done]. eauto.
Qed.

(** The sweep marks the object Exited before it calls [deregister], so the
    branch of [deregister] that records the person never runs. *)
Lemma check_exit_counted_people now s entry s' :
  check_exit now s entry = Some s' →
  counted_people (fst s') = counted_people (fst s).
Proof.
  destruct s as [t ids]. unfold check_exit.
  destruct (Dict.get (fst entry) (states t)) as [[]|]; try by intros [= <-].
  destruct (_ && _); [|by intros [= <-]].
  rw deregister_eq /= get_put_eq.
  destruct (_ && _); simpl; [|done]. by intros [= <-].
Qed.

Lemma check_for_exits_counted_people t now t' ids :
  check_for_exits t now = Some (t', ids) →
  counted_people t' = counted_people t.
Proof.
  unfold check_for_exits. intros Hrun.
  apply (foldM_invariant
           (fun s : Tracker * list nat =>
              counted_people (fst s) = counted_people t)
           _ _ _ _ ) in Hrun; try done.
  intros s x s1 Hs Hstep. rw (check_exit_counted_people _ _ _ _ Hstep) //.
Qed.

(** *** Degenerate boxes *)



(** Without a network the features are 64 zeros or a histogram of 24
    entries. *)
Lemma extract_features_without_network (f : Frame) (b : BBox) :
  model = None →
  extract_features f b = zeros 64 ∨ length (extract_features f b) = 24.
Proof.
  intros Hnone. destruct b as [[[x1 y1] x2] y2]. unfold extract_features.
  destruct (frame_shape f) as [h w]. rw Hnone.
  destruct (_ || _); [by left | right]. apply histogram_length.
Qed.






End TrackerFacts.



(** Both ways on a concrete run, without a network.  After one crossing the
    gallery holds a histogram of 24 entries.  A zero-area detection far from
    the live object is registered under track id 1 when [update] gets no
    frame; with a frame its 64 zeros meet the histogram and [update]
    raises. *)
Lemma degenerate_box_against_histograms :
  (Scenario.run Scenario.patient Scenario.crossing ≫= fun s =>
   @update_tracker label_extractor stable_orders (sys_tracker s)
     [Scenario.empty_box] None (3 * Scenario.second)%Z ≫= fun t' =>
   Some (Dict.mem 1 (objects t'), Dict.get 1 (positions t')))
  = Some (true, Some (bbox_of Scenario.empty_box)) ∧
  (Scenario.run Scenario.patient Scenario.crossing ≫= fun s =>
   @update_tracker label_extractor stable_orders (sys_tracker s)
     [Scenario.empty_box] (Some 7 : option (@Frame label_extractor))
     (3 * Scenario.second)%Z)
  = None.
Proof. split; vm_compute; reflexivity. Qed.

(** ** Re-entry and the exit sweep on concrete runs *)

(** C1. With re-identification on, a person who crossed, was lost and comes
    back is registered under track id 1 directly in Scanned state with the
    counted person id 1; yet when that track moves Right to Left the aggregate
    counter goes from 1 to 2. *)
Theorem reentry_is_counted_again :
  Scenario.observe 1 <$> Scenario.run Scenario.impatient Scenario.reentry
  = Some (1, Some Scanned, Some 1, [1]) ∧
  Scenario.observe 1 <$>
    Scenario.run Scenario.impatient
      (Scenario.reentry
         ++ [Scenario.seen [Scenario.at_left] (5 * Scenario.second)%Z])
  = Some (2, Some Scanned, Some 1, [1]).
Proof. split; vm_compute; reflexivity. Qed.

(** C2. After a crossing, an exit sweep 18 seconds after the object was last
    seen returns its id, leaves it Exited with the exit time stamped and no
    longer live, but the counted-persons set stays empty although person id 1
    is mapped and re-identification is on; [deregister] on the same tracker
    does add the person. *)
Theorem exit_sweep_forgets_person :
  (Scenario.run Scenario.patient Scenario.crossing ≫= fun s =>
   check_for_exits (sys_tracker s) (20 * Scenario.second)%Z ≫= fun r =>
   Some (snd r, reid_enabled (fst r), Scenario.exit_view 0 (fst r)))
  = Some ([0], true,
          (Some Exited, Some (20 * Scenario.second)%Z, false, Some 1, [])) ∧
  (Scenario.run Scenario.patient Scenario.crossing ≫= fun s =>
   deregister (sys_tracker s) 0 (20 * Scenario.second)%Z ≫= fun t' =>
   Some (Scenario.exit_view 0 t'))
  = Some (Some Exited, Some (20 * Scenario.second)%Z, false, Some 1, [1]).
Proof. split; vm_compute; reflexivity. Qed.

(** ** Consistency is preserved *)

(** Projections out of the field updates. *)
Ltac fields :=
  cbn [with_live with_disappeared with_timestamps with_states with_entry_times
       with_exit_times with_person with_counted_people with_next_object_id
       next_object_id objects disappeared positions timestamps states
       entry_times exit_times max_disappeared max_distance exit_timeout
       reid_enabled person_ids counted_people reid fst snd] in *.

Section Consistency.
Context `{FE : FeatureExtractor} `{SO : Orders}.
Implicit Types (t : Tracker) (id k : nat).

Lemma wfb_wf t : wfb t = true → wf t.
Proof.
  unfold wfb, wf. rw !andb_true_iff !bool_decide_eq_true.
  intros [[[[[H1 H2] H3] H4] H5] H6]. split_and!; try done.
  - intros k Hk. apply get_keys in Hk. rw forallb_forall in H4.
    apply Nat.ltb_lt, H4. by apply list_elem_of_In.
  - intros k Hk. rw forallb_forall in H5. apply list_elem_of_In, H5 in Hk.
    destruct (Dict.get k (states t)) as [[]|]; try done;
      (split; [by eexists | by apply mem_true]).
  - intros Hr. rw Hr /= in H6. by destruct (person_ids t).
Qed.

Lemma wf_new md mx et re th ld : wf (Tracker_new md mx et re th ld).
Proof.
  split_and!; simpl; try done.
  - constructor.
  - intros k Hk. by inversion Hk.
Qed.

Lemma wf_live_bound t k :
  wf t → k ∈ Dict.keys (objects t) → k < next_object_id t.
Proof.
  intros (_ & _ & _ & H4 & H5 & _) Hk.
  destruct (H5 k Hk) as [(st & Hst & _) _]. apply H4. by eexists.
Qed.

Lemma wf_next_fresh t :
  wf t → Dict.mem (next_object_id t) (objects t) = false.
Proof.
  intros Hwf. destruct (Dict.mem _ _) eqn:E; [|done].
  apply mem_keys, (wf_live_bound _ _ Hwf) in E. lia.
Qed.

Lemma mem_sync {A B : Type} (d1 : Dict.t A) (d2 : Dict.t B) k :
  Dict.keys d1 = Dict.keys d2 → Dict.mem k d1 = Dict.mem k d2.
Proof.
  intros Hk. destruct (Dict.mem k d2) eqn:E.
  - apply mem_keys. rw Hk. by apply mem_keys.
  - destruct (Dict.mem k d1) eqn:E'; [|done].
    apply mem_keys in E'. rw Hk in E'. apply mem_keys in E'. congruence.
Qed.

Lemma state_mono_refl t : state_mono t t.
Proof. intros id st H. eauto. Qed.

Lemma state_mono_trans t1 t2 t3 :
  state_mono t1 t2 → state_mono t2 t3 → state_mono t1 t3.
Proof.
  intros H12 H23 id st H. destruct (H12 _ _ H) as (st2 & H2 & Hle).
  destruct (H23 _ _ H2) as (st3 & H3 & Hle'). exists st3. split; [done|lia].
Qed.

Lemma state_mono_eq t t' : states t' = states t → state_mono t t'.
Proof. intros Heq id st H. rw Heq. eauto. Qed.

(** Overwriting one state with a later one. *)
Lemma state_mono_put t t' id st' :
  states t' = Dict.put id st' (states t) →
  (∀ st, Dict.get id (states t) = Some st → State_rank st ≤ State_rank st') →
  state_mono t t'.
Proof.
  intros Heq Hle k st H. rw Heq. destruct (decide (id = k)) as [->|Hne].
  - rw get_put_eq. eauto.
  - rw get_put_ne //. eauto.
Qed.

Lemma register_wf t c b frame clock t' id :
  wf t → register t c b frame clock = Some (t', id) →
  wf t' ∧ state_mono t t'.
Proof.
  intros Hwf Hreg. pose proof (wf_next_fresh t Hwf) as Hfresh.
  destruct Hwf as (H1 & H2 & H3 & H4 & H5 & H6).
  assert (Dict.get (next_object_id t) (states t) = None) as Hnostate.
  { destruct (Dict.get _ (states t)) eqn:E; [|done].
    assert (next_object_id t < next_object_id t) by (apply H4; by eexists).
    lia. }
  split.
  - unfold wf.
    rw (register_objects _ _ _ _ _ _ _ Hreg)
      (register_disappeared _ _ _ _ _ _ _ Hreg)
      (register_positions _ _ _ _ _ _ _ Hreg)
      (register_next _ _ _ _ _ _ _ Hreg)
      (register_timestamps _ _ _ _ _ _ _ Hreg).
    rw !keys_put_fresh //; try by rw -Hfresh; apply mem_sync.
    split; [by rw H1|]. split; [by rw H2|]. split.
    { apply NoDup_app. split; [done|]. split; [|apply NoDup_singleton].
      intros k Hk Hk'. apply list_elem_of_singleton in Hk'. subst k.
      apply mem_keys in Hk. congruence. }
    split.
    { intros k Hk.
      destruct (decide (k = next_object_id t)) as [->|Hne]; [lia|].
      assert (is_Some (Dict.get k (states t))) as Hs.
      { destruct (register_states _ _ _ _ _ _ _ Hreg) as [Hst | Hst];
          rw Hst in Hk; by rw ?get_put_ne in Hk. }
      apply H4 in Hs. lia. }
    split.
    { intros k Hk. apply elem_of_app in Hk as [Hk | Hk].
      - assert (next_object_id t ≠ k) as Hne.
        { intros <-. apply mem_keys in Hk. congruence. }
        destruct (H5 k Hk) as [Hs Ht]. rw get_put_ne //. split; [|done].
        destruct (register_states _ _ _ _ _ _ _ Hreg) as [Hst | Hst];
          rw Hst; by rw ?get_put_ne.
      - apply list_elem_of_singleton in Hk. subst k. rw get_put_eq.
        split; [|by eexists].
        destruct (register_states _ _ _ _ _ _ _ Hreg) as [Hst | Hst];
          rw Hst get_put_eq; eexists; split; done. }
    destruct (register_config _ _ _ _ _ _ _ Hreg) as (_ & _ & _ & ->).
    intros Hr. destruct (register_person_ids _ _ _ _ _ _ _ Hreg)
      as [-> | [Hen _]]; [auto | congruence].
  - intros k st Hk.
    assert (next_object_id t ≠ k) as Hne by (intros <-; congruence).
    exists st. split; [|done].
    destruct (register_states _ _ _ _ _ _ _ Hreg) as [Hst | Hst];
      rw Hst; by rw ?get_put_ne.
Qed.


Lemma untouched_refl k t : untouched k t t.
Proof. by repeat split. Qed.

Lemma untouched_trans k t1 t2 t3 :
  untouched k t1 t2 → untouched k t2 t3 → untouched k t1 t3.
Proof.
  intros (A1 & A2 & A3 & A4 & A5 & A6) (B1 & B2 & B3 & B4 & B5 & B6).
  unfold untouched. by rw B1 B2 B3 B4 B5 B6.
Qed.

Lemma same_config_refl t : same_config t t.
Proof. by repeat split. Qed.

Lemma same_config_trans t1 t2 t3 :
  same_config t1 t2 → same_config t2 t3 → same_config t1 t3.
Proof.
  intros (A1 & A2 & A3 & A4) (B1 & B2 & B3 & B4).
  unfold same_config. by rw B1 B2 B3 B4.
Qed.

Lemma sound_step_refl t : wf t → sound_step t t.
Proof.
  intros Hwf. split; [done|]. split; [apply state_mono_refl|].
  split; [apply same_config_refl | lia].
Qed.

Lemma sound_step_trans t1 t2 t3 :
  sound_step t1 t2 → sound_step t2 t3 → sound_step t1 t3.
Proof.
  intros (_ & M1 & C1 & N1) (W & M2 & C2 & N2). split; [done|].
  split; [by eapply state_mono_trans|].
  split; [by eapply same_config_trans | lia].
Qed.

Lemma register_sound t c b frame clock t' id :
  wf t → register t c b frame clock = Some (t', id) → sound_step t t'.
Proof.
  intros Hwf Hreg. destruct (register_wf _ _ _ _ _ _ _ Hwf Hreg) as [Hw Hm].
  split; [done|]. split; [done|]. split.
  - by eapply register_config.
  - rw (register_next _ _ _ _ _ _ _ Hreg). lia.
Qed.

Lemma register_untouched t c b frame clock t' id k :
  wf t → k ≠ next_object_id t →
  register t c b frame clock = Some (t', id) → untouched k t t'.
Proof.
  intros Hwf Hne Hreg. unfold untouched.
  rw (register_objects _ _ _ _ _ _ _ Hreg)
    (register_disappeared _ _ _ _ _ _ _ Hreg)
    (register_positions _ _ _ _ _ _ _ Hreg)
    (register_timestamps _ _ _ _ _ _ _ Hreg)
    (register_exit_times _ _ _ _ _ _ _ Hreg) !get_put_ne //.
  repeat split; try done.
  destruct (register_states _ _ _ _ _ _ _ Hreg) as [-> | ->];
    by rw !get_put_ne.
Qed.

(** *** deregister *)

Lemma NoDup_list_filter {A : Type} (f : A → bool) (l : list A) :
  NoDup l → NoDup (List.filter f l).
Proof. rw !NoDup_ListNoDup. apply List.NoDup_filter. Qed.

Lemma elem_of_list_filter {A : Type} (f : A → bool) (l : list A) x :
  x ∈ List.filter f l ↔ x ∈ l ∧ f x = true.
Proof. rw !list_elem_of_In. apply List.filter_In. Qed.

Lemma deregister_sound t id now t' :
  wf t → deregister t id now = Some t' →
  sound_step t t' ∧ (∀ k, k ≠ id → untouched k t t') ∧
  Dict.keys (objects t')
  = List.filter (fun k => negb (Nat.eqb id k)) (Dict.keys (objects t)) ∧
  timestamps t' = timestamps t ∧
  Dict.mem id (objects t) = true ∧
  Dict.mem id (objects t') = false ∧
  (Dict.get id (states t) = Some Scanned →
   Dict.get id (states t') = Some Exited ∧
   Dict.get id (exit_times t') = Some now).
Proof.
  intros (H1 & H2 & H3 & H4 & H5 & H6). rw deregister_eq.
  destruct (Dict.get id (states t)) as [st|] eqn:Hst; [|done].
  destruct (Dict.mem id (objects t)) eqn:Hmo; [|done].
  destruct (_ && _); [|done]. intros [= <-].
  destruct (exit_mark_fields t id now st)
    as (F1 & F2 & F3 & F4 & F5 & F6 & F7 & F8 & F9 & F10 & F11 & F12).
  assert (∀ k, k ≠ id →
            Dict.get k (states (exit_mark t id now st)) = Dict.get k (states t))
    as Hstates.
  { intros k Hk. destruct st; try done.
    destruct (exit_mark_scanned t id now) as (-> & _). by rw get_put_ne. }
  assert (∀ k, k ≠ id →
            Dict.get k (exit_times (exit_mark t id now st))
            = Dict.get k (exit_times t)) as Hexits.
  { intros k Hk. destruct st; try done.
    destruct (exit_mark_scanned t id now) as (_ & -> & _). by rw get_put_ne. }
  assert (state_mono t (exit_mark t id now st)) as Hmono.
  { destruct st; try apply state_mono_refl.
    eapply state_mono_put; [apply exit_mark_scanned|].
    intros st. destruct st; simpl; lia. }
  assert (wf (with_live (Dict.remove id (objects t))
                (Dict.remove id (disappeared t))
                (Dict.remove id (positions t)) (exit_mark t id now st)))
    as Hwf.
  { unfold wf. fields. rw !keys_remove H1 H2 F1 F10 F11 F5.
    split_and!; try done.
    + by apply NoDup_list_filter.
    + intros k Hk. apply H4. destruct (decide (k = id)) as [->|Hne].
      * by eexists.
      * by rw -Hstates.
    + intros k Hk. apply elem_of_list_filter in Hk as [Hk Hne].
      apply negb_true_iff, Nat.eqb_neq in Hne.
      destruct (H5 k Hk) as [Hs Ht]. split; [|done].
      rw Hstates //; by intros ->. }
  split; [split_and!|split_and!]; fields; try done.
  - rw F1. lia.
  - intros k Hk. unfold untouched. fields.
    rw !get_remove_ne // F5 Hstates // Hexits //.
  - by rw keys_remove.
  - rw mem_remove Nat.eqb_refl //.
  - intros [= ->]. destruct (exit_mark_scanned t id now) as (-> & -> & _).
    by rw !get_put_eq.
Qed.

Lemma deregister_total t id now :
  wf t → id ∈ Dict.keys (objects t) → is_Some (deregister t id now).
Proof.
  intros (H1 & H2 & H3 & H4 & H5 & H6) Hin. rw deregister_eq.
  destruct (H5 id Hin) as [(st & -> & _) _].
  rw (mem_sync (disappeared t) (objects t)) //.
  rw (mem_sync (positions t) (objects t)) //.
  apply mem_keys in Hin. rw Hin /=. by eexists.
Qed.


(** *** mark_as_scanned and mark_as_counted *)

Lemma wf_put_state t id st' :
  wf t → is_Some (Dict.get id (states t)) → st' ≠ Exited →
  wf (with_states (Dict.put id st' (states t)) t).
Proof.
  intros (H1 & H2 & H3 & H4 & H5 & H6) Hhas Hne. unfold wf. fields.
  split_and!; try done.
  - intros k Hk. destruct (decide (id = k)) as [<-|Hk']; [by apply H4|].
    rw get_put_ne // in Hk. by apply H4.
  - intros k Hk. destruct (H5 k Hk) as [Hs Ht]. split; [|done].
    destruct (decide (id = k)) as [<-|Hk'].
    + rw get_put_eq. eauto.
    + by rw get_put_ne.
Qed.

Lemma mark_as_scanned_sound t id :
  wf t → sound_step t (fst (mark_as_scanned t id)).
Proof.
  intros Hwf. unfold mark_as_scanned.
  destruct (Dict.mem id (objects t)) eqn:Hm; [|by apply sound_step_refl].
  pose proof Hwf as (_ & _ & _ & _ & H5 & _).
  apply mem_keys in Hm. destruct (H5 id Hm) as [(st & Hst & Hne) _].
  cbn [fst]. unfold sound_step. split_and!.
  - apply wf_put_state; [done | by eexists | done].
  - eapply state_mono_put; [done|]. intros st0 Hst0.
    rw Hst in Hst0. injection Hst0 as <-. destruct st; simpl; try lia. done.
  - by repeat split.
  - fields. lia.
Qed.

Lemma mark_as_counted_sound t id now :
  wf t → sound_step t (mark_as_counted t id now).
Proof.
  intros Hwf. unfold mark_as_counted.
  destruct (Dict.get id (states t)) as [[]|] eqn:Hst;
    try by apply sound_step_refl.
  unfold sound_step. split_and!.
  - assert (wf (with_states (Dict.put id Scanned (states t)) t)) as Hwf'
      by (apply wf_put_state; [done | by eexists | done]).
    destruct Hwf' as (H1 & H2 & H3 & H4 & H5 & H6). unfold wf. fields.
    by split_and!.
  - eapply state_mono_put; [done|]. intros st0 Hst0.
    rw Hst in Hst0. injection Hst0 as <-. simpl. lia.
  - by repeat split.
  - fields. lia.
Qed.

(** *** One missed frame *)

Lemma wf_with_disappeared t id n :
  wf t → Dict.mem id (disappeared t) = true →
  wf (with_disappeared (Dict.put id n (disappeared t)) t).
Proof.
  intros (H1 & H2 & H3 & H4 & H5 & H6) Hm. unfold wf, with_disappeared. fields.
  rw keys_put_mem //.
Qed.

Lemma miss_sound now t id t' :
  wf t → miss now t id = Some t' →
  sound_step t t' ∧ (∀ k, k ≠ id → untouched k t t') ∧
  timestamps t' = timestamps t ∧
  (∀ k, k ∈ Dict.keys (objects t') → k ∈ Dict.keys (objects t)) ∧
  Dict.mem id (objects t) = true ∧
  ∃ n, Dict.get id (disappeared t) = Some n ∧ missed id n now t t'.
Proof.
  intros Hwf. unfold miss.
  destruct (Dict.get id (disappeared t)) as [n|] eqn:Hn; [|done]. simpl.
  assert (Dict.mem id (disappeared t) = true) as Hmd
    by (apply mem_true; by eexists).
  assert (Dict.mem id (objects t) = true) as Hmo.
  { pose proof Hwf as (H1 & _). by rw -(mem_sync (disappeared t) (objects t)). }
  pose proof (wf_with_disappeared t id (S n) Hwf Hmd) as Hwf1.
  set (t1 := with_disappeared (Dict.put id (S n) (disappeared t)) t) in *.
  assert (sound_step t t1) as Hs1.
  { unfold sound_step.
    split_and!; [done | by apply state_mono_eq | by repeat split
                | subst t1; unfold with_disappeared; fields; lia]. }
  assert (∀ k, k ≠ id → untouched k t t1) as Hu1.
  { intros k Hk. subst t1. unfold untouched, with_disappeared. fields.
    rw get_put_ne //. }
  replace (max_disappeared t1) with (max_disappeared t) by done.
  destruct (Z.ltb (max_disappeared t) (Z.of_nat (S n))) eqn:Hlt.
  - intros Hd.
    destruct (deregister_sound t1 id now t' Hwf1 Hd)
      as (Hs & Hu & Hk & Hts & _ & Hgone & Hexit).
    split_and!; try done.
    + intros k Hne. eapply untouched_trans; [by apply Hu1 | by apply Hu].
    + intros k. rw Hk. intros Hin. by apply elem_of_list_filter in Hin as [? _].
    + exists n. split; [done|]. unfold missed. rw Hlt. split; [done|].
      apply Hexit.
  - intros [= <-]. split_and!; try done.
    exists n. split; [done|]. unfold missed. rw Hlt. split; [done|].
    subst t1. unfold with_disappeared. fields. by rw get_put_eq.
Qed.

Lemma miss_total now t id :
  wf t → id ∈ Dict.keys (objects t) → is_Some (miss now t id).
Proof.
  intros Hwf Hin. unfold miss.
  assert (Dict.mem id (disappeared t) = true) as Hmd.
  { pose proof Hwf as (H1 & _). rw (mem_sync (disappeared t) (objects t)) //.
    by apply mem_keys. }
  destruct (Dict.get id (disappeared t)) as [n|] eqn:Hn;
    [|apply mem_false in Hn; congruence].
  simpl. destruct (Z.ltb _ _); [|by eexists].
  apply deregister_total; [by apply wf_with_disappeared|done].
Qed.

End Consistency.

(** ** The loops of update *)

Section Loops.
Context `{FE : FeatureExtractor} `{SO : Orders}.
Implicit Types (t : Tracker) (id k : nat).

Lemma foldM_app {A S : Type} (f : S → A → option S) (l1 l2 : list A) (s : S) :
  foldM f (l1 ++ l2) s = foldM f l1 s ≫= foldM f l2.
Proof.
  revert s. induction l1 as [|x l1 IH]; intros s; simpl; [done|].
  destruct (f s x); simpl; [apply IH | done].
Qed.

Lemma foldM_sound {A : Type} (f : Tracker → A → option Tracker)
    (l : list A) t t' :
  (∀ t x t', wf t → f t x = Some t' → sound_step t t') →
  wf t → foldM f l t = Some t' → sound_step t t'.
Proof.
  intros Hstep. revert t. induction l as [|x l IH]; intros t Hwf Hrun;
    simpl in *.
  - injection Hrun as <-. by apply sound_step_refl.
  - destruct (f t x) as [t1|] eqn:E; [|done].
    pose proof (Hstep _ _ _ Hwf E) as Hs.
    eapply sound_step_trans; [done|]. apply IH; [apply Hs | done].
Qed.

(** *** Deregistering a list of objects (the load shedding) *)

Lemma shed_sound t detections now t' :
  wf t → shed t detections now = Some t' → sound_step t t'.
Proof.
  intros Hwf. unfold shed. destruct (_ && _).
  - apply foldM_sound; [|done]. intros t0 x t1 Hwf0 Hd.
    by destruct (deregister_sound _ _ _ _ Hwf0 Hd) as [Hs _].
  - intros [= <-]. by apply sound_step_refl.
Qed.

(** *** Registering a list of detections *)

(** One step of [register_all]. *)
Lemma register_all_step frame now (cs : list Centroid) (bs : list BBox)
    (col : nat) t t1 :
  (c ← cs !! col; b ← bs !! col;
   r ← register t c b frame (same_reading now); Some (fst r)) = Some t1 →
  ∃ c b id, cs !! col = Some c ∧ bs !! col = Some b ∧
            register t c b frame (same_reading now) = Some (t1, id).
Proof.
  destruct (cs !! col) as [c|]; [|done]. destruct (bs !! col) as [b|]; [|done].
  simpl. destruct (register _ _ _ _ _) as [[t2 id]|] eqn:Hreg; [|done].
  simpl. intros [= <-]. by exists c, b, id.
Qed.

Lemma register_all_cons frame now (cs : list Centroid) (bs : list BBox)
    (col : nat) cols t t' :
  register_all frame now cs bs (col :: cols) t = Some t' →
  ∃ c b id t1, cs !! col = Some c ∧ bs !! col = Some b ∧
               register t c b frame (same_reading now) = Some (t1, id) ∧
               register_all frame now cs bs cols t1 = Some t'.
Proof.
  unfold register_all. cbn [foldM]. intros Hrun.
  destruct (c ← cs !! col; b ← bs !! col;
            r ← register t c b frame (same_reading now); Some (fst r))
    as [t1|] eqn:Hstep; [|done].
  apply register_all_step in Hstep as (c & b & id & Hc & Hb & Hreg).
  by exists c, b, id, t1.
Qed.

Lemma register_all_sound frame now cs bs cols t t' :
  wf t → register_all frame now cs bs cols t = Some t' → sound_step t t'.
Proof.
  intros Hwf. apply foldM_sound; [|done]. intros t0 col t1 Hwf0 Hstep.
  apply register_all_step in Hstep as (c & b & id & _ & _ & Hreg).
  by eapply register_sound.
Qed.

Lemma register_all_untouched frame now cs bs cols t t' k :
  wf t → k < next_object_id t →
  register_all frame now cs bs cols t = Some t' → untouched k t t'.
Proof.
  revert t.
  induction cols as [|col cols IH]; intros t Hwf Hk Hrun.
  - injection Hrun as <-. apply untouched_refl.
  - apply register_all_cons in Hrun
      as (c & b & id & t1 & _ & _ & Hreg & Hrun).
    eapply untouched_trans.
    + eapply register_untouched; [done | | done]. lia.
    + apply IH; [by eapply register_sound | | done].
      rw (register_next _ _ _ _ _ _ _ Hreg). lia.
Qed.

Lemma register_all_live frame now cs bs cols t t' k :
  register_all frame now cs bs cols t = Some t' →
  Dict.mem k (objects t) = true → Dict.mem k (objects t') = true.
Proof.
  revert t.
  induction cols as [|col cols IH]; intros t Hrun Hk.
  - by injection Hrun as <-.
  - apply register_all_cons in Hrun
      as (c & b & id & t1 & _ & _ & Hreg & Hrun).
    eapply IH; [done|].
    rw (register_objects _ _ _ _ _ _ _ Hreg) mem_put Hk. by rw orb_true_r.
Qed.

(** Without re-identification or without a frame nothing in [register] can
    raise, and the loop runs through. *)
Lemma register_all_total frame now cs bs cols t :
  reid_enabled t = false ∨ frame = None →
  (∀ col, col ∈ cols → col < length cs ∧ col < length bs) →
  is_Some (register_all frame now cs bs cols t).
Proof.
  unfold register_all. revert t.
  induction cols as [|col cols IH]; intros t Hoff Hcols; simpl; [by eexists|].
  destruct (Hcols col) as [Hc Hb]; [left|].
  destruct (lookup_lt_is_Some_2 cs col Hc) as [c ->].
  destruct (lookup_lt_is_Some_2 bs col Hb) as [b ->]. simpl.
  destruct (register_total t c b frame (same_reading now) Hoff)
    as [[t1 id] Hreg].
  rw Hreg. simpl. apply IH.
  - destruct Hoff as [Hoff | Hnone]; [left | by right].
    by destruct (register_config _ _ _ _ _ _ _ Hreg) as (_ & _ & _ & ->).
  - intros col' Hin. apply Hcols. by right.
Qed.

(** *** The loop over objects without a detection *)

Lemma untouched_mem k t t' :
  untouched k t t' → Dict.mem k (objects t') = Dict.mem k (objects t).
Proof. intros (U1 & _). unfold Dict.mem. by rw U1. Qed.

Lemma missed_later id n now t t1 t' :
  untouched id t1 t' → missed id n now t t1 → missed id n now t t'.
Proof.
  intros Hu Hm. pose proof (untouched_mem _ _ _ Hu) as Hmem.
  destruct Hu as (U1 & U2 & U3 & U4 & U5 & U6). unfold missed in *.
  destruct (Z.ltb _ _).
  - destruct Hm as [Hg Hx]. split; [congruence|].
    intros Hs. rw U5 U6. by apply Hx.
  - destruct Hm as [Hl Hd]. split; congruence.
Qed.

Lemma miss_loop now ids t :
  wf t → NoDup ids → (∀ id, id ∈ ids → id ∈ Dict.keys (objects t)) →
  ∃ t', foldM (miss now) ids t = Some t' ∧
        sound_step t t' ∧
        timestamps t' = timestamps t ∧
        (∀ k, k ∉ ids → untouched k t t') ∧
        (∀ k, k ∈ Dict.keys (objects t') → k ∈ Dict.keys (objects t)) ∧
        (∀ id n, id ∈ ids → Dict.get id (disappeared t) = Some n →
                 missed id n now t t').
Proof.
  revert t. induction ids as [|id ids IH]; intros t Hwf Hnd Hlive.
  - exists t.
    split_and!;
      [ done | by apply sound_step_refl | done
      | intros; apply untouched_refl | done
      | intros id n Hin; inversion Hin ].
  - apply NoDup_cons in Hnd as [Hnotin Hnd].
    destruct (miss_total now t id Hwf) as [t1 Ht1]; [apply Hlive; left|].
    destruct (miss_sound now t id t1 Hwf Ht1)
      as (Hs1 & Hu1 & Hts1 & Hsub1 & Hmo & n & Hn & Hmiss).
    destruct (IH t1) as (t' & Hrun & Hs & Hts & Hu & Hsub & Hpost);
      [apply Hs1 | done | |].
    { intros k Hk. assert (k ≠ id) as Hne by (intros ->; done).
      apply mem_keys. rw (untouched_mem k t t1); [by apply Hu1|].
      apply mem_keys, Hlive. by right. }
    exists t'. simpl. rw Ht1.
    split_and!; [ done | by eapply sound_step_trans | congruence | | | ].
    + intros k Hk. apply not_elem_of_cons in Hk as [Hne Hk].
      eapply untouched_trans; [by apply Hu1 | by apply Hu].
    + intros k Hk. by apply Hsub1, Hsub.
    + intros id' n' Hin Hn'. apply elem_of_cons in Hin as [-> | Hin].
      * assert (n' = n) as -> by congruence.
        eapply missed_later; [by apply Hu | done].
      * assert (id' ≠ id) as Hne by (intros ->; done).
        destruct (Hu1 id' Hne) as (U1 & U2 & U3 & U4 & U5 & U6).
        assert (missed id' n' now t1 t') as Hm by (apply Hpost; [done|congruence]).
        destruct Hs1 as (_ & _ & (C1 & _) & _).
        unfold missed in *. rw C1 U5 in Hm. done.
Qed.


(** *** The greedy loop *)

Lemma union_singleton_subseteq (x : nat) (X Y : gset nat) :
  {[x]} ∪ X ⊆ Y → X ⊆ Y ∧ x ∈ Y.
Proof.
  intros H. split.
  - intros y Hy. apply H, elem_of_union. by right.
  - apply H, elem_of_union. left. by apply elem_of_singleton.
Qed.

Lemma rematch_sound t id c b now :
  wf t → id ∈ Dict.keys (objects t) →
  sound_step t (rematch t id c b now) ∧
  Dict.keys (objects (rematch t id c b now)) = Dict.keys (objects t) ∧
  states (rematch t id c b now) = states t ∧
  exit_times (rematch t id c b now) = exit_times t ∧
  (∀ k, k ≠ id → untouched k t (rematch t id c b now)).
Proof.
  intros Hwf Hin. pose proof Hwf as (H1 & H2 & H3 & H4 & H5 & H6).
  assert (Dict.mem id (objects t) = true) as Hmo by by apply mem_keys.
  assert (Dict.mem id (disappeared t) = true) as Hmd
    by by rw (mem_sync (disappeared t) (objects t)).
  assert (Dict.mem id (positions t) = true) as Hmp
    by by rw (mem_sync (positions t) (objects t)).
  unfold rematch.
  split_and!; fields; [ | by rw keys_put_mem | done | done | ].
  - unfold sound_step. split_and!; [ | by apply state_mono_eq | done | fields; lia ].
    unfold wf. fields. rw !keys_put_mem //. split_and!; try done.
    intros k Hk. destruct (H5 k Hk) as [Hs Ht]. split; [done|].
    apply mem_true. rw mem_alter. by apply mem_true.
  - intros k Hk. unfold untouched. fields.
    rw !get_put_ne // get_alter_ne //.
Qed.

Lemma match_step_inv D oids cs bs now t ur uc row col t' ur' uc' :
  match_step D oids cs bs now (t, ur, uc) (row, col) = Some (t', ur', uc') →
  (t' = t ∧ ur' = ur ∧ uc' = uc ∧
   (row ∈ ur ∨ col ∈ uc ∨
    ∃ d, D !! row ≫= (fun r => r !! col) = Some d
         ∧ exceeds d (max_distance t) = true)) ∨
  ((row ∉ ur) ∧ (col ∉ uc) ∧ ur' = {[row]} ∪ ur ∧ uc' = {[col]} ∪ uc ∧
   ∃ d id c b,
     D !! row ≫= (fun r => r !! col) = Some d ∧
     exceeds d (max_distance t) = false ∧
     oids !! row = Some id ∧ cs !! col = Some c ∧ bs !! col = Some b ∧
     is_Some (Dict.get id (timestamps t)) ∧
     t' = rematch t id c b now).
Proof.
  unfold match_step.
  destruct (bool_decide_reflect (row ∈ ur)) as [Hr|Hr]; simpl.
  { intros [= <- <- <-]. left. split_and!; auto. }
  destruct (bool_decide_reflect (col ∈ uc)) as [Hc|Hc]; simpl.
  { intros [= <- <- <-]. left. split_and!; auto. }
  destruct (D !! row ≫= (fun r => r !! col)) as [d|] eqn:Hd; [|done]. simpl.
  destruct (exceeds d (max_distance t)) eqn:Hex.
  { intros [= <- <- <-]. left. split_and!; eauto 10. }
  destruct (oids !! row) as [id|] eqn:Hid; [|done]. simpl.
  destruct (cs !! col) as [c|] eqn:Hcs; [|done]. simpl.
  destruct (bs !! col) as [b|] eqn:Hbs; [|done]. simpl.
  destruct (Dict.get id (timestamps t)) as [ts|] eqn:Hts; [|done]. simpl.
  intros [= <- <- <-]. right. split_and!; try done.
  exists d, id, c, b. split_and!; try done.
Qed.

Lemma greedy_loop_sound D oids cs bs now pairs t ur uc t' ur' uc' :
  wf t → Dict.keys (objects t) = oids →
  foldM (match_step D oids cs bs now) pairs (t, ur, uc) = Some (t', ur', uc') →
  sound_step t t' ∧ Dict.keys (objects t') = oids ∧
  states t' = states t ∧ exit_times t' = exit_times t ∧
  ur ⊆ ur' ∧ uc ⊆ uc' ∧
  (∀ r id, oids !! r = Some id → r ∉ ur' → untouched id t t') ∧
  (∀ k, k ∉ oids → untouched k t t').
Proof.
  revert t ur uc. induction pairs as [|[row col] pairs IH];
    intros t ur uc Hwf Hkeys Hrun; cbn [foldM] in Hrun.
  - injection Hrun as <- <- <-.
    split; [by apply sound_step_refl|]. split_and!; [ done .. | | ];
      intros; apply untouched_refl.
  - destruct (match_step D oids cs bs now (t, ur, uc) (row, col))
      as [[[t1 ur1] uc1]|] eqn:Hstep; [|done].
    apply match_step_inv in Hstep
      as [(-> & -> & -> & _)
         | (Hr & Hc & -> & -> & d & id & c & b & Hd & Hex & Hid & Hcs & Hbs
            & Hts & ->)].
    { by apply IH. }
    assert (id ∈ Dict.keys (objects t)) as Hin
      by (rw Hkeys; by eapply list_elem_of_lookup_2).
    destruct (rematch_sound t id c b now Hwf Hin) as (Hs1 & Hk1 & Hst1 & Hex1 & Hu1).
    destruct (IH _ _ _ (proj1 Hs1) (eq_trans Hk1 Hkeys) Hrun)
      as (Hs & Hk & Hst & Hext & Hur & Huc & Hu & Hout).
    split; [eapply sound_step_trans; [apply Hs1 | apply Hs]|].
    apply union_singleton_subseteq in Hur as [Hur Hrow].
    apply union_singleton_subseteq in Huc as [Huc Hcol].
    split_and!; [ done | congruence | congruence | done | done | | ].
    + intros r id' Hid' Hr'. eapply untouched_trans; [|by eapply Hu].
      apply Hu1. intros ->.
      assert (r = row) as ->; [|done].
      pose proof Hwf as (_ & _ & Hnd & _). rw Hkeys in Hnd.
      by eapply NoDup_lookup.
    + intros k Hnot. eapply untouched_trans; [|by apply Hout].
      apply Hu1. intros ->. apply Hnot. by eapply list_elem_of_lookup_2.
Qed.


(** *** update, check_for_exits and count_visitors preserve consistency *)

Lemma update_tracker_sound t detections frame now t' :
  wf t → update_tracker t detections frame now = Some t' → sound_step t t'.
Proof.
  intros Hwf. unfold update_tracker.
  destruct (shed t detections now) as [t1|] eqn:Hshed; [|done].
  pose proof (shed_sound _ _ _ _ Hwf Hshed) as Hs1. cbn [mbind option_bind].
  destruct (Nat.eqb (length detections) 0).
  { intros Hrun. eapply sound_step_trans; [done|].
    eapply foldM_sound; [|apply Hs1|done].
    intros t0 x t2 Hwf0 Hm. by destruct (miss_sound _ _ _ _ Hwf0 Hm) as [? _]. }
  destruct (Nat.eqb (length (objects t1)) 0).
  { intros Hrun. eapply sound_step_trans; [done|].
    eapply register_all_sound; [apply Hs1|done]. }
  destruct (greedy_match _ _ _ _) as [[[t2 ur] uc]|] eqn:Hgreedy; [|done].
  cbn [mbind option_bind].
  destruct (foldM _ (unused _ ur) t2) as [t3|] eqn:Hmiss; [|done].
  cbn [mbind option_bind]. intros Hreg.
  unfold greedy_match in Hgreedy.
  destruct (pairing_order _) as [pairs|]; [|done]. cbn [mbind option_bind] in Hgreedy.
  destruct (greedy_loop_sound _ _ _ _ _ _ _ _ _ _ _ _ (proj1 Hs1) eq_refl Hgreedy)
    as (Hs2 & _).
  assert (sound_step t2 t3) as Hs3.
  { eapply foldM_sound; [|apply Hs2|done].
    intros t0 row t4 Hwf0.
    cbv beta. destruct (Dict.keys (objects t1) !! row) as [id|]; simpl; [|done].
    intros Hm. by destruct (miss_sound _ _ _ _ Hwf0 Hm) as [? _]. }
  eapply sound_step_trans; [done|]. eapply sound_step_trans; [done|].
  eapply sound_step_trans; [done|].
  eapply register_all_sound; [apply Hs3|done].
Qed.

(** The sweep's own marking followed by [deregister]. *)
Lemma exit_sweep_sound t id now t' :
  wf t → Dict.get id (states t) = Some Scanned →
  deregister
    (with_exit_times (Dict.put id now (exit_times t))
       (with_states (Dict.put id Exited (states t)) t)) id now = Some t' →
  sound_step t t' ∧ (∀ k, k ≠ id → untouched k t t') ∧
  Dict.mem id (objects t') = false ∧
  Dict.get id (states t') = Some Exited ∧
  Dict.get id (exit_times t') = Some now ∧
  timestamps t' = timestamps t.
Proof.
  intros (H1 & H2 & H3 & H4 & H5 & H6) Hst. rw deregister_eq. fields.
  rw get_put_eq. destruct (_ && _); [|done]. intros [= <-]. cbn [exit_mark].
  split; [unfold sound_step; split_and!|split_and!].
  - unfold wf. fields. rw !keys_remove H1 H2. split_and!; try done.
    + by apply NoDup_list_filter.
    + intros k Hk. apply H4. destruct (decide (id = k)) as [<-|Hne];
        [by eexists | by rw get_put_ne in Hk].
    + intros k Hk. apply elem_of_list_filter in Hk as [Hk Hne].
      apply negb_true_iff, Nat.eqb_neq in Hne.
      destruct (H5 k Hk) as [Hs Ht]. split; [|done]. by rw get_put_ne.
  - eapply state_mono_put; [done|]. intros st. destruct st; simpl; lia.
  - by repeat split.
  - fields. lia.
  - intros k Hk. unfold untouched. fields. by rw !get_remove_ne // !get_put_ne.
  - fields. by rw mem_remove Nat.eqb_refl.
  - fields. by rw get_put_eq.
  - fields. by rw get_put_eq.
  - done.
Qed.

Lemma check_exit_sound now t ids entry t' ids' :
  wf t → check_exit now (t, ids) entry = Some (t', ids') → sound_step t t'.
Proof.
  intros Hwf. unfold check_exit.
  destruct (Dict.get (fst entry) (states t)) as [[]|] eqn:Hst;
    try (intros [= <- <-]; by apply sound_step_refl).
  destruct (_ && _); [|intros [= <- <-]; by apply sound_step_refl].
  destruct (deregister _ _ _) as [t2|] eqn:Hd; [|done]. simpl.
  intros [= <- <-]. by destruct (exit_sweep_sound _ _ _ _ Hwf Hst Hd) as [? _].
Qed.

Lemma check_for_exits_sound t now t' ids :
  wf t → check_for_exits t now = Some (t', ids) → sound_step t t'.
Proof.
  unfold check_for_exits. generalize (@nil nat) as ids0.
  generalize (timestamps t) as entries. intros entries. revert t.
  induction entries as [|e entries IH]; intros t ids0 Hwf Hrun;
    cbn [foldM] in Hrun.
  - injection Hrun as <- <-. by apply sound_step_refl.
  - destruct (check_exit now (t, ids0) e) as [[t1 ids1]|] eqn:E; [|done].
    pose proof (check_exit_sound _ _ _ _ _ _ Hwf E) as Hs.
    eapply sound_step_trans; [done|]. eapply IH; [apply Hs | done].
Qed.

Lemma count_object_tracker now c tr item :
  snd (count_object now (c, tr) item) = tr ∨
  snd (count_object now (c, tr) item) = fst (mark_as_scanned tr (fst item)).
Proof.
  rw count_object_eq. cbv zeta. destruct (bool_decide _); [by left|].
  destruct (Dict.get _ _); [|by left].
  destruct (_ && _); [by right | by left].
Qed.

Lemma count_visitors_sound c objs tr now :
  wf tr → sound_step tr (snd (fst (count_visitors c objs tr now))).
Proof.
  unfold count_visitors. cbn [fst]. revert c tr.
  induction objs as [|item objs IH]; intros c tr Hwf; cbn [fold_left].
  - by apply sound_step_refl.
  - destruct (count_object now (c, tr) item) as [c1 tr1] eqn:E.
    assert (sound_step tr tr1) as Hs.
    { destruct (count_object_tracker now c tr item) as [H | H];
        rw E /= in H; subst tr1;
        [by apply sound_step_refl | by apply mark_as_scanned_sound]. }
    eapply sound_step_trans; [done|]. apply IH, Hs.
Qed.

Lemma step_sound s o s' :
  wf (sys_tracker s) → step s o = Some s' →
  sound_step (sys_tracker s) (sys_tracker s').
Proof.
  intros Hwf. destruct o; cbn [step].
  - destruct (register _ _ _ _ _) as [[t' id]|] eqn:E; [|done].
    intros [= <-]. by eapply register_sound.
  - destruct (deregister _ _ _) as [t'|] eqn:E; [|done]. intros [= <-].
    by destruct (deregister_sound _ _ _ _ Hwf E) as [? _].
  - intros [= <-]. by apply mark_as_scanned_sound.
  - intros [= <-]. by apply mark_as_counted_sound.
  - unfold update. destruct (update_tracker _ _ _ _) as [t'|] eqn:E; [|done].
    cbn [mbind option_bind]. destruct (get_objects t'); [|done].
    intros [= <-]. by eapply update_tracker_sound.
  - destruct (check_for_exits _ _) as [[t' ids]|] eqn:E; [|done].
    intros [= <-]. by eapply check_for_exits_sound.
  - intros [= <-]. by apply count_visitors_sound.
  - unfold update. destruct (update_tracker _ _ _ _) as [t'|] eqn:E; [|done].
    cbn [mbind option_bind]. destruct (get_objects t'); [|done].
    cbn [mbind option_bind fst snd]. intros [= <-]. cbn [sys_tracker].
    pose proof (update_tracker_sound _ _ _ _ _ Hwf E) as Hs.
    eapply sound_step_trans; [done|]. apply count_visitors_sound, Hs.
Qed.

Lemma run_sound s ops s' :
  wf (sys_tracker s) → run s ops = Some s' →
  sound_step (sys_tracker s) (sys_tracker s').
Proof.
  unfold run. revert s. induction ops as [|o ops IH]; intros s Hwf Hrun;
    cbn [foldM] in Hrun.
  - injection Hrun as <-. by apply sound_step_refl.
  - destruct (step s o) as [s1|] eqn:E; [|done].
    pose proof (step_sound _ _ _ Hwf E) as Hs.
    eapply sound_step_trans; [done|]. apply IH; [apply Hs | done].
Qed.

End Loops.

(** ** The state machine of a tracked object *)

Section StateMachine.
Context `{FE : FeatureExtractor} `{SO : Orders}.

(** Every tracker reached from the constructor is consistent. *)
Lemma reachable_wf md mx et re th ld c0 ops s :
  run {| sys_tracker := Tracker_new md mx et re th ld; sys_counter := c0 |} ops
  = Some s →
  wf (sys_tracker s).
Proof.
  intros Hrun. apply run_sound in Hrun; [apply Hrun | apply wf_new].
Qed.

(** C8. From any state reached from a new tracker, under any further
    sequence of tracker and counter operations that runs to completion, the
    state of every object keeps or raises its rank along New, Scanned, Exited:
    Scanned never falls back to New and Exited never changes.  And
    deregistering an object in New state removes it from the live set while
    its state, the exit times and the counted persons stay as they were. *)
Theorem state_only_moves_forward (md : Z) (mx et : Q) (re : bool) (th : Q)
    (ld : bool) (c0 : VisitorCounter) (ops1 ops2 : list Op) (s s' : System)
    (t t' : Tracker) (id : nat) (now : Z)
    (Hreach : run {| sys_tracker := Tracker_new md mx et re th ld;
                     sys_counter := c0 |} ops1 = Some s)
    (Hrun : run s ops2 = Some s')
    (Hnew : Dict.get id (states t) = Some New)
    (Hgone : deregister t id now = Some t') :
  (∀ k st, Dict.get k (states (sys_tracker s)) = Some st →
           ∃ st', Dict.get k (states (sys_tracker s')) = Some st'
                  ∧ State_rank st ≤ State_rank st') ∧
  Dict.mem id (objects t') = false ∧
  Dict.get id (states t') = Some New ∧
  states t' = states t ∧ exit_times t' = exit_times t ∧
  counted_people t' = counted_people t.
Proof.
  split.
  - pose proof (reachable_wf _ _ _ _ _ _ _ _ _ Hreach) as Hwf.
    destruct (run_sound _ _ _ Hwf Hrun) as (_ & Hmono & _). apply Hmono.
  - rw deregister_eq Hnew in Hgone. destruct (_ && _); [|done].
    injection Hgone as <-. cbn [exit_mark]. fields.
    by rw mem_remove Nat.eqb_refl.
Qed.

End StateMachine.

Lemma state_only_moves_forward_witness :
  (∀ k st,
     Dict.get k (states (sys_tracker
                           (Scenario.after Scenario.impatient Scenario.crossing)))
     = Some st →
     ∃ st',
       Dict.get k (states (sys_tracker
                             (Scenario.after Scenario.impatient
                                (Scenario.crossing
                                   ++ [Scenario.seen [] (3 * Scenario.second)%Z]))))
       = Some st' ∧ State_rank st ≤ State_rank st') ∧
  Dict.mem 0 (objects (Scenario.dropped_new)) = false ∧
  Dict.get 0 (states (Scenario.dropped_new)) = Some New ∧
  states Scenario.dropped_new = states (sys_tracker Scenario.seen_once) ∧
  exit_times Scenario.dropped_new = exit_times (sys_tracker Scenario.seen_once) ∧
  counted_people Scenario.dropped_new
  = counted_people (sys_tracker Scenario.seen_once).
Proof.
  apply (@state_only_moves_forward label_extractor stable_orders
           0%Z 100%Q 10%Q true 0.6%Q true Scenario.line_counter
           Scenario.crossing [Scenario.seen [] (3 * Scenario.second)%Z]
           (Scenario.after Scenario.impatient Scenario.crossing)
           (Scenario.after Scenario.impatient
              (Scenario.crossing ++ [Scenario.seen [] (3 * Scenario.second)%Z]))
           (sys_tracker Scenario.seen_once) Scenario.dropped_new 0
           (9 * Scenario.second)%Z);
    vm_compute; reflexivity.
Defined.

(** ** Instances on the concrete runs *)

Lemma only_right_to_left_counts_witness :
  (∀ (c' : VisitorCounter) (tr : Tracker) (now : Z)
     (item : nat * ObjData),
     let c'' := fst (count_object now (c', tr) item) in
     (side_of c' (fst (centroid (snd item))) = Right → count c'' = count c') ∧
     (count c'' ≠ count c' →
      count c'' = S (count c') ∧
      (∃ d, Dict.get (fst item) (last_positions c') = Some d
            ∧ position d = Right) ∧
      side_of c' (fst (centroid (snd item))) = Left)) ∧
  increments_over 0 Scenario.line_counter Scenario.right_only = 0.
Proof.
  apply (@only_right_to_left_counts Scenario.line_counter 0
           Right Scenario.right_only); reflexivity.
Defined.

Lemma deregister_removes_and_exits_witness :
  ∃ t', deregister Scenario.crossed 0 (9 * Scenario.second)%Z = Some t' ∧
    Dict.mem 0 (objects t') = false ∧
    Dict.mem 0 (disappeared t') = false ∧
    Dict.mem 0 (positions t') = false ∧
    (∀ k, k ≠ 0 →
       Dict.get k (objects t') = Dict.get k (objects Scenario.crossed) ∧
       Dict.get k (disappeared t') = Dict.get k (disappeared Scenario.crossed) ∧
       Dict.get k (positions t') = Dict.get k (positions Scenario.crossed) ∧
       Dict.get k (states t') = Dict.get k (states Scenario.crossed) ∧
       Dict.get k (exit_times t') = Dict.get k (exit_times Scenario.crossed)) ∧
    (Dict.get 0 (states t') = Some Exited ∧
     Dict.get 0 (exit_times t') = Some (9 * Scenario.second)%Z ∧
     counted_people t' =
       match Dict.get 0 (person_ids Scenario.crossed) with
       | Some p => {[p]} ∪ counted_people Scenario.crossed
       | None => counted_people Scenario.crossed
       end).
Proof.
  apply (@deregister_removes_and_exits Scenario.crossed 0
           (9 * Scenario.second)%Z Scanned).
  - reflexivity.
  - split; reflexivity.
  - reflexivity.
  - vm_compute. discriminate.
Defined.

(** ** How far update runs *)

Section Totality.
Context `{FE : FeatureExtractor} `{SO : Orders}.
Implicit Types (t : Tracker) (id k : nat).

(** *** Load shedding *)

Lemma insert_desc_perm x l : insert_desc x l ≡ₚ x :: l.
Proof.
  induction l as [|y l IH]; simpl; [done|].
  destruct (Nat.ltb (snd x) (snd y)); [|done].
  rw IH. apply Permutation_swap.
Qed.

Lemma sorted_desc_perm l : sorted_desc l ≡ₚ l.
Proof.
  unfold sorted_desc. induction l as [|x l IH]; simpl; [done|].
  by rw insert_desc_perm IH.
Qed.

Lemma deregister_loop now (es : list (nat * nat)) t :
  wf t → NoDup (es.*1) → (∀ id, id ∈ es.*1 → id ∈ Dict.keys (objects t)) →
  ∃ t', foldM (fun t' (e : nat * nat) => deregister t' (fst e) now) es t
        = Some t' ∧
        sound_step t t' ∧
        (∀ k, k ∉ es.*1 → untouched k t t') ∧
        (∀ id, id ∈ es.*1 →
           Dict.mem id (objects t') = false ∧
           (Dict.get id (states t) = Some Scanned →
            Dict.get id (states t') = Some Exited ∧
            Dict.get id (exit_times t') = Some now)).
Proof.
  revert t. induction es as [|[id n] es IH]; intros t Hwf Hnd Hlive.
  - exists t. split_and!; [ done | by apply sound_step_refl | | ].
    + intros; apply untouched_refl.
    + intros id Hin. inversion Hin.
  - cbn [fmap list_fmap fst] in Hnd, Hlive.
    apply NoDup_cons in Hnd as [Hnotin Hnd].
    destruct (deregister_total t id now Hwf) as [t1 Ht1]; [apply Hlive; left|].
    destruct (deregister_sound t id now t1 Hwf Ht1)
      as (Hs1 & Hu1 & Hk1 & Hts1 & Hmo & Hgone & Hexit).
    destruct (IH t1) as (t' & Hrun & Hs & Hu & Hpost); [apply Hs1 | done | |].
    { intros k Hk. assert (k ≠ id) as Hne by (intros ->; done).
      apply mem_keys. rw (untouched_mem k t t1); [by apply Hu1|].
      apply mem_keys, Hlive. by right. }
    exists t'. cbn [foldM fst]. rw Ht1.
    split_and!; [ done | eapply sound_step_trans; [apply Hs1 | apply Hs] | | ].
    + intros k Hk. cbn [fmap list_fmap fst] in Hk.
      apply not_elem_of_cons in Hk as [Hne Hk].
      eapply untouched_trans; [by apply Hu1 | by apply Hu].
    + intros id' Hin. cbn [fmap list_fmap fst] in Hin.
      apply elem_of_cons in Hin as [-> | Hin].
      * pose proof (Hu id Hnotin) as Hun.
        rw (untouched_mem _ _ _ Hun). split; [done|]. intros Hsc.
        destruct Hun as (_ & _ & _ & _ & -> & ->). by apply Hexit.
      * assert (id' ≠ id) as Hne by (intros ->; done).
        destruct (Hpost id' Hin) as [Hg Hx]. split; [done|].
        destruct (Hu1 id' Hne) as (_ & _ & _ & _ & U5 & _). by rw -U5.
Qed.

(** The shedding step always succeeds; it exits the Scanned objects it
    deregisters and leaves the surviving objects alone. *)
Lemma shed_total t detections now :
  wf t →
  ∃ t1, shed t detections now = Some t1 ∧ sound_step t t1 ∧
        (∀ id, Dict.mem id (objects t1) = true → untouched id t t1) ∧
        (∀ id, Dict.mem id (objects t) = true →
               Dict.mem id (objects t1) = false →
               Dict.get id (states t) = Some Scanned →
               Dict.get id (states t1) = Some Exited ∧
               Dict.get id (exit_times t1) = Some now) ∧
        (length (objects t) ≤ 2 * length detections ∨ detections = [] →
         t1 = t).
Proof.
  intros Hwf. unfold shed.
  destruct (Nat.ltb (2 * length detections) (length (objects t))
            && Nat.ltb 0 (length detections)) eqn:Hcond.
  - set (es := take (length (sorted_desc (disappeared t)) / 2)
                 (sorted_desc (disappeared t))).
    assert ((sorted_desc (disappeared t)).*1 ≡ₚ Dict.keys (objects t)) as Hperm.
    { pose proof Hwf as (<- & _). unfold Dict.keys.
      by rw (sorted_desc_perm (disappeared t)). }
    assert (es.*1 `sublist_of` (sorted_desc (disappeared t)).*1) as Hsub.
    { subst es. apply fmap_sublist, sublist_take. }
    destruct (deregister_loop now es t Hwf) as (t1 & Hrun & Hs & Hu & Hpost).
    { eapply sublist_NoDup; [|done]. rw Hperm. apply Hwf. }
    { intros id Hin. rw -Hperm.
      eapply elem_of_submseteq; [done | by apply sublist_submseteq]. }
    exists t1. split_and!; [ done | done | | | ].
    + intros id Hlive. apply Hu. intros Hin.
      destruct (Hpost id Hin) as [Hg _]. congruence.
    + intros id Hlive Hgone. destruct (decide (id ∈ es.*1)) as [Hin|Hnot].
      * by destruct (Hpost id Hin) as [_ Hx].
      * rw (untouched_mem _ _ _ (Hu id Hnot)) in Hgone. congruence.
    + apply andb_prop in Hcond as [H1 H2].
      apply Nat.ltb_lt in H1, H2. intros [Hle | ->]; [lia | simpl in H2; lia].
  - exists t.
    split_and!; [ done | by apply sound_step_refl | | | done ].
    + intros; apply untouched_refl.
    + intros id H1 H2. congruence.
Qed.


(** *** Minimum and arg-min of a row *)

Lemma Qltb_lt a b : Qltb a b = true ↔ (a < b)%Q.
Proof.
  unfold Qltb. rw negb_true_iff. split.
  - intros H. apply Qnot_le_lt. intros Hle. apply Qle_bool_iff in Hle. congruence.
  - intros H. destruct (Qle_bool b a) eqn:E; [|done].
    apply Qle_bool_iff in E. by apply Qlt_not_le in H.
Qed.

Lemma Qltb_ge a b : Qltb a b = false ↔ (b <= a)%Q.
Proof.
  unfold Qltb. rw negb_false_iff. apply Qle_bool_iff.
Qed.

Lemma argmin_from_spec (full pre rest : list Q) (bi : nat) (best : Q) :
  full = pre ++ rest → full !! bi = Some best →
  (∀ c d, c < length pre → full !! c = Some d → (best <= d)%Q) →
  full !! argmin_from (length pre) bi best rest
  = Some (fold_left (fun m y => if Qltb y m then y else m) rest best) ∧
  (∀ c d, full !! c = Some d →
          (fold_left (fun m y => if Qltb y m then y else m) rest best <= d)%Q).
Proof.
  revert pre bi best. induction rest as [|x rest IH];
    intros pre bi best Hfull Hbest Hmin; simpl.
  - split; [done|]. intros c d Hc. apply (Hmin c); [|done].
    apply lookup_lt_Some in Hc. rw Hfull app_nil_r in Hc. done.
  - assert (full = (pre ++ [x]) ++ rest) as Hfull' by by rw -app_assoc.
    assert (full !! length pre = Some x) as Hx.
    { rw Hfull. rw lookup_app_r //. by rw Nat.sub_diag. }
    replace (S (length pre)) with (length (pre ++ [x]))
      by (rw length_app /=; lia).
    destruct (Qltb x best) eqn:E.
    + apply Qltb_lt in E. apply IH; [done | done |].
      intros c d Hc Hd. rw length_app /= in Hc.
      destruct (decide (c = length pre)) as [->|Hne].
      * rw Hx in Hd. injection Hd as <-. apply Qle_refl.
      * apply Qle_trans with best; [by apply Qlt_le_weak|].
        apply (Hmin c); [lia | done].
    + apply Qltb_ge in E. apply IH; [done | done |].
      intros c d Hc Hd. rw length_app /= in Hc.
      destruct (decide (c = length pre)) as [->|Hne].
      * rw Hx in Hd. by injection Hd as <-.
      * apply (Hmin c); [lia | done].
Qed.

(** [row_argmin] locates the value [row_min] returns, and no entry of the row
    is smaller. *)
Lemma row_argmin_min (row : list Q) :
  row ≠ [] →
  ∃ m c, row_min row = Some m ∧ row_argmin row = Some c ∧
         row !! c = Some m ∧ (∀ c' d, row !! c' = Some d → (m <= d)%Q).
Proof.
  destruct row as [|x xs]; [done|]. intros _. simpl.
  destruct (argmin_from_spec (x :: xs) [x] xs 0 x) as [H1 H2]; try done.
  { intros c d Hc Hd. simpl in Hc. assert (c = 0) as -> by lia.
    simpl in Hd. injection Hd as <-. apply Qle_refl. }
  eauto 10.
Qed.

(** *** Traversals *)

Lemma traverse_Some {A B : Type} (f : A → option B) (l : list A) ys :
  traverse f l = Some ys →
  length ys = length l ∧
  ∀ i x, l !! i = Some x → ∃ y, ys !! i = Some y ∧ f x = Some y.
Proof.
  revert ys. induction l as [|x l IH]; intros ys; simpl.
  - intros [= <-]. split; [done|]. intros i x Hi. inversion Hi.
  - destruct (f x) as [y|] eqn:E; [|done].
    destruct (traverse f l) as [ys'|]; [|done]. intros [= <-].
    destruct (IH ys' eq_refl) as [Hlen Hall]. split; [simpl; lia|].
    intros [|i] x' Hi; simpl in *.
    + injection Hi as <-. eauto.
    + by apply Hall.
Qed.

Lemma traverse_total {A B : Type} (f : A → option B) (l : list A) :
  (∀ x, x ∈ l → is_Some (f x)) → is_Some (traverse f l).
Proof.
  induction l as [|x l IH]; intros Hall; simpl; [by eexists|].
  destruct (Hall x) as [y ->]; [left|].
  destruct IH as [ys ->]; [|by eexists].
  intros x' Hin. apply Hall. by right.
Qed.

End Totality.

(** ** The greedy loop computes the specified assignment *)

Section Greedy.
Context `{FE : FeatureExtractor} `{SO : Orders}.
Implicit Types (t : Tracker) (id k : nat).

Lemma spec_assignment_snoc D maxd order r :
  spec_assignment D maxd (order ++ [r])
  = spec_pairs_rev D maxd (r :: rev order).
Proof. unfold spec_assignment. by rw rev_unit. Qed.

Lemma bool_decide_list_to_set (x : nat) (l : list nat) :
  bool_decide (x ∈ (list_to_set l : gset nat)) = bool_decide (x ∈ l).
Proof. apply bool_decide_ext, elem_of_list_to_set. Qed.

Lemma get_None_keys {V : Type} (d : Dict.t V) k :
  k ∉ Dict.keys d → Dict.get k d = None.
Proof.
  intros Hk. destruct (Dict.get k d) eqn:E; [|done].
  exfalso. apply Hk, get_keys. by eexists.
Qed.

Lemma greedy_loop_refines D oids cs bs now pairs t0 :
  wf t0 → Dict.keys (objects t0) = oids →
  (∀ r c, (r, c) ∈ pairs →
          arg_min_detection D r = Some c ∧ is_Some (distance_of D r c) ∧
          is_Some (oids !! r) ∧ is_Some (cs !! c) ∧ is_Some (bs !! c)) →
  ∃ t', foldM (match_step D oids cs bs now) pairs (t0, ∅, ∅)
        = Some (t',
                list_to_set (Dict.keys
                               (spec_assignment D (max_distance t0) pairs.*1)),
                list_to_set (Dict.values
                               (spec_assignment D (max_distance t0) pairs.*1)))
        ∧ assigned t0 t' oids cs bs now
            (spec_assignment D (max_distance t0) pairs.*1).
Proof.
  intros Hwf Hkeys. induction pairs as [|[r c] pairs IH] using rev_ind;
    intros Hpairs.
  - exists t0. split; [done|]. intros r id Hid. apply untouched_refl.
  - destruct IH as (t1 & Hrun & Hassigned).
    { intros r' c' Hin. apply Hpairs, elem_of_app. by left. }
    destruct (Hpairs r c) as (Hargmin & [d Hd] & [id Hid] & [cc Hcc] & [bb Hbb]).
    { apply elem_of_app. right. by left. }
    destruct (greedy_loop_sound _ _ _ _ _ _ _ _ _ _ _ _ Hwf Hkeys Hrun)
      as (Hs1 & Hk1 & Hst1 & Hex1 & _).
    pose proof Hs1 as (Hwf1 & _ & (_ & Hmaxd & _) & _).
    assert (id ∈ Dict.keys (objects t1)) as Hin
      by (rw Hk1; by eapply list_elem_of_lookup_2).
    assert (is_Some (Dict.get id (timestamps t1))) as [ts Hts]
      by (pose proof Hwf1 as (_ & _ & _ & _ & H5 & _); by apply H5).
    rw fmap_app /= spec_assignment_snoc. cbn [spec_pairs_rev].
    fold (spec_assignment D (max_distance t0) pairs.*1).
    set (A := spec_assignment D (max_distance t0) pairs.*1) in *.
    rw Hargmin Hd foldM_app Hrun. cbn [mbind option_bind foldM].
    unfold match_step. rw !bool_decide_list_to_set Hmaxd.
    fold (distance_of D r c). rw Hd. cbn [mbind option_bind].
    destruct (bool_decide_reflect (r ∈ Dict.keys A)) as [Hr|Hr]; cbn [negb andb orb].
    { by exists t1. }
    destruct (bool_decide_reflect (c ∈ Dict.values A)) as [Hc|Hc];
      cbn [negb andb orb].
    { by exists t1. }
    destruct (exceeds d (max_distance t0)); cbn [negb].
    { by exists t1. }
    rw Hid. cbn [mbind option_bind]. rw Hcc. cbn [mbind option_bind].
    rw Hbb. cbn [mbind option_bind]. rw Hts. cbn [mbind option_bind].
    exists (rematch t1 id cc bb now). split; [done|].
    destruct (rematch_sound t1 id cc bb now Hwf1 Hin) as (_ & _ & _ & _ & Hu).
    intros r' id' Hid'. cbn [Dict.get].
    destruct (Nat.eqb r' r) eqn:E.
    + apply Nat.eqb_eq in E. subst r'. assert (id' = id) as -> by congruence.
      pose proof (Hassigned r id Hid) as Hprev.
      rw (get_None_keys A r Hr) in Hprev.
      destruct Hprev as (_ & _ & _ & U4 & _).
      unfold rematch. fields. rw !get_put_eq get_alter_eq U4. by rw Hcc Hbb.
    + apply Nat.eqb_neq in E.
      assert (id' ≠ id) as Hne.
      { intros ->. apply E.
        pose proof Hwf as (_ & _ & Hnd & _). rw Hkeys in Hnd.
        by eapply NoDup_lookup. }
      pose proof (Hassigned r' id' Hid') as Hprev.
      pose proof (Hu id' Hne) as (U1 & U2 & U3 & U4 & U5 & U6).
      destruct (Dict.get r' A).
      * rw U1 U2 U3 U4. done.
      * eapply untouched_trans; [done | by apply Hu].
Qed.


(** *** The row-priority order *)

Lemma cdist_row (objs cs : list Centroid) r row :
  cdist objs cs !! r = Some row → length row = length cs.
Proof.
  unfold cdist. rw list_lookup_fmap. destruct (objs !! r); [|done].
  simpl. intros [= <-]. by rw length_map.
Qed.

Lemma cdist_length (objs cs : list Centroid) :
  length (cdist objs cs) = length objs.
Proof. unfold cdist. by rw length_map. Qed.

Lemma is_argsort_range v idx r :
  is_argsort v idx = true → r ∈ idx → r < length v.
Proof.
  unfold is_argsort. intros H Hin. apply andb_prop in H as [Hperm _].
  apply bool_decide_eq_true in Hperm. rw Hperm in Hin.
  apply elem_of_seq in Hin. lia.
Qed.

Lemma pairing_order_spec (D : list (list Q)) (mins : list Q) (n : nat) :
  n ≠ 0 → (∀ r row, D !! r = Some row → length row = n) →
  traverse row_min D = Some mins →
  is_argsort mins (argsort mins) = true →
  ∃ pairs, pairing_order D = Some pairs ∧ pairs.*1 = argsort mins ∧
    ∀ r c, (r, c) ∈ pairs →
           arg_min_detection D r = Some c ∧ r < length D ∧ c < n ∧
           is_Some (distance_of D r c).
Proof.
  intros Hn Hrows Hmins Hsort. unfold pairing_order. rw Hmins.
  cbn [mbind option_bind].
  destruct (traverse_Some _ _ _ Hmins) as [Hlen_mins _].
  destruct (traverse_total row_argmin D) as [argmins Hargmins].
  { intros row Hin. apply list_elem_of_lookup in Hin as [r Hr].
    destruct (row_argmin_min row) as (m & c & _ & -> & _); [|by eexists].
    intros ->. apply Hrows in Hr. simpl in Hr. lia. }
  rw Hargmins. cbn [mbind option_bind].
  destruct (traverse_Some _ _ _ Hargmins) as [Hlen_arg Harg].
  destruct (traverse_total (fun r => argmins !! r) (argsort mins))
    as [cols Hcols].
  { intros r Hin. apply lookup_lt_is_Some_2.
    apply (is_argsort_range _ _ _ Hsort) in Hin. lia. }
  rw Hcols. cbn [mbind option_bind].
  destruct (traverse_Some _ _ _ Hcols) as [Hlen_cols Hcol].
  eexists. split; [done|]. split.
  { apply fst_zip. lia. }
  intros r c Hin. apply list_elem_of_lookup in Hin as [i Hi].
  apply lookup_zip_with_Some in Hi as (r' & c' & [= <- <-] & Hr & Hc).
  destruct (Hcol i r Hr) as (c0 & Hc0 & Hargc). rw Hc in Hc0.
  injection Hc0 as <-.
  assert (r < length D) as Hlt by (apply lookup_lt_Some in Hargc; lia).
  destruct (lookup_lt_is_Some_2 D r Hlt) as [row Hrow].
  destruct (Harg r row Hrow) as (c1 & Hc1 & Hrowarg). rw Hargc in Hc1.
  injection Hc1 as <-.
  destruct (row_argmin_min row) as (m & c2 & _ & Hc2 & Hm & _).
  { intros ->. apply Hrows in Hrow. simpl in Hrow. lia. }
  rw Hrowarg in Hc2. injection Hc2 as <-.
  unfold arg_min_detection, distance_of. rw Hrow. cbn [mbind option_bind].
  split_and!; [ done | done | | by eexists ].
  apply lookup_lt_Some in Hm. rw (Hrows r row Hrow) in Hm. done.
Qed.

(** The greedy loop of [update] runs to completion on a consistent tracker and
    computes the specified assignment. *)
Lemma greedy_match_refines t (cs : list Centroid) (bs : list BBox) now mins :
  wf t → cs ≠ [] → length bs = length cs →
  traverse row_min (cdist (Dict.values (objects t)) cs) = Some mins →
  is_argsort mins (argsort mins) = true →
  ∃ t2,
    greedy_match t cs bs now
    = Some (t2,
            list_to_set
              (Dict.keys (spec_assignment (cdist (Dict.values (objects t)) cs)
                            (max_distance t) (argsort mins))),
            list_to_set
              (Dict.values (spec_assignment (cdist (Dict.values (objects t)) cs)
                              (max_distance t) (argsort mins))))
    ∧ assigned t t2 (Dict.keys (objects t)) cs bs now
        (spec_assignment (cdist (Dict.values (objects t)) cs)
           (max_distance t) (argsort mins)).
Proof.
  intros Hwf Hcs Hbs Hmins Hsort. unfold greedy_match.
  destruct (pairing_order_spec (cdist (Dict.values (objects t)) cs) mins
              (length cs))
    as (pairs & -> & Hfst & Hpairs); [ by destruct cs | | done | done | ].
  { intros r row. apply cdist_row. }
  cbn [mbind option_bind]. rw -Hfst.
  apply greedy_loop_refines; [done | done |].
  intros r c Hin. destruct (Hpairs r c Hin) as (Ha & Hr & Hc & Hd).
  rw cdist_length in Hr. unfold Dict.values, Dict.keys in *.
  rw length_map in Hr.
  split_and!; [ done | done | | | ]; apply lookup_lt_is_Some_2;
    rw ?length_map; lia.
Qed.

End Greedy.

(** ** The phases of update after the load shedding *)

Section Phases.
Context `{FE : FeatureExtractor} `{SO : Orders}.
Implicit Types (t : Tracker) (id k : nat).

Lemma foldM_lookup_miss now (oids rows ids : list nat) t :
  traverse (fun r => oids !! r) rows = Some ids →
  foldM (fun t' row => oids !! row ≫= miss now t') rows t
  = foldM (miss now) ids t.
Proof.
  revert ids t. induction rows as [|r rows IH]; intros ids t; simpl.
  - by intros [= <-].
  - destruct (oids !! r) as [id|]; [|done].
    destruct (traverse _ rows) as [ids'|] eqn:E; [|done]. intros [= <-].
    simpl. destruct (miss now t id); [by apply IH | done].
Qed.

Lemma elem_of_unused n (used : gset nat) r :
  visits_each_once → r ∈ unused n used ↔ r < n ∧ r ∉ used.
Proof.
  intros Hiter. unfold unused.
  rw Hiter elem_of_list_filter elem_of_seq negb_true_iff bool_decide_eq_false.
  split; intros [? ?]; split; (lia || done).
Qed.

Lemma NoDup_unused n (used : gset nat) :
  visits_each_once → NoDup (unused n used).
Proof.
  intros Hiter. unfold unused. rw Hiter. apply NoDup_list_filter, NoDup_seq.
Qed.

(** The objects handed to [miss] after the greedy loop: each unconsumed row
    once. *)
Lemma unused_rows_ids (oids : list nat) (used : gset nat) :
  visits_each_once → NoDup oids →
  ∃ ids, traverse (fun r => oids !! r) (unused (length oids) used) = Some ids ∧
         NoDup ids ∧
         ∀ id, id ∈ ids ↔ ∃ r, oids !! r = Some id ∧ r ∉ used.
Proof.
  intros Hiter Hnd.
  destruct (traverse_total (fun r => oids !! r) (unused (length oids) used))
    as [ids Hids].
  { intros r Hr. apply elem_of_unused in Hr as [Hr _]; [|done].
    by apply lookup_lt_is_Some_2. }
  exists ids. split; [done|].
  destruct (traverse_Some _ _ _ Hids) as [Hlen Hpt].
  assert (∀ i id, ids !! i = Some id →
            ∃ r, unused (length oids) used !! i = Some r ∧ oids !! r = Some id)
    as Hback.
  { intros i id Hi.
    assert (i < length (unused (length oids) used)) as Hlt
      by (rw -Hlen; by eapply lookup_lt_Some).
    destruct (lookup_lt_is_Some_2 _ _ Hlt) as [r Hr].
    destruct (Hpt i r Hr) as (id' & Hid' & Ho). exists r. split; [done|].
    congruence. }
  split.
  - apply NoDup_alt. intros i j id Hi Hj.
    destruct (Hback i id Hi) as (ri & Hri & Hoi).
    destruct (Hback j id Hj) as (rj & Hrj & Hoj).
    assert (ri = rj) as -> by by eapply NoDup_lookup.
    eapply NoDup_lookup; [by apply NoDup_unused | done | done].
  - intros id. split.
    + intros Hin. apply list_elem_of_lookup in Hin as [i Hi].
      destruct (Hback i id Hi) as (r & Hr & Ho). exists r. split; [done|].
      apply list_elem_of_lookup_2, elem_of_unused in Hr; [apply Hr | done].
    + intros (r & Ho & Hr).
      assert (r ∈ unused (length oids) used) as Hin.
      { apply elem_of_unused; [done|].
        split; [by eapply lookup_lt_Some | done]. }
      apply list_elem_of_lookup in Hin as [i Hi].
      destruct (Hpt i r Hi) as (id' & Hid' & Ho').
      assert (id' = id) as -> by congruence. by eapply list_elem_of_lookup_2.
Qed.

Lemma missed_from id n now t1 t2 t' :
  max_disappeared t2 = max_disappeared t1 →
  Dict.get id (states t2) = Dict.get id (states t1) →
  missed id n now t2 t' → missed id n now t1 t'.
Proof. unfold missed. by intros -> ->. Qed.


(** With detections and live objects, the rest of [update] runs up to the
    registrations: the greedy loop applies the specified assignment and
    every unpaired object is [missed].  The registrations run through when
    re-identification is off or no frame is given; when they do, the paired
    objects keep the assignment, the unpaired ones stay [missed], and nothing
    else that existed before is touched. *)
Lemma matching_phase t1 (detections : list Detection) frame now mins :
  visits_each_once → wf t1 → detections ≠ [] →
  traverse row_min
    (cdist (Dict.values (objects t1)) (map centroid_of detections)) = Some mins →
  is_argsort mins (argsort mins) = true →
  let cs := map centroid_of detections in
  let bs := map bbox_of detections in
  let oids := Dict.keys (objects t1) in
  let A := spec_assignment (cdist (Dict.values (objects t1)) cs)
             (max_distance t1) (argsort mins) in
  ∃ t2 t3,
    greedy_match t1 cs bs now
    = Some (t2, list_to_set (Dict.keys A), list_to_set (Dict.values A)) ∧
    assigned t1 t2 oids cs bs now A ∧
    foldM (fun t' row => oids !! row ≫= miss now t')
      (unused (length oids) (list_to_set (Dict.keys A))) t2 = Some t3 ∧
    (reid_enabled t1 = false ∨ frame = None →
     is_Some (register_all frame now cs bs
                (unused (length cs) (list_to_set (Dict.values A))) t3)) ∧
    ∀ t',
      register_all frame now cs bs
        (unused (length cs) (list_to_set (Dict.values A))) t3 = Some t' →
      (∀ r id, oids !! r = Some id → r ∈ Dict.keys A → untouched id t2 t') ∧
      (∀ r id n, oids !! r = Some id → r ∉ Dict.keys A →
                 Dict.get id (disappeared t1) = Some n →
                 missed id n now t1 t') ∧
      (∀ k, k ∉ oids → k < next_object_id t1 → untouched k t1 t').
Proof.
  intros Hiter Hwf Hdet Hmins Hsort cs bs oids A.
  assert (cs ≠ []) as Hcs by (subst cs; by destruct detections).
  assert (length bs = length cs) as Hbs by (subst bs cs; by rw !length_map).
  destruct (greedy_match_refines t1 cs bs now mins Hwf Hcs Hbs Hmins Hsort)
    as (t2 & Hgreedy & Hassigned).
  fold A in Hgreedy, Hassigned.
  pose proof Hgreedy as Hloop. unfold greedy_match in Hloop.
  destruct (pairing_order _) as [pairs|]; [|done].
  cbn [mbind option_bind] in Hloop.
  destruct (greedy_loop_sound _ _ _ _ _ _ _ _ _ _ _ _ Hwf eq_refl Hloop)
    as (Hs2 & Hk2 & Hst2 & Hex2 & _ & _ & Hun2 & Hout2).
  fold oids in Hk2, Hun2, Hout2.
  pose proof Hs2 as (Hwf2 & _ & (Hmd2 & _ & _ & Hre2) & Hn2).
  assert (NoDup oids) as Hnd by apply Hwf.
  destruct (unused_rows_ids oids (list_to_set (Dict.keys A)) Hiter Hnd)
    as (ids & Hids & Hndids & Hin_ids).
  destruct (miss_loop now ids t2 Hwf2 Hndids)
    as (t3 & Hmiss & Hs3 & Hts3 & Hun3 & Hsub3 & Hpost3).
  { intros id Hin. apply Hin_ids in Hin as (r & Hr & _). rw Hk2.
    by eapply list_elem_of_lookup_2. }
  pose proof Hs3 as (Hwf3 & _ & (_ & _ & _ & Hre3) & Hn3).
  assert (∀ id, id ∈ oids → id < next_object_id t1) as Hbound
    by (intros id Hin; by apply wf_live_bound).
  exists t2, t3.
  split_and!; [ done | done | by rw (foldM_lookup_miss _ _ _ _ _ Hids) | | ].
  { intros Hoff. apply register_all_total.
    - destruct Hoff as [Hoff | Hnone]; [left | by right]. by rw Hre3 Hre2.
    - intros col Hcol.
      apply elem_of_unused in Hcol as [Hcol _]; [lia | done]. }
  intros t' Hreg.
  assert (∀ k, k < next_object_id t1 → untouched k t3 t') as Hun4.
  { intros k Hk. eapply register_all_untouched; [done | lia | done]. }
  split_and!.
  - intros r id Hr HrA.
    eapply untouched_trans; [|apply Hun4, Hbound; by eapply list_elem_of_lookup_2].
    apply Hun3. intros Hin. apply Hin_ids in Hin as (r' & Hr' & Hnot).
    assert (r' = r) as -> by apply (NoDup_lookup oids r' r id Hnd Hr' Hr).
    apply Hnot, elem_of_list_to_set, HrA.
  - intros r id n Hr HrA Hn.
    assert (r ∉ (list_to_set (Dict.keys A) : gset nat)) as Hnot
      by by rw elem_of_list_to_set.
    pose proof (Hun2 r id Hr Hnot) as Hu2.
    eapply missed_later;
      [apply Hun4, Hbound; by eapply list_elem_of_lookup_2|].
    apply (missed_from id n now t1 t2); [done | apply Hu2 |].
    apply Hpost3; [apply Hin_ids; eauto|].
    destruct Hu2 as (_ & -> & _). done.
  - intros k Hk Hlt.
    eapply untouched_trans; [by apply Hout2|].
    eapply untouched_trans; [|by apply Hun4].
    apply Hun3. intros Hin. apply Hin_ids in Hin as (r & Hr & _).
    apply Hk. by eapply list_elem_of_lookup_2.
Qed.

End Phases.

(** ** Objects without a detection *)

Section Eviction.
Context `{FE : FeatureExtractor} `{SO : Orders}.
Implicit Types (t : Tracker) (id k : nat).

Lemma row_min_total (objs cs : list Centroid) :
  cs ≠ [] → is_Some (traverse row_min (cdist objs cs)).
Proof.
  intros Hcs. apply traverse_total. intros row Hin.
  apply list_elem_of_lookup in Hin as [r Hr]. apply cdist_row in Hr.
  destruct (row_argmin_min row) as (m & _ & -> & _); [|by eexists].
  intros ->. destruct cs; [done | simpl in Hr; lia].
Qed.

Lemma length_zero_nil {A : Type} (l : list A) :
  Nat.eqb (length l) 0 = true ↔ l = [].
Proof. rw Nat.eqb_eq. apply length_zero_iff_nil. Qed.

(** C6, as the code has it. Let [argsort] sort the row minima and a loop
    over a set meet every member once, and let [t1] be the tracker after the
    load-shedding step (the tracker itself unless the live objects outnumber
    twice a non-empty list of detections).  [update] on a consistent tracker
    runs to completion when re-identification is off, or no frame is given,
    or there is no detection: only [register] with a frame to identify can
    raise.  Whenever [update] returns, every object live in [t1] that gets no
    detection has its disappeared frames raised by exactly one and is removed
    in this call exactly when the raised count exceeds [max_disappeared];
    removed from Scanned state it ends Exited with the exit time stamped.  An
    object the load shedding removed from Scanned state ends Exited with the
    exit time stamped as well. *)
Theorem unmatched_objects_age_and_expire (t : Tracker)
    (detections : list Detection) (frame : option Frame) (now : Z)
    (Hwf : wf t) (Hiter : visits_each_once)
    (Hsort : ∀ t1 mins,
        shed t detections now = Some t1 →
        traverse row_min
          (cdist (Dict.values (objects t1)) (map centroid_of detections))
        = Some mins →
        is_argsort mins (argsort mins) = true) :
  ∃ t1,
    shed t detections now = Some t1 ∧
    (length (objects t) ≤ 2 * length detections ∨ detections = [] → t1 = t) ∧
    (reid_enabled t = false ∨ frame = None ∨ detections = [] →
     is_Some (update_tracker t detections frame now)) ∧
    ∀ t',
      update_tracker t detections frame now = Some t' →
      (∀ id n,
         Dict.get id (disappeared t1) = Some n →
         unmatched t1 detections now id →
         if Z.ltb (max_disappeared t) (Z.of_nat (S n)) then
           Dict.mem id (objects t') = false ∧
           (Dict.get id (states t1) = Some Scanned →
            Dict.get id (states t') = Some Exited ∧
            Dict.get id (exit_times t') = Some now)
         else
           Dict.mem id (objects t') = true ∧
           Dict.get id (disappeared t') = Some (S n)) ∧
      (∀ id,
         Dict.mem id (objects t) = true → Dict.mem id (objects t1) = false →
         Dict.get id (states t) = Some Scanned →
         Dict.get id (states t') = Some Exited ∧
         Dict.get id (exit_times t') = Some now).
Proof.
  destruct (shed_total t detections now Hwf)
    as (t1 & Hshed & Hs1 & Hkept & Hshedded & Hsame).
  pose proof Hs1 as (Hwf1 & _ & (Hmd1 & _ & _ & Hre1) & Hn1).
  exists t1. split; [done|]. split; [done|].
  assert (∀ t',
            (∀ id n, Dict.get id (disappeared t1) = Some n →
                     unmatched t1 detections now id → missed id n now t1 t') →
            (∀ k, k ∉ Dict.keys (objects t1) → k < next_object_id t1 →
                  untouched k t1 t') →
            (∀ id n, Dict.get id (disappeared t1) = Some n →
               unmatched t1 detections now id →
               if Z.ltb (max_disappeared t) (Z.of_nat (S n)) then
                 Dict.mem id (objects t') = false ∧
                 (Dict.get id (states t1) = Some Scanned →
                  Dict.get id (states t') = Some Exited ∧
                  Dict.get id (exit_times t') = Some now)
               else
                 Dict.mem id (objects t') = true ∧
                 Dict.get id (disappeared t') = Some (S n)) ∧
            (∀ id, Dict.mem id (objects t) = true →
               Dict.mem id (objects t1) = false →
               Dict.get id (states t) = Some Scanned →
               Dict.get id (states t') = Some Exited ∧
               Dict.get id (exit_times t') = Some now)) as Hfinish.
  { intros t' Hmissed Hout. split.
    - intros id n Hn Hun. pose proof (Hmissed id n Hn Hun) as Hm.
      unfold missed in Hm. by rw Hmd1 in Hm.
    - intros id Hlive Hgone Hsc.
      destruct (Hshedded id Hlive Hgone Hsc) as [Hst Hex].
      assert (untouched id t1 t') as (_ & _ & _ & _ & -> & ->); [|done].
      apply Hout.
      + intros Hin. apply mem_keys in Hin. congruence.
      + apply mem_keys, (wf_live_bound _ _ Hwf) in Hlive. lia. }
  destruct (Nat.eqb (length detections) 0) eqn:Hnodet.
  - (* no detections: every live object is missed *)
    assert (Dict.keys (disappeared t1) = Dict.keys (objects t1)) as Hkeys
      by apply Hwf1.
    destruct (miss_loop now (Dict.keys (disappeared t1)) t1 Hwf1)
      as (t' & Hrun & _ & _ & Hun & _ & Hpost).
    { rw Hkeys. apply Hwf1. }
    { intros id Hin. by rw -Hkeys. }
    assert (update_tracker t detections frame now = Some t') as ->.
    { unfold update_tracker. rw Hshed. cbn [mbind option_bind].
      by rw Hnodet. }
    split; [by eauto|]. intros ? [= <-]. apply Hfinish.
    + intros id n Hn _. apply Hpost; [|done]. apply get_keys. by eexists.
    + intros k Hk _. apply Hun. by rw Hkeys.
  - assert (detections ≠ []) as Hdet.
    { intros Hnil. apply length_zero_nil in Hnil. congruence. }
    assert (reid_enabled t = false ∨ frame = None ∨ detections = [] →
            reid_enabled t1 = false ∨ frame = None) as Hoff1.
    { intros [Hoff | [Hnone | Hnil]]; [left | by right | done].
      by rw Hre1. }
    destruct (Nat.eqb (length (objects t1)) 0) eqn:Hnolive.
    + (* no live object: every detection is registered *)
      pose proof (proj1 (length_zero_nil _) Hnolive) as Hnil.
      assert (update_tracker t detections frame now
              = register_all frame now (map centroid_of detections)
                  (map bbox_of detections)
                  (seq 0 (length (map centroid_of detections))) t1) as ->.
      { unfold update_tracker. rw Hshed. cbn [mbind option_bind].
        by rw Hnodet Hnolive. }
      split.
      * intros Hoff. apply register_all_total; [by apply Hoff1|].
        intros col Hcol. apply elem_of_seq in Hcol. rw !length_map in Hcol.
        rw !length_map. lia.
      * intros t' Hreg. apply Hfinish.
        -- intros id n Hn _. exfalso.
           assert (id ∈ Dict.keys (disappeared t1)) as Hin
             by (apply get_keys; by eexists).
           pose proof Hwf1 as (Hk & _). rw Hk Hnil in Hin. inversion Hin.
        -- intros k _ Hk. by eapply register_all_untouched.
    + (* the matching phase *)
      destruct (row_min_total (Dict.values (objects t1))
                  (map centroid_of detections)) as [mins Hmins];
        [by destruct detections|].
      pose proof (Hsort t1 mins Hshed Hmins) as Hsorted.
      destruct (matching_phase t1 detections frame now mins Hiter Hwf1 Hdet
                  Hmins Hsorted)
        as (t2 & t3 & Hgreedy & _ & Hmiss & Htotal & Hafter).
      assert (update_tracker t detections frame now
              = register_all frame now (map centroid_of detections)
                  (map bbox_of detections)
                  (unused (length (map centroid_of detections))
                     (list_to_set
                        (Dict.values
                           (spec_assignment
                              (cdist (Dict.values (objects t1))
                                 (map centroid_of detections))
                              (max_distance t1) (argsort mins))))) t3) as ->.
      { unfold update_tracker. rw Hshed. cbn [mbind option_bind].
        rw Hnodet Hnolive Hgreedy. cbn [mbind option_bind]. rw Hmiss.
        cbn [mbind option_bind]. done. }
      split; [by intros Hoff; apply Htotal, Hoff1|].
      intros t' Hreg. destruct (Hafter t' Hreg) as (_ & Hmissed & Hout).
      apply Hfinish; [|done].
      intros id n Hn [Hnil | (t2' & ur & uc & r & Hg & Hr & Hnot)]; [done|].
      rw Hgreedy in Hg. injection Hg as <- <- <-.
      eapply Hmissed; [done | | done].
      intros Hin. by apply Hnot, elem_of_list_to_set.
Qed.

End Eviction.

(** C6, as stated, fails when [update] sheds load: of three fresh live
    objects and one detection, object 0 is deregistered before the matching
    although it has no detection and one disappeared frame does not exceed
    [max_disappeared] = 40. *)
Lemma load_shedding_evicts_early :
  ¬ (∀ (t t' : Tracker) (detections : list Detection)
       (frame : option (@Frame label_extractor)) (now : Z) (id n : nat),
       wf t →
       @update_tracker label_extractor stable_orders t detections frame now
       = Some t' →
       Dict.get id (disappeared t) = Some n →
       @unmatched stable_orders t detections now id →
       missed id n now t t').
Proof.
  intros H.
  specialize (H Scenario.crowd Scenario.thinned Scenario.lone None
                (2 * Scenario.second)%Z 0 0).
  assert (missed 0 0 (2 * Scenario.second)%Z Scenario.crowd Scenario.thinned)
    as Hmissed.
  { apply H.
    - apply wfb_wf. vm_compute. reflexivity.
    - vm_compute. reflexivity.
    - reflexivity.
    - right. eexists _, _, _, 0. split_and!.
      + vm_compute. reflexivity.
      + reflexivity.
      + apply (proj1 (bool_decide_eq_false _)). vm_compute. reflexivity. }
  vm_compute in Hmissed. destruct Hmissed as [Hlive _]. discriminate.
Qed.

Lemma unmatched_objects_age_and_expire_witness :
  ∃ t1,
    shed Scenario.crowd Scenario.lone (2 * Scenario.second)%Z = Some t1 ∧
    (length (objects Scenario.crowd) ≤ 2 * length Scenario.lone
     ∨ Scenario.lone = [] → t1 = Scenario.crowd) ∧
    (reid_enabled Scenario.crowd = false
     ∨ (None : option (@Frame label_extractor)) = None
     ∨ Scenario.lone = [] →
     is_Some (@update_tracker label_extractor stable_orders Scenario.crowd
                Scenario.lone None (2 * Scenario.second)%Z)) ∧
    ∀ t',
      @update_tracker label_extractor stable_orders Scenario.crowd
        Scenario.lone None (2 * Scenario.second)%Z = Some t' →
      (∀ id n,
         Dict.get id (disappeared t1) = Some n →
         @unmatched stable_orders t1 Scenario.lone (2 * Scenario.second)%Z id →
         if Z.ltb (max_disappeared Scenario.crowd) (Z.of_nat (S n)) then
           Dict.mem id (objects t') = false ∧
           (Dict.get id (states t1) = Some Scanned →
            Dict.get id (states t') = Some Exited ∧
            Dict.get id (exit_times t') = Some (2 * Scenario.second)%Z)
         else
           Dict.mem id (objects t') = true ∧
           Dict.get id (disappeared t') = Some (S n)) ∧
      (∀ id,
         Dict.mem id (objects Scenario.crowd) = true →
         Dict.mem id (objects t1) = false →
         Dict.get id (states Scenario.crowd) = Some Scanned →
         Dict.get id (states t') = Some Exited ∧
         Dict.get id (exit_times t') = Some (2 * Scenario.second)%Z).
Proof.
  apply (@unmatched_objects_age_and_expire label_extractor stable_orders
           Scenario.crowd Scenario.lone None (2 * Scenario.second)%Z).
  - apply wfb_wf. vm_compute. reflexivity.
  - intros l. reflexivity.
  - intros t1 mins Hshed Hmins. vm_compute in Hshed. injection Hshed as <-.
    vm_compute in Hmins. injection Hmins as <-. vm_compute. reflexivity.
Defined.

(** ** The assignment made by update *)

Section Assignment.
Context `{FE : FeatureExtractor} `{SO : Orders}.

(** For a consistent tracker [t] entering the matching step (when [argsort]
    sorts the row minima): the processing order is a permutation of the live
    objects along which the minimum distance does not decrease; the minimum of
    each row is attained at its arg-min detection; the greedy loop runs to
    completion and consumes exactly the rows and columns of the specified
    assignment, leaving the tracker with exactly those pairs applied; and the
    consumed rows and columns depend only on the live centroids, the
    detections and [max_distance]. *)
Lemma matching_is_row_priority (t : Tracker)
    (detections : list Detection) (now : Z) (mins : list Q)
    (Hwf : wf t) (Hdetections : detections ≠ [])
    (Hmins : traverse row_min
               (cdist (Dict.values (objects t)) (map centroid_of detections))
             = Some mins)
    (Hsort : is_argsort mins (argsort mins) = true) :
  let cs := map centroid_of detections in
  let bs := map bbox_of detections in
  let D := cdist (Dict.values (objects t)) cs in
  let order := argsort mins in
  let A := spec_assignment D (max_distance t) order in
  order ≡ₚ seq 0 (length (objects t)) ∧
  ascending_along mins order = true ∧
  (∀ r, r < length (objects t) →
        ∃ row m c, D !! r = Some row ∧ mins !! r = Some m ∧
                   arg_min_detection D r = Some c ∧ row !! c = Some m ∧
                   ∀ c' d, row !! c' = Some d → (m <= d)%Q) ∧
  (∃ t2, greedy_match t cs bs now
         = Some (t2, list_to_set (Dict.keys A), list_to_set (Dict.values A))
         ∧ assigned t t2 (Dict.keys (objects t)) cs bs now A) ∧
  (∀ (t' : Tracker) (now' : Z),
     wf t' → objects t' = objects t → max_distance t' = max_distance t →
     ∃ t2', greedy_match t' cs bs now'
            = Some (t2', list_to_set (Dict.keys A),
                    list_to_set (Dict.values A))).
Proof.
  intros cs bs D order A.
  assert (cs ≠ []) as Hcs by (subst cs; by destruct detections).
  assert (length bs = length cs) as Hbs by (subst bs cs; by rw !length_map).
  destruct (traverse_Some _ _ _ Hmins) as [Hlen Hmin].
  assert (length mins = length (objects t)) as Hlen'.
  { rw Hlen cdist_length. unfold Dict.values. by rw length_map. }
  pose proof Hsort as Hsort'. unfold is_argsort in Hsort'.
  apply andb_prop in Hsort' as [Hperm Hasc].
  apply bool_decide_eq_true in Hperm. rw Hlen' in Hperm.
  split_and!; [ done | done | | | ].
  - intros r Hr.
    assert (r < length D) as Hlt
      by (subst D; rw cdist_length; unfold Dict.values; by rw length_map).
    destruct (lookup_lt_is_Some_2 D r Hlt) as [row Hrow].
    destruct (Hmin r row Hrow) as (m & Hm & Hrowmin).
    destruct (row_argmin_min row) as (m' & c & Hm' & Hc & Hat & Hle).
    { intros ->. apply cdist_row in Hrow. simpl in Hrow.
      destruct cs; [done | simpl in Hrow; lia]. }
    rw Hrowmin in Hm'. injection Hm' as <-.
    exists row, m, c. unfold arg_min_detection. rw Hrow.
    split_and!; done.
  - by apply greedy_match_refines.
  - intros t' now' Hwf' Hobj Hmax.
    destruct (greedy_match_refines t' cs bs now' mins) as (t2' & Hrun & _);
      [ done | done | done | by rw Hobj | done | ].
    exists t2'. rw Hrun Hobj Hmax. done.
Qed.



(** C5, as the code has it. [update] called on a consistent tracker with
    detections and live objects (when [argsort] sorts the row minima and a
    loop over a set meets every member once) first sheds load, leaving a
    tracker [t1] (the tracker itself unless the live objects outnumber twice
    the detections).  Among the live objects of [t1]:
    - the processing order is a permutation of them along which the minimum
      distance to a detection does not decrease;
    - the minimum of each row is attained at its arg-min detection;
    - the greedy loop consumes exactly the rows and columns of the specified
      assignment and leaves exactly those pairs applied;
    - the consumed rows and columns depend only on the live centroids of
      [t1], the detections and [max_distance];
    - [update] runs to completion when re-identification is off or no frame
      is given (only [register] with a frame to identify can raise), and
      whenever it returns every paired object ends the call with the centroid
      and box of its detection and no disappeared frame. *)
Theorem greedy_assignment_after_shedding (t : Tracker)
    (detections : list Detection) (frame : option Frame) (now : Z)
    (Hwf : wf t) (Hdetections : detections ≠ []) (Hlive : objects t ≠ [])
    (Hiter : visits_each_once)
    (Hsort : ∀ t1 mins,
        shed t detections now = Some t1 →
        traverse row_min
          (cdist (Dict.values (objects t1)) (map centroid_of detections))
        = Some mins →
        is_argsort mins (argsort mins) = true) :
  ∃ t1 mins,
    shed t detections now = Some t1 ∧
    (length (objects t) ≤ 2 * length detections → t1 = t) ∧
    max_distance t1 = max_distance t ∧
    traverse row_min
      (cdist (Dict.values (objects t1)) (map centroid_of detections))
    = Some mins ∧
    let cs := map centroid_of detections in
    let bs := map bbox_of detections in
    let D := cdist (Dict.values (objects t1)) cs in
    let order := argsort mins in
    let A := spec_assignment D (max_distance t) order in
    order ≡ₚ seq 0 (length (objects t1)) ∧
    ascending_along mins order = true ∧
    (∀ r, r < length (objects t1) →
          ∃ row m c, D !! r = Some row ∧ mins !! r = Some m ∧
                     arg_min_detection D r = Some c ∧ row !! c = Some m ∧
                     ∀ c' d, row !! c' = Some d → (m <= d)%Q) ∧
    (∃ t2, greedy_match t1 cs bs now
           = Some (t2, list_to_set (Dict.keys A), list_to_set (Dict.values A))
           ∧ assigned t1 t2 (Dict.keys (objects t1)) cs bs now A) ∧
    (∀ (t' : Tracker) (now' : Z),
       wf t' → objects t' = objects t1 → max_distance t' = max_distance t →
       ∃ t2', greedy_match t' cs bs now'
              = Some (t2', list_to_set (Dict.keys A),
                      list_to_set (Dict.values A))) ∧
    (reid_enabled t = false ∨ frame = None →
     is_Some (update_tracker t detections frame now)) ∧
    (∀ t', update_tracker t detections frame now = Some t' →
           ∀ r id c, Dict.keys (objects t1) !! r = Some id →
                     Dict.get r A = Some c →
                     Dict.get id (objects t') = cs !! c ∧
                     Dict.get id (positions t') = bs !! c ∧
                     Dict.get id (disappeared t') = Some 0).
Proof.
  destruct (shed_total t detections now Hwf)
    as (t1 & Hshed & Hs1 & _ & _ & Hsame).
  pose proof Hs1 as (Hwf1 & _ & (_ & Hmax & _ & Hre1) & _).
  destruct (row_min_total (Dict.values (objects t1))
              (map centroid_of detections)) as [mins Hmins];
    [by destruct detections|].
  pose proof (Hsort t1 mins Hshed Hmins) as Hsorted.
  exists t1, mins.
  split_and!; [ done | intros Hfew; apply Hsame; by left | done | done | ].
  rw -Hmax.
  destruct (matching_is_row_priority t1 detections now mins Hwf1 Hdetections
              Hmins Hsorted) as (H1 & H2 & H3 & H4 & H5).
  cbv zeta. split; [done|]. split; [done|]. split; [done|].
  split; [done|]. split; [done|].
  assert (Nat.eqb (length detections) 0 = false) as E1.
  { destruct (Nat.eqb _ 0) eqn:E; [|done].
    apply length_zero_nil in E. done. }
  assert (reid_enabled t = false ∨ frame = None →
          reid_enabled t1 = false ∨ frame = None) as Hoff1.
  { intros [Hoff | Hnone]; [left | by right]. by rw Hre1. }
  destruct (Nat.eqb (length (objects t1)) 0) eqn:E2.
  - pose proof (proj1 (length_zero_nil _) E2) as Hnil.
    assert (update_tracker t detections frame now
            = register_all frame now (map centroid_of detections)
                (map bbox_of detections)
                (seq 0 (length (map centroid_of detections))) t1) as ->.
    { unfold update_tracker. rw Hshed. cbn [mbind option_bind].
      by rw E1 E2. }
    split.
    + intros Hoff. apply register_all_total; [by apply Hoff1|].
      intros col Hcol. apply elem_of_seq in Hcol. rw !length_map in Hcol.
      rw !length_map. lia.
    + intros t' _ r id c Hr. rw Hnil in Hr. inversion Hr.
  - destruct (matching_phase t1 detections frame now mins Hiter Hwf1
                Hdetections Hmins Hsorted)
      as (t2 & t3 & Hgreedy & Hassigned & Hmiss & Htotal & Hafter).
    assert (update_tracker t detections frame now
            = register_all frame now (map centroid_of detections)
                (map bbox_of detections)
                (unused (length (map centroid_of detections))
                   (list_to_set
                      (Dict.values
                         (spec_assignment
                            (cdist (Dict.values (objects t1))
                               (map centroid_of detections))
                            (max_distance t1) (argsort mins))))) t3) as ->.
    { unfold update_tracker. rw Hshed. cbn [mbind option_bind].
      rw E1 E2 Hgreedy. cbn [mbind option_bind]. rw Hmiss. done. }
    split; [by intros Hoff; apply Htotal, Hoff1|].
    intros t' Hreg r id c Hr Hc.
    destruct (Hafter t' Hreg) as (Hkeep & _).
    pose proof (Hassigned r id Hr) as Ha.
    cbv zeta in Ha. rw Hc in Ha.
    destruct Ha as (A1 & A2 & A3 & _).
    destruct (Hkeep r id Hr) as (U1 & U2 & U3 & _).
    { apply get_keys. by eexists. }
    by rw U1 U2 U3.
Qed.

End Assignment.

(** C5, as stated, fails when [update] sheds load: with the live objects at
    (0,0), (10,10), (20,20) and one detection at (1,1), the row-priority
    assignment over the live set pairs object 0 with the detection, but
    [update] has deregistered object 0 before the matching. *)
Lemma load_shedding_changes_assignment :
  ¬ (∀ (t t' : Tracker) (detections : list Detection)
       (frame : option (@Frame label_extractor)) (now : Z) (mins : list Q)
       (r id c : nat),
       wf t → detections ≠ [] → objects t ≠ [] →
       traverse row_min
         (cdist (Dict.values (objects t)) (map centroid_of detections))
       = Some mins →
       is_argsort mins (@argsort stable_orders mins) = true →
       @update_tracker label_extractor stable_orders t detections frame now
       = Some t' →
       Dict.keys (objects t) !! r = Some id →
       Dict.get r
         (spec_assignment
            (cdist (Dict.values (objects t)) (map centroid_of detections))
            (max_distance t) (@argsort stable_orders mins)) = Some c →
       Dict.get id (objects t') = map centroid_of detections !! c).
Proof.
  intros H.
  specialize (H Scenario.crowd Scenario.thinned_first Scenario.near_first None
                (2 * Scenario.second)%Z Scenario.crowd_mins_near 0 0 0).
  assert (Dict.get 0 (objects Scenario.thinned_first)
          = map centroid_of Scenario.near_first !! 0) as Hpaired.
  { apply H.
    - apply wfb_wf. vm_compute. reflexivity.
    - discriminate.
    - vm_compute. discriminate.
    - vm_compute. reflexivity.
    - vm_compute. reflexivity.
    - vm_compute. reflexivity.
    - reflexivity.
    - vm_compute. reflexivity. }
  vm_compute in Hpaired. discriminate.
Qed.

Lemma greedy_assignment_after_shedding_witness :
  ∃ t1 mins,
    shed Scenario.crowd Scenario.next_frame
      (2 * Scenario.second)%Z = Some t1 ∧
    (length (objects Scenario.crowd) ≤ 2 * length Scenario.next_frame →
     t1 = Scenario.crowd) ∧
    max_distance t1 = max_distance Scenario.crowd ∧
    traverse row_min
      (cdist (Dict.values (objects t1)) (map centroid_of Scenario.next_frame))
    = Some mins ∧
    let cs := map centroid_of Scenario.next_frame in
    let bs := map bbox_of Scenario.next_frame in
    let D := cdist (Dict.values (objects t1)) cs in
    let order := @argsort stable_orders mins in
    let A := spec_assignment D (max_distance Scenario.crowd) order in
    order ≡ₚ seq 0 (length (objects t1)) ∧
    ascending_along mins order = true ∧
    (∀ r, r < length (objects t1) →
          ∃ row m c, D !! r = Some row ∧ mins !! r = Some m ∧
                     arg_min_detection D r = Some c ∧ row !! c = Some m ∧
                     ∀ c' d, row !! c' = Some d → (m <= d)%Q) ∧
    (∃ t2, @greedy_match stable_orders t1 cs bs
             (2 * Scenario.second)%Z
           = Some (t2, list_to_set (Dict.keys A), list_to_set (Dict.values A))
           ∧ assigned t1 t2 (Dict.keys (objects t1)) cs bs
               (2 * Scenario.second)%Z A) ∧
    (∀ (t' : Tracker) (now' : Z),
       wf t' → objects t' = objects t1 →
       max_distance t' = max_distance Scenario.crowd →
       ∃ t2', @greedy_match stable_orders t' cs bs now'
              = Some (t2', list_to_set (Dict.keys A),
                      list_to_set (Dict.values A))) ∧
    (reid_enabled Scenario.crowd = false
     ∨ (None : option (@Frame label_extractor)) = None →
     is_Some (@update_tracker label_extractor stable_orders Scenario.crowd
                Scenario.next_frame None (2 * Scenario.second)%Z)) ∧
    (∀ t', @update_tracker label_extractor stable_orders Scenario.crowd
             Scenario.next_frame None (2 * Scenario.second)%Z = Some t' →
           ∀ r id c, Dict.keys (objects t1) !! r = Some id →
                     Dict.get r A = Some c →
                     Dict.get id (objects t') = cs !! c ∧
                     Dict.get id (positions t') = bs !! c ∧
                     Dict.get id (disappeared t') = Some 0).
Proof.
  apply (@greedy_assignment_after_shedding label_extractor stable_orders
           Scenario.crowd Scenario.next_frame None (2 * Scenario.second)%Z).
  - apply wfb_wf. vm_compute. reflexivity.
  - discriminate.
  - vm_compute. discriminate.
  - intros l. reflexivity.
  - intros t1 mins Hshed Hmins. vm_compute in Hshed. injection Hshed as <-.
    vm_compute in Hmins. injection Hmins as <-. vm_compute. reflexivity.
Defined.

(** ** What the exit sweep does do, and what the counter never reads *)

Section Extras.
Context `{FE : FeatureExtractor} `{SO : Orders}.
Implicit Types (t : Tracker) (id k : nat).

(** One entry of the sweep: it runs to completion, touches at most the object
    of the entry, and exits that object when it is live, Scanned and stale. *)
Lemma check_exit_step now t ids (entry : nat * Stamps) :
  wf t →
  ∃ t' ids',
    check_exit now (t, ids) entry = Some (t', ids') ∧
    sound_step t t' ∧
    (∀ k, k ≠ fst entry → untouched k t t') ∧
    (∀ k, k ∈ ids → k ∈ ids') ∧
    (∀ k, Dict.mem k (objects t') = true → Dict.mem k (objects t) = true) ∧
    (Dict.mem (fst entry) (objects t) = true →
     Dict.get (fst entry) (states t) = Some Scanned →
     Qltb (exit_timeout t) (total_seconds now (last_seen (snd entry))) = true →
     fst entry ∈ ids' ∧
     Dict.mem (fst entry) (objects t') = false ∧
     Dict.get (fst entry) (states t') = Some Exited ∧
     Dict.get (fst entry) (exit_times t') = Some now).
Proof.
  intros Hwf. unfold check_exit.
  assert (∃ t' ids', Some (t, ids) = Some (t', ids') ∧ sound_step t t' ∧
            (∀ k, k ≠ fst entry → untouched k t t') ∧
            (∀ k, k ∈ ids → k ∈ ids') ∧
            (∀ k, Dict.mem k (objects t') = true → Dict.mem k (objects t) = true))
    as Hskip.
  { exists t, ids.
    split_and!; [ done | by apply sound_step_refl | | done | done ].
    intros; apply untouched_refl. }
  destruct (Dict.get (fst entry) (states t)) as [[]|] eqn:Hst;
    try (destruct Hskip as (t' & ids' & H1 & H2 & H3 & H4 & H5);
         exists t', ids'; split_and!; try done;
         intros _ Hsc; congruence).
  destruct (Qltb _ _) eqn:Hstale; cbn [andb];
    [|destruct Hskip as (t' & ids' & H1 & H2 & H3 & H4 & H5);
      exists t', ids'; split_and!; try done; intros _ _ Hq; congruence].
  destruct (Dict.mem (fst entry) (objects t)) eqn:Hlive;
    [|destruct Hskip as (t' & ids' & H1 & H2 & H3 & H4 & H5);
      exists t', ids'; split_and!; try done; intros Hq; congruence].
  assert (is_Some (deregister
            (with_exit_times (Dict.put (fst entry) now (exit_times t))
               (with_states (Dict.put (fst entry) Exited (states t)) t))
            (fst entry) now)) as [t' Hd].
  { rw deregister_eq. fields. rw get_put_eq Hlive.
    pose proof Hwf as (H1 & H2 & _).
    rw (mem_sync (disappeared t) (objects t)) // Hlive.
    rw (mem_sync (positions t) (objects t)) // Hlive. by eexists. }
  destruct (exit_sweep_sound t (fst entry) now t' Hwf Hst Hd)
    as (Hs & Hu & Hgone & Hex & Htime & _).
  exists t', (ids ++ [fst entry]). rw Hd. cbn [mbind option_bind].
  split_and!; [ done | done | done | | | ].
  - intros k Hk. apply elem_of_app. by left.
  - intros k Hk. destruct (decide (k = fst entry)) as [->|Hne]; [congruence|].
    by rw -(untouched_mem k t t' (Hu k Hne)).
  - intros _ _ _. split_and!; try done. apply elem_of_app. right. by left.
Qed.

Lemma check_exits_run now entries t ids :
  wf t →
  ∃ t' ids',
    foldM (check_exit now) entries (t, ids) = Some (t', ids') ∧
    sound_step t t' ∧
    (∀ k, k ∉ Dict.keys entries → untouched k t t') ∧
    (∀ k, k ∈ ids → k ∈ ids').
Proof.
  revert t ids. induction entries as [|e entries IH]; intros t ids Hwf.
  - exists t, ids.
    split_and!; [ done | by apply sound_step_refl | | done ].
    intros; apply untouched_refl.
  - destruct (check_exit_step now t ids e Hwf)
      as (t1 & ids1 & Hstep & Hs1 & Hu1 & Hi1 & _).
    destruct (IH t1 ids1 (proj1 Hs1)) as (t' & ids' & Hrun & Hs & Hu & Hi).
    exists t', ids'. cbn [foldM]. rw Hstep.
    split_and!; [ done | eapply sound_step_trans; [apply Hs1 | apply Hs] | | ].
    + intros k Hk. cbn [Dict.keys map] in Hk.
      apply not_elem_of_cons in Hk as [Hne Hk].
      eapply untouched_trans; [by apply Hu1 | by apply Hu].
    + intros k Hk. by apply Hi, Hi1.
Qed.

(** An object the sweep has exited stays as the sweep left it. *)
Lemma check_exits_keep now entries t ids t' ids' id :
  wf t → foldM (check_exit now) entries (t, ids) = Some (t', ids') →
  id ∈ ids → Dict.mem id (objects t) = false →
  Dict.get id (states t) = Some Exited →
  Dict.get id (exit_times t) = Some now →
  id ∈ ids' ∧ Dict.mem id (objects t') = false ∧
  Dict.get id (states t') = Some Exited ∧
  Dict.get id (exit_times t') = Some now.
Proof.
  revert t ids. induction entries as [|e entries IH];
    intros t ids Hwf Hrun Hin Hgone Hst Hex; cbn [foldM] in Hrun.
  - by injection Hrun as <- <-.
  - destruct (check_exit_step now t ids e Hwf)
      as (t1 & ids1 & Hstep & Hs1 & Hu1 & Hi1 & _).
    rw Hstep in Hrun. destruct (decide (fst e = id)) as [Heq|Hne].
    + unfold check_exit in Hstep. rw Heq Hst in Hstep.
      injection Hstep as <- <-. by eapply IH.
    + assert (untouched id t t1) as Hu by (apply Hu1; congruence).
      pose proof (untouched_mem _ _ _ Hu) as Hmem.
      destruct Hu as (_ & _ & _ & _ & U5 & U6).
      eapply (IH t1 ids1); [apply Hs1 | done | by apply Hi1 | congruence
                           | congruence | congruence ].
Qed.

Lemma get_split {V : Type} (d : Dict.t V) k v :
  Dict.get k d = Some v →
  ∃ pre post, d = pre ++ (k, v) :: post ∧ k ∉ Dict.keys pre.
Proof.
  induction d as [|[k' v'] d IH]; simpl; [done|].
  destruct (Nat.eqb k k') eqn:E.
  - apply Nat.eqb_eq in E. subst k'. intros [= <-]. exists [], d.
    split; [done|]. intros Hin. inversion Hin.
  - apply Nat.eqb_neq in E. intros Hget.
    destruct (IH Hget) as (pre & post & -> & Hnot).
    exists ((k', v') :: pre), post. split; [done|].
    cbn [Dict.keys map fst]. apply not_elem_of_cons. by split.
Qed.

(** On a consistent tracker [check_for_exits] runs to completion; every live
    Scanned object last seen more than [exit_timeout] seconds ago is returned,
    removed from the live set, Exited and stamped; and the counted-persons set
    is what it was. *)
Lemma check_for_exits_spec t now :
  wf t →
  ∃ t' ids,
    check_for_exits t now = Some (t', ids) ∧
    counted_people t' = counted_people t ∧
    ∀ id ts,
      Dict.mem id (objects t) = true →
      Dict.get id (states t) = Some Scanned →
      Dict.get id (timestamps t) = Some ts →
      Qltb (exit_timeout t) (total_seconds now (last_seen ts)) = true →
      id ∈ ids ∧ Dict.mem id (objects t') = false ∧
      Dict.get id (states t') = Some Exited ∧
      Dict.get id (exit_times t') = Some now.
Proof.
  intros Hwf.
  destruct (check_exits_run now (timestamps t) t [] Hwf)
    as (t' & ids & Hrun & _).
  exists t', ids. split; [done|].
  split; [by eapply check_for_exits_counted_people|].
  intros id ts Hlive Hst Hts Hstale.
  destruct (get_split _ _ _ Hts) as (pre & post & Hsplit & Hnot).
  unfold check_for_exits in Hrun. rw Hsplit foldM_app in Hrun.
  destruct (check_exits_run now pre t [] Hwf) as (t1 & ids1 & Hpre & Hs1 & Hu1 & _).
  rw Hpre in Hrun. cbn [mbind option_bind foldM] in Hrun.
  pose proof (Hu1 id Hnot) as Hu.
  pose proof (untouched_mem _ _ _ Hu) as Hmem.
  destruct Hu as (_ & _ & _ & _ & U5 & _).
  pose proof Hs1 as (Hwf1 & _ & (_ & _ & Hto & _) & _).
  destruct (check_exit_step now t1 ids1 (id, ts) Hwf1)
    as (t2 & ids2 & Hstep & Hs2 & _ & _ & _ & Hexit).
  rw Hstep in Hrun. cbn [fst snd] in Hexit.
  destruct Hexit as (Hin & Hgone & Hex & Htime); [congruence | congruence | |].
  { by rw Hto. }
  eapply check_exits_keep; [apply Hs2 | done | done | done | done | done].
Qed.

(** The counter reads only the id and the centroid of an entry: the state,
    the person id and the already-counted mark the tracker reports, and the
    tracker itself, do not influence what it counts. *)
Lemma count_object_reads_centroid_only now c tr tr' id (d d' : ObjData) :
  centroid d = centroid d' →
  fst (count_object now (c, tr) (id, d))
  = fst (count_object now (c, tr') (id, d')).
Proof.
  intros Heq. rw !count_object_eq. cbn [fst snd]. rw Heq.
  destruct (bool_decide _); [done|]. cbv zeta.
  destruct (Dict.get id (last_positions c)); [|done].
  by destruct (_ && _).
Qed.

(** From a fresh counter, the aggregate count is the number of counted ids. *)
Lemma count_is_size_of_counted_ids c frames :
  count c = size (counted_ids c) →
  count (count_frames c frames) = size (counted_ids (count_frames c frames)).
Proof.
  revert c. induction frames as [|[[objs tr] now] frames IH]; intros c Hc;
    [done|].
  unfold count_frames in *. cbn [fold_left count_visitors fst]. apply IH.
  clear IH. revert c tr Hc.
  induction objs as [|item objs IHo]; intros c tr Hc; [done|].
  cbn [fold_left].
  destruct (count_object_step now c tr item)
    as (_ & _ & _ & _ & [[H1 H2] | (H1 & H2 & Hnew & _)]);
    destruct (count_object now (c, tr) item) as [c1 tr1]; apply IHo;
    cbn [fst] in *.
  - congruence.
  - rw H1 H2 size_union; [|by rw size_singleton Hc].
    by apply disjoint_singleton_l.
Qed.

End Extras.

(** * Further properties of the tracking core *)

(** ** The view returned by get_objects *)

Section LiveView.
Context `{FE : FeatureExtractor} `{SO : Orders}.
Implicit Types (t : Tracker) (id k : nat).

Lemma traverse_keys {V W : Type} (f : nat * V → option (nat * W))
    (d : Dict.t V) (r : Dict.t W) :
  (∀ e e', f e = Some e' → fst e' = fst e) →
  traverse f d = Some r → Dict.keys r = Dict.keys d.
Proof.
  intros Hf. revert r. induction d as [|e d IH]; intros r; cbn [traverse].
  - by intros [= <-].
  - destruct (f e) as [e'|] eqn:He; [|done].
    destruct (traverse f d) as [r'|]; [|done]. intros [= <-].
    cbn [Dict.keys map]. f_equal; [by eapply Hf | by apply IH].
Qed.

Lemma traverse_elem {A B : Type} (f : A → option B) (l : list A) ys y :
  traverse f l = Some ys → y ∈ ys → ∃ x, x ∈ l ∧ f x = Some y.
Proof.
  revert ys. induction l as [|x l IH]; intros ys; cbn [traverse].
  - intros [= <-] Hin. inversion Hin.
  - destruct (f x) as [y'|] eqn:Hx; [|done].
    destruct (traverse f l) as [ys'|]; [|done]. intros [= <-] Hin.
    apply elem_of_cons in Hin as [-> | Hin].
    + exists x. split; [left | done].
    + destruct (IH ys' eq_refl Hin) as (x' & Hin' & Hx').
      exists x'. split; [by right | done].
Qed.

Lemma get_elem_of {V : Type} (d : Dict.t V) k v :
  Dict.get k d = Some v → (k, v) ∈ d.
Proof.
  induction d as [|[k' v'] d IH]; simpl; [done|].
  destruct (Nat.eqb k k') eqn:E.
  - apply Nat.eqb_eq in E. subst k'. intros [= <-]. left.
  - intros Hget. right. by apply IH.
Qed.

Lemma elem_of_get {V : Type} (d : Dict.t V) k v :
  NoDup (Dict.keys d) → (k, v) ∈ d → Dict.get k d = Some v.
Proof.
  induction d as [|[k' v'] d IH]; intros Hnd Hin; [inversion Hin|].
  cbn [Dict.keys map fst] in Hnd. apply NoDup_cons in Hnd as [Hnot Hnd].
  simpl. apply elem_of_cons in Hin as [[= <- <-] | Hin].
  - by rw Nat.eqb_refl.
  - destruct (Nat.eqb k k') eqn:E; [|by apply IH].
    apply Nat.eqb_eq in E. subst k'. exfalso. apply Hnot.
    apply list_elem_of_fmap. by exists (k, v).
Qed.

(** On a consistent tracker [get_objects] finds every record it looks up. *)
Lemma get_objects_view t :
  wf t →
  ∃ objs,
    get_objects t = Some objs ∧
    Dict.keys objs = Dict.keys (objects t) ∧
    ∀ id d, Dict.get id objs = Some d →
      Dict.get id (objects t) = Some (centroid d) ∧
      Dict.get id (positions t) = Some (bbox d) ∧
      Dict.get id (timestamps t) = Some (obj_timestamps d) ∧
      Dict.get id (states t) = Some (state d) ∧
      state d ≠ Exited ∧
      entry_time d = Dict.get id (entry_times t) ∧
      exit_time d = Dict.get id (exit_times t) ∧
      already_counted d = is_already_counted t id.
Proof.
  intros Hwf. pose proof Hwf as (H1 & H2 & H3 & H4 & H5 & H6).
  unfold get_objects.
  match goal with |- context [traverse ?f _] => set (view := f) end.
  destruct (traverse_total view (objects t)) as [objs Hobjs].
  { intros [k c] Hin. subst view. cbn [fst snd].
    assert (k ∈ Dict.keys (objects t)) as Hk.
    { apply list_elem_of_fmap. by exists (k, c). }
    destruct (H5 k Hk) as [(st & -> & _) [ts ->]].
    assert (Dict.mem k (positions t) = true) as Hp.
    { rw (mem_sync (positions t) (objects t)) //. by apply mem_keys. }
    apply mem_true in Hp as [b ->]. by eexists. }
  exists objs. split; [done|].
  assert (Dict.keys objs = Dict.keys (objects t)) as Hkeys.
  { eapply traverse_keys; [|done]. intros [k c] e'. subst view. cbn [fst snd].
    destruct (Dict.get k (positions t)); [|done].
    destruct (Dict.get k (timestamps t)); [|done].
    destruct (Dict.get k (states t)); [|done]. by intros [= <-]. }
  split; [done|]. intros id d Hd.
  apply get_elem_of in Hd.
  destruct (traverse_elem _ _ _ _ Hobjs Hd) as ([k c] & Hin & Hview).
  subst view. cbn [fst snd] in Hview.
  assert (k ∈ Dict.keys (objects t)) as Hk.
  { apply list_elem_of_fmap. by exists (k, c). }
  destruct (Dict.get k (positions t)) as [b|] eqn:Hb; [|done].
  destruct (Dict.get k (timestamps t)) as [ts|] eqn:Hts; [|done].
  destruct (Dict.get k (states t)) as [st|] eqn:Hst; [|done].
  injection Hview as <- <-. cbn.
  destruct (H5 k Hk) as [(st' & Hst' & Hne) _].
  split_and!; try done; [by apply elem_of_get | congruence].
Qed.

(** X1. In every state reached from the constructor by tracker and counter
    operations, [get_objects] raises no [KeyError]; it returns one entry per
    live object, in the order of the live map and each id once; every entry
    carries the centroid, box, timestamps and state the tracker holds for
    the id; and no entry is in Exited state. *)
Theorem live_view_never_shows_exited (md : Z) (mx et : Q) (re : bool) (th : Q)
    (ld : bool) (c0 : VisitorCounter) (ops : list Op) (s : System)
    (Hreach : run {| sys_tracker := Tracker_new md mx et re th ld;
                     sys_counter := c0 |} ops = Some s) :
  ∃ objs,
    get_objects (sys_tracker s) = Some objs ∧
    Dict.keys objs = Dict.keys (objects (sys_tracker s)) ∧
    NoDup (Dict.keys objs) ∧
    ∀ id d, Dict.get id objs = Some d →
      Dict.get id (objects (sys_tracker s)) = Some (centroid d) ∧
      Dict.get id (positions (sys_tracker s)) = Some (bbox d) ∧
      Dict.get id (timestamps (sys_tracker s)) = Some (obj_timestamps d) ∧
      Dict.get id (states (sys_tracker s)) = Some (state d) ∧
      state d ≠ Exited.
Proof.
  pose proof (reachable_wf _ _ _ _ _ _ _ _ _ Hreach) as Hwf.
  destruct (get_objects_view _ Hwf) as (objs & Hget & Hkeys & Hview).
  exists objs. split_and!; [ done | done | rw Hkeys; apply Hwf | ].
  intros id d Hd. destruct (Hview id d Hd) as (V1 & V2 & V3 & V4 & V5 & _).
  done.
Qed.

End LiveView.

Lemma live_view_never_shows_exited_witness :
  ∃ objs,
    get_objects (sys_tracker (Scenario.after Scenario.impatient Scenario.crossing))
    = Some objs ∧
    Dict.keys objs
    = Dict.keys (objects (sys_tracker
                            (Scenario.after Scenario.impatient Scenario.crossing))) ∧
    NoDup (Dict.keys objs) ∧
    ∀ id d, Dict.get id objs = Some d →
      Dict.get id (objects (sys_tracker
                              (Scenario.after Scenario.impatient Scenario.crossing)))
      = Some (centroid d) ∧
      Dict.get id (positions (sys_tracker
                                (Scenario.after Scenario.impatient Scenario.crossing)))
      = Some (bbox d) ∧
      Dict.get id (timestamps (sys_tracker
                                 (Scenario.after Scenario.impatient Scenario.crossing)))
      = Some (obj_timestamps d) ∧
      Dict.get id (states (sys_tracker
                             (Scenario.after Scenario.impatient Scenario.crossing)))
      = Some (state d) ∧
      state d ≠ Exited.
Proof.
  apply (@live_view_never_shows_exited label_extractor stable_orders
           0%Z 100%Q 10%Q true 0.6%Q true Scenario.line_counter
           Scenario.crossing).
  vm_compute. reflexivity.
Defined.

(** ** Track ids *)

Section TrackIds.
Context `{FE : FeatureExtractor} `{SO : Orders}.
Implicit Types (t : Tracker) (id k : nat).

(** X2. [register] returns unless [identify_person] raises, which needs
    re-identification on and a frame.  On a consistent tracker, whenever it
    returns, it hands out [next_object_id], an id that is not live and has no
    state yet, and raises [next_object_id] by one.  The new object is
    appended to the live map with the given centroid and box and no
    disappeared frame; [first_seen] is the first reading of the clock and
    [last_seen] the second; its state is New, or Scanned through the
    re-identification shortcut, which needs re-identification on and a frame.
    The records of every other id stay as they were. *)
Theorem register_allocates_fresh_id (t : Tracker) (c : Centroid) (b : BBox)
    (frame : option Frame) (clock : Readings) (Hwf : wf t) :
  (is_Some (register t c b frame clock) ↔
   match reid_enabled t, frame with
   | true, Some f => is_Some (identify_person (reid t) f b (next_object_id t))
   | _, _ => True
   end) ∧
  Dict.mem (next_object_id t) (objects t) = false ∧
  Dict.get (next_object_id t) (states t) = None ∧
  ∀ t' id,
    register t c b frame clock = Some (t', id) →
    id = next_object_id t ∧
    next_object_id t' = S id ∧
    Dict.keys (objects t') = Dict.keys (objects t) ++ [id] ∧
    Dict.get id (objects t') = Some c ∧
    Dict.get id (positions t') = Some b ∧
    Dict.get id (disappeared t') = Some 0 ∧
    Dict.get id (timestamps t')
    = Some {| first_seen := first_seen_at clock;
              last_seen := last_seen_at clock |} ∧
    (Dict.get id (states t') = Some New ∨
     Dict.get id (states t') = Some Scanned ∧
     reid_enabled t = true ∧ frame ≠ None) ∧
    (∀ k, k ≠ id → untouched k t t') ∧
    wf t'.
Proof.
  pose proof (wf_next_fresh t Hwf) as Hfresh.
  assert (Dict.get (next_object_id t) (states t) = None) as Hnostate.
  { destruct (Dict.get _ (states t)) eqn:E; [|done].
    destruct Hwf as (_ & _ & _ & H4 & _).
    assert (next_object_id t < next_object_id t) by (apply H4; by eexists).
    lia. }
  split; [apply register_returns|]. split; [done|]. split; [done|].
  intros t' id Hreg. rw (register_id _ _ _ _ _ _ _ Hreg).
  split_and!; try done.
  - by eapply register_next.
  - rw (register_objects _ _ _ _ _ _ _ Hreg). by apply keys_put_fresh.
  - by rw (register_objects _ _ _ _ _ _ _ Hreg) get_put_eq.
  - by rw (register_positions _ _ _ _ _ _ _ Hreg) get_put_eq.
  - by rw (register_disappeared _ _ _ _ _ _ _ Hreg) get_put_eq.
  - by rw (register_timestamps _ _ _ _ _ _ _ Hreg) get_put_eq.
  - unfold register in Hreg. simpl in Hreg.
    destruct (reid_enabled t) eqn:Hen; [destruct frame as [f|]|];
      simpl in Hreg;
      try (injection Hreg as <- <-; left; fields; by rw get_put_eq).
    destruct (identify_person _ _ _ _) as [[r [p is_new]]|]; [|done].
    simpl in Hreg. case_bool_decide; injection Hreg as <- <-.
    + right. split; [|done]. unfold mark_as_counted. fields.
      rw get_put_eq. fields. by rw get_put_eq.
    + left. fields. by rw get_put_eq.
  - intros k Hk. by eapply register_untouched.
  - by eapply register_wf.
Qed.

End TrackIds.

(** ** Invariants of the tracker

    Every method changes the tracker through six elementary changes:
    [register], [deregister], one missed frame, one rematch, the two marks,
    and the marking of the exit sweep followed by [deregister].  A property
    kept by each of them on consistent trackers is kept by every run. *)

Section Preservation.
Context `{FE : FeatureExtractor} `{SO : Orders}.
Variable P : Tracker → Prop.
Hypothesis P_register : ∀ t c b f clock t' id,
  wf t → P t → register t c b f clock = Some (t', id) → P t'.
Hypothesis P_deregister : ∀ t id now t',
  wf t → P t → deregister t id now = Some t' → P t'.
Hypothesis P_miss : ∀ t id now t',
  wf t → P t → miss now t id = Some t' → P t'.
Hypothesis P_rematch : ∀ t id c b now,
  wf t → P t → id ∈ Dict.keys (objects t) → P (rematch t id c b now).
Hypothesis P_scanned : ∀ t id,
  wf t → P t → Dict.mem id (objects t) = true →
  P (with_states (Dict.put id Scanned (states t)) t).
Hypothesis P_counted : ∀ t id now,
  wf t → P t → P (mark_as_counted t id now).
Hypothesis P_sweep : ∀ t id now t',
  wf t → P t → Dict.get id (states t) = Some Scanned →
  Dict.mem id (objects t) = true →
  deregister
    (with_exit_times (Dict.put id now (exit_times t))
       (with_states (Dict.put id Exited (states t)) t)) id now = Some t' →
  P t'.

Lemma foldM_keeps {A : Type} (f : Tracker → A → option Tracker)
    (l : list A) t t' :
  (∀ t x t', wf t → P t → f t x = Some t' → wf t' ∧ P t') →
  wf t → P t → foldM f l t = Some t' → wf t' ∧ P t'.
Proof.
  intros Hstep Hwf HP Hrun.
  apply (foldM_invariant (fun t => wf t ∧ P t) f l t t'); [|done|done].
  intros t0 x t1 [Hwf0 HP0] Hf. by eapply Hstep.
Qed.

Lemma register_all_keeps frame now cs bs cols t t' :
  wf t → P t → register_all frame now cs bs cols t = Some t' → wf t' ∧ P t'.
Proof.
  apply foldM_keeps. intros t0 col t1 Hwf0 HP0 Hstep.
  apply register_all_step in Hstep as (c & b & id & _ & _ & Hreg).
  split; [by eapply register_sound | by eapply P_register].
Qed.

Lemma greedy_loop_keeps D oids cs bs now pairs t ur uc t' ur' uc' :
  wf t → P t → Dict.keys (objects t) = oids →
  foldM (match_step D oids cs bs now) pairs (t, ur, uc) = Some (t', ur', uc') →
  wf t' ∧ P t'.
Proof.
  revert t ur uc. induction pairs as [|[row col] pairs IH];
    intros t ur uc Hwf HP Hkeys Hrun; cbn [foldM] in Hrun.
  - by injection Hrun as <- <- <-.
  - destruct (match_step D oids cs bs now (t, ur, uc) (row, col))
      as [[[t1 ur1] uc1]|] eqn:Hstep; [|done].
    apply match_step_inv in Hstep
      as [(-> & -> & -> & _)
         | (_ & _ & -> & -> & d & id & c & b & _ & _ & Hid & _ & _ & _ & ->)].
    { by eapply IH. }
    assert (id ∈ Dict.keys (objects t)) as Hin
      by (rw Hkeys; by eapply list_elem_of_lookup_2).
    destruct (rematch_sound t id c b now Hwf Hin) as (Hs & Hk & _).
    eapply IH; [apply Hs | by apply P_rematch | congruence | done].
Qed.

Lemma update_tracker_keeps t detections frame now t' :
  wf t → P t → update_tracker t detections frame now = Some t' →
  wf t' ∧ P t'.
Proof.
  intros Hwf HP. unfold update_tracker.
  destruct (shed t detections now) as [t1|] eqn:Hshed; [|done].
  assert (wf t1 ∧ P t1) as [Hwf1 HP1].
  { unfold shed in Hshed. destruct (_ && _); [|by injection Hshed as <-].
    eapply foldM_keeps; [|done|done|done].
    intros t0 e t2 Hwf0 HP0 Hd. cbv beta in Hd.
    split; [|by eapply P_deregister].
    by destruct (deregister_sound _ _ _ _ Hwf0 Hd) as [[? _] _]. }
  cbn [mbind option_bind].
  assert (∀ t0 id t2, wf t0 → P t0 → miss now t0 id = Some t2 → wf t2 ∧ P t2)
    as Hmiss.
  { intros t0 id t2 Hwf0 HP0 Hm. split; [|by eapply P_miss].
    by destruct (miss_sound _ _ _ _ Hwf0 Hm) as [[? _] _]. }
  destruct (Nat.eqb (length detections) 0).
  { by apply foldM_keeps. }
  destruct (Nat.eqb (length (objects t1)) 0).
  { by apply register_all_keeps. }
  destruct (greedy_match _ _ _ _) as [[[t2 ur] uc]|] eqn:Hgreedy; [|done].
  cbn [mbind option_bind].
  destruct (foldM _ (unused _ ur) t2) as [t3|] eqn:Hloop; [|done].
  cbn [mbind option_bind]. intros Hreg.
  unfold greedy_match in Hgreedy.
  destruct (pairing_order _) as [pairs|]; [|done].
  cbn [mbind option_bind] in Hgreedy.
  destruct (greedy_loop_keeps _ _ _ _ _ _ _ _ _ _ _ _ Hwf1 HP1 eq_refl Hgreedy)
    as [Hwf2 HP2].
  assert (wf t3 ∧ P t3) as [Hwf3 HP3].
  { eapply foldM_keeps; [|apply Hwf2|apply HP2|apply Hloop].
    intros t0 row t4 Hwf0 HP0. cbv beta.
    destruct (Dict.keys (objects t1) !! row) as [id|]; simpl; [|done].
    by apply Hmiss. }
  by eapply register_all_keeps.
Qed.

Lemma check_for_exits_keeps t now t' ids :
  wf t → P t → check_for_exits t now = Some (t', ids) → wf t' ∧ P t'.
Proof.
  unfold check_for_exits. generalize (@nil nat) as ids0.
  generalize (timestamps t) as entries. intros entries. revert t.
  induction entries as [|e entries IH]; intros t ids0 Hwf HP Hrun;
    cbn [foldM] in Hrun.
  - by injection Hrun as <- <-.
  - destruct (check_exit now (t, ids0) e) as [[t1 ids1]|] eqn:E; [|done].
    assert (wf t1 ∧ P t1) as [Hwf1 HP1]; [|by eapply IH].
    pose proof (check_exit_sound _ _ _ _ _ _ Hwf E) as [Hwf1 _].
    split; [done|]. unfold check_exit in E.
    destruct (Dict.get (fst e) (states t)) as [[]|] eqn:Hst;
      try (by injection E as <- <-).
    destruct (Qltb _ _); cbn [andb] in E; [|by injection E as <- <-].
    destruct (Dict.mem (fst e) (objects t)) eqn:Hlive;
      [|by injection E as <- <-].
    destruct (deregister _ _ _) as [t2|] eqn:Hd; [|done].
    cbn [mbind option_bind] in E. injection E as <- <-.
    exact (P_sweep t (fst e) now t2 Hwf HP Hst Hlive Hd).
Qed.

Lemma count_visitors_keeps c objs tr now :
  wf tr → P tr →
  wf (snd (fst (count_visitors c objs tr now))) ∧
  P (snd (fst (count_visitors c objs tr now))).
Proof.
  unfold count_visitors. cbn [fst]. revert c tr.
  induction objs as [|item objs IH]; intros c tr Hwf HP; cbn [fold_left];
    [done|].
  destruct (count_object now (c, tr) item) as [c1 tr1] eqn:E.
  assert (wf tr1 ∧ P tr1) as [Hwf1 HP1]; [|by apply IH].
  destruct (count_object_tracker now c tr item) as [H | H];
    rw E /= in H; subst tr1; [done|].
  split; [by apply mark_as_scanned_sound|].
  unfold mark_as_scanned. destruct (Dict.mem _ _) eqn:Hm; [|done].
  by apply P_scanned.
Qed.

Lemma step_keeps s o s' :
  wf (sys_tracker s) → P (sys_tracker s) → step s o = Some s' →
  wf (sys_tracker s') ∧ P (sys_tracker s').
Proof.
  intros Hwf HP Hstep. split; [by destruct (step_sound _ _ _ Hwf Hstep)|].
  revert Hstep. destruct o; cbn [step].
  - destruct (register _ _ _ _ _) as [[t' id]|] eqn:E; [|done].
    intros [= <-]. by eapply P_register.
  - destruct (deregister _ _ _) as [t'|] eqn:E; [|done]. intros [= <-].
    by eapply P_deregister.
  - intros [= <-]. cbn [sys_tracker]. unfold mark_as_scanned.
    destruct (Dict.mem _ _) eqn:Hm; [|done]. by apply P_scanned.
  - intros [= <-]. by apply P_counted.
  - unfold update. destruct (update_tracker _ _ _ _) as [t'|] eqn:E; [|done].
    cbn [mbind option_bind]. destruct (get_objects t'); [|done].
    intros [= <-]. by eapply update_tracker_keeps.
  - destruct (check_for_exits _ _) as [[t' ids]|] eqn:E; [|done].
    intros [= <-]. by eapply check_for_exits_keeps.
  - intros [= <-]. by apply count_visitors_keeps.
  - unfold update. destruct (update_tracker _ _ _ _) as [t'|] eqn:E; [|done].
    cbn [mbind option_bind]. destruct (get_objects t'); [|done].
    cbn [mbind option_bind fst snd]. intros [= <-]. cbn [sys_tracker].
    destruct (update_tracker_keeps _ _ _ _ _ Hwf HP E) as [Hwf' HP'].
    by apply count_visitors_keeps.
Qed.

Lemma run_keeps s ops s' :
  wf (sys_tracker s) → P (sys_tracker s) → run s ops = Some s' →
  wf (sys_tracker s') ∧ P (sys_tracker s').
Proof.
  unfold run. revert s. induction ops as [|o ops IH]; intros s Hwf HP Hrun;
    cbn [foldM] in Hrun.
  - by injection Hrun as <-.
  - destruct (step s o) as [s1|] eqn:E; [|done].
    destruct (step_keeps _ _ _ Hwf HP E) as [Hwf1 HP1]. by eapply IH.
Qed.

End Preservation.

(** ** What every reachable tracker satisfies *)

Section Reachable.
Context `{FE : FeatureExtractor} `{SO : Orders}.
Implicit Types (t : Tracker) (id k : nat).

Lemma deregister_inv t id now t' :
  deregister t id now = Some t' →
  ∃ st, Dict.get id (states t) = Some st ∧
        Dict.mem id (objects t) = true ∧
        t' = with_live (Dict.remove id (objects t))
               (Dict.remove id (disappeared t))
               (Dict.remove id (positions t)) (exit_mark t id now st).
Proof.
  rw deregister_eq. destruct (Dict.get id (states t)) as [st|]; [|done].
  destruct (Dict.mem id (objects t)); [|done].
  destruct (_ && _); [|done]. intros [= <-]. by exists st.
Qed.

Lemma exit_mark_states t id now st :
  Dict.get id (states t) = Some st →
  Dict.keys (states (exit_mark t id now st)) = Dict.keys (states t) ∧
  (∀ k, k ≠ id →
     Dict.get k (states (exit_mark t id now st)) = Dict.get k (states t) ∧
     Dict.get k (exit_times (exit_mark t id now st))
     = Dict.get k (exit_times t)) ∧
  (st ≠ Scanned →
     states (exit_mark t id now st) = states t ∧
     exit_times (exit_mark t id now st) = exit_times t) ∧
  (st = Scanned →
     Dict.get id (states (exit_mark t id now st)) = Some Exited ∧
     Dict.get id (exit_times (exit_mark t id now st)) = Some now).
Proof.
  intros Hst.
  assert (st = Scanned ∨ st ≠ Scanned) as [->|Hne]
    by (destruct st; auto).
  - destruct (exit_mark_scanned t id now) as (-> & -> & _).
    split_and!; [ | | done | ].
    + rw keys_put_mem //. apply mem_true. by eexists.
    + intros k Hk. by rw !get_put_ne.
    + intros _. by rw !get_put_eq.
  - rw exit_mark_other //.
Qed.

Lemma miss_inv now t id t' :
  miss now t id = Some t' →
  ∃ n, Dict.get id (disappeared t) = Some n ∧
       let t1 := with_disappeared (Dict.put id (S n) (disappeared t)) t in
       if Z.ltb (max_disappeared t) (Z.of_nat (S n))
       then deregister t1 id now = Some t'
       else t' = t1.
Proof.
  unfold miss. destruct (Dict.get id (disappeared t)) as [n|]; [|done].
  cbn [mbind option_bind]. intros Hrun. exists n. split; [done|]. cbv zeta.
  unfold with_disappeared in *. fields.
  destruct (Z.ltb _ _); [done | by injection Hrun].
Qed.

(** X3. A track id that has been handed out and is no longer live stays out
    of the live map under every further sequence of tracker and counter
    operations: ids are not reused and a deregistered track is not revived. *)
Theorem retired_id_never_returns (s s' : System) (ops : list Op) (k : nat)
    (Hwf : wf (sys_tracker s))
    (Hold : k < next_object_id (sys_tracker s))
    (Hgone : Dict.mem k (objects (sys_tracker s)) = false)
    (Hrun : run s ops = Some s') :
  k < next_object_id (sys_tracker s') ∧
  Dict.mem k (objects (sys_tracker s')) = false ∧
  Dict.mem k (disappeared (sys_tracker s')) = false ∧
  Dict.mem k (positions (sys_tracker s')) = false.
Proof.
  set (P := fun t => k < next_object_id t ∧ Dict.mem k (objects t) = false).
  assert (∀ t id now t', P t → deregister t id now = Some t' → P t') as Hdereg.
  { intros t id now t' [Hk Hm] Hd.
    apply deregister_inv in Hd as (st & _ & _ & ->).
    destruct (exit_mark_fields t id now st) as (F1 & F2 & _).
    split; fields; [by rw F1|]. rw mem_remove Hm. by destruct (negb _). }
  destruct (run_keeps P) with (s := s) (ops := ops) (s' := s')
    as [Hwf' [Hk Hm]]; try done.
  - intros t c b f clock t' id Hwft [Hk Hm] Hreg. split.
    + rw (register_next _ _ _ _ _ _ _ Hreg). lia.
    + rw (register_objects _ _ _ _ _ _ _ Hreg) mem_put Hm.
      destruct (Nat.eqb_spec (next_object_id t) k) as [Heq|]; [lia | done].
  - intros t id now t' _. apply Hdereg.
  - intros t id now t' _ [Hk Hm] Hmiss.
    apply miss_inv in Hmiss as (n & _ & Hmiss). cbv zeta in Hmiss.
    destruct (Z.ltb _ _); [|by subst t'].
    eapply Hdereg; [|exact Hmiss]. by split.
  - intros t id c b now _ [Hk Hm] Hin. split; [done|].
    unfold rematch. fields. rw mem_put Hm.
    destruct (Nat.eqb_spec id k) as [->|]; [|done].
    apply mem_keys in Hin. congruence.
  - intros t id now _ HP. unfold mark_as_counted.
    by destruct (Dict.get id (states t)) as [[]|].
  - intros t id now t' _ HP _ _. by apply Hdereg.
  - pose proof Hwf' as (H1 & H2 & _).
    split_and!; [ done | done | | ].
    + by rw (mem_sync (disappeared (sys_tracker s')) (objects (sys_tracker s'))).
    + by rw (mem_sync (positions (sys_tracker s')) (objects (sys_tracker s'))).
Qed.

(** X4. In every state reached from the constructor, no live object has more
    disappeared frames than [max_disappeared] (than zero, when
    [max_disappeared] is negative). *)
Theorem live_objects_within_max_disappeared (md : Z) (mx et : Q) (re : bool)
    (th : Q) (ld : bool) (c0 : VisitorCounter) (ops : list Op) (s : System)
    (Hreach : run {| sys_tracker := Tracker_new md mx et re th ld;
                     sys_counter := c0 |} ops = Some s) :
  max_disappeared (sys_tracker s) = md ∧
  ∀ id n, Dict.get id (disappeared (sys_tracker s)) = Some n →
          (Z.of_nat n <= Z.max 0 md)%Z.
Proof.
  set (P := fun t => max_disappeared t = md ∧
                     ∀ id n, Dict.get id (disappeared t) = Some n →
                             (Z.of_nat n <= Z.max 0 md)%Z).
  assert (∀ t id now t', P t → deregister t id now = Some t' → P t') as Hdereg.
  { intros t id now t' [Hmd Hb] Hd.
    apply deregister_inv in Hd as (st & _ & _ & ->).
    destruct (exit_mark_fields t id now st) as (_ & _ & F3 & _ & _ & _ & F7 & _).
    split; fields; [by rw F7|]. intros k n.
    destruct (decide (id = k)) as [->|Hne];
      [by rw get_remove_eq | rw get_remove_ne //; apply Hb]. }
  destruct (run_keeps P) with
    (s := {| sys_tracker := Tracker_new md mx et re th ld; sys_counter := c0 |})
    (ops := ops) (s' := s) as [_ HP]; try done.
  - intros t c b f clock t' id _ [Hmd Hb] Hreg. split.
    + by destruct (register_config _ _ _ _ _ _ _ Hreg) as (-> & _).
    + intros k n. rw (register_disappeared _ _ _ _ _ _ _ Hreg).
      destruct (decide (next_object_id t = k)) as [->|Hne];
        [rw get_put_eq; intros [= <-]; lia | rw get_put_ne //; apply Hb].
  - intros t id now t' _. apply Hdereg.
  - intros t id now t' _ [Hmd Hb] Hmiss.
    apply miss_inv in Hmiss as (n & Hn & Hmiss). cbv zeta in Hmiss.
    destruct (Z.ltb _ _) eqn:Hlt.
    + apply deregister_inv in Hmiss as (st & _ & _ & ->).
      match goal with |- P (with_live _ _ _ (exit_mark ?t0 _ _ _)) =>
        destruct (exit_mark_fields t0 id now st)
          as (_ & _ & F3 & _ & _ & _ & F7 & _) end.
      split; fields; [by rw F7|]. intros k m. unfold with_disappeared.
      fields. destruct (decide (id = k)) as [->|Hne];
        [by rw get_remove_eq | rw get_remove_ne // get_put_ne //; apply Hb].
    + subst t'. split; [done|]. intros k m. unfold with_disappeared. fields.
      apply Z.ltb_ge in Hlt.
      destruct (decide (id = k)) as [->|Hne];
        [rw get_put_eq; intros [= <-]; lia | rw get_put_ne //; apply Hb].
  - intros t id c b now _ [Hmd Hb] _. split; [done|]. intros k n.
    unfold rematch. fields.
    destruct (decide (id = k)) as [->|Hne];
      [rw get_put_eq; intros [= <-]; lia | rw get_put_ne //; apply Hb].
  - intros t id now _ HP. unfold mark_as_counted.
    by destruct (Dict.get id (states t)) as [[]|].
  - intros t id now t' _ HP _ _. by apply Hdereg.
  - apply wf_new.
Qed.

End Reachable.

(** ** The records the tracker keeps of an id *)

Section Records.
Context `{FE : FeatureExtractor} `{SO : Orders}.
Implicit Types (t : Tracker) (id k : nat).

Lemma sweep_inv t id now t' :
  deregister
    (with_exit_times (Dict.put id now (exit_times t))
       (with_states (Dict.put id Exited (states t)) t)) id now = Some t' →
  next_object_id t' = next_object_id t ∧
  states t' = Dict.put id Exited (states t) ∧
  exit_times t' = Dict.put id now (exit_times t) ∧
  timestamps t' = timestamps t.
Proof.
  intros Hd. apply deregister_inv in Hd as (st & Hst & _ & ->).
  revert Hst. fields. rw get_put_eq. by intros [= <-].
Qed.

(** X5. In every state reached from the constructor an id has an exit time
    exactly when its state is Exited; [get_objects] therefore reports no
    exit time for any object it returns. *)
Theorem exit_time_marks_exited (md : Z) (mx et : Q) (re : bool)
    (th : Q) (ld : bool) (c0 : VisitorCounter) (ops : list Op) (s : System)
    (Hreach : run {| sys_tracker := Tracker_new md mx et re th ld;
                     sys_counter := c0 |} ops = Some s) :
  (∀ id, is_Some (Dict.get id (exit_times (sys_tracker s))) ↔
         Dict.get id (states (sys_tracker s)) = Some Exited) ∧
  ∃ objs, get_objects (sys_tracker s) = Some objs ∧
          ∀ id d, Dict.get id objs = Some d → exit_time d = None.
Proof.
  set (P := fun t => ∀ id, is_Some (Dict.get id (exit_times t)) ↔
                           Dict.get id (states t) = Some Exited).
  assert (∀ t id now t', P t → deregister t id now = Some t' → P t') as Hdereg.
  { intros t id now t' HP Hd.
    apply deregister_inv in Hd as (st & Hst & _ & ->). intros k. fields.
    destruct (exit_mark_states t id now st Hst) as (_ & Hother & Hsame & Hsc).
    destruct (decide (k = id)) as [->|Hne].
    - assert (st = Scanned ∨ st ≠ Scanned) as [->|Hns] by (destruct st; auto).
      + destruct (Hsc eq_refl) as [-> ->]. split; [done | by eexists].
      + destruct (Hsame Hns) as [-> ->]. apply HP.
    - destruct (Hother k Hne) as [-> ->]. apply HP. }
  assert (∀ t id st, P t → Dict.get id (states t) = Some st → st ≠ Exited →
                     Dict.get id (exit_times t) = None) as Hnone.
  { intros t id st HP Hst Hne.
    destruct (Dict.get id (exit_times t)) as [e|] eqn:He; [|done].
    assert (Dict.get id (states t) = Some Exited) by (apply HP; by eexists).
    congruence. }
  destruct (run_keeps P) with
    (s := {| sys_tracker := Tracker_new md mx et re th ld; sys_counter := c0 |})
    (ops := ops) (s' := s) as [Hwf HP]; try done.
  - intros t c b f clock t' id Hwft HPt Hreg k.
    rw (register_exit_times _ _ _ _ _ _ _ Hreg).
    assert (Dict.get (next_object_id t) (states t) = None) as Hnostate.
    { destruct (Dict.get _ (states t)) eqn:E; [|done].
      destruct Hwft as (_ & _ & _ & H4 & _).
      assert (next_object_id t < next_object_id t) by (apply H4; by eexists).
      lia. }
    assert (Dict.get (next_object_id t) (exit_times t) = None) as Hnoexit.
    { destruct (Dict.get _ (exit_times t)) as [e|] eqn:He; [|done].
      assert (Dict.get (next_object_id t) (states t) = Some Exited)
        by (apply HPt; by eexists).
      congruence. }
    destruct (decide (k = next_object_id t)) as [->|Hne].
    + rw Hnoexit. split; [by intros [? ?]|].
      destruct (register_states _ _ _ _ _ _ _ Hreg) as [-> | ->];
        by rw get_put_eq.
    + destruct (register_states _ _ _ _ _ _ _ Hreg) as [-> | ->];
        rw !get_put_ne //.
  - intros t id now t' _. apply Hdereg.
  - intros t id now t' _ HPt Hmiss.
    apply miss_inv in Hmiss as (n & _ & Hmiss). cbv zeta in Hmiss.
    destruct (Z.ltb _ _); [|by subst t'].
    eapply Hdereg; [|exact Hmiss]. done.
  - intros t id Hwft HPt Hlive k. fields.
    destruct (decide (k = id)) as [->|Hne]; [|by rw get_put_ne].
    rw get_put_eq. apply mem_keys in Hlive.
    destruct Hwft as (_ & _ & _ & _ & H5 & _).
    destruct (H5 id Hlive) as [(st & Hst & Hnx) _].
    rw (Hnone t id st HPt Hst Hnx). split; [by intros [? ?] | done].
  - intros t id now _ HPt. unfold mark_as_counted.
    destruct (Dict.get id (states t)) as [[]|] eqn:Hst; try done.
    intros k. fields.
    destruct (decide (k = id)) as [->|Hne]; [|by rw get_put_ne].
    rw get_put_eq (Hnone t id New HPt Hst) //.
  - intros t id now t' _ HPt _ _ Hd.
    destruct (sweep_inv _ _ _ _ Hd) as (_ & Hs & He & _). intros k. rw Hs He.
    destruct (decide (k = id)) as [->|Hne];
      [rw !get_put_eq; split; [done | by eexists] | rw !get_put_ne //].
  - apply wf_new.
  - intros id. cbn. split; [by intros [? ?] | done].
  - split; [done|].
    destruct (get_objects_view _ Hwf) as (objs & Hget & _ & Hview).
    exists objs. split; [done|]. intros id d Hd.
    destruct (Hview id d Hd) as (_ & _ & _ & Hst & Hne & _ & -> & _).
    by eapply Hnone.
Qed.

(** X6. The tracker never forgets an id: in every state reached from the
    constructor the state map and the timestamp map list every id handed out
    so far, [0] up to [next_object_id - 1], in order; deregistration and the
    exit sweep shrink only the three live maps. *)
Theorem state_and_timestamps_keep_every_id (md : Z) (mx et : Q) (re : bool)
    (th : Q) (ld : bool) (c0 : VisitorCounter) (ops : list Op) (s : System)
    (Hreach : run {| sys_tracker := Tracker_new md mx et re th ld;
                     sys_counter := c0 |} ops = Some s) :
  Dict.keys (states (sys_tracker s)) = seq 0 (next_object_id (sys_tracker s)) ∧
  Dict.keys (timestamps (sys_tracker s))
  = seq 0 (next_object_id (sys_tracker s)) ∧
  length (objects (sys_tracker s)) ≤ next_object_id (sys_tracker s).
Proof.
  set (P := fun t => Dict.keys (states t) = seq 0 (next_object_id t) ∧
                     Dict.keys (timestamps t) = seq 0 (next_object_id t)).
  assert (∀ n d, Dict.keys d = seq 0 n → @Dict.mem State n d = false) as Hfs.
  { intros n d Hk. destruct (Dict.mem n d) eqn:E; [|done].
    apply mem_keys in E. rw Hk in E. apply elem_of_seq in E. lia. }
  assert (∀ n d, Dict.keys d = seq 0 n → @Dict.mem Stamps n d = false) as Hft.
  { intros n d Hk. destruct (Dict.mem n d) eqn:E; [|done].
    apply mem_keys in E. rw Hk in E. apply elem_of_seq in E. lia. }
  assert (∀ t id now t', P t → deregister t id now = Some t' → P t') as Hdereg.
  { intros t id now t' [Hs Ht] Hd.
    apply deregister_inv in Hd as (st & Hst & _ & ->).
    destruct (exit_mark_states t id now st Hst) as (Hk & _).
    destruct (exit_mark_fields t id now st) as (F1 & _ & _ & _ & F5 & _).
    split; fields; by rw ?Hk ?F5 F1. }
  destruct (run_keeps P) with
    (s := {| sys_tracker := Tracker_new md mx et re th ld; sys_counter := c0 |})
    (ops := ops) (s' := s) as [Hwf [Hs Ht]]; try done.
  - intros t c b f clock t' id _ [Hs Ht] Hreg.
    split; rw (register_next _ _ _ _ _ _ _ Hreg) seq_S Nat.add_0_l.
    + destruct (register_states _ _ _ _ _ _ _ Hreg) as [-> | ->].
      * rw keys_put_fresh; [by apply Hfs | by rw Hs].
      * rw keys_put_mem; [by rw mem_put Nat.eqb_refl|].
        rw keys_put_fresh; [by apply Hfs | by rw Hs].
    + rw (register_timestamps _ _ _ _ _ _ _ Hreg) keys_put_fresh;
        [by apply Hft | by rw Ht].
  - intros t id now t' _. apply Hdereg.
  - intros t id now t' _ HPt Hmiss.
    apply miss_inv in Hmiss as (n & _ & Hmiss). cbv zeta in Hmiss.
    destruct (Z.ltb _ _); [|by subst t'].
    eapply Hdereg; [|exact Hmiss]. done.
  - intros t id c b now _ [Hs Ht] _. split; [done|].
    unfold rematch. fields. by rw keys_alter.
  - intros t id Hwft [Hs Ht] Hlive. split; [|done]. fields.
    rw keys_put_mem //. apply mem_keys in Hlive.
    destruct Hwft as (_ & _ & _ & _ & H5 & _).
    destruct (H5 id Hlive) as [(st & Hst & _) _]. apply mem_true. by eexists.
  - intros t id now _ [Hs Ht]. unfold mark_as_counted.
    destruct (Dict.get id (states t)) as [[]|] eqn:Hst; try done.
    split; [|done]. fields. rw keys_put_mem //. apply mem_true. by eexists.
  - intros t id now t' _ [Hs Ht] Hst _ Hd.
    destruct (sweep_inv _ _ _ _ Hd) as (Hn & Hs' & _ & Ht').
    split; rw ?Hs' ?Ht' Hn //. rw keys_put_mem //. apply mem_true. by eexists.
  - apply wf_new.
  - split_and!; [done | done |].
    pose proof (fun k => wf_live_bound _ k Hwf) as Hb. destruct Hwf as (_ & _ & Hnd & _).
    assert (Dict.keys (objects (sys_tracker s))
              ⊆+ seq 0 (next_object_id (sys_tracker s))) as Hsub.
    { apply NoDup_submseteq; [done|]. intros k Hk. apply elem_of_seq.
      specialize (Hb k Hk). lia. }
    apply submseteq_length in Hsub. rw length_seq in Hsub.
    unfold Dict.keys in Hsub. by rw length_map in Hsub.
Qed.

End Records.

(** ** Instances on the concrete runs *)

Lemma register_allocates_fresh_id_witness :
  let t := Scenario.crossed in
  let c := (150%Q, 160%Q) in
  let b := (140%Q, 100%Q, 160%Q, 220%Q) in
  let frame := Some 7 : option (@Frame label_extractor) in
  let clock := {| first_seen_at := (9 * Scenario.second)%Z;
                  last_seen_at := (9 * Scenario.second + 1)%Z;
                  counted_at := (9 * Scenario.second + 2)%Z |} in
  (is_Some (@register label_extractor t c b frame clock) ↔
   match reid_enabled t, frame with
   | true, Some f =>
       is_Some (@identify_person label_extractor (reid t) f b
                  (next_object_id t))
   | _, _ => True
   end) ∧
  Dict.mem (next_object_id t) (objects t) = false ∧
  Dict.get (next_object_id t) (states t) = None ∧
  ∀ t' id,
    @register label_extractor t c b frame clock = Some (t', id) →
    id = next_object_id t ∧
    next_object_id t' = S id ∧
    Dict.keys (objects t') = Dict.keys (objects t) ++ [id] ∧
    Dict.get id (objects t') = Some c ∧
    Dict.get id (positions t') = Some b ∧
    Dict.get id (disappeared t') = Some 0 ∧
    Dict.get id (timestamps t')
    = Some {| first_seen := first_seen_at clock;
              last_seen := last_seen_at clock |} ∧
    (Dict.get id (states t') = Some New ∨
     Dict.get id (states t') = Some Scanned ∧
     reid_enabled t = true ∧ frame ≠ None) ∧
    (∀ k, k ≠ id → untouched k t t') ∧
    wf t'.
Proof.
  cbv zeta.
  apply (@register_allocates_fresh_id label_extractor Scenario.crossed).
  apply wfb_wf. vm_compute. reflexivity.
Defined.

Lemma retired_id_never_returns_witness :
  0 < next_object_id (sys_tracker (Scenario.after Scenario.impatient
                                     Scenario.reentry)) ∧
  Dict.mem 0 (objects (sys_tracker (Scenario.after Scenario.impatient
                                      Scenario.reentry))) = false ∧
  Dict.mem 0 (disappeared (sys_tracker (Scenario.after Scenario.impatient
                                          Scenario.reentry))) = false ∧
  Dict.mem 0 (positions (sys_tracker (Scenario.after Scenario.impatient
                                        Scenario.reentry))) = false.
Proof.
  apply (@retired_id_never_returns label_extractor stable_orders
           (Scenario.after Scenario.impatient
              (Scenario.crossing ++ [Scenario.seen [] (3 * Scenario.second)%Z]))
           (Scenario.after Scenario.impatient Scenario.reentry)
           [Scenario.seen [Scenario.at_right] (4 * Scenario.second)%Z] 0).
  - apply wfb_wf. vm_compute. reflexivity.
  - vm_compute. lia.
  - vm_compute. reflexivity.
  - vm_compute. reflexivity.
Defined.

Lemma live_objects_within_max_disappeared_witness :
  max_disappeared (sys_tracker (Scenario.after Scenario.patient
                                  Scenario.reentry)) = 40%Z ∧
  ∀ id n,
    Dict.get id (disappeared (sys_tracker (Scenario.after Scenario.patient
                                             Scenario.reentry))) = Some n →
    (Z.of_nat n <= Z.max 0 40)%Z.
Proof.
  apply (@live_objects_within_max_disappeared label_extractor stable_orders
           40%Z 100%Q 10%Q true 0.6%Q true Scenario.line_counter
           Scenario.reentry).
  vm_compute. reflexivity.
Defined.

Lemma exit_time_marks_exited_witness :
  (∀ id,
     is_Some (Dict.get id (exit_times (sys_tracker
                (Scenario.after Scenario.impatient Scenario.reentry)))) ↔
     Dict.get id (states (sys_tracker
        (Scenario.after Scenario.impatient Scenario.reentry))) = Some Exited) ∧
  ∃ objs,
    get_objects (sys_tracker (Scenario.after Scenario.impatient Scenario.reentry))
    = Some objs ∧
    ∀ id d, Dict.get id objs = Some d → exit_time d = None.
Proof.
  apply (@exit_time_marks_exited label_extractor stable_orders
           0%Z 100%Q 10%Q true 0.6%Q true Scenario.line_counter
           Scenario.reentry).
  vm_compute. reflexivity.
Defined.

Lemma state_and_timestamps_keep_every_id_witness :
  Dict.keys (states (sys_tracker (Scenario.after Scenario.impatient
                                    Scenario.reentry)))
  = seq 0 (next_object_id (sys_tracker (Scenario.after Scenario.impatient
                                          Scenario.reentry))) ∧
  Dict.keys (timestamps (sys_tracker (Scenario.after Scenario.impatient
                                        Scenario.reentry)))
  = seq 0 (next_object_id (sys_tracker (Scenario.after Scenario.impatient
                                          Scenario.reentry))) ∧
  length (objects (sys_tracker (Scenario.after Scenario.impatient
                                  Scenario.reentry)))
  ≤ next_object_id (sys_tracker (Scenario.after Scenario.impatient
                                   Scenario.reentry)).
Proof.
  apply (@state_and_timestamps_keep_every_id label_extractor stable_orders
           0%Z 100%Q 10%Q true 0.6%Q true Scenario.line_counter
           Scenario.reentry).
  vm_compute. reflexivity.
Defined.

(** ** The exit sweep, exactly *)

Section Sweep.
Context `{FE : FeatureExtractor} `{SO : Orders}.
Implicit Types (t : Tracker) (id k : nat).

Lemma check_exit_cases now t ids (entry : nat * Stamps) t' ids' :
  wf t → check_exit now (t, ids) entry = Some (t', ids') →
  (t' = t ∧ ids' = ids) ∨
  (ids' = ids ++ [fst entry] ∧
   Dict.mem (fst entry) (objects t) = true ∧
   Dict.get (fst entry) (states t) = Some Scanned ∧
   Qltb (exit_timeout t) (total_seconds now (last_seen (snd entry))) = true ∧
   sound_step t t' ∧
   (∀ k, k ≠ fst entry → untouched k t t') ∧
   Dict.mem (fst entry) (objects t') = false ∧
   Dict.get (fst entry) (states t') = Some Exited ∧
   Dict.get (fst entry) (exit_times t') = Some now ∧
   timestamps t' = timestamps t).
Proof.
  intros Hwf. unfold check_exit.
  destruct (Dict.get (fst entry) (states t)) as [[]|] eqn:Hst;
    try (intros [= <- <-]; by left).
  destruct (Qltb _ _) eqn:Hstale; cbn [andb]; [|intros [= <- <-]; by left].
  destruct (Dict.mem (fst entry) (objects t)) eqn:Hlive;
    [|intros [= <- <-]; by left].
  destruct (deregister _ _ _) as [t2|] eqn:Hd; [|done].
  cbn [mbind option_bind]. intros [= <- <-]. right.
  destruct (exit_sweep_sound t (fst entry) now t2 Hwf Hst Hd)
    as (Hs & Hu & Hgone & Hex & Htime & Hts).
  split_and!; done.
Qed.

Lemma sweep_run now (entries : list (nat * Stamps)) t ids0 :
  wf t →
  ∃ t' ids,
    foldM (check_exit now) entries (t, ids0) = Some (t', ids0 ++ ids) ∧
    sound_step t t' ∧ timestamps t' = timestamps t ∧ NoDup ids ∧
    (∀ id, id ∈ ids →
       (∃ ts, (id, ts) ∈ entries ∧
              Qltb (exit_timeout t) (total_seconds now (last_seen ts)) = true) ∧
       Dict.mem id (objects t) = true ∧
       Dict.get id (states t) = Some Scanned ∧
       Dict.mem id (objects t') = false ∧
       Dict.get id (states t') = Some Exited ∧
       Dict.get id (exit_times t') = Some now) ∧
    (∀ id, id ∉ ids → untouched id t t').
Proof.
  revert t ids0. induction entries as [|e entries IH]; intros t ids0 Hwf.
  - exists t, []. cbn [foldM]. rw app_nil_r.
    split_and!; [ done | by apply sound_step_refl | done | constructor | | ].
    + intros id Hin. inversion Hin.
    + intros; apply untouched_refl.
  - destruct (check_exit_step now t ids0 e Hwf) as (t1 & ids1 & Hstep & _).
    destruct (check_exit_cases _ _ _ _ _ _ Hwf Hstep)
      as [[-> ->] | (-> & Hlive & Hst & Hstale & Hs1 & Hu1 & Hgone & Hex
                     & Htime & Hts1)].
    + destruct (IH t ids0 Hwf) as (t' & ids & Hrun & Hs & Hts & Hnd & Hin & Hout).
      exists t', ids. cbn [foldM]. rw Hstep.
      split_and!; try done. intros id Hid.
      destruct (Hin id Hid) as ((ts & Hmem & Hq) & Hrest).
      split; [|done]. exists ts. split; [by right | done].
    + pose proof Hs1 as (Hwf1 & _ & (_ & _ & Hto & _) & _).
      destruct (IH t1 (ids0 ++ [fst e]) Hwf1)
        as (t' & ids & Hrun & Hs & Hts & Hnd & Hin & Hout).
      assert (fst e ∉ ids) as Hfresh.
      { intros Hid. destruct (Hin _ Hid) as (_ & _ & Hsc & _). congruence. }
      exists t', (fst e :: ids). cbn [foldM]. rw Hstep.
      replace (ids0 ++ fst e :: ids) with ((ids0 ++ [fst e]) ++ ids)
        by by rw -app_assoc.
      split_and!; [ done | by eapply sound_step_trans | congruence
                  | by constructor | | ].
      * intros id Hid. apply elem_of_cons in Hid as [-> | Hid].
        -- pose proof (Hout _ Hfresh) as Hu.
           pose proof (untouched_mem _ _ _ Hu) as Hmem.
           destruct Hu as (_ & _ & _ & _ & U5 & U6).
           split_and!; try done; try congruence.
           exists (snd e). split; [|done]. destruct e. left.
        -- destruct (Hin id Hid)
             as ((ts & Hmem & Hq) & Hl1 & Hsc1 & Hg & Hx & Ht).
           assert (id ≠ fst e) as Hne by (intros ->; congruence).
           pose proof (Hu1 id Hne) as Hu.
           pose proof (untouched_mem _ _ _ Hu) as Hmem1.
           destruct Hu as (_ & _ & _ & _ & U5 & _).
           split_and!; try done; try congruence.
           exists ts. split; [by right | by rw -Hto].
      * intros id Hid. apply not_elem_of_cons in Hid as [Hne Hid].
        eapply untouched_trans; [by apply Hu1 | by apply Hout].
Qed.

(** X7. On a consistent tracker [check_for_exits] runs to completion and
    returns, each once, exactly the ids that are live, Scanned and last seen
    more than [exit_timeout] seconds before the clock.  Each of them leaves
    the live map, becomes Exited and gets the clock as exit time; the
    records of every other id, the timestamps, [next_object_id] and the
    counted persons stay as they were. *)
Theorem exit_sweep_returns_exactly_the_stale (t : Tracker) (now : Z)
    (Hwf : wf t) (Hkeys : NoDup (Dict.keys (timestamps t))) :
  ∃ t' ids,
    check_for_exits t now = Some (t', ids) ∧
    NoDup ids ∧
    (∀ id, id ∈ ids ↔
       ∃ ts, Dict.mem id (objects t) = true ∧
             Dict.get id (states t) = Some Scanned ∧
             Dict.get id (timestamps t) = Some ts ∧
             Qltb (exit_timeout t) (total_seconds now (last_seen ts)) = true) ∧
    (∀ id, id ∈ ids →
       Dict.mem id (objects t') = false ∧
       Dict.get id (states t') = Some Exited ∧
       Dict.get id (exit_times t') = Some now) ∧
    (∀ id, id ∉ ids → untouched id t t') ∧
    timestamps t' = timestamps t ∧
    next_object_id t' = next_object_id t ∧
    counted_people t' = counted_people t.
Proof.
  destruct (sweep_run now (timestamps t) t [] Hwf)
    as (t' & ids & Hrun & Hs & Hts & Hnd & Hin & Hout).
  rw app_nil_l in Hrun. exists t', ids.
  destruct (check_for_exits_spec t now Hwf) as (t0 & ids' & Hrun' & Hcp & Hall).
  unfold check_for_exits in *. rw Hrun in Hrun'. injection Hrun' as <- <-.
  split_and!; try done.
  - intros id. split.
    + intros Hid. destruct (Hin id Hid) as ((ts & Hmem & Hq) & Hl & Hsc & _).
      exists ts. split_and!; try done. by apply elem_of_get.
    + intros (ts & Hl & Hsc & Hget & Hq).
      by destruct (Hall id ts Hl Hsc Hget Hq) as [? _].
  - intros id Hid. by destruct (Hin id Hid) as (_ & _ & _ & ? & ? & ?).
  - assert (∀ (entries : list (nat * Stamps)) t1 ids1 t2 ids2,
              foldM (check_exit now) entries (t1, ids1) = Some (t2, ids2) →
              next_object_id t2 = next_object_id t1) as Hnext.
    { induction entries as [|e entries IH]; intros t1 ids1 t2 ids2 Hr;
        cbn [foldM] in Hr; [by injection Hr as <- <-|].
      destruct (check_exit now (t1, ids1) e) as [[t3 ids3]|] eqn:E; [|done].
      rw (IH _ _ _ _ Hr). unfold check_exit in E.
      destruct (Dict.get (fst e) (states t1)) as [[]|];
        try (by injection E as <- <-).
      destruct (_ && _); [|by injection E as <- <-].
      destruct (deregister _ _ _) as [t4|] eqn:Hd; [|done].
      cbn [mbind option_bind] in E. injection E as <- <-.
      by destruct (sweep_inv _ _ _ _ Hd) as (-> & _). }
    by eapply Hnext.
Qed.

End Sweep.

Lemma exit_sweep_returns_exactly_the_stale_witness :
  ∃ t' ids,
    check_for_exits Scenario.crossed (20 * Scenario.second)%Z = Some (t', ids) ∧
    NoDup ids ∧
    (∀ id, id ∈ ids ↔
       ∃ ts, Dict.mem id (objects Scenario.crossed) = true ∧
             Dict.get id (states Scenario.crossed) = Some Scanned ∧
             Dict.get id (timestamps Scenario.crossed) = Some ts ∧
             Qltb (exit_timeout Scenario.crossed)
               (total_seconds (20 * Scenario.second)%Z (last_seen ts)) = true) ∧
    (∀ id, id ∈ ids →
       Dict.mem id (objects t') = false ∧
       Dict.get id (states t') = Some Exited ∧
       Dict.get id (exit_times t') = Some (20 * Scenario.second)%Z) ∧
    (∀ id, id ∉ ids → untouched id Scenario.crossed t') ∧
    timestamps t' = timestamps Scenario.crossed ∧
    next_object_id t' = next_object_id Scenario.crossed ∧
    counted_people t' = counted_people Scenario.crossed.
Proof.
  apply (@exit_sweep_returns_exactly_the_stale
           Scenario.crossed (20 * Scenario.second)%Z).
  - apply wfb_wf. vm_compute. reflexivity.
  - apply (proj1 (bool_decide_eq_true _)). vm_compute. reflexivity.
Defined.

(** ** Every detection ends up tracked *)

Section Coverage.
Context `{FE : FeatureExtractor} `{SO : Orders}.
Implicit Types (t : Tracker) (id k : nat).

Lemma spec_pairs_rev_facts D maxd (order : list nat) :
  NoDup (Dict.keys (spec_pairs_rev D maxd order)) ∧
  NoDup (Dict.values (spec_pairs_rev D maxd order)) ∧
  ∀ r, r ∈ Dict.keys (spec_pairs_rev D maxd order) → r ∈ order.
Proof.
  induction order as [|r order (IH1 & IH2 & IH3)]; cbn [spec_pairs_rev].
  - split_and!; [constructor | constructor | done].
  - assert (∀ r', r' ∈ Dict.keys (spec_pairs_rev D maxd order) →
                  r' ∈ r :: order) as Hweak by (intros; right; auto).
    destruct (arg_min_detection D r) as [c|]; [|done].
    destruct (distance_of D r c) as [d|]; [|done].
    destruct (bool_decide_reflect (r ∈ Dict.keys (spec_pairs_rev D maxd order)))
      as [Hr|Hr]; cbn [negb andb]; [done|].
    destruct (bool_decide_reflect
                (c ∈ Dict.values (spec_pairs_rev D maxd order)))
      as [Hc|Hc]; cbn [negb andb]; [done|].
    destruct (exceeds d maxd); cbn [negb]; [done|].
    cbn [Dict.keys Dict.values map fst snd].
    split_and!; [by constructor | by constructor |].
    intros r' Hin. apply elem_of_cons in Hin as [-> | Hin]; [left | right; auto].
Qed.

Lemma values_get {V : Type} (d : Dict.t V) v :
  NoDup (Dict.keys d) → v ∈ Dict.values d → ∃ k, Dict.get k d = Some v.
Proof.
  intros Hnd Hin. apply list_elem_of_fmap in Hin as ([k v'] & -> & Hin).
  exists k. by apply elem_of_get.
Qed.

Lemma get_values {V : Type} (d : Dict.t V) k v :
  Dict.get k d = Some v → v ∈ Dict.values d.
Proof.
  intros Hget. apply get_elem_of in Hget. apply list_elem_of_fmap.
  by exists (k, v).
Qed.

Lemma get_injective (d : Dict.t nat) k k' v :
  NoDup (Dict.values d) →
  Dict.get k d = Some v → Dict.get k' d = Some v → k = k'.
Proof.
  intros Hnd Hk Hk'. apply get_elem_of in Hk, Hk'.
  apply list_elem_of_lookup in Hk as [i Hi], Hk' as [j Hj].
  assert (i = j) as ->; [|congruence].
  eapply NoDup_lookup; [exact Hnd | |]; unfold Dict.values;
    rw list_lookup_fmap; [by rw Hi | by rw Hj].
Qed.

(** The objects [register_all] creates: the [j]-th column of the list gets
    the [j]-th new id. *)
Lemma register_all_ids frame now (cs : list Centroid) (bs : list BBox)
    (cols : list nat) t t' :
  wf t → register_all frame now cs bs cols t = Some t' →
  next_object_id t' = next_object_id t + length cols ∧
  ∀ j col, cols !! j = Some col →
    Dict.get (next_object_id t + j) (objects t') = cs !! col ∧
    Dict.get (next_object_id t + j) (positions t') = bs !! col ∧
    Dict.get (next_object_id t + j) (disappeared t') = Some 0.
Proof.
  revert t. induction cols as [|col cols IH]; intros t Hwf Hrun.
  - unfold register_all in Hrun. cbn [foldM] in Hrun. injection Hrun as <-.
    split; [cbn; lia | intros j col Hj; inversion Hj].
  - apply register_all_cons in Hrun
      as (c & b & id & t1 & Hc & Hb & Hreg & Hrun).
    pose proof (register_sound _ _ _ _ _ _ _ Hwf Hreg) as Hs.
    destruct (IH _ (proj1 Hs) Hrun) as [Hnext Hids].
    rw (register_next _ _ _ _ _ _ _ Hreg) in Hnext Hids.
    split; [cbn [length]; lia|].
    intros [|j] col' Hj; cbn in Hj.
    + injection Hj as <-. rw Nat.add_0_r.
      assert (untouched (next_object_id t) t1 t') as (U1 & U2 & U3 & _).
      { eapply register_all_untouched; [apply Hs | | done].
        rw (register_next _ _ _ _ _ _ _ Hreg). lia. }
      rw U1 U2 U3 (register_objects _ _ _ _ _ _ _ Hreg)
        (register_positions _ _ _ _ _ _ _ Hreg)
        (register_disappeared _ _ _ _ _ _ _ Hreg).
      by rw !get_put_eq Hc Hb.
    + specialize (Hids j col' Hj).
      by replace (next_object_id t + S j) with (S (next_object_id t) + j) by lia.
Qed.

(** [update] runs to completion when re-identification is off, or no frame
    is given, or there is no detection: only [register] with a frame to
    identify can raise. *)
Lemma update_tracker_total t (detections : list Detection) frame now :
  wf t → visits_each_once →
  (∀ t1 mins,
     shed t detections now = Some t1 →
     traverse row_min
       (cdist (Dict.values (objects t1)) (map centroid_of detections))
     = Some mins →
     is_argsort mins (argsort mins) = true) →
  reid_enabled t = false ∨ frame = None ∨ detections = [] →
  is_Some (update_tracker t detections frame now).
Proof.
  intros Hwf Hiter Hsort Hoff.
  destruct (shed_total t detections now Hwf) as (t1 & Hshed & Hs1 & _).
  pose proof Hs1 as (Hwf1 & _ & (_ & _ & _ & Hre1) & _).
  unfold update_tracker. rw Hshed. cbn [mbind option_bind].
  destruct (Nat.eqb (length detections) 0) eqn:Hnodet.
  { assert (Dict.keys (disappeared t1) = Dict.keys (objects t1)) as Hkeys
      by apply Hwf1.
    destruct (miss_loop now (Dict.keys (disappeared t1)) t1 Hwf1)
      as (t' & Hrun & _).
    { rw Hkeys. apply Hwf1. }
    { intros id Hin. by rw -Hkeys. }
    by exists t'. }
  assert (detections ≠ []) as Hdet.
  { intros Hnil. apply length_zero_nil in Hnil. congruence. }
  assert (reid_enabled t1 = false ∨ frame = None) as Hoff1.
  { destruct Hoff as [Hoff | [Hnone | Hnil]]; [left | by right | done].
    by rw Hre1. }
  destruct (Nat.eqb (length (objects t1)) 0) eqn:Hnolive.
  { apply register_all_total; [done|].
    intros col Hcol. apply elem_of_seq in Hcol. rw !length_map in Hcol.
    rw !length_map. lia. }
  destruct (row_min_total (Dict.values (objects t1))
              (map centroid_of detections)) as [mins Hmins];
    [by destruct detections|].
  pose proof (Hsort t1 mins Hshed Hmins) as Hsorted.
  destruct (matching_phase t1 detections frame now mins Hiter Hwf1 Hdet
              Hmins Hsorted)
    as (t2 & t3 & Hgreedy & _ & Hmiss & Htotal & _).
  rw Hgreedy. cbn [mbind option_bind]. rw Hmiss. cbn [mbind option_bind].
  by apply Htotal.
Qed.

Lemma choose_each {A B : Type} (R : A → B → Prop) (l : list A) :
  (∀ x, x ∈ l → ∃ y, R x y) → ∃ ys, Forall2 R l ys.
Proof.
  induction l as [|x l IH]; intros Hall; [by exists []|].
  destruct (Hall x) as [y Hy]; [left|].
  destruct IH as [ys Hys]; [intros x' Hin; apply Hall; by right|].
  exists (y :: ys). by constructor.
Qed.

Lemma Forall2_NoDup_injective {A B : Type} (R : A → B → Prop)
    (l : list A) (ys : list B) :
  (∀ x x' y, R x y → R x' y → x = x') →
  NoDup l → Forall2 R l ys → NoDup ys.
Proof.
  intros Hinj Hnd HR. induction HR as [|x y l ys Hxy HR IH]; [constructor|].
  apply NoDup_cons in Hnd as [Hnot Hnd]. constructor; [|by apply IH].
  intros Hin. apply list_elem_of_lookup in Hin as [i Hi].
  destruct (Forall2_lookup_r _ _ _ _ _ HR Hi) as (x' & Hx' & Hx'y).
  apply Hnot. rw (Hinj x x' y Hxy Hx'y). by eapply list_elem_of_lookup_2.
Qed.

(** X8. [update] on a consistent tracker (when [argsort] sorts the row
    minima and a loop over a set meets every member once) runs to completion
    when re-identification is off, or no frame is given, or there is no
    detection; with re-identification on and a frame, [register] can raise.
    Whenever [update] returns it leaves every detection with a live object of
    its own: distinct ids, one per detection, each carrying the centre and
    the box of its detection and no disappeared frame.  So the live objects
    are at least as many as the detections. *)
Theorem every_detection_gets_its_own_track (t : Tracker)
    (detections : list Detection) (frame : option Frame) (now : Z)
    (Hwf : wf t) (Hiter : visits_each_once)
    (Hsort : ∀ t1 mins,
        shed t detections now = Some t1 →
        traverse row_min
          (cdist (Dict.values (objects t1)) (map centroid_of detections))
        = Some mins →
        is_argsort mins (argsort mins) = true) :
  (reid_enabled t = false ∨ frame = None ∨ detections = [] →
   is_Some (update_tracker t detections frame now)) ∧
  ∀ t',
    update_tracker t detections frame now = Some t' →
    ∃ ids,
      length ids = length detections ∧
      NoDup ids ∧
      (∀ c det id, detections !! c = Some det → ids !! c = Some id →
         Dict.get id (objects t') = Some (centroid_of det) ∧
         Dict.get id (positions t') = Some (bbox_of det) ∧
         Dict.get id (disappeared t') = Some 0) ∧
      length detections ≤ length (objects t').
Proof.
  split; [by apply update_tracker_total|]. intros t' Hupd.
  pose proof (update_tracker_sound _ _ _ _ _ Hwf Hupd) as [Hwf' _].
  destruct (shed_total t detections now Hwf) as (t1 & Hshed & Hs1 & _).
  pose proof Hs1 as (Hwf1 & _).
  set (cs := map centroid_of detections).
  set (bs := map bbox_of detections).
  (* it is enough to give every column an id of its own *)
  assert (∀ (R : nat → nat → Prop),
            (∀ c, c < length detections → ∃ id, R c id) →
            (∀ c c' id, R c id → R c' id → c = c') →
            (∀ c id, R c id →
               Dict.get id (objects t') = cs !! c ∧
               Dict.get id (positions t') = bs !! c ∧
               Dict.get id (disappeared t') = Some 0) →
            ∃ ids,
              length ids = length detections ∧ NoDup ids ∧
              (∀ c det id, detections !! c = Some det → ids !! c = Some id →
                 Dict.get id (objects t') = Some (centroid_of det) ∧
                 Dict.get id (positions t') = Some (bbox_of det) ∧
                 Dict.get id (disappeared t') = Some 0) ∧
              length detections ≤ length (objects t')) as Hfinish.
  { intros R Hall Hinj Hfields.
    destruct (choose_each R (seq 0 (length detections))) as [ids Hids].
    { intros c Hc. apply elem_of_seq in Hc. apply Hall. lia. }
    assert (length ids = length detections) as Hlen.
    { apply Forall2_length in Hids. by rw length_seq in Hids. }
    assert (NoDup ids) as Hnd.
    { eapply Forall2_NoDup_injective; [exact Hinj | apply NoDup_seq | done]. }
    assert (∀ c id, ids !! c = Some id → R c id) as HR.
    { intros c id Hid.
      destruct (Forall2_lookup_r _ _ _ _ _ Hids Hid) as (c' & Hc' & Hc'id).
      apply lookup_seq in Hc' as [-> _]. done. }
    exists ids. split_and!; try done.
    - intros c det id Hdet Hid.
      destruct (Hfields c id (HR c id Hid)) as (F1 & F2 & F3).
      subst cs bs. rw !list_lookup_fmap Hdet in F1 F2. done.
    - rw -Hlen.
      assert (ids ⊆+ Dict.keys (objects t')) as Hsub.
      { apply NoDup_submseteq; [done|]. intros id Hin.
        apply list_elem_of_lookup in Hin as [c Hc].
        destruct (Hfields c id (HR c id Hc)) as (F1 & _).
        assert (c < length detections) as Hlt
          by (rw -Hlen; by eapply lookup_lt_Some).
        apply get_keys. rw F1. subst cs. apply lookup_lt_is_Some_2.
        by rw length_map. }
      apply submseteq_length in Hsub. unfold Dict.keys in Hsub.
      by rw length_map in Hsub. }
  unfold update_tracker in Hupd. rw Hshed in Hupd.
  cbn [mbind option_bind] in Hupd.
  destruct (Nat.eqb (length detections) 0) eqn:Hnodet.
  - (* no detection: nothing to track *)
    apply Nat.eqb_eq in Hnodet.
    apply (Hfinish (fun _ _ => False)); try done.
    intros c Hc. lia.
  - assert (detections ≠ []) as Hdet.
    { intros Hnil. apply length_zero_nil in Hnil. congruence. }
    assert (length cs = length detections) as Hlcs by (subst cs; by rw length_map).
    assert (length bs = length detections) as Hlbs by (subst bs; by rw length_map).
    destruct (Nat.eqb (length (objects t1)) 0) eqn:Hnolive.
    + (* no live object: every detection is registered *)
      fold cs bs in Hupd.
      destruct (register_all_ids _ _ _ _ _ _ _ Hwf1 Hupd) as [_ Hids].
      apply (Hfinish (fun c id => c < length detections
                                  ∧ id = next_object_id t1 + c)).
      * intros c Hc. by eexists.
      * intros c c' id [_ ->] [_ Heq]. lia.
      * intros c id [Hc ->]. apply Hids. apply lookup_seq. split; [done | lia].
    + (* the matching phase *)
      destruct (row_min_total (Dict.values (objects t1)) cs) as [mins Hmins];
        [subst cs; by destruct detections|].
      pose proof (Hsort t1 mins Hshed Hmins) as Hsorted.
      destruct (matching_phase t1 detections frame now mins Hiter Hwf1 Hdet
                  Hmins Hsorted)
        as (t2 & t3 & Hgreedy & Hassigned & Hmiss & _ & Hafter).
      fold cs bs in Hgreedy, Hassigned, Hmiss, Hafter, Hupd.
      set (oids := Dict.keys (objects t1)) in *.
      set (A := spec_assignment (cdist (Dict.values (objects t1)) cs)
                  (max_distance t1) (argsort mins)) in *.
      set (cols := unused (length cs) (list_to_set (Dict.values A))) in *.
      rw Hgreedy in Hupd. cbn [mbind option_bind] in Hupd.
      rw Hmiss in Hupd. cbn [mbind option_bind] in Hupd.
      fold cols in Hupd. rename Hupd into Hreg.
      destruct (Hafter t' Hreg) as (Hkeep & _).
      (* the trackers in between *)
      assert (sound_step t1 t2) as Hs2.
      { pose proof Hgreedy as Hloop. unfold greedy_match in Hloop.
        destruct (pairing_order _) as [pairs|]; [|done].
        cbn [mbind option_bind] in Hloop.
        by destruct (greedy_loop_sound _ _ _ _ _ _ _ _ _ _ _ _ Hwf1 eq_refl Hloop). }
      assert (sound_step t2 t3) as Hs3.
      { eapply foldM_sound; [|apply Hs2|exact Hmiss].
        intros t0 row t4 Hwf0. cbv beta.
        destruct (oids !! row) as [id|]; simpl; [|done].
        intros Hm. by destruct (miss_sound _ _ _ _ Hwf0 Hm) as [? _]. }
      destruct (register_all_ids _ _ _ _ _ _ _ (proj1 Hs3) Hreg) as [_ Hids].
      assert (next_object_id t1 ≤ next_object_id t3) as Hnext.
      { destruct Hs2 as (_ & _ & _ & ?), Hs3 as (_ & _ & _ & ?). lia. }
      (* the assignment *)
      destruct (spec_pairs_rev_facts (cdist (Dict.values (objects t1)) cs)
                  (max_distance t1) (rev (argsort mins)))
        as (HndK & HndV & Hrows).
      fold (spec_assignment (cdist (Dict.values (objects t1)) cs)
              (max_distance t1) (argsort mins)) in HndK, HndV, Hrows.
      fold A in HndK, HndV, Hrows.
      assert (∀ r, r ∈ Dict.keys A → is_Some (oids !! r)) as Hrow.
      { intros r Hr.
        apply Hrows, list_elem_of_In, List.in_rev, list_elem_of_In in Hr.
        apply lookup_lt_is_Some_2.
        pose proof Hsorted as Hsorted'. unfold is_argsort in Hsorted'.
        apply andb_prop in Hsorted' as [Hperm _].
        apply bool_decide_eq_true in Hperm. rw Hperm in Hr.
        apply elem_of_seq in Hr.
        destruct (traverse_Some _ _ _ Hmins) as [Hlen _].
        rw Hlen cdist_length in Hr. subst oids. unfold Dict.keys, Dict.values in *.
        rw length_map in Hr. rw length_map. lia. }
      apply (Hfinish
               (fun c id =>
                  (∃ r, Dict.get r A = Some c ∧ oids !! r = Some id) ∨
                  (∃ j, cols !! j = Some c ∧ id = next_object_id t3 + j))).
      * (* every column is matched or registered *)
        intros c Hc.
        destruct (decide (c ∈ Dict.values A)) as [Hin | Hout].
        -- destruct (values_get A c HndK Hin) as [r Hr].
           destruct (Hrow r) as [id Hid]; [apply get_keys; by eexists|].
           exists id. left. by exists r.
        -- assert (c ∈ cols) as Hcol.
           { apply elem_of_unused; [done|]. split; [lia|].
             by rw elem_of_list_to_set. }
           apply list_elem_of_lookup in Hcol as [j Hj].
           eexists. right. by exists j.
      * (* no id serves two columns *)
        intros c c' id [(r & Hr & Hid) | (j & Hj & ->)]
               [(r' & Hr' & Hid') | (j' & Hj' & Heq)].
        -- assert (r = r') as <-; [|congruence].
           pose proof Hwf1 as (_ & _ & Hnd & _).
           eapply NoDup_lookup; [exact Hnd | exact Hid | exact Hid'].
        -- assert (id < next_object_id t1); [|lia].
           apply (wf_live_bound _ _ Hwf1). by eapply list_elem_of_lookup_2.
        -- assert (next_object_id t3 + j < next_object_id t1); [|lia].
           apply (wf_live_bound _ _ Hwf1). by eapply list_elem_of_lookup_2.
        -- assert (j = j') as <- by lia. congruence.
      * (* and each id carries its column *)
        intros c id [(r & Hr & Hid) | (j & Hj & ->)].
        -- pose proof (Hassigned r id Hid) as Ha. rw Hr in Ha.
           destruct Ha as (A1 & A2 & A3 & _).
           destruct (Hkeep r id Hid) as (U1 & U2 & U3 & _);
             [apply get_keys; by eexists|].
           by rw U1 U2 U3.
        -- by apply Hids.
Qed.

End Coverage.

(** ** The load shedding of update *)

Section Shedding.
Context `{FE : FeatureExtractor} `{SO : Orders}.
Implicit Types (t : Tracker) (id k : nat).

Lemma remove_length {V : Type} (d : Dict.t V) k :
  NoDup (Dict.keys d) → Dict.mem k d = true →
  S (length (Dict.remove k d)) = length d.
Proof.
  induction d as [|[k' v] d IH]; intros Hnd Hm; [done|].
  cbn [Dict.keys map fst] in Hnd. apply NoDup_cons in Hnd as [Hnot Hnd].
  unfold Dict.remove. cbn [List.filter fst].
  destruct (Nat.eqb_spec k k') as [->|Hne]; cbn [negb length].
  - f_equal. clear IH Hm Hnd. induction d as [|[k'' v'] d IH]; [done|].
    cbn [Dict.keys map fst] in Hnot. apply not_elem_of_cons in Hnot as [Hne Hnot].
    cbn [List.filter fst]. destruct (Nat.eqb_spec k' k'') as [->|_]; [done|].
    cbn [negb length]. f_equal. by apply IH.
  - f_equal. apply IH; [done|]. unfold Dict.mem in *. cbn [Dict.get] in Hm.
    by destruct (Nat.eqb_spec k k').
Qed.

Lemma deregister_run_length now (es : list (nat * nat)) t t' :
  wf t →
  foldM (fun t' (e : nat * nat) => deregister t' (fst e) now) es t = Some t' →
  length (objects t') + length es = length (objects t).
Proof.
  revert t. induction es as [|e es IH]; intros t Hwf Hrun; cbn [foldM] in Hrun.
  - injection Hrun as <-. cbn. lia.
  - destruct (deregister t (fst e) now) as [t1|] eqn:Hd; [|done].
    destruct (deregister_sound _ _ _ _ Hwf Hd) as ([Hwf1 _] & _).
    pose proof (IH t1 Hwf1 Hrun) as Hlen. cbn [length].
    apply deregister_inv in Hd as (st & _ & Hlive & ->). revert Hlen. fields.
    pose proof Hwf as (_ & _ & Hnd & _).
    pose proof (remove_length (objects t) (fst e) Hnd Hlive). lia.
Qed.

Lemma insert_desc_sorted x l :
  StronglySorted (fun a b : nat * nat => snd b ≤ snd a) l →
  StronglySorted (fun a b : nat * nat => snd b ≤ snd a) (insert_desc x l).
Proof.
  induction l as [|y l IH]; intros Hs; cbn [insert_desc].
  - repeat constructor.
  - apply StronglySorted_inv in Hs as [Hs Hy].
    destruct (Nat.ltb_spec (snd x) (snd y)) as [Hlt|Hge].
    + constructor; [by apply IH|].
      apply Forall_forall. intros z Hz.
      rw (insert_desc_perm x l) in Hz.
      apply elem_of_cons in Hz as [-> | Hz]; [lia|].
      rw Forall_forall in Hy. by apply Hy.
    + constructor; [by constructor|]. constructor; [done|].
      eapply Forall_impl; [exact Hy|]. intros z Hz. cbv beta in *. lia.
Qed.

Lemma sorted_desc_sorted l :
  StronglySorted (fun a b : nat * nat => snd b ≤ snd a) (sorted_desc l).
Proof.
  induction l as [|x l IH]; [constructor|]. by apply insert_desc_sorted.
Qed.

(** X9. When the live objects outnumber twice a non-empty list of
    detections, the first step of [update] deregisters exactly half of them
    (rounded down).  No removed object had fewer disappeared frames than a
    kept one; the kept objects are untouched; a removed object that was
    Scanned ends Exited with the clock as exit time. *)
Theorem shedding_drops_the_stalest_half (t : Tracker)
    (detections : list Detection) (now : Z) (Hwf : wf t)
    (Hmany : 2 * length detections < length (objects t))
    (Hsome : detections ≠ []) :
  ∃ t1,
    shed t detections now = Some t1 ∧
    length (objects t1) = length (objects t) - length (objects t) / 2 ∧
    (∀ id, Dict.mem id (objects t1) = true →
           Dict.mem id (objects t) = true ∧ untouched id t t1) ∧
    (∀ id id' n n',
       Dict.mem id (objects t1) = false → Dict.mem id' (objects t1) = true →
       Dict.get id (disappeared t) = Some n →
       Dict.get id' (disappeared t) = Some n' →
       n' ≤ n) ∧
    (∀ id, Dict.mem id (objects t) = true → Dict.mem id (objects t1) = false →
           Dict.get id (states t) = Some Scanned →
           Dict.get id (states t1) = Some Exited ∧
           Dict.get id (exit_times t1) = Some now).
Proof.
  destruct (shed_total t detections now Hwf) as (t1 & Hshed & Hs & Hkept & Hexit & _).
  exists t1. split; [done|].
  pose proof Hwf as (Hkd & _ & Hnd & _).
  assert (length (objects t) = length (disappeared t)) as Hlen.
  { transitivity (length (Dict.keys (objects t)));
      [unfold Dict.keys; by rw length_map|].
    rw -Hkd. unfold Dict.keys. by rw length_map. }
  set (sorted := sorted_desc (disappeared t)).
  set (es := take (length sorted / 2) sorted).
  assert (foldM (fun t' (e : nat * nat) => deregister t' (fst e) now) es t
          = Some t1) as Hrun.
  { unfold shed in Hshed.
    destruct (Nat.ltb_spec (2 * length detections) (length (objects t)));
      [|lia].
    destruct (Nat.ltb_spec 0 (length detections));
      [done | destruct detections; [done | cbn in *; lia]]. }
  assert (length sorted = length (objects t)) as Hls.
  { subst sorted. by rw (sorted_desc_perm (disappeared t)). }
  assert (sorted.*1 ≡ₚ Dict.keys (objects t)) as Hperm.
  { rw -Hkd. subst sorted. unfold Dict.keys.
    by rw (sorted_desc_perm (disappeared t)). }
  assert (NoDup sorted.*1) as Hnds by by rw Hperm.
  assert (NoDup es.*1 ∧ ∀ k, k ∈ es.*1 → k ∈ Dict.keys (objects t))
    as [Hndes Hines].
  { rw -(take_drop (length sorted / 2) sorted) in Hnds, Hperm.
    fold es in Hnds, Hperm. rw fmap_app in Hnds, Hperm.
    apply NoDup_app in Hnds as (? & _). split; [done|].
    intros k Hk. rw -Hperm. apply elem_of_app. by left. }
  destruct (deregister_loop now es t Hwf Hndes Hines)
    as (t1' & Hrun' & _ & Hu & Hpost).
  rw Hrun in Hrun'. injection Hrun' as <-.
  split_and!; [ | | | done ].
  - pose proof (deregister_run_length now es t t1 Hwf Hrun) as Hl.
    assert (length es = length (objects t) / 2); [|lia].
    subst es. rw length_take Hls.
    pose proof (Nat.Div0.div_le_upper_bound (length (objects t)) 2
                  (length (objects t))).
    apply Nat.min_l. apply Nat.Div0.div_le_upper_bound. lia.
  - intros id Hlive. pose proof (Hkept id Hlive) as Hk. split; [|done].
    by rw -(untouched_mem _ _ _ Hk).
  - intros id id' n n' Hgone Hlive Hn Hn'.
    assert (Dict.mem id (objects t) = true) as Hwas.
    { rw -(mem_sync (disappeared t) (objects t)) //. apply mem_true. by eexists. }
    (* the removed object is among the first half *)
    assert ((id, n) ∈ es) as Hin.
    { assert ((id, n) ∈ sorted) as Hs0.
      { subst sorted. rw (sorted_desc_perm (disappeared t)). by apply get_elem_of. }
      rw -(take_drop (length sorted / 2) sorted) in Hs0. fold es in Hs0.
      apply elem_of_app in Hs0 as [Hs0 | Hs0]; [done|]. exfalso.
      assert (id ∉ es.*1) as Hnot.
      { intros Hines'.
        apply list_elem_of_fmap in Hines' as ([id0 n0] & Heq & Hines').
        cbn in Heq. subst id0.
        rw -(take_drop (length sorted / 2) sorted) in Hnds. fold es in Hnds.
        rw fmap_app in Hnds. apply NoDup_app in Hnds as (_ & Hdisj & _).
        apply (Hdisj id); apply list_elem_of_fmap;
          [by exists (id, n0) | by exists (id, n)]. }
      rw (untouched_mem _ _ _ (Hu id Hnot)) in Hgone. congruence. }
    (* the kept one is in the second half *)
    assert ((id', n') ∈ drop (length sorted / 2) sorted) as Hin'.
    { assert ((id', n') ∈ sorted) as Hs0.
      { subst sorted. rw (sorted_desc_perm (disappeared t)). by apply get_elem_of. }
      rw -(take_drop (length sorted / 2) sorted) in Hs0. fold es in Hs0.
      apply elem_of_app in Hs0 as [Hs0 | Hs0]; [|done]. exfalso.
      assert (Dict.mem id' (objects t1) = false) as Hg; [|congruence].
      apply Hpost, list_elem_of_fmap. by exists (id', n'). }
    pose proof (sorted_desc_sorted (disappeared t)) as Hsorted.
    fold sorted in Hsorted.
    rw -(take_drop (length sorted / 2) sorted) in Hsorted. fold es in Hsorted.
    exact (StronglySorted_app_1_elem_of _ _ _ _ _ Hsorted Hin Hin').
Qed.

End Shedding.

Lemma every_detection_gets_its_own_track_witness :
  (reid_enabled Scenario.crowd = false
   ∨ (None : option (@Frame label_extractor)) = None
   ∨ Scenario.next_frame = [] →
   is_Some (@update_tracker label_extractor stable_orders Scenario.crowd
              Scenario.next_frame None (2 * Scenario.second)%Z)) ∧
  ∀ t',
    @update_tracker label_extractor stable_orders Scenario.crowd
      Scenario.next_frame None (2 * Scenario.second)%Z = Some t' →
    ∃ ids,
      length ids = length Scenario.next_frame ∧
      NoDup ids ∧
      (∀ c det id, Scenario.next_frame !! c = Some det → ids !! c = Some id →
         Dict.get id (objects t') = Some (centroid_of det) ∧
         Dict.get id (positions t') = Some (bbox_of det) ∧
         Dict.get id (disappeared t') = Some 0) ∧
      length Scenario.next_frame ≤ length (objects t').
Proof.
  apply (@every_detection_gets_its_own_track label_extractor stable_orders
           Scenario.crowd Scenario.next_frame None (2 * Scenario.second)%Z).
  - apply wfb_wf. vm_compute. reflexivity.
  - intros l. reflexivity.
  - intros t1 mins Hshed Hmins. vm_compute in Hshed. injection Hshed as <-.
    vm_compute in Hmins. injection Hmins as <-. vm_compute. reflexivity.
Defined.

Lemma shedding_drops_the_stalest_half_witness :
  ∃ t1,
    shed Scenario.crowd Scenario.lone (2 * Scenario.second)%Z
    = Some t1 ∧
    length (objects t1)
    = length (objects Scenario.crowd) - length (objects Scenario.crowd) / 2 ∧
    (∀ id, Dict.mem id (objects t1) = true →
           Dict.mem id (objects Scenario.crowd) = true ∧
           untouched id Scenario.crowd t1) ∧
    (∀ id id' n n',
       Dict.mem id (objects t1) = false → Dict.mem id' (objects t1) = true →
       Dict.get id (disappeared Scenario.crowd) = Some n →
       Dict.get id' (disappeared Scenario.crowd) = Some n' →
       n' ≤ n) ∧
    (∀ id, Dict.mem id (objects Scenario.crowd) = true →
           Dict.mem id (objects t1) = false →
           Dict.get id (states Scenario.crowd) = Some Scanned →
           Dict.get id (states t1) = Some Exited ∧
           Dict.get id (exit_times t1) = Some (2 * Scenario.second)%Z).
Proof.
  apply (@shedding_drops_the_stalest_half Scenario.crowd
           Scenario.lone (2 * Scenario.second)%Z).
  - apply wfb_wf. vm_compute. reflexivity.
  - vm_compute. lia.
  - discriminate.
Defined.

(** ** The books of the counter *)

Section CounterBooks.
Context `{FE : FeatureExtractor} `{SO : Orders}.
Implicit Types (c : VisitorCounter) (tr : Tracker) (item : nat * ObjData).

Lemma count_object_balanced rows0 now c tr item :
  balanced rows0 c → balanced rows0 (fst (count_object now (c, tr) item)).
Proof.
  intros (Hsize & Htot & Hflag & Hleft & new & Hdb & Hlen & Hrows).
  rw count_object_eq. cbv zeta.
  destruct (bool_decide_reflect (fst item ∈ counted_ids c)) as [Hin|Hin].
  { unfold balanced. cbn [fst]. split_and!; try done. by exists new. }
  destruct (Dict.get (fst item) (last_positions c)) as [d|] eqn:Hget.
  - destruct (negb (counted d) && Side_eqb (position d) Right
              && Side_eqb (side_of c (fst (centroid (snd item)))) Left)
      eqn:Hcross; cbn [fst].
    + apply andb_prop in Hcross as [Hcross Hside].
      apply Side_eqb_eq in Hside.
      unfold balanced. cbn -[Dict.alter Dict.get].
      split_and!.
      * rw size_union; [by apply disjoint_singleton_l|].
        rw size_singleton. lia.
      * lia.
      * intros id d'. destruct (decide (id = fst item)) as [->|Hne].
        -- rw !get_alter_eq Hget /=. intros [= <-]. cbn.
           split; [|done]. intros _.
           apply elem_of_union. left. by apply elem_of_singleton.
        -- rw !get_alter_ne //. intros Hd'. rw (Hflag id d' Hd').
           split; [intros ?; apply elem_of_union; by right|]. intros Hu.
           apply elem_of_union in Hu as [Hu | Hu]; [|done].
           apply elem_of_singleton in Hu. done.
      * intros id Hid. destruct (decide (id = fst item)) as [->|Hne].
        -- rw !get_alter_eq Hget /=. rw Hside. done.
        -- rw !get_alter_ne //. apply Hleft.
           apply elem_of_union in Hid as [Hid | Hid]; [|done].
           apply elem_of_singleton in Hid. done.
      * eexists (new ++ [_]). split_and!.
        -- rw Hdb. destruct rows0; cbn; [|done]. by rw app_assoc.
        -- rw length_app /=. lia.
        -- intros row Hrow. apply elem_of_app in Hrow as [Hrow | Hrow].
           ++ destruct (Hrows row Hrow) as [? ?]. split; [done|].
              apply elem_of_union. by right.
           ++ apply list_elem_of_singleton in Hrow as ->. cbn.
              split; [done|]. apply elem_of_union. left.
              by apply elem_of_singleton.
    + unfold balanced. cbn -[Dict.alter Dict.get].
      split_and!; try done.
      * intros id d'. destruct (decide (id = fst item)) as [->|Hne].
        -- rw get_alter_eq Hget /=. intros [= <-]. cbn. by apply Hflag.
        -- rw get_alter_ne //. apply Hflag.
      * intros id Hid. destruct (decide (id = fst item)) as [->|Hne]; [done|].
        rw get_alter_ne //. by apply Hleft.
      * by exists new.
  - unfold balanced. cbn -[Dict.put Dict.get].
    split_and!; try done.
    + intros id d'. destruct (decide (id = fst item)) as [->|Hne].
      * rw get_put_eq. intros [= <-]. cbn. split; [done | by intros ?].
      * rw get_put_ne //. apply Hflag.
    + intros id Hid. destruct (decide (id = fst item)) as [->|Hne]; [done|].
      rw get_put_ne //. by apply Hleft.
    + by exists new.
Qed.

Lemma count_frames_balanced rows0 c frames :
  balanced rows0 c → balanced rows0 (count_frames c frames).
Proof.
  revert c. induction frames as [|[[objs tr] now] frames IH]; intros c Hc;
    [done|].
  unfold count_frames in *. cbn [fold_left count_visitors fst]. apply IH.
  clear IH. revert c tr Hc.
  induction objs as [|item objs IHo]; intros c tr Hc; [done|].
  cbn [fold_left].
  pose proof (count_object_balanced rows0 now c tr item Hc) as Hc1.
  destruct (count_object now (c, tr) item) as [c1 tr1]. by apply IHo.
Qed.

(** X10. After any run of [count_visitors] from a freshly built counter:
    the count equals the number of counted ids and the left total; the
    per-object counted flag is set exactly for the counted ids, whose last
    recorded side is the left; and the event store, when there is one, has
    gained one row per counted visitor, each tagged left and naming a
    counted id. *)
Theorem counter_books_balance (line : Q) (direction : string)
    (frame_width : Q) (rows0 : option (list VisitorRow))
    (frames : list (Dict.t ObjData * Tracker * Z)) :
  let c := count_frames (VisitorCounter_new line direction frame_width rows0)
             frames in
  count c = size (counted_ids c) ∧
  count c = total_left c ∧
  (∀ id d, Dict.get id (last_positions c) = Some d →
           (counted d = true ↔ id ∈ counted_ids c)) ∧
  (∀ id, id ∈ counted_ids c →
         Dict.get id (last_positions c)
         = Some {| position := Left; counted := true |}) ∧
  ∃ new, db c = (fun rows => rows ++ new) <$> rows0 ∧
         length new = count c ∧
         ∀ row, row ∈ new →
                row_direction row = Left ∧ row_object_id row ∈ counted_ids c.
Proof.
  apply (count_frames_balanced rows0). unfold balanced. cbn.
  split_and!; [ by rw size_empty | done | done | | ].
  - intros id Hid. by apply elem_of_empty in Hid.
  - exists []. split_and!; [ | done | ].
    + destruct rows0; cbn; [|done]. by rw app_nil_r.
    + intros row Hrow. inversion Hrow.
Qed.

End CounterBooks.

(** ** What the counter reads and what it writes *)

Section CounterReach.
Context `{FE : FeatureExtractor} `{SO : Orders}.
Implicit Types (c : VisitorCounter) (tr : Tracker) (item : nat * ObjData).

(** X11. [count_visitors] reads nothing of an entry but its id and the x
    coordinate of its centroid, and nothing of the tracker: two object maps
    that agree on these, entry by entry, leave the same counter and return
    the same count, whatever states, boxes, person ids and already-counted
    marks they carry and whatever tracker is passed. *)
Theorem counting_reads_only_id_and_x (c : VisitorCounter) (tr tr' : Tracker)
    (now : Z) (objs objs' : Dict.t ObjData)
    (Hsame : Forall2 (fun a b : nat * ObjData =>
                        fst a = fst b ∧
                        fst (centroid (snd a)) = fst (centroid (snd b)))
               objs objs') :
  fst (fst (count_visitors c objs tr now))
  = fst (fst (count_visitors c objs' tr' now)) ∧
  snd (count_visitors c objs tr now) = snd (count_visitors c objs' tr' now).
Proof.
  assert (fst (fold_left (count_object now) objs (c, tr))
          = fst (fold_left (count_object now) objs' (c, tr'))) as Heq.
  { revert c tr tr'. induction Hsame as [|a b objs objs' [Hid Hx] _ IH];
      intros c tr tr'; [done|].
    cbn [fold_left].
    assert (fst (count_object now (c, tr) a) = fst (count_object now (c, tr') b))
      as Hstep.
    { rw !count_object_eq. cbv zeta. rw Hid Hx.
      destruct (bool_decide _); [done|].
      destruct (Dict.get (fst b) (last_positions c)); [|done].
      by destruct (_ && _). }
    destruct (count_object now (c, tr) a) as [c1 tr1].
    destruct (count_object now (c, tr') b) as [c1' tr1'].
    cbn [fst] in Hstep. subst c1'. apply IH. }
  unfold count_visitors. cbn [fst snd]. by rw Heq.
Qed.

Lemma fold_count_marks now (objs : Dict.t ObjData) c tr :
  let s' := fold_left (count_object now) objs (c, tr) in
  counted_ids c ⊆ counted_ids (fst s') ∧
  with_states (states tr) (snd s') = tr ∧
  (∀ id, Dict.get id (states (snd s')) = Dict.get id (states tr) ∨
         Dict.get id (states (snd s')) = Some Scanned ∧
         id ∈ counted_ids (fst s') ∧ (id ∉ counted_ids c) ∧
         Dict.mem id (objects tr) = true) ∧
  (∀ id, id ∈ counted_ids (fst s') → id ∉ counted_ids c →
         Dict.mem id (objects tr) = true →
         Dict.get id (states (snd s')) = Some Scanned).
Proof.
  revert c tr. induction objs as [|item objs IH]; intros c tr; cbn [fold_left].
  - cbv zeta. cbn [fst snd]. split_and!; [done | by destruct tr | by left | done].
  - (* one object *)
    assert (let s1 := count_object now (c, tr) item in
            (counted_ids (fst s1) = counted_ids c ∧ snd s1 = tr) ∨
            (counted_ids (fst s1) = {[fst item]} ∪ counted_ids c ∧
             (fst item ∉ counted_ids c) ∧
             snd s1 = fst (mark_as_scanned tr (fst item)))) as Hstep.
    { rw count_object_eq. cbv zeta.
      destruct (bool_decide_reflect (fst item ∈ counted_ids c)); [by left|].
      destruct (Dict.get (fst item) (last_positions c)); [|by left].
      destruct (_ && _); [by right | by left]. }
    destruct (count_object now (c, tr) item) as [c1 tr1]. cbv zeta in Hstep.
    cbn [fst snd] in Hstep.
    specialize (IH c1 tr1). cbv zeta in IH.
    destruct (fold_left (count_object now) objs (c1, tr1)) as [c' tr'].
    cbn [fst snd] in *. destruct IH as (Hsub & Hrest & Hst & Hmark).
    destruct Hstep as [[Hids ->] | (Hids & Hnew & ->)].
    + rw Hids in Hsub, Hst, Hmark. split_and!; done.
    + unfold mark_as_scanned in *.
      destruct (Dict.mem (fst item) (objects tr)) eqn:Hlive; cbn [fst] in *.
      * split_and!.
        -- intros k Hk. apply Hsub. rw Hids. apply elem_of_union. by right.
        -- apply (f_equal (with_states (states tr))) in Hrest.
           destruct tr. exact Hrest.
        -- intros id. destruct (decide (id = fst item)) as [->|Hne].
           ++ right.
              assert (fst item ∈ counted_ids c') as Hin.
              { apply Hsub. rw Hids. apply elem_of_union. left.
                by apply elem_of_singleton. }
              split_and!; try done.
              destruct (Hst (fst item)) as [-> | (? & _)]; [|done].
              cbn. by rw get_put_eq.
           ++ destruct (Hst id) as [-> | (Hs & Hin & Hnot & Hl)].
              ** left. cbn. by rw get_put_ne.
              ** right. split_and!; try done.
                 intros Hc. apply Hnot. rw Hids. apply elem_of_union. by right.
        -- intros id Hin Hnot Hl.
           destruct (decide (id = fst item)) as [->|Hne].
           ++ destruct (Hst (fst item)) as [-> | (? & _)]; [|done].
              cbn. by rw get_put_eq.
           ++ apply Hmark; [done | | done]. rw Hids. intros Hu.
              apply elem_of_union in Hu as [Hu | Hu]; [|done].
              apply elem_of_singleton in Hu. done.
      * split_and!.
        -- intros k Hk. apply Hsub. rw Hids. apply elem_of_union. by right.
        -- done.
        -- intros id. destruct (Hst id) as [-> | (Hs & Hin & Hnot & Hl)];
             [by left|].
           right. split_and!; try done.
           intros Hc. apply Hnot. rw Hids. apply elem_of_union. by right.
        -- intros id Hin Hnot Hl. apply Hmark; [done | | done].
           rw Hids. intros Hu.
           apply elem_of_union in Hu as [Hu | Hu]; [|done].
           apply elem_of_singleton in Hu. congruence.
Qed.

(** X12. Of the tracker it is handed, [count_visitors] changes nothing but
    states, and those only to Scanned: every object it newly counts that is
    live in the tracker ends Scanned, and the state of any other id stays as
    it was.  In particular no entry time is recorded for an object counted
    at the line.  The value returned is the count of the counter left
    behind. *)
Theorem counting_only_marks_scanned (c : VisitorCounter)
    (objs : Dict.t ObjData) (tr : Tracker) (now : Z) :
  let c' := fst (fst (count_visitors c objs tr now)) in
  let tr' := snd (fst (count_visitors c objs tr now)) in
  snd (count_visitors c objs tr now) = count c' ∧
  with_states (states tr) tr' = tr ∧
  entry_times tr' = entry_times tr ∧
  counted_ids c ⊆ counted_ids c' ∧
  (∀ id, id ∈ counted_ids c' → id ∉ counted_ids c →
         Dict.mem id (objects tr) = true →
         Dict.get id (states tr') = Some Scanned) ∧
  (∀ id, Dict.get id (states tr') ≠ Dict.get id (states tr) →
         Dict.get id (states tr') = Some Scanned ∧
         id ∈ counted_ids c' ∧ (id ∉ counted_ids c) ∧
         Dict.mem id (objects tr) = true).
Proof.
  cbv zeta. unfold count_visitors. cbn [fst snd].
  destruct (fold_count_marks now objs c tr) as (Hsub & Hrest & Hst & Hmark).
  split_and!; try done.
  - rw -{2}Hrest. done.
  - intros id Hne. by destruct (Hst id) as [Heq | ?].
Qed.

End CounterReach.

Lemma counting_reads_only_id_and_x_witness :
  fst (fst (count_visitors Scenario.line_counter [(0, Scenario.obj_at 180)]
              (sys_tracker Scenario.impatient) 1%Z))
  = fst (fst (count_visitors Scenario.line_counter
                [(0, {| centroid := (180%Q, 20%Q);
                        bbox := (0%Q, 0%Q, 0%Q, 0%Q);
                        obj_timestamps := {| first_seen := 5; last_seen := 6 |};
                        state := Scanned;
                        entry_time := Some 3%Z;
                        exit_time := None;
                        person_id := Some 4;
                        already_counted := true |})]
                Scenario.crossed 1%Z)) ∧
  snd (count_visitors Scenario.line_counter [(0, Scenario.obj_at 180)]
         (sys_tracker Scenario.impatient) 1%Z)
  = snd (count_visitors Scenario.line_counter
           [(0, {| centroid := (180%Q, 20%Q);
                   bbox := (0%Q, 0%Q, 0%Q, 0%Q);
                   obj_timestamps := {| first_seen := 5; last_seen := 6 |};
                   state := Scanned;
                   entry_time := Some 3%Z;
                   exit_time := None;
                   person_id := Some 4;
                   already_counted := true |})]
           Scenario.crossed 1%Z).
Proof.
  apply (@counting_reads_only_id_and_x).
  constructor; [|constructor]. split; reflexivity.
Defined.

(** * The gallery of re-identification *)

Section Gallery.
Context `{FE : FeatureExtractor} `{SO : Orders}.
Implicit Types (r : PersonReID) (k p : nat).

(** A comparison returns the dot product when the lengths agree, and raises
    otherwise. *)
Lemma compare_features_cases (features f : Features) :
  (length f = length features ∧
   compare_features features f = Some (dot features f)) ∨
  (length f ≠ length features ∧ compare_features features f = None).
Proof.
  unfold compare_features.
  destruct (Nat.eqb_spec (length features) (length f)); [left | right]; done.
Qed.

(** The gallery scan: it raises when a stored vector has another length
    than the features; otherwise the score is the largest similarity when
    that is positive, and the id is the first entry reaching it. *)
Lemma best_match_spec (features : Features) (g : Dict.t Features) :
  match best_match features g with
  | None => ∃ q f, (q, f) ∈ g ∧ length f ≠ length features
  | Some (best, score) =>
      (∀ q f, (q, f) ∈ g → length f = length features) ∧
      match best with
      | None => score = 0%Q ∧ ∀ q f, (q, f) ∈ g → (dot features f <= 0)%Q
      | Some p =>
          (0 < score)%Q ∧
          (∃ f, (p, f) ∈ g ∧ score = dot features f) ∧
          ∀ q f, (q, f) ∈ g → (dot features f <= score)%Q
      end
  end.
Proof.
  unfold best_match. induction g as [|[q f] g IH] using rev_ind.
  - cbn. split; [|split; [done|]]; intros q f Hin; inversion Hin.
  - rw foldM_app.
    destruct (foldM _ g (None, 0%Q)) as [[best score]|];
      cbn [mbind option_bind foldM fst snd].
    2:{ destruct IH as (q' & f' & Hin & Hlen). exists q', f'.
        split; [|done]. apply elem_of_app. by left. }
    destruct IH as [Hlens IH].
    destruct (compare_features_cases features f) as [[Hlen ->] | [Hlen ->]];
      cbn [mbind option_bind].
    2:{ exists q, f. split; [|done]. apply elem_of_app. right. left. }
    assert (∀ q' f', (q', f') ∈ g ++ [(q, f)] → length f' = length features)
      as Hlens'.
    { intros q' f' Hin. apply elem_of_app in Hin as [Hin | Hin];
        [by eapply Hlens|].
      apply list_elem_of_singleton in Hin. by injection Hin as -> ->. }
    destruct (Qltb score (dot features f)) eqn:Hlt;
      (split; [exact Hlens'|]).
    + apply Qltb_lt in Hlt.
      assert (0 <= score)%Q as Hpos.
      { destruct best; [by apply Qlt_le_weak, IH|]. destruct IH as [-> _].
        apply Qle_refl. }
      split_and!.
      * by eapply Qle_lt_trans.
      * exists f. split; [|done]. apply elem_of_app. right. left.
      * intros q' f' Hin. apply elem_of_app in Hin as [Hin | Hin].
        -- apply Qlt_le_weak. eapply Qle_lt_trans; [|exact Hlt].
           destruct best as [p|].
           ++ by apply IH in Hin.
           ++ destruct IH as [-> IH]. by apply IH in Hin.
        -- apply list_elem_of_singleton in Hin. injection Hin as -> ->.
           apply Qle_refl.
    + apply Qltb_ge in Hlt. destruct best as [p|].
      * destruct IH as (Hpos & (f0 & Hin0 & Hs) & Hmax).
        split_and!; [done | | ].
        -- exists f0. split; [|done]. apply elem_of_app. by left.
        -- intros q' f' Hin. apply elem_of_app in Hin as [Hin | Hin];
             [by eapply Hmax|].
           apply list_elem_of_singleton in Hin. by injection Hin as -> ->.
      * destruct IH as [-> IH]. split; [done|].
        intros q' f' Hin. apply elem_of_app in Hin as [Hin | Hin];
          [by eapply IH|].
        apply list_elem_of_singleton in Hin. by injection Hin as -> ->.
Qed.

(** X13. What [identify_person] answers for a track id is remembered: the
    id is mapped to the person returned, and a later call for the same track
    id returns the same person, reports it as not new and changes nothing,
    whatever frame and box it is given.  A call can raise only for a track
    id that is not mapped yet. *)
Theorem identification_is_remembered (r : PersonReID) (frame frame' : Frame)
    (bbox bbox' : BBox) (k : nat) :
  match identify_person r frame bbox k with
  | Some (r1, (p, _)) =>
      Dict.get k (person_id_mapping r1) = Some p ∧
      identify_person r1 frame' bbox' k = Some (r1, (p, false))
  | None => Dict.get k (person_id_mapping r) = None
  end.
Proof.
  assert (∀ r1 p, Dict.get k (person_id_mapping r1) = Some p →
                  Dict.get k (person_id_mapping r1) = Some p ∧
                  identify_person r1 frame' bbox' k = Some (r1, (p, false)))
    as Hagain.
  { intros r1 p Hmap. split; [done|]. unfold identify_person. by rw Hmap. }
  unfold identify_person at 1.
  destruct (Dict.get k (person_id_mapping r)) as [p|] eqn:Hk.
  { by apply Hagain. }
  destruct (best_match _ _) as [[[best|] score]|]; cbn [mbind option_bind];
    [| |done].
  - destruct (Qltb _ _); apply Hagain; cbn; by rw get_put_eq.
  - apply Hagain. cbn. by rw get_put_eq.
Qed.


Lemma identify_person_step r frame bbox k r1 answer :
  Dict.keys (gallery r) = seq 1 (person_count r) →
  (∀ k' p, Dict.get k' (person_id_mapping r) = Some p →
           1 ≤ p ≤ person_count r) →
  identify_person r frame bbox k = Some (r1, answer) →
  (Dict.keys (gallery r1) = seq 1 (person_count r1) ∧
   ∀ k' p, Dict.get k' (person_id_mapping r1) = Some p →
           1 ≤ p ≤ person_count r1) ∧
  similarity_threshold r1 = similarity_threshold r ∧
  person_count r ≤ person_count r1 ∧
  (∀ p f, Dict.get p (gallery r) = Some f → Dict.get p (gallery r1) = Some f) ∧
  (∀ k' p, Dict.get k' (person_id_mapping r) = Some p →
           Dict.get k' (person_id_mapping r1) = Some p).
Proof.
  intros Hkeys Hmap. unfold identify_person.
  destruct (Dict.get k (person_id_mapping r)) as [p0|] eqn:Hk.
  { intros [= <- _]. split_and!; done. }
  assert (∀ p k' p', Dict.get k' (person_id_mapping r) = Some p' →
                     Dict.get k' (Dict.put k p (person_id_mapping r)) = Some p')
    as Hkeep.
  { intros p k' p' Hk'. rw get_put_ne //. intros ->. congruence. }
  assert (Dict.mem (S (person_count r)) (gallery r) = false) as Hfresh.
  { destruct (Dict.mem _ _) eqn:E; [|done].
    apply mem_keys in E. rw Hkeys in E. apply elem_of_seq in E. lia. }
  assert (let features := extract_features frame bbox in
          let r1 := {| similarity_threshold := similarity_threshold r;
                       gallery := Dict.put (S (person_count r)) features
                                    (gallery r);
                       person_count := S (person_count r);
                       person_id_mapping :=
                         Dict.put k (S (person_count r))
                           (person_id_mapping r) |} in
          (Dict.keys (gallery r1) = seq 1 (person_count r1) ∧
           ∀ k' p, Dict.get k' (person_id_mapping r1) = Some p →
                   1 ≤ p ≤ person_count r1) ∧
          similarity_threshold r1 = similarity_threshold r ∧
          person_count r ≤ person_count r1 ∧
          (∀ p f, Dict.get p (gallery r) = Some f →
                  Dict.get p (gallery r1) = Some f) ∧
          (∀ k' p, Dict.get k' (person_id_mapping r) = Some p →
                   Dict.get k' (person_id_mapping r1) = Some p)) as Hnew.
  { cbn [gallery person_count person_id_mapping similarity_threshold].
    split_and!; [ | | done | lia | | by apply Hkeep ].
    - rw keys_put_fresh // Hkeys seq_S. done.
    - intros k' p'. destruct (decide (k = k')) as [->|Hne].
      + rw get_put_eq. intros [= <-]. lia.
      + rw get_put_ne //. intros Hk'. apply Hmap in Hk'. lia.
    - intros p' f Hp'. rw get_put_ne //. intros <-.
      apply mem_false in Hfresh. congruence. }
  pose proof (best_match_spec (extract_features frame bbox) (gallery r)) as Hbest.
  destruct (best_match _ _) as [[best score]|]; cbn [mbind option_bind];
    [|done].
  destruct Hbest as [_ Hbest].
  destruct best as [best|]; [|by intros [= <- _]; exact Hnew].
  destruct (Qltb _ _); [|by intros [= <- _]; exact Hnew].
  intros [= <- _].
  cbn [gallery person_count person_id_mapping similarity_threshold].
  destruct Hbest as (_ & (f & Hin & _) & _).
  split_and!; [ done | | done | lia | done | by apply Hkeep ].
  intros k' p'. destruct (decide (k = k')) as [->|Hne].
  - rw get_put_eq. intros [= <-].
    assert (best ∈ Dict.keys (gallery r)) as Hp.
    { apply list_elem_of_fmap. by exists (best, f). }
    rw Hkeys in Hp. apply elem_of_seq in Hp. lia.
  - rw get_put_ne //. apply Hmap.
Qed.

(** X15. Re-identification numbers persons in order and never revises what
    it stored: after any run of [identify_person] calls from a new gallery,
    of which those that raise leave no trace, the gallery holds exactly the
    persons [1] to [person_count], and every mapped track points to one of
    them; under any further calls the person count does not fall, a stored
    feature vector stays as it is, and a mapped track keeps its person. *)
Theorem gallery_numbers_persons_in_order (threshold : Q)
    (calls more : list (Frame * BBox * nat)) :
  let r := identify_all (PersonReID_new threshold) calls in
  let r' := identify_all r more in
  Dict.keys (gallery r) = seq 1 (person_count r) ∧
  (∀ k p, Dict.get k (person_id_mapping r) = Some p →
          1 ≤ p ≤ person_count r) ∧
  similarity_threshold r = threshold ∧
  person_count r ≤ person_count r' ∧
  (∀ p f, Dict.get p (gallery r) = Some f → Dict.get p (gallery r') = Some f) ∧
  (∀ k p, Dict.get k (person_id_mapping r) = Some p →
          Dict.get k (person_id_mapping r') = Some p).
Proof.
  assert (∀ calls r0,
            Dict.keys (gallery r0) = seq 1 (person_count r0) →
            (∀ k p, Dict.get k (person_id_mapping r0) = Some p →
                    1 ≤ p ≤ person_count r0) →
            let r := identify_all r0 calls in
            (Dict.keys (gallery r) = seq 1 (person_count r) ∧
             ∀ k p, Dict.get k (person_id_mapping r) = Some p →
                    1 ≤ p ≤ person_count r) ∧
            similarity_threshold r = similarity_threshold r0 ∧
            person_count r0 ≤ person_count r ∧
            (∀ p f, Dict.get p (gallery r0) = Some f →
                    Dict.get p (gallery r) = Some f) ∧
            (∀ k p, Dict.get k (person_id_mapping r0) = Some p →
                    Dict.get k (person_id_mapping r) = Some p)) as Hrun.
  { clear calls more. intros calls.
    induction calls as [|[[frame bbox] k] calls IH]; intros r0 Hkeys Hmap.
    - cbn. split_and!; done.
    - unfold identify_all. cbn [fold_left fst snd].
      destruct (identify_person r0 frame bbox k) as [[r1 answer]|] eqn:Hcall;
        cbn [fst].
      + fold (identify_all r1 calls).
        destruct (identify_person_step r0 frame bbox k r1 answer Hkeys Hmap
                    Hcall)
          as ([Hk1 Hm1] & Ht1 & Hc1 & Hg1 & Hp1).
        destruct (IH _ Hk1 Hm1) as (Hinv & Ht & Hc & Hg & Hp).
        split; [exact Hinv|]. split_and!; [ congruence | lia | | ]; auto.
      + fold (identify_all r0 calls). by apply IH. }
  cbv zeta.
  destruct (Hrun calls (PersonReID_new threshold)) as ([Hk Hm] & Ht & _);
    [done | by intros k p Hkp |].
  destruct (Hrun more _ Hk Hm) as (_ & _ & Hc & Hg & Hp).
  split_and!; done.
Qed.

End Gallery.


(** * The frame loop *)

Section FrameLoop.
Context `{FE : FeatureExtractor} `{SO : Orders}.
Implicit Types (t : Tracker) (id k : nat) (l : Loop) (p : Pass).

(** [update] without detections: every live object misses a frame. *)
Lemma update_empty t frame now :
  wf t →
  ∃ t' objs,
    update t [] frame now = Some (t', objs) ∧
    sound_step t t' ∧
    (∀ id n, Dict.get id (disappeared t) = Some n → missed id n now t t') ∧
    (∀ k, Dict.mem k (objects t) = false → untouched k t t').
Proof.
  intros Hwf.
  assert (Dict.keys (disappeared t) = Dict.keys (objects t)) as Hkeys
    by apply Hwf.
  destruct (miss_loop now (Dict.keys (disappeared t)) t Hwf)
    as (t' & Hrun & Hs & _ & Hun & _ & Hpost).
  { rw Hkeys. apply Hwf. }
  { intros id Hin. by rw -Hkeys. }
  destruct (get_objects_view t' (proj1 Hs)) as (objs & Hobjs & _).
  exists t', objs. split_and!; [ | done | | ].
  - unfold update, update_tracker, shed. cbn [length].
    rw andb_false_r. cbn [mbind option_bind Nat.eqb]. rw Hrun.
    cbn [mbind option_bind]. by rw Hobjs.
  - intros id n Hn. apply Hpost; [|done]. apply get_keys. by eexists.
  - intros k Hk. apply Hun. rw Hkeys. intros Hin. apply mem_keys in Hin.
    congruence.
Qed.

Lemma count_visitors_live c objs tr now :
  objects (snd (fst (count_visitors c objs tr now))) = objects tr ∧
  disappeared (snd (fst (count_visitors c objs tr now))) = disappeared tr ∧
  next_object_id (snd (fst (count_visitors c objs tr now))) = next_object_id tr.
Proof.
  unfold count_visitors. cbn [fst snd].
  destruct (fold_count_marks now objs c tr) as (_ & Hrest & _).
  split_and!;
    [ apply (f_equal objects) in Hrest
    | apply (f_equal disappeared) in Hrest
    | apply (f_equal next_object_id) in Hrest ]; exact Hrest.
Qed.

(** X16. The loop calls [update] twice for every frame it processes, so an
    object without a detection ages two frames per processed frame: after a
    processed pass with no detection and no exit sweep, an object that had
    [n] disappeared frames is still live, with [n + 2] of them, exactly when
    [n + 2] does not exceed [max_disappeared]. *)
Theorem processed_empty_frame_ages_twice (cfg : Config) (l : Loop) (p : Pass)
    (Hwf : wf (loop_tracker l))
    (Hfps : Qeq_bool (cfg_fps cfg) 0 = false)
    (Hdue : Qltb (1 / cfg_fps cfg) (current_time p - prev_time l) = true)
    (Hempty : pass_detections p = [])
    (Hnosweep : Qle_bool 1 (current_time p - last_check_exit_time l) = false) :
  ∃ l',
    loop_pass cfg l p = Some l' ∧
    ∀ id n, Dict.get id (disappeared (loop_tracker l)) = Some n →
      if Z.ltb (max_disappeared (loop_tracker l)) (Z.of_nat (S (S n)))
      then Dict.mem id (objects (loop_tracker l')) = false
      else Dict.mem id (objects (loop_tracker l')) = true ∧
           Dict.get id (disappeared (loop_tracker l')) = Some (S (S n)).
Proof.
  set (frame := if cfg_reid_enabled cfg then Some (pass_frame p) else None).
  destruct (update_empty (loop_tracker l) frame (at_first_update p) Hwf)
    as (t1 & objs1 & Hu1 & Hs1 & Hm1 & _).
  pose proof Hs1 as (Hwf1 & _ & (Hmd1 & _) & _).
  destruct (update_empty t1 frame (at_second_update p) Hwf1)
    as (t2 & objs2 & Hu2 & Hs2 & Hm2 & Hout2).
  eexists. split.
  - unfold loop_pass. rw Hfps Hdue Hempty. fold frame. rw Hu1.
    cbn [mbind option_bind fst]. rw Hu2. cbn [mbind option_bind fst snd].
    rw Hnosweep. cbn [mbind option_bind fst snd]. reflexivity.
  - cbn [loop_tracker].
    assert (∀ c, objects (snd (if cfg_counting_enabled cfg
                               then fst (count_visitors c objs2 t2 (at_count p))
                               else (c, t2))) = objects t2 ∧
                 disappeared (snd (if cfg_counting_enabled cfg
                               then fst (count_visitors c objs2 t2 (at_count p))
                               else (c, t2))) = disappeared t2) as Hlive.
    { intros c. destruct (cfg_counting_enabled cfg); [|done].
      by destruct (count_visitors_live c objs2 t2 (at_count p)) as (-> & -> & _). }
    destruct (Hlive (loop_counter l)) as [-> ->].
    intros id n Hn. pose proof (Hm1 id n Hn) as H1. unfold missed in H1.
    destruct (Z.ltb (max_disappeared (loop_tracker l)) (Z.of_nat (S n)))
      eqn:Hlt1.
    + destruct H1 as [Hgone _].
      assert (Z.ltb (max_disappeared (loop_tracker l)) (Z.of_nat (S (S n)))
              = true) as -> by (apply Z.ltb_lt; apply Z.ltb_lt in Hlt1; lia).
      by rw (untouched_mem _ _ _ (Hout2 id Hgone)).
    + destruct H1 as [_ Hn1]. pose proof (Hm2 id (S n) Hn1) as H2.
      unfold missed in H2. rw Hmd1 in H2.
      destruct (Z.ltb _ (Z.of_nat (S (S n)))); [apply H2 | done].
Qed.

Lemma fold_count_ids now (objs : Dict.t ObjData) c tr :
  ∀ id, id ∈ counted_ids (fst (fold_left (count_object now) objs (c, tr))) →
        id ∈ counted_ids c ∨ id ∈ Dict.keys objs.
Proof.
  revert c tr. induction objs as [|item objs IH]; intros c tr id;
    cbn [fold_left]; [by left|].
  pose proof (count_object_step now c tr item) as (_ & _ & _ & _ & Hstep).
  destruct (count_object now (c, tr) item) as [c1 tr1]. cbn [fst] in Hstep.
  intros Hin. cbn [Dict.keys map].
  destruct (IH c1 tr1 id Hin) as [Hc | Hk]; [|right; by right].
  destruct Hstep as [[_ Hids] | (_ & Hids & _)]; rw Hids in Hc; [by left|].
  apply elem_of_union in Hc as [Hc | Hc]; [|by left].
  apply elem_of_singleton in Hc as ->. right. left.
Qed.

Lemma state_mono_started t t' id st :
  state_mono t t' → Dict.get id (states t) = Some st → st ≠ New →
  ∃ st', Dict.get id (states t') = Some st' ∧ st' ≠ New.
Proof.
  intros Hmono Hst Hne. destruct (Hmono id st Hst) as (st' & Hst' & Hrank).
  exists st'. split; [done|]. intros ->. destruct st; cbn in Hrank; [done|lia|lia].
Qed.

(** What the loop keeps true of the counter and the tracker together. *)
Lemma loop_pass_keeps rows0 cfg l p l' :
  wf (loop_tracker l) → balanced rows0 (loop_counter l) →
  (∀ id, id ∈ counted_ids (loop_counter l) →
         ∃ st, Dict.get id (states (loop_tracker l)) = Some st ∧ st ≠ New) →
  loop_pass cfg l p = Some l' →
  wf (loop_tracker l') ∧ balanced rows0 (loop_counter l') ∧
  (∀ id, id ∈ counted_ids (loop_counter l') →
         ∃ st, Dict.get id (states (loop_tracker l')) = Some st ∧ st ≠ New).
Proof.
  intros Hwf Hbal Hcounted. unfold loop_pass.
  destruct (Qeq_bool _ _); [done|].
  destruct (Qltb _ _); [|by intros [= <-]].
  set (frame := if cfg_reid_enabled cfg then Some (pass_frame p) else None).
  destruct (update (loop_tracker l) _ _ _) as [[t1 objs1]|] eqn:Hu1; [|done].
  cbn [mbind option_bind fst].
  destruct (update t1 _ _ _) as [[t2 objs2]|] eqn:Hu2; [|done].
  cbn [mbind option_bind fst snd].
  (* the two updates *)
  assert (∀ t a f now t' objs, wf t → update t a f now = Some (t', objs) →
            sound_step t t' ∧ get_objects t' = Some objs) as Hupd.
  { intros t a f now t' objs Hwft. unfold update.
    destruct (update_tracker t a f now) as [t0|] eqn:E; [|done].
    cbn [mbind option_bind]. destruct (get_objects t0) as [o|] eqn:Ho; [|done].
    cbn [mbind option_bind]. intros [= <- <-].
    split; [by eapply update_tracker_sound | done]. }
  destruct (Hupd _ _ _ _ _ _ Hwf Hu1) as [Hs1 _].
  destruct (Hupd _ _ _ _ _ _ (proj1 Hs1) Hu2) as [Hs2 Hobjs2].
  pose proof (sound_step_trans _ _ _ Hs1 Hs2) as Hs12.
  pose proof Hs2 as (Hwf2 & _).
  destruct (get_objects_view t2 Hwf2) as (objs & Hobjs & Hkeys & _).
  rw Hobjs2 in Hobjs. injection Hobjs as <-.
  (* the sweep *)
  assert (∃ t3 last,
            (if Qle_bool 1 (current_time p - last_check_exit_time l)
             then r ← check_for_exits t2 (at_sweep p);
                  Some (fst r, current_time p)
             else Some (t2, last_check_exit_time l)) = Some (t3, last) ∧
            sound_step t2 t3 ∧
            ∀ id, Dict.mem id (objects t2) = true →
                  Dict.mem id (objects t3) = true ∨
                  Dict.get id (states t3) = Some Exited) as Hsweep.
  { destruct (Qle_bool _ _).
    - destruct (sweep_run (at_sweep p) (timestamps t2) t2 [] Hwf2)
        as (t3 & ids & Hrun & Hs3 & _ & _ & Hin & Hout).
      rw app_nil_l in Hrun. exists t3, (current_time p).
      unfold check_for_exits. rw Hrun. cbn [mbind option_bind fst].
      split_and!; [done | done |]. intros id Hlive.
      destruct (decide (id ∈ ids)) as [Hid | Hid].
      + right. by destruct (Hin id Hid) as (_ & _ & _ & _ & ? & _).
      + left. by rw (untouched_mem _ _ _ (Hout id Hid)).
    - exists t2, (last_check_exit_time l).
      split_and!; [done | by apply sound_step_refl | by left]. }
  destruct Hsweep as (t3 & last & -> & Hs3 & Hlive3).
  cbn [mbind option_bind fst snd].
  pose proof (sound_step_trans _ _ _ Hs12 Hs3) as Hs13.
  assert (∀ id, id ∈ counted_ids (loop_counter l) →
                ∃ st, Dict.get id (states t3) = Some st ∧ st ≠ New) as Hc3.
  { intros id Hid. destruct (Hcounted id Hid) as (st & Hst & Hne).
    eapply state_mono_started; [apply Hs13 | done | done]. }
  intros [= <-]. cbn [loop_tracker loop_counter].
  destruct (cfg_counting_enabled cfg); cbn [fst snd];
    [|split_and!; [apply Hs3 | done | done]].
  unfold count_visitors. cbn [fst snd].
  pose proof (fold_count_marks (at_count p) objs2 (loop_counter l) t3)
    as (Hsub & Hrest & Hst & Hmark).
  pose proof (fold_count_ids (at_count p) objs2 (loop_counter l) t3) as Hids.
  pose proof (count_frames_balanced rows0 (loop_counter l)
                [(objs2, t3, at_count p)] Hbal) as Hbal'.
  unfold count_frames, count_visitors in Hbal'. cbn [fold_left fst] in Hbal'.
  split_and!; [ | done | ].
  - pose proof (count_visitors_sound (loop_counter l) objs2 t3 (at_count p)
                  (proj1 Hs3)) as Hs4.
    unfold count_visitors in Hs4. apply Hs4.
  - intros id Hid.
    destruct (decide (id ∈ counted_ids (loop_counter l))) as [Hold | Hnew].
    + destruct (Hc3 id Hold) as (st & Hst3 & Hne).
      destruct (Hst id) as [-> | (-> & _)]; [by exists st | by exists Scanned].
    + destruct (Hids id Hid) as [? | Hk]; [done|].
      rw Hkeys in Hk. apply mem_keys in Hk.
      destruct (Hlive3 id Hk) as [Hl | Hx].
      * exists Scanned. split; [by apply Hmark | done].
      * destruct (Hst id) as [-> | (-> & _)];
          [by exists Exited | by exists Scanned].
Qed.

(** X17. Whatever the loop has done since it started with a new tracker and
    a new counter, the tracker is consistent, every id the counter has
    counted is Scanned or Exited in the tracker, and the visitor count is at
    most the number of track ids handed out. *)
Theorem loop_counts_only_tracked_objects (cfg : Config)
    (md : Z) (mx et : Q) (re : bool) (th : Q) (ld : bool)
    (line : Q) (direction : string) (frame_width : Q)
    (rows0 : option (list VisitorRow)) (check_started frame_started : Q)
    (passes : list Pass) (l : Loop)
    (Hrun : loop_run cfg
              (loop_start (Tracker_new md mx et re th ld)
                 (VisitorCounter_new line direction frame_width rows0)
                 check_started frame_started) passes = Some l) :
  wf (loop_tracker l) ∧
  (∀ id, id ∈ counted_ids (loop_counter l) →
         Dict.get id (states (loop_tracker l)) = Some Scanned ∨
         Dict.get id (states (loop_tracker l)) = Some Exited) ∧
  count (loop_counter l) = size (counted_ids (loop_counter l)) ∧
  count (loop_counter l) ≤ next_object_id (loop_tracker l).
Proof.
  assert (wf (loop_tracker l) ∧ balanced rows0 (loop_counter l) ∧
          ∀ id, id ∈ counted_ids (loop_counter l) →
                ∃ st, Dict.get id (states (loop_tracker l)) = Some st ∧ st ≠ New)
    as (Hwf & Hbal & Hcounted).
  { apply (foldM_invariant
             (fun l => wf (loop_tracker l) ∧ balanced rows0 (loop_counter l) ∧
                       ∀ id, id ∈ counted_ids (loop_counter l) →
                             ∃ st, Dict.get id (states (loop_tracker l)) = Some st
                                   ∧ st ≠ New)
             (loop_pass cfg) passes
             (loop_start (Tracker_new md mx et re th ld)
                (VisitorCounter_new line direction frame_width rows0)
                check_started frame_started) l); [ | | exact Hrun ].
    - intros l0 p l1 (H1 & H2 & H3) Hpass. by eapply loop_pass_keeps.
    - cbn [loop_start loop_tracker loop_counter]. split_and!.
      + apply wf_new.
      + pose proof (count_frames_balanced rows0
                      (VisitorCounter_new line direction frame_width rows0) [])
          as Hb. apply Hb. unfold balanced. cbn.
        split_and!; [ by rw size_empty | done | done | | ].
        * intros id Hid. by apply elem_of_empty in Hid.
        * exists []. split_and!; [ | done | ].
          -- destruct rows0; cbn; [|done]. by rw app_nil_r.
          -- intros row Hrow. inversion Hrow.
      + intros id Hid. cbn in Hid. by apply elem_of_empty in Hid. }
  split_and!; [ done | | apply Hbal | ].
  - intros id Hid. destruct (Hcounted id Hid) as (st & -> & Hne).
    destruct st; [done | by left | by right].
  - destruct Hbal as (-> & _).
    assert (counted_ids (loop_counter l)
              ⊆ set_seq 0 (next_object_id (loop_tracker l))) as Hsub.
    { intros id Hid. apply elem_of_set_seq. split; [lia|].
      destruct (Hcounted id Hid) as (st & Hst & _).
      destruct Hwf as (_ & _ & _ & H4 & _). cbn. apply H4. by eexists. }
    apply subseteq_size in Hsub. by rw size_set_seq in Hsub.
Qed.

End FrameLoop.

Lemma processed_empty_frame_ages_twice_witness :
  ∃ l',
    @loop_pass label_extractor stable_orders Scenario.camera
      Scenario.loop_after_one Scenario.nobody = Some l' ∧
    ∀ id n,
      Dict.get id (disappeared (loop_tracker Scenario.loop_after_one)) = Some n →
      if Z.ltb (max_disappeared (loop_tracker Scenario.loop_after_one))
           (Z.of_nat (S (S n)))
      then Dict.mem id (objects (loop_tracker l')) = false
      else Dict.mem id (objects (loop_tracker l')) = true ∧
           Dict.get id (disappeared (loop_tracker l')) = Some (S (S n)).
Proof.
  apply (@processed_empty_frame_ages_twice label_extractor stable_orders
           Scenario.camera Scenario.loop_after_one Scenario.nobody).
  - apply wfb_wf. vm_compute. reflexivity.
  - reflexivity.
  - vm_compute. reflexivity.
  - reflexivity.
  - vm_compute. reflexivity.
Defined.

Lemma loop_counts_only_tracked_objects_witness :
  let l := default Scenario.loop_entered
             (@loop_run label_extractor stable_orders Scenario.camera
                Scenario.loop_entered Scenario.walk) in
  wf (loop_tracker l) ∧
  (∀ id, id ∈ counted_ids (loop_counter l) →
         Dict.get id (states (loop_tracker l)) = Some Scanned ∨
         Dict.get id (states (loop_tracker l)) = Some Exited) ∧
  count (loop_counter l) = size (counted_ids (loop_counter l)) ∧
  count (loop_counter l) ≤ next_object_id (loop_tracker l).
Proof.
  apply (@loop_counts_only_tracked_objects label_extractor stable_orders
           Scenario.camera 40%Z 100%Q 10%Q true 0.6%Q true
           0.5%Q "left" 300%Q None 0%Q 0%Q Scenario.walk).
  vm_compute. reflexivity.
Defined.

(** * The detector's filter *)

Section Detector.

Lemma Qtrunc_near (q : Q) :
  (inject_Z (Qtrunc q) - 1 < q)%Q ∧ (q < inject_Z (Qtrunc q) + 1)%Q.
Proof.
  destruct q as [n d]. unfold Qtrunc, Qlt, Qminus, Qplus, Qopp, inject_Z.
  cbn [Qnum Qden].
  pose proof (Z.quot_rem' n (Zpos d)) as Hqr.
  assert (- Zpos d < Z.rem n (Zpos d) < Zpos d)%Z as Hrem.
  { destruct (Z.le_gt_cases 0 n) as [Hn | Hn].
    - pose proof (Z.rem_bound_pos_pos n (Zpos d)). lia.
    - pose proof (Z.rem_bound_pos_neg n (Zpos d)). lia. }
  set (t := Z.quot n (Zpos d)) in *. set (r := Z.rem n (Zpos d)) in *.
  split; nia.
Qed.

Lemma trunc_span (a b : Q) (n : Z) :
  (inject_Z n < b - a)%Q → (n - 1 <= Qtrunc b - Qtrunc a)%Z.
Proof.
  intros Hspan.
  destruct (Qtrunc_near a) as [Ha _]. destruct (Qtrunc_near b) as [_ Hb].
  assert (inject_Z (n - 2) < inject_Z (Qtrunc b - Qtrunc a))%Q as Hlt.
  { unfold Z.sub. rw !inject_Z_plus !inject_Z_opp.
    change (inject_Z 2) with 2%Q. lra. }
  rw -Zlt_Qlt in Hlt. lia.
Qed.

(** X18. What [detect] passes on: nothing at all unless the YOLOv5 model is
    the one loaded; otherwise, in their order, the rows of the first result
    more than 30 wide and more than 60 high, each with its corners
    truncated to integers and its confidence kept.  A box passed on is at
    least 29 wide and 59 high after truncation, so it is never degenerate,
    and never more boxes are passed on than the model gave. *)
Theorem detector_passes_only_sizeable_boxes (d : PersonDetector)
    (prediction : Prediction) :
  (model_type d = FasterRCNN → detect d prediction = []) ∧
  (∀ results boxes, prediction = Some (Some boxes :: results) →
                    length (detect d prediction) ≤ length boxes) ∧
  ∀ det, det ∈ detect d prediction →
    ∃ results boxes x1 y1 x2 y2 conf cls,
      prediction = Some (Some boxes :: results) ∧
      (x1, y1, x2, y2, conf, cls) ∈ boxes ∧
      (30 < x2 - x1)%Q ∧ (60 < y2 - y1)%Q ∧
      det = (inject_Z (Qtrunc x1), inject_Z (Qtrunc y1),
             inject_Z (Qtrunc x2), inject_Z (Qtrunc y2), conf) ∧
      (29 <= Qtrunc x2 - Qtrunc x1)%Z ∧ (59 <= Qtrunc y2 - Qtrunc y1)%Z ∧
      degenerate (bbox_of det) = false.
Proof.
  split_and!.
  - intros Hm. unfold detect. rw Hm. by destruct prediction.
  - intros results boxes ->. unfold detect.
    destruct (model_type d); [|cbn; lia].
    destruct (Nat.ltb 0 (length boxes)); [|cbn; lia].
    clear. induction boxes as [|r boxes IH]; [done|].
    cbn [omap list_omap]. destruct (keep_box r); cbn [length]; lia.
  - intros det Hin. unfold detect in Hin.
    destruct prediction as [[|[boxes|] results]|]; try by inversion Hin.
    + destruct (model_type d); by inversion Hin.
    + destruct (model_type d); [|by inversion Hin].
      destruct (Nat.ltb 0 (length boxes)); [|by inversion Hin].
      apply list_elem_of_omap in Hin as ([[[[[x1 y1] x2] y2] conf] cls] & Hr & Hk).
      unfold keep_box in Hk.
      destruct (Qltb 30 (x2 - x1)) eqn:Hw; [|done].
      destruct (Qltb 60 (y2 - y1)) eqn:Hh; [|done].
      cbn [andb] in Hk. injection Hk as <-.
      apply Qltb_lt in Hw, Hh.
      pose proof (trunc_span x1 x2 30 Hw) as Hx.
      pose proof (trunc_span y1 y2 60 Hh) as Hy.
      exists results, boxes, x1, y1, x2, y2, conf, cls.
      split_and!; try done; try lia.
      cbn [bbox_of degenerate]. apply orb_false_iff. split.
      * destruct (Qle_bool _ _) eqn:E; [|done]. apply Qle_bool_iff in E.
        rw -Zle_Qle in E. lia.
      * destruct (Qle_bool _ _) eqn:E; [|done]. apply Qle_bool_iff in E.
        rw -Zle_Qle in E. lia.
    + destruct (model_type d); by inversion Hin.
Qed.

End Detector.

(** * The event store and its export *)

Section Store.
Implicit Types (d : Database) (r : VisitorRecord) (rows : list VisitorRecord).

Lemma insert_row_perm r rows : insert_row r rows ≡ₚ r :: rows.
Proof.
  induction rows as [|r' rows IH]; cbn [insert_row]; [done|].
  destruct (Nat.leb _ _); [done|]. rw IH. apply Permutation_swap.
Qed.

Lemma order_by_id_perm rows : order_by_id rows ≡ₚ rows.
Proof.
  induction rows as [|r rows IH]; [done|].
  unfold order_by_id in *. cbn [foldr]. by rw insert_row_perm IH.
Qed.

Lemma insert_row_sorted r rows :
  StronglySorted (fun a b => rec_id a ≤ rec_id b) rows →
  StronglySorted (fun a b => rec_id a ≤ rec_id b) (insert_row r rows).
Proof.
  induction rows as [|r' rows IH]; intros Hs; cbn [insert_row].
  - repeat constructor.
  - apply StronglySorted_inv in Hs as [Hs Hall].
    destruct (Nat.leb_spec (rec_id r) (rec_id r')) as [Hle | Hgt].
    + constructor; [by constructor|]. constructor; [done|].
      eapply Forall_impl; [exact Hall|]. intros z Hz. cbv beta in *. lia.
    + constructor; [by apply IH|].
      apply Forall_forall. intros z Hz. rw (insert_row_perm r rows) in Hz.
      apply elem_of_cons in Hz as [-> | Hz]; [lia|].
      rw Forall_forall in Hall. by apply Hall.
Qed.

Lemma order_by_id_sorted rows :
  StronglySorted (fun a b => rec_id a ≤ rec_id b) (order_by_id rows).
Proof.
  induction rows as [|r rows IH]; [constructor|]. by apply insert_row_sorted.
Qed.

Lemma sorted_strict rows :
  NoDup (map rec_id rows) →
  StronglySorted (fun a b => rec_id a ≤ rec_id b) rows →
  StronglySorted (fun a b => rec_id a < rec_id b) rows.
Proof.
  induction rows as [|r rows IH]; intros Hnd Hs; [constructor|].
  cbn [map] in Hnd. apply NoDup_cons in Hnd as [Hnot Hnd].
  apply StronglySorted_inv in Hs as [Hs Hall].
  constructor; [by apply IH|]. apply Forall_forall. intros z Hz.
  rw Forall_forall in Hall. specialize (Hall z Hz).
  assert (rec_id z ≠ rec_id r); [|lia]. intros Heq. apply Hnot. rw -Heq.
  apply list_elem_of_In, in_map, list_elem_of_In, Hz.
Qed.

(** A row with the largest id is read last. *)
Lemma insert_row_last r new rows :
  rec_id r < rec_id new →
  insert_row r (rows ++ [new]) = insert_row r rows ++ [new].
Proof.
  intros Hlt. induction rows as [|r' rows IH]; cbn [insert_row app].
  - destruct (Nat.leb_spec (rec_id r) (rec_id new)); [done | lia].
  - destruct (Nat.leb _ _); [done|]. by rw IH.
Qed.

Lemma order_by_id_last new rows :
  (∀ r, r ∈ rows → rec_id r < rec_id new) →
  order_by_id (rows ++ [new]) = order_by_id rows ++ [new].
Proof.
  unfold order_by_id. induction rows as [|r rows IH]; intros Hall; [done|].
  cbn [app foldr]. rw IH; [intros r' Hr'; apply Hall; by right|].
  apply insert_row_last, Hall. left.
Qed.

Lemma max_id_bound rows r : r ∈ rows → rec_id r ≤ max_id rows.
Proof.
  unfold max_id. induction rows as [|r' rows IH]; intros Hin; [inversion Hin|].
  cbn [map foldr]. apply elem_of_cons in Hin as [-> | Hin]; [lia|].
  specialize (IH Hin). lia.
Qed.

Lemma max_id_attained rows : rows ≠ [] → ∃ r, r ∈ rows ∧ rec_id r = max_id rows.
Proof.
  unfold max_id. induction rows as [|r rows IH]; [done|]. intros _.
  cbn [map foldr]. destruct rows as [|r' rows].
  - exists r. split; [left | cbn; lia].
  - destruct IH as (r0 & Hin & Heq); [done|].
    destruct (Nat.max_spec (rec_id r) (foldr Nat.max 0 (map rec_id (r' :: rows))))
      as [[_ ->] | [_ ->]].
    + exists r0. split; [by right | done].
    + exists r. split; [left | done].
Qed.

Lemma max_id_perm rows rows' : rows ≡ₚ rows' → max_id rows = max_id rows'.
Proof.
  intros Hp. apply Nat.le_antisymm.
  - destruct rows as [|r rows]; [cbn; lia|].
    destruct (max_id_attained (r :: rows)) as (r0 & Hin & <-); [done|].
    apply max_id_bound. by rw -Hp.
  - destruct rows' as [|r rows']; [cbn; lia|].
    destruct (max_id_attained (r :: rows')) as (r0 & Hin & <-); [done|].
    apply max_id_bound. by rw Hp.
Qed.

Lemma filter_from_top rows (n : nat) :
  (∀ r, r ∈ rows → rec_id r < n) →
  List.filter (fun r => Z.ltb (Z.of_nat n - 1) (Z.of_nat (rec_id r))) rows = [].
Proof.
  induction rows as [|r rows IH]; intros Hall; [done|]. cbn [List.filter].
  assert (Z.ltb (Z.of_nat n - 1) (Z.of_nat (rec_id r)) = false) as ->.
  { apply Z.ltb_ge. pose proof (Hall r ltac:(left)). lia. }
  apply IH. intros r' Hr'. apply Hall. by right.
Qed.

(** X19. A visitor added is read back: when SQLite goes through,
    [add_visitor] returns an id above every id in the table and above every
    id handed out before, and stores a row with that id, the given
    direction and notes and the given timestamp (the clock when none is
    given).  Every later read returns what it returned before followed by
    the new row, when the row lies in its window; reading from just below
    the new id returns the new row alone; and the count is one higher.
    When SQLite fails the method returns [None] and the table is as it
    was. *)
Theorem added_visitor_is_read_back (d : Database) (clock : Q)
    (timestamp : option Q) (direction notes : option string) :
  let d' := fst (add_visitor d true clock timestamp direction notes) in
  ∃ id row,
    snd (add_visitor d true clock timestamp direction notes) = Some id ∧
    row = {| rec_id := id; rec_timestamp := default clock timestamp;
             rec_direction := direction; rec_notes := notes |} ∧
    (∀ r, r ∈ db_rows d → rec_id r < id) ∧
    db_sequence d < id ∧
    db_sequence d' = id ∧
    (∀ after, get_visitors d' true after None
              = get_visitors d true after None
                ++ (if Z.ltb after (Z.of_nat id) then [row] else [])) ∧
    get_visitors d' true (Z.of_nat id - 1) None = [row] ∧
    get_visitor_count d' true = S (get_visitor_count d true) ∧
    add_visitor d false clock timestamp direction notes = (d, None).
Proof.
  cbv zeta. unfold add_visitor. cbn [fst snd].
  set (id := S (Nat.max (db_sequence d) (max_id (db_rows d)))).
  set (row := {| rec_id := id; rec_timestamp := default clock timestamp;
                 rec_direction := direction; rec_notes := notes |}).
  assert (∀ r, r ∈ db_rows d → rec_id r < id) as Hbelow.
  { intros r Hr. pose proof (max_id_bound _ _ Hr). subst id. lia. }
  assert (∀ after, get_visitors
                     {| db_rows := db_rows d ++ [row]; db_sequence := id |}
                     true after None
                   = get_visitors d true after None
                     ++ (if Z.ltb after (Z.of_nat id) then [row] else []))
    as Hread.
  { intros after. unfold get_visitors. cbn [db_rows].
    rw List.filter_app. cbn [List.filter rec_id row].
    destruct (Z.ltb after (Z.of_nat id)); [|by rw !app_nil_r].
    apply order_by_id_last. intros r Hr.
    apply elem_of_list_filter in Hr as [Hr _]. by apply Hbelow. }
  exists id, row. split_and!; try done.
  - subst id. lia.
  - rw Hread.
    assert (Z.ltb (Z.of_nat id - 1) (Z.of_nat id) = true) as ->
      by (apply Z.ltb_lt; lia).
    unfold get_visitors. by rw filter_from_top.
  - unfold get_visitor_count. cbn [db_rows]. rw length_app. cbn. lia.
Qed.

(** X20. What [get_visitors] reads from a table whose ids are distinct:
    without a limit, exactly the rows with an id above [after_id], in
    strictly ascending order of id; with a positive limit, the first that
    many of them; a limit of zero or below does not limit anything.  When
    SQLite fails the answer is the empty list. *)
Theorem get_visitors_reads_ordered_window (d : Database) (after_id : Z)
    (Hkey : NoDup (map rec_id (db_rows d))) :
  let window := get_visitors d true after_id None in
  (∀ r, r ∈ window ↔
        r ∈ db_rows d ∧ (after_id < Z.of_nat (rec_id r))%Z) ∧
  StronglySorted (fun a b => rec_id a < rec_id b) window ∧
  (∀ n, get_visitors d true after_id (Some n)
        = if Z.ltb 0 n then take (Z.to_nat n) window else window) ∧
  (∀ limit, get_visitors d false after_id limit = []) ∧
  get_all_visitors d true = get_visitors d true 0 None.
Proof.
  cbv zeta. unfold get_visitors.
  set (selected := List.filter _ (db_rows d)).
  split_and!; [ | | | done | done ].
  - intros r. rw (order_by_id_perm selected). subst selected.
    rw elem_of_list_filter. by rw Z.ltb_lt.
  - apply sorted_strict; [|apply order_by_id_sorted].
    rw (order_by_id_perm selected).
    eapply sublist_NoDup; [exact Hkey|]. subst selected.
    clear. induction (db_rows d) as [|r rows IH]; [done|].
    cbn [List.filter map]. destruct (Z.ltb _ _); cbn [map];
      [by apply sublist_skip | by apply sublist_cons].
  - intros n. destruct (Z.eqb_spec n 0) as [->|Hn]; [done|].
    destruct (Z.ltb_spec n 0), (Z.ltb_spec 0 n); try done; lia.
Qed.

(** The retry loop decides on the first attempt that is not turned away. *)
Lemma try_write_cases (env : nat → Attempt) (e : DataExporter) :
  let second := with_excel_path (Stamped (base_excel_path e) (stamp (env 1))) e in
  let third := with_excel_path (Stamped (base_excel_path e) (stamp (env 2))) e in
  try_write 3 0 env e =
  match outcome (env 0) with
  | Written => (e, Some (excel_path e))
  | Failed => (e, None)
  | Busy =>
      match outcome (env 1) with
      | Written => (second, Some (excel_path second))
      | Failed => (second, None)
      | Busy =>
          match outcome (env 2) with
          | Written => (third, Some (excel_path third))
          | _ => (third, None)
          end
      end
  end.
Proof.
  cbn [try_write Nat.ltb Nat.leb]. by destruct (outcome (env 0)).
Qed.

(** The rows an export picks: the new ones, or the whole table when there is
    none. *)
Lemma export_picks (e : DataExporter) (d : Database) :
  (∀ r, r ∈ db_rows d → 0 < rec_id r) →
  last_export_id e ≤ max_id (db_rows d) →
  let visitors :=
    match get_visitors d true (Z.of_nat (last_export_id e)) None with
    | [] => get_all_visitors d true
    | new => new
    end in
  (db_rows d = [] → visitors = []) ∧
  (db_rows d ≠ [] → visitors ≠ [] ∧ max_id visitors = max_id (db_rows d)) ∧
  (last_export_id e = max_id (db_rows d) →
   visitors = order_by_id (db_rows d)) ∧
  (∀ r, r ∈ visitors → r ∈ db_rows d).
Proof.
  intros Hpos Hlast. cbv zeta. unfold get_all_visitors, get_visitors.
  assert (List.filter (fun r => Z.ltb 0 (Z.of_nat (rec_id r))) (db_rows d)
          = db_rows d) as Hall.
  { clear Hlast. induction (db_rows d) as [|r rows IH]; [done|].
    cbn [List.filter].
    assert (Z.ltb 0 (Z.of_nat (rec_id r)) = true) as ->.
    { apply Z.ltb_lt. pose proof (Hpos r ltac:(left)). lia. }
    f_equal. apply IH. intros r' Hr'. apply Hpos. by right. }
  rw Hall.
  set (new := List.filter _ (db_rows d)).
  assert (∀ rows, rows ≠ [] → order_by_id rows ≠ []) as Hne.
  { intros rows Hrows Hnil. apply Hrows. apply Permutation_nil_r.
    rw -Hnil. by rw order_by_id_perm. }
  split_and!.
  - intros Hempty. subst new. by rw Hempty.
  - intros Hrows. destruct (order_by_id new) as [|r0 sorted] eqn:Hnew.
    + split; [by apply Hne|]. apply max_id_perm, order_by_id_perm.
    + split; [done|]. rw -Hnew. rw (max_id_perm _ _ (order_by_id_perm new)).
      apply Nat.le_antisymm.
      * destruct (max_id_attained new) as (r & Hr & <-).
        { intros Hnil. rw Hnil in Hnew. done. }
        apply max_id_bound. by apply elem_of_list_filter in Hr as [? _].
      * assert (r0 ∈ new) as Hin by (rw -(order_by_id_perm new) Hnew; left).
        apply elem_of_list_filter in Hin as [Hin Hgt]. apply Z.ltb_lt in Hgt.
        pose proof (max_id_bound _ _ Hin) as Hle.
        destruct (max_id_attained (db_rows d) Hrows) as (r & Hr & Hmax).
        rw -Hmax. apply max_id_bound, elem_of_list_filter.
        split; [done|]. apply Z.ltb_lt. lia.
  - intros Heq.
    assert (new = []) as ->; [|done]. subst new.
    clear Hall. assert (∀ r, r ∈ db_rows d → rec_id r ≤ last_export_id e) as Hb.
    { intros r Hr. rw Heq. by apply max_id_bound. }
    clear Heq Hlast Hpos. induction (db_rows d) as [|r rows IH]; [done|].
    cbn [List.filter].
    assert (Z.ltb (Z.of_nat (last_export_id e)) (Z.of_nat (rec_id r)) = false)
      as ->.
    { apply Z.ltb_ge. pose proof (Hb r ltac:(left)). lia. }
    apply IH. intros r' Hr'. apply Hb. by right.
  - intros r. destruct (order_by_id new) as [|r0 sorted] eqn:Hnew; intros Hin.
    + by rw (order_by_id_perm (db_rows d)) in Hin.
    + rw -Hnew in Hin. rw (order_by_id_perm new) in Hin.
      by apply elem_of_list_filter in Hin as [? _].
Qed.

(** What a read returns is in the table. *)
Lemma get_visitors_sub (d : Database) (ok : bool) (after_id : Z)
    (limit : option Z) (r : VisitorRecord) :
  r ∈ get_visitors d ok after_id limit → r ∈ db_rows d.
Proof.
  unfold get_visitors. destruct ok; [|by intros ?%elem_of_nil].
  set (selected := order_by_id _).
  assert (r ∈ selected → r ∈ db_rows d) as Hsel.
  { subst selected. rw (order_by_id_perm (List.filter _ (db_rows d))).
    by intros [? _]%elem_of_list_filter. }
  destruct limit as [n|]; [|done].
  destruct (Z.eqb n 0); [done|]. destruct (Z.ltb n 0); [done|].
  intros Hr. apply Hsel. eapply elem_of_sublist; [exact Hr|].
  apply sublist_take.
Qed.

(** Time stamps that all convert make the rows of an export convert. *)
Lemma export_rows_convert (d : Database) (fromtimestamp : Q → bool)
    (visitors : list VisitorRecord) :
  (∀ r, r ∈ visitors → r ∈ db_rows d) →
  (∀ r, r ∈ db_rows d → fromtimestamp (rec_timestamp r) = true) →
  forallb fromtimestamp (map rec_timestamp visitors) = true.
Proof.
  intros Hsub Hc. apply (proj2 (forallb_forall _ _)). intros q Hq.
  apply in_map_iff in Hq as (r & <- & Hr). by apply Hc, Hsub, list_elem_of_In.
Qed.

(** X21. An export catches up with the table, or repeats it.  With positive
    ids in the table and [last_export_id] not above its largest id:
    [last_export_id] never falls and never passes the largest id; when a
    sheet is written, the number returned is its number of rows, which is
    positive, [last_export_id] becomes the largest id of the table, and the
    exporter's path is the path written; when [last_export_id] already was
    the largest id, so that nothing is new, the sheet holds the whole table
    again; when nothing is written the number returned is zero and
    [last_export_id] stays.  A first attempt that goes through writes a
    non-empty table whose time stamps convert to the exporter's current
    path; an empty table is never written. *)
Theorem export_catches_up_or_repeats (e : DataExporter) (d : Database)
    (fromtimestamp : Q → bool) (env : nat → Attempt)
    (Hpos : ∀ r, r ∈ db_rows d → 0 < rec_id r)
    (Hlast : last_export_id e ≤ max_id (db_rows d)) :
  let e' := fst (fst (export_to_excel e d true true fromtimestamp env)) in
  let n := snd (fst (export_to_excel e d true true fromtimestamp env)) in
  let file := snd (export_to_excel e d true true fromtimestamp env) in
  last_export_id e ≤ last_export_id e' ≤ max_id (db_rows d) ∧
  (file = None → n = 0 ∧ last_export_id e' = last_export_id e) ∧
  (∀ path rows, file = Some (path, rows) →
     n = length rows ∧ 0 < n ∧
     last_export_id e' = max_id (db_rows d) ∧
     excel_path e' = path ∧
     (∀ r, r ∈ rows → r ∈ db_rows d) ∧
     (last_export_id e = max_id (db_rows d) →
      rows = get_all_visitors d true ∧ n = length (db_rows d))) ∧
  (db_rows d ≠ [] →
   (∀ r, r ∈ db_rows d → fromtimestamp (rec_timestamp r) = true) →
   outcome (env 0) = Written →
   ∃ rows, file = Some (excel_path e, rows)) ∧
  (db_rows d = [] → file = None).
Proof.
  cbv zeta. pose proof (export_picks e d Hpos Hlast) as Hpick.
  cbv zeta in Hpick. destruct Hpick as (Hempty & Hrows & Hall & Hsub).
  pose proof (export_rows_convert d fromtimestamp _ Hsub) as Hreadable.
  unfold export_to_excel.
  set (visitors := match get_visitors d true _ None with
                   | [] => get_all_visitors d true
                   | new => new
                   end) in *.
  destruct (decide (db_rows d = [])) as [Hnil | Hne].
  { rw (Hempty Hnil). cbn [fst snd]. split_and!; try done; lia. }
  destruct (Hrows Hne) as [Hvne Hmax]. clearbody visitors.
  assert (0 < length visitors) as Hlen by (destruct visitors; [done | cbn; lia]).
  assert (∀ (A : Type) (x y : A),
            match visitors with [] => x | _ :: _ => y end = y) as ->
    by (intros; by destruct visitors).
  destruct (forallb fromtimestamp (map rec_timestamp visitors)) eqn:Hconv;
    last first.
  { cbn [fst snd]. split_and!; try done; try lia.
    intros _ Hc _. by specialize (Hreadable Hc). }
  rw try_write_cases. cbv zeta.
  assert (get_all_visitors d true = order_by_id (db_rows d)) as Hgetall.
  { unfold get_all_visitors, get_visitors. f_equal.
    clear -Hpos. induction (db_rows d) as [|r rows IH]; [done|].
    cbn [List.filter].
    assert (Z.ltb 0 (Z.of_nat (rec_id r)) = true) as ->.
    { apply Z.ltb_lt. pose proof (Hpos r ltac:(left)). lia. }
    f_equal. apply IH. intros r' Hr'. apply Hpos. by right. }
  assert (last_export_id e = max_id (db_rows d) →
          visitors = get_all_visitors d true ∧
          length visitors = length (db_rows d)) as Hrepeat.
  { intros Heq. rw Hgetall (Hall Heq). split; [done|].
    by rw (order_by_id_perm (db_rows d)). }
  clear Hreadable.
  destruct (outcome (env 0)) eqn:H0; [ | destruct (outcome (env 1)) eqn:H1;
    [ | destruct (outcome (env 2)) eqn:H2 | ] | ];
    cbn [fst snd excel_path last_export_id with_last_export_id
         with_excel_path];
    (split_and!; try done; try lia; try (by eexists);
     intros path rows [= <- <-]; split_and!; done).
Qed.

(** X22. One [PermissionError] is enough for the configured file never to
    be written again: when the first attempt of an export that has rows to
    write, all with time stamps that convert, finds the file busy, the
    exporter is left with a time-stamped path, whether a later attempt went
    through or not; an exporter with a time-stamped path keeps one through
    every later export, and writes to no other kind of path.  After three
    busy attempts the call returns zero, [last_export_id] stays, and the
    path names a file nothing was written to. *)
Theorem busy_file_is_abandoned (e : DataExporter) (d : Database)
    (ok_new ok_all : bool) (fromtimestamp : Q → bool) (env : nat → Attempt) :
  let e' := fst (fst (export_to_excel e d ok_new ok_all fromtimestamp env)) in
  let n := snd (fst (export_to_excel e d ok_new ok_all fromtimestamp env)) in
  let file := snd (export_to_excel e d ok_new ok_all fromtimestamp env) in
  base_excel_path e' = base_excel_path e ∧
  (get_visitors d ok_new (Z.of_nat (last_export_id e)) None ≠ [] ∨
   get_all_visitors d ok_all ≠ [] →
   (∀ r, r ∈ db_rows d → fromtimestamp (rec_timestamp r) = true) →
   outcome (env 0) = Busy →
   ∃ s, excel_path e' = Stamped (base_excel_path e) s) ∧
  ((∃ b s, excel_path e = Stamped b s) →
   (∃ b s, excel_path e' = Stamped b s) ∧
   ∀ path rows, file = Some (path, rows) → ∃ b s, path = Stamped b s) ∧
  (outcome (env 0) = Busy → outcome (env 1) = Busy → outcome (env 2) = Busy →
   n = 0 ∧ file = None ∧ last_export_id e' = last_export_id e ∧
   (excel_path e' = excel_path e ∨
    excel_path e' = Stamped (base_excel_path e) (stamp (env 2)))).
Proof.
  cbv zeta. unfold export_to_excel.
  pose proof (get_visitors_sub d ok_new (Z.of_nat (last_export_id e)) None)
    as Hsub_new.
  pose proof (get_visitors_sub d ok_all 0 None) as Hsub_all.
  fold (get_all_visitors d ok_all) in Hsub_all.
  destruct (get_visitors d ok_new _ None) as [|v0 new] eqn:Hnew;
    [destruct (get_all_visitors d ok_all) as [|v visitors] eqn:Hall|].
  { cbn [fst snd]. split_and!; try done.
    - by intros [? | ?].
    - intros _ _ _. split_and!; try done. by left. }
  all: match goal with
       | |- context [forallb ?f (map rec_timestamp ?vs)] =>
           pose proof (export_rows_convert d f vs ltac:(assumption))
             as Hreadable;
           destruct (forallb f (map rec_timestamp vs)) eqn:Hconv
       end.
  all: try (cbn [fst snd]; split_and!;
            [ done
            | intros _ Hc _; by specialize (Hreadable Hc)
            | done
            | intros _ _ _; split_and!; try done; by left ]).
  all: clear Hreadable; rw try_write_cases; cbv zeta;
    destruct (outcome (env 0)) eqn:H0;
      [ | destruct (outcome (env 1)) eqn:H1;
          [ | destruct (outcome (env 2)) eqn:H2 | ] | ];
    cbn [fst snd excel_path last_export_id base_excel_path
         with_last_export_id with_excel_path];
    repeat match goal with
           | |- _ ∧ _ => split
           | |- _ → _ => intros ?
           | |- ∀ _, _ => intros ?
           | H : Some _ = Some _ |- _ => injection H as <- <-
           | H : ∃ _, _ |- _ => destruct H
           end;
    try done; try (by eexists); try (by eexists _, _); try (by right).
Qed.

End Store.

Lemma get_visitors_reads_ordered_window_witness :
  let window := get_visitors StoreScenario.two_visitors true 0 None in
  (∀ r, r ∈ window ↔
        r ∈ db_rows StoreScenario.two_visitors ∧ (0 < Z.of_nat (rec_id r))%Z) ∧
  StronglySorted (fun a b => rec_id a < rec_id b) window ∧
  (∀ n, get_visitors StoreScenario.two_visitors true 0 (Some n)
        = if Z.ltb 0 n then take (Z.to_nat n) window else window) ∧
  (∀ limit, get_visitors StoreScenario.two_visitors false 0 limit = []) ∧
  get_all_visitors StoreScenario.two_visitors true
  = get_visitors StoreScenario.two_visitors true 0 None.
Proof.
  apply (get_visitors_reads_ordered_window StoreScenario.two_visitors 0).
  apply (proj1 (bool_decide_eq_true _)). vm_compute. reflexivity.
Defined.

Lemma export_catches_up_or_repeats_witness :
  let r := export_to_excel StoreScenario.exporter StoreScenario.two_visitors
             true true (fun _ => true) StoreScenario.always_written in
  last_export_id StoreScenario.exporter ≤ last_export_id (fst (fst r))
  ≤ max_id (db_rows StoreScenario.two_visitors) ∧
  (snd r = None →
   snd (fst r) = 0 ∧
   last_export_id (fst (fst r)) = last_export_id StoreScenario.exporter) ∧
  (∀ path rows, snd r = Some (path, rows) →
     snd (fst r) = length rows ∧ 0 < snd (fst r) ∧
     last_export_id (fst (fst r)) = max_id (db_rows StoreScenario.two_visitors) ∧
     excel_path (fst (fst r)) = path ∧
     (∀ r0, r0 ∈ rows → r0 ∈ db_rows StoreScenario.two_visitors) ∧
     (last_export_id StoreScenario.exporter
      = max_id (db_rows StoreScenario.two_visitors) →
      rows = get_all_visitors StoreScenario.two_visitors true ∧
      snd (fst r) = length (db_rows StoreScenario.two_visitors))) ∧
  (db_rows StoreScenario.two_visitors ≠ [] →
   (∀ r0, r0 ∈ db_rows StoreScenario.two_visitors →
          (fun _ : Q => true) (rec_timestamp r0) = true) →
   outcome (StoreScenario.always_written 0) = Written →
   ∃ rows, snd r = Some (excel_path StoreScenario.exporter, rows)) ∧
  (db_rows StoreScenario.two_visitors = [] → snd r = None).
Proof.
  apply (export_catches_up_or_repeats StoreScenario.exporter
           StoreScenario.two_visitors (fun _ => true)
           StoreScenario.always_written).
  - apply Forall_forall. repeat constructor.
  - vm_compute. lia.
Defined.

(** * A table filled by additions, and its export *)

Section Ledger.
Implicit Types (d : Database) (r : VisitorRecord) (rows : list VisitorRecord).

Lemma max_seq (a n : nat) :
  foldr Nat.max 0 (seq a n) = if Nat.eqb n 0 then 0 else a + n - 1.
Proof.
  revert a. induction n as [|n IH]; intros a; [done|].
  cbn [seq foldr]. rw IH. destruct n; cbn [Nat.eqb]; lia.
Qed.

Lemma max_id_seq rows (n : nat) : map rec_id rows = seq 1 n → max_id rows = n.
Proof.
  intros Hids. unfold max_id. rw Hids max_seq. destruct n; cbn [Nat.eqb]; lia.
Qed.

Lemma order_by_id_seq rows (a n : nat) :
  map rec_id rows = seq a n → order_by_id rows = rows.
Proof.
  revert a n. induction rows as [|r rows IH]; intros a n Hids; [done|].
  destruct n as [|n]; [done|]. cbn [map seq] in Hids.
  injection Hids as Hr Hrest.
  change (order_by_id (r :: rows)) with (insert_row r (order_by_id rows)).
  rw (IH _ _ Hrest). destruct rows as [|r' rows]; [done|].
  destruct n as [|n]; [done|]. cbn [map seq] in Hrest.
  injection Hrest as Hr' _. cbn [insert_row].
  destruct (Nat.leb_spec (rec_id r) (rec_id r')); [done | lia].
Qed.

Lemma filter_above_seq rows (a n m : nat) :
  map rec_id rows = seq a n →
  List.filter (fun r => Z.ltb (Z.of_nat m) (Z.of_nat (rec_id r))) rows
  = drop (S m - a) rows.
Proof.
  revert a n. induction rows as [|r rows IH]; intros a n Hids.
  { by rw drop_nil. }
  destruct n as [|n]; [done|]. cbn [map seq] in Hids.
  injection Hids as Hr Hrest. cbn [List.filter].
  rw (IH _ _ Hrest).
  destruct (Z.ltb_spec (Z.of_nat m) (Z.of_nat (rec_id r))) as [Hlt | Hge].
  - assert (S m - a = 0) as -> by lia. assert (S m - S a = 0) as -> by lia.
    done.
  - assert (S m - a = S (S m - S a)) as -> by lia. done.
Qed.

Lemma drop_ids rows (n k : nat) :
  map rec_id rows = seq 1 n → map rec_id (drop k rows) = seq (1 + k) (n - k).
Proof.
  intros Hids. rw -skipn_map Hids. apply drop_seq.
Qed.

(** Reading a table whose ids are [1..n]. *)
Lemma get_visitors_seq d (n m : nat) :
  map rec_id (db_rows d) = seq 1 n →
  get_visitors d true (Z.of_nat m) None = drop m (db_rows d).
Proof.
  intros Hids. unfold get_visitors.
  rw (filter_above_seq _ 1 n m Hids).
  assert (S m - 1 = m) as -> by lia.
  apply (order_by_id_seq _ (1 + m) (n - m)). by apply drop_ids.
Qed.

Lemma stored_ids (stored : list AddCall) (k : nat) :
  map rec_id (imap (fun i c => stored_row (S (k + i)) c) stored)
  = seq (S k) (length stored).
Proof.
  revert k. induction stored as [|c stored IH]; intros k; [done|].
  cbn [imap map length seq stored_row rec_id]. f_equal; [lia|].
  rw -(IH (S k)). f_equal. apply imap_ext. intros i c' _. cbn. f_equal. lia.
Qed.

(** What a run of additions leaves in a table whose ids are [1..n]. *)
Lemma add_visitors_rows d (calls : list AddCall) :
  map rec_id (db_rows d) = seq 1 (db_sequence d) →
  db_rows (add_visitors d calls)
  = db_rows d
    ++ imap (fun i c => stored_row (S (db_sequence d + i)) c)
         (List.filter call_ok calls) ∧
  db_sequence (add_visitors d calls)
  = db_sequence d + length (List.filter call_ok calls).
Proof.
  revert d. induction calls as [|c calls IH]; intros d Hids.
  { cbn. rw app_nil_r. split; [done | lia]. }
  cbn [add_visitors fold_left List.filter].
  fold (add_visitors
          (fst (add_visitor d (call_ok c) (call_clock c) (call_timestamp c)
                  (call_direction c) (call_notes c))) calls).
  unfold add_visitor. destruct (call_ok c); cbn [fst]; [|by apply IH].
  rw (max_id_seq _ _ Hids) Nat.max_id.
  set (d1 := {| db_rows := _; db_sequence := _ |}).
  destruct (IH d1) as [Hrows Hseq].
  { subst d1. cbn [db_rows db_sequence]. rw map_app Hids seq_S. done. }
  rw Hrows Hseq. subst d1. cbn [db_rows db_sequence length imap].
  split; [|lia]. rw -app_assoc. cbn [app]. do 2 f_equal.
  - unfold stored_row. f_equal. lia.
  - apply imap_ext. intros i c' _. cbn. f_equal. lia.
Qed.

(** The table a run of additions makes of the empty one. *)
Lemma add_visitors_new (calls : list AddCall) :
  let d := add_visitors Database_new calls in
  let stored := List.filter call_ok calls in
  db_rows d = imap (fun i c => stored_row (S i) c) stored ∧
  map rec_id (db_rows d) = seq 1 (length stored) ∧
  length (db_rows d) = length stored.
Proof.
  cbv zeta. destruct (add_visitors_rows Database_new calls) as [Hrows _].
  { done. }
  cbn [Database_new db_rows db_sequence app Nat.add] in Hrows.
  split; [exact Hrows|].
  assert (map rec_id (db_rows (add_visitors Database_new calls))
          = seq 1 (length (List.filter call_ok calls))) as Hids
    by (rw Hrows; apply (stored_ids _ 0)).
  split; [exact Hids|]. by rw -(length_map rec_id) Hids length_seq.
Qed.

(** X23. Visitor ids number the additions.  A table that starts empty and
    only sees [add_visitor] holds, in the order of the calls, one row for
    each call that went through, with the ids 1, 2, 3, ... without a gap;
    a call on which SQLite failed leaves no row and uses up no id.  The
    count of visitors, the largest id and the number of calls that went
    through are the same number; reading everything returns the table as
    it is, and reading after id [m] drops the first [m] rows. *)
Theorem visitor_ids_number_the_additions (calls : list AddCall) :
  let d := add_visitors Database_new calls in
  let stored := List.filter call_ok calls in
  db_rows d
  = imap (fun i c =>
            {| rec_id := S i;
               rec_timestamp := default (call_clock c) (call_timestamp c);
               rec_direction := call_direction c;
               rec_notes := call_notes c |}) stored ∧
  map rec_id (db_rows d) = seq 1 (length stored) ∧
  get_visitor_count d true = length stored ∧
  max_id (db_rows d) = length stored ∧
  get_all_visitors d true = db_rows d ∧
  ∀ m : nat, get_visitors d true (Z.of_nat m) None = drop m (db_rows d).
Proof.
  cbv zeta. destruct (add_visitors_new calls) as (Hrows & Hids & Hlen).
  split_and!.
  - exact Hrows.
  - exact Hids.
  - exact Hlen.
  - by apply max_id_seq.
  - unfold get_all_visitors.
    rw (get_visitors_seq _ _ 0 Hids). by rw drop_0.
  - intros m. by apply (get_visitors_seq _ _ m Hids).
Qed.

(** X24. An export writes the rows added since the last one.  For a table
    filled by [add_visitor] alone that holds [n > 0] rows, time stamps that
    convert and a first attempt that goes through: the sheet goes to the
    exporter's current path; it holds the rows after the first
    [last_export_id] ones when [last_export_id] is below [n], and the whole
    table otherwise; the number returned is the number of those rows, and
    [last_export_id] becomes [n]. *)
Theorem export_writes_rows_added_since (calls : list AddCall)
    (e : DataExporter) (fromtimestamp : Q → bool) (env : nat → Attempt)
    (Hsome : List.filter call_ok calls ≠ [])
    (Hconv : ∀ r, r ∈ db_rows (add_visitors Database_new calls) →
                  fromtimestamp (rec_timestamp r) = true)
    (Hwritten : outcome (env 0) = Written) :
  let d := add_visitors Database_new calls in
  let n := length (List.filter call_ok calls) in
  let fresh := Nat.ltb (last_export_id e) n in
  export_to_excel e d true true fromtimestamp env
  = (with_last_export_id n e,
     if fresh then n - last_export_id e else n,
     Some (excel_path e,
           if fresh then drop (last_export_id e) (db_rows d) else db_rows d)).
Proof.
  cbv zeta. destruct (add_visitors_new calls) as (_ & Hids & Hlen).
  set (d := add_visitors Database_new calls) in *.
  set (n := length (List.filter call_ok calls)) in *.
  assert (0 < n) as Hn.
  { subst n. destruct (List.filter call_ok calls); [done | cbn; lia]. }
  unfold export_to_excel, get_all_visitors.
  rw (get_visitors_seq d n (last_export_id e) Hids).
  rw (get_visitors_seq d n 0 Hids) drop_0.
  set (visitors := match drop (last_export_id e) (db_rows d) with
                   | [] => db_rows d
                   | new => new
                   end).
  assert (visitors = if Nat.ltb (last_export_id e) n
                     then drop (last_export_id e) (db_rows d)
                     else db_rows d) as Hvis.
  { subst visitors. destruct (Nat.ltb_spec (last_export_id e) n) as [Hlt | Hge].
    - destruct (drop _ _) eqn:Hdrop; [|done].
      apply (f_equal length) in Hdrop. rw length_drop in Hdrop. cbn in Hdrop.
      lia.
    - by rw drop_ge; [lia|]. }
  assert (length visitors
          = if Nat.ltb (last_export_id e) n then n - last_export_id e else n)
    as Hvlen.
  { rw Hvis. destruct (Nat.ltb _ _); [|done]. rw length_drop. lia. }
  assert (max_id visitors = n) as Hmax.
  { rw Hvis. destruct (Nat.ltb_spec (last_export_id e) n) as [Hlt | Hge];
      [|by apply max_id_seq].
    unfold max_id. rw (drop_ids _ n _ Hids) max_seq.
    destruct (Nat.eqb_spec (n - last_export_id e) 0); lia. }
  assert (forallb fromtimestamp (map rec_timestamp visitors) = true) as Hread.
  { apply (export_rows_convert d); [|exact Hconv].
    intros r. rw Hvis. destruct (Nat.ltb _ _); [|done].
    intros Hr. eapply elem_of_sublist; [exact Hr|]. apply sublist_drop. }
  assert (visitors ≠ []) as Hne.
  { intros Hnil. rw Hnil in Hvlen.
    destruct (Nat.ltb_spec (last_export_id e) n); cbn [length] in Hvlen; lia. }
  clearbody visitors.
  assert (∀ (A : Type) (x y : A),
            match visitors with [] => x | _ :: _ => y end = y) as ->
    by (intros; by destruct visitors).
  rw Hread try_write_cases Hwritten. cbv zeta. by rw Hmax Hvlen Hvis.
Qed.

End Ledger.

Lemma export_writes_rows_added_since_witness :
  let calls := [ {| call_ok := true; call_clock := 10;
                    call_timestamp := None;
                    call_direction := Some "left"; call_notes := None |};
                 {| call_ok := false; call_clock := 15;
                    call_timestamp := None;
                    call_direction := Some "left"; call_notes := None |};
                 {| call_ok := true; call_clock := 20;
                    call_timestamp := None;
                    call_direction := Some "left"; call_notes := None |} ] in
  let e := with_last_export_id 1 StoreScenario.exporter in
  let d := add_visitors Database_new calls in
  export_to_excel e d true true (fun _ => true) StoreScenario.always_written
  = (with_last_export_id 2 e, 1, Some (excel_path e, drop 1 (db_rows d))).
Proof.
  cbv zeta.
  refine (export_writes_rows_added_since _
            (with_last_export_id 1 StoreScenario.exporter) (fun _ => true)
            StoreScenario.always_written _ _ _).
  - vm_compute. discriminate.
  - intros r _. reflexivity.
  - reflexivity.
Defined.

(** * What the overlay shows *)

Section Overlay.
Context `{FeatureExtractor} `{Orders}.

(** The loop over the objects, as its tallies and its calls. *)
Lemma draw_objects_fold (v : Visualizer) (objs : Dict.t ObjData)
    (c : Counts) (output : list Draw) :
  fold_left (draw_object v) objs (c, output)
  = (let in_state st :=
       length (List.filter
                 (fun e : nat * ObjData => State_eqb (state (snd e)) st) objs) in
     {| n_new := n_new c + in_state New;
        n_scanned := n_scanned c + in_state Scanned;
        n_exited := n_exited c + in_state Exited |},
     output ++ flat_map (fun item => snd (draw_object v (c, []) item)) objs).
Proof.
  revert c output. induction objs as [|[id d] objs IH]; intros c output.
  { cbn. rw app_nil_r !Nat.add_0_r. by destruct c. }
  cbv zeta in IH |- *.
  cbn [fold_left]. unfold draw_object at 2. cbn [fst snd].
  destruct (bbox d) as [[[x1 y1] x2] y2] eqn:Hb.
  destruct (centroid d) as [cx cy] eqn:Hc.
  rw IH. cbn [List.filter flat_map snd fst].
  unfold draw_object. cbn [fst snd]. rw Hb Hc. cbn [snd app].
  rw -app_assoc. cbn [app]. f_equal.
  - destruct (state d); cbn [tally State_eqb n_new n_scanned n_exited length];
      f_equal; lia.
  - do 4 f_equal. apply flat_map_ext. intros [id' d']. cbn [fst snd].
    by destruct (bbox d') as [[[? ?] ?] ?], (centroid d') as [? ?].
Qed.

(** The objects [update] returns are New or Scanned. *)
Lemma update_view (t : Tracker) detections frame now t' objs :
  wf t → update t detections frame now = Some (t', objs) →
  Forall (fun e : nat * ObjData => state (snd e) ≠ Exited) objs.
Proof.
  intros Hwf. unfold update.
  destruct (update_tracker t detections frame now) as [t0|] eqn:E; [|done].
  cbn [mbind option_bind].
  destruct (get_objects t0) as [o|] eqn:Ho; [|done].
  cbn [mbind option_bind]. intros [= <- <-].
  pose proof (update_tracker_sound _ _ _ _ _ Hwf E) as [Hwf0 _].
  destruct (get_objects_view t0 Hwf0) as (objs & Hobjs & Hkeys & Hview).
  rw Ho in Hobjs. injection Hobjs as <-.
  apply Forall_forall. intros [id d] Hin. cbn [snd].
  assert (Dict.get id o = Some d) as Hget.
  { apply elem_of_get; [|done]. rw Hkeys. apply Hwf0. }
  by destruct (Hview id d Hget) as (_ & _ & _ & _ & ? & _).
Qed.

(** The objects the loop holds are New or Scanned. *)
Lemma loop_pass_view cfg l p l' :
  wf (loop_tracker l) →
  Forall (fun e : nat * ObjData => state (snd e) ≠ Exited) (loop_objects l) →
  loop_pass cfg l p = Some l' →
  Forall (fun e : nat * ObjData => state (snd e) ≠ Exited) (loop_objects l').
Proof.
  intros Hwf Hview. unfold loop_pass.
  destruct (Qeq_bool _ _); [done|].
  destruct (Qltb _ _); [|by intros [= <-]].
  set (frame := if cfg_reid_enabled cfg then Some (pass_frame p) else None).
  destruct (update (loop_tracker l) _ _ _) as [[t1 objs1]|] eqn:Hu1; [|done].
  cbn [mbind option_bind fst].
  destruct (update t1 _ _ _) as [[t2 objs2]|] eqn:Hu2; [|done].
  cbn [mbind option_bind fst snd].
  assert (wf t1) as Hwf1.
  { unfold update in Hu1.
    destruct (update_tracker (loop_tracker l) _ _ _) as [t0|] eqn:E; [|done].
    cbn [mbind option_bind] in Hu1.
    destruct (get_objects t0); [|done]. injection Hu1 as <- _.
    by destruct (update_tracker_sound _ _ _ _ _ Hwf E). }
  pose proof (update_view _ _ _ _ _ _ Hwf1 Hu2) as Hobjs2.
  match goal with
  | |- context [mbind _ ?sweep] => destruct sweep as [[t3 last]|]; [|done]
  end.
  cbn [mbind option_bind]. by intros [= <-].
Qed.

(** X25. What the overlay shows of the loop's objects.  Whatever the loop
    has done since it started with a new tracker and a new counter, the
    calls [draw_results] makes at the end of a pass are: the line and its
    caption when counting is enabled, the notice when there is no object,
    then a box, a label and a dot for each object in the order of the
    dictionary, then the panel.  Every object drawn is New or Scanned, so
    the two numbers in the line "Baru | Scanned" add up to the number in
    "Objek Terlacak", and no box is drawn in the colour of Exited; the
    total shown is the number of ids the counter has counted. *)
Theorem overlay_accounts_for_every_object (cfg : Config)
    (md : Z) (mx et : Q) (re : bool) (th : Q) (ld : bool)
    (line : Q) (direction : string) (frame_width : Q)
    (rows0 : option (list VisitorRow)) (check_started frame_started : Q)
    (passes : list Pass) (l : Loop) (height : Z)
    (Hrun : loop_run cfg
              (loop_start (Tracker_new md mx et re th ld)
                 (VisitorCounter_new line direction frame_width rows0)
                 check_started frame_started) passes = Some l) :
  let v := Visualizer_new in
  let objs := loop_objects l in
  let a := length (List.filter (fun e => State_eqb (state (snd e)) New) objs) in
  let b :=
    length (List.filter (fun e => State_eqb (state (snd e)) Scanned) objs) in
  a + b = length objs ∧
  loop_draws cfg v height l
  = (if cfg_counting_enabled cfg then
       [cv2_line (line_position (loop_counter l), 0%Z)
          (line_position (loop_counter l), height) (255, 0, 0)%Z 2;
        cv2_putText "Garis Penghitungan"
          ((line_position (loop_counter l) + 10)%Z, 30%Z) (6 # 10)
          (255, 255, 255)%Z 2]
     else [])
    ++ (if Nat.eqb (length objs) 0 then
          [cv2_putText "TIDAK ADA OBJEK TERLACAK" (10%Z, (height - 10)%Z)
             (7 # 10) (0, 0, 255)%Z 2]
        else [])
    ++ flat_map
         (fun item : nat * ObjData =>
            let '(x1, y1, x2, y2) := bbox (snd item) in
            let '(cx, cy) := centroid (snd item) in
            [cv2_rectangle (Qtrunc x1, Qtrunc y1) (Qtrunc x2, Qtrunc y2)
               (if State_eqb (state (snd item)) New then (0, 255, 0)%Z
                else (0, 165, 255)%Z) 2;
             cv2_putText ("ID: " +:+ pretty (fst item) +:+ " ["
                          +:+ state_name (state (snd item)) +:+ "]")
               (Qtrunc x1, Qtrunc (y1 - 10)) (5 # 10) (255, 255, 0)%Z 2;
             cv2_circle (Qtrunc cx, Qtrunc cy) 4 (255, 255, 0)%Z (-1)])
         objs
    ++ [cv2_rectangle (10, 10)%Z (280, 130)%Z (0, 0, 0)%Z (-1);
        cv2_putText ("Total Pengunjung: "
                     +:+ pretty (size (counted_ids (loop_counter l))))
          (15, 35)%Z (7 # 10) (255, 255, 255)%Z 2;
        cv2_putText ("Objek Terlacak: " +:+ pretty (a + b)) (15, 70)%Z
          (7 # 10) (255, 255, 255)%Z 2;
        cv2_putText ("Baru: " +:+ pretty a +:+ " | Scanned: " +:+ pretty b)
          (15, 105)%Z (7 # 10) (255, 255, 255)%Z 2;
        cv2_putText "HANYA HITUNG: KANAN KE KIRI" (15, 140)%Z (6 # 10)
          (0, 0, 255)%Z 2] ∧
  ∀ pt1 pt2 color thickness,
    cv2_rectangle pt1 pt2 color thickness ∈ loop_draws cfg v height l →
    color ≠ color_exited v.
Proof.
  cbv zeta.
  assert ((wf (loop_tracker l) ∧ balanced rows0 (loop_counter l) ∧
           ∀ id, id ∈ counted_ids (loop_counter l) →
                 ∃ st, Dict.get id (states (loop_tracker l)) = Some st
                       ∧ st ≠ New) ∧
          Forall (fun e : nat * ObjData => state (snd e) ≠ Exited)
            (loop_objects l)) as [(_ & Hbal & _) Hview].
  { apply (foldM_invariant
             (fun l => (wf (loop_tracker l) ∧ balanced rows0 (loop_counter l) ∧
                        ∀ id, id ∈ counted_ids (loop_counter l) →
                              ∃ st, Dict.get id (states (loop_tracker l))
                                    = Some st ∧ st ≠ New) ∧
                       Forall (fun e : nat * ObjData => state (snd e) ≠ Exited)
                         (loop_objects l))
             (loop_pass cfg) passes
             (loop_start (Tracker_new md mx et re th ld)
                (VisitorCounter_new line direction frame_width rows0)
                check_started frame_started) l); [ | | exact Hrun ].
    - intros l0 p l1 [(H1 & H2 & H3) H4] Hpass. split.
      + by eapply loop_pass_keeps.
      + by eapply loop_pass_view.
    - cbn [loop_start loop_tracker loop_counter loop_objects].
      split; [|constructor]. split_and!.
      + apply wf_new.
      + unfold balanced. cbn.
        split_and!; [ by rw size_empty | done | done | | ].
        * intros id Hid. by apply elem_of_empty in Hid.
        * exists []. split_and!; [ | done | ].
          -- destruct rows0; cbn; [|done]. by rw app_nil_r.
          -- intros row Hrow. inversion Hrow.
      + intros id Hid. cbn in Hid. by apply elem_of_empty in Hid. }
  destruct Hbal as (Hcount & _).
  set (objs := loop_objects l) in *.
  assert (length (List.filter (fun e => State_eqb (state (snd e)) New) objs)
          + length (List.filter (fun e => State_eqb (state (snd e)) Scanned)
                      objs)
          = length objs) as Hsum.
  { clear -Hview. induction Hview as [|[id d] objs Hd _ IH]; [done|].
    cbn [List.filter snd] in *. destruct (state d); cbn [State_eqb length];
      [lia | lia | done]. }
  split; [exact Hsum|].
  match goal with |- ?A = ?B ∧ _ => assert (A = B) as Hdraws end.
  { unfold loop_draws, draw_results. fold objs. rw draw_objects_fold.
    cbv zeta. cbn [n_new n_scanned Nat.add]. rw Hcount Hsum.
    cbn [Visualizer_new color_line color_text color_id].
    match goal with
    | |- (_ ++ flat_map ?f objs) ++ _ = _ ++ _ ++ flat_map ?g objs ++ _ =>
        assert (flat_map f objs = flat_map g objs) as ->
    end.
    { clear -Hview. induction Hview as [|[id d] objs Hd _ IH]; [done|].
      cbn [flat_map]. rw IH. f_equal. unfold draw_object. cbn [fst snd].
      destruct (bbox d) as [[[x1 y1] x2] y2], (centroid d) as [cx cy].
      cbn [snd] in Hd. cbn [snd app color_id].
      destruct (state d); [reflexivity | reflexivity | done]. }
    destruct (cfg_counting_enabled cfg), (Nat.eqb (length objs) 0);
      cbn [app]; reflexivity. }
  split; [exact Hdraws|]. rw Hdraws. clear Hdraws.
  intros pt1 pt2 color thickness Hin. cbn [Visualizer_new color_exited].
  apply elem_of_app in Hin as [Hin | Hin].
  { destruct (cfg_counting_enabled cfg); [|by apply elem_of_nil in Hin].
    by repeat (apply elem_of_cons in Hin as [Hin | Hin];
               [discriminate Hin|]); apply elem_of_nil in Hin. }
  apply elem_of_app in Hin as [Hin | Hin].
  { destruct (Nat.eqb (length objs) 0); [|by apply elem_of_nil in Hin].
    by repeat (apply elem_of_cons in Hin as [Hin | Hin];
               [discriminate Hin|]); apply elem_of_nil in Hin. }
  apply elem_of_app in Hin as [Hin | Hin].
  - apply list_elem_of_In, in_flat_map in Hin as ([id d] & _ & Hin).
    cbn [fst snd] in Hin.
    destruct (bbox d) as [[[x1 y1] x2] y2], (centroid d) as [cx cy].
    destruct Hin as [Hin | [Hin | [Hin | []]]]; try discriminate Hin.
    injection Hin as _ _ <- _. by destruct (State_eqb _ _).
  - apply elem_of_cons in Hin as [Hin | Hin]; [by injection Hin as _ _ -> _|].
    by repeat (apply elem_of_cons in Hin as [Hin | Hin];
               [discriminate Hin|]); apply elem_of_nil in Hin.
Qed.

End Overlay.

Lemma overlay_accounts_for_every_object_witness :
  let l := default Scenario.loop_entered
             (@loop_run label_extractor stable_orders Scenario.camera
                Scenario.loop_entered Scenario.walk) in
  length (List.filter (fun e => State_eqb (state (snd e)) New) (loop_objects l))
  + length (List.filter (fun e => State_eqb (state (snd e)) Scanned)
              (loop_objects l))
  = length (loop_objects l) ∧
  ∀ pt1 pt2 color thickness,
    cv2_rectangle pt1 pt2 color thickness
    ∈ loop_draws Scenario.camera Visualizer_new 480 l →
    color ≠ color_exited Visualizer_new.
Proof.
  cbv zeta.
  destruct (@overlay_accounts_for_every_object label_extractor stable_orders
              Scenario.camera 40%Z 100%Q 10%Q true 0.6%Q true
              0.5%Q "left" 300%Q None 0%Q 0%Q Scenario.walk
              (default Scenario.loop_entered
                 (@loop_run label_extractor stable_orders Scenario.camera
                    Scenario.loop_entered Scenario.walk))
              480%Z) as (Hsum & _ & Hbox).
  - vm_compute. reflexivity.
  - split; [exact Hsum | exact Hbox].
Defined.
